(** * Credential encryption subsystem of the booking API test framework

    A shallow embedding of
      - src/cryptography/keyManagement/secureKeyGenerator.ts
      - src/cryptography/services/encryptionService.ts
      - src/cryptography/services/environmentEncryptionManager.ts
      - config/configTypes/encryption.interface.ts (CRYPTO_CONFIG)
    together with the parts of the JavaScript runtime these files lean
    on: strings of UTF-16 code units, ordinary objects used as records,
    JSON.parse / JSON.stringify, Buffer base64 conversion and the UTF-8
    TextEncoder / TextDecoder.

    Strings are lists of code units ([N]); byte buffers are lists of
    [Byte.byte].  Thrown exceptions are values of [JsError]; code that
    logs, draws random bytes or touches the file system is written in a
    state-and-exception monad over [World]. *)

From Stdlib Require Import String Ascii.
From Stdlib.Strings Require Import Byte.
From Stdlib Require DecimalString.
From Stdlib Require Import List NArith ZArith Bool Lia Arith Permutation.
Import ListNotations.

Set Warnings "-register-all".
Local Open Scope N_scope.

(* ================================================================== *)
(** * JavaScript strings *)
(* ================================================================== *)

(** A JavaScript string is a finite sequence of UTF-16 code units. *)
Definition codeunit := N.
Definition jsstring := list codeunit.

(** String literals of the source, written as Rocq strings of ASCII
    characters. *)
Fixpoint lit (s : string) : jsstring :=
  match s with
  | EmptyString => []
  | String a r => N_of_ascii a :: lit r
  end.
Arguments lit s%_string.

Definition ch_quote : codeunit := 34.      (* the double quote *)
Definition ch_equals : codeunit := 61.     (* = *)
Definition ch_newline : codeunit := 10.    (* \n *)
Definition ch_lbrace : codeunit := 123.    (* { *)
Definition ch_rbrace : codeunit := 125.    (* } *)

Fixpoint str_eqb (a b : jsstring) : bool :=
  match a, b with
  | [], [] => true
  | x :: a', y :: b' => (x =? y) && str_eqb a' b'
  | _, _ => false
  end.

(** [!s] is false exactly for the non-empty strings. *)
Definition str_truthy (s : jsstring) : bool :=
  match s with [] => false | _ :: _ => true end.

(** WhiteSpace and LineTerminator code points, the ones
    [String.prototype.trim] removes. *)
Definition isWhiteSpace (c : codeunit) : bool :=
  (c =? 9) || (c =? 10) || (c =? 11) || (c =? 12) || (c =? 13) ||
  (c =? 32) || (c =? 160) || (c =? 5760) ||
  ((8192 <=? c) && (c <=? 8202)) ||
  (c =? 8232) || (c =? 8233) || (c =? 8239) || (c =? 8287) ||
  (c =? 12288) || (c =? 65279).

Fixpoint trimStart (s : jsstring) : jsstring :=
  match s with
  | [] => []
  | c :: r => if isWhiteSpace c then trimStart r else s
  end.

Fixpoint trimEnd (s : jsstring) : jsstring :=
  match s with
  | [] => []
  | c :: r =>
      match trimEnd r with
      | [] => if isWhiteSpace c then [] else [c]
      | t => c :: t
      end
  end.

Definition trim (s : jsstring) : jsstring := trimEnd (trimStart s).

(** [s.startsWith(p)] *)
Fixpoint startsWith (s p : jsstring) {struct p} : bool :=
  match p, s with
  | [], _ => true
  | _ :: _, [] => false
  | y :: p', x :: s' => (x =? y) && startsWith s' p'
  end.

(** [s.endsWith(p)] *)
Definition endsWith (s p : jsstring) : bool := startsWith (rev s) (rev p).

(** [s.includes(c)] for a one-character search string. *)
Definition includes (s : jsstring) (c : codeunit) : bool :=
  existsb (N.eqb c) s.

(** [s.split(sep)] for a one-character separator: never the empty
    array, [''.split(sep)] is [['']]. *)
Fixpoint split (sep : codeunit) (s : jsstring) : list jsstring :=
  match s with
  | [] => [[]]
  | c :: r =>
      if c =? sep then [] :: split sep r
      else match split sep r with
           | h :: t => (c :: h) :: t
           | [] => [[c]]
           end
  end.

(** [parts.join(sep)] *)
Fixpoint join (sep : codeunit) (parts : list jsstring) : jsstring :=
  match parts with
  | [] => []
  | [a] => a
  | a :: rest => a ++ sep :: join sep rest
  end.

(* ================================================================== *)
(** * Ordinary objects used as [Record<string, string>] *)
(* ================================================================== *)

(** What a property of such a record can hold at run time.  The type
    annotation says [string], but a read through the prototype chain
    can return a member of [Object.prototype] (a function, or the
    prototype object itself for [__proto__]); all of those are truthy
    and none is a string. *)
Inductive jsval :=
| VStr (s : jsstring)
| VProtoMember.

Definition val_truthy (v : jsval) : bool :=
  match v with
  | VStr s => str_truthy s
  | VProtoMember => true
  end.

(** An object is the list of its own enumerable properties in the order
    [Object.entries] reports them: array-index keys first, ascending,
    then the other keys in creation order. *)
Definition object := list (jsstring * jsval).

(** The property names every [{}] inherits from [Object.prototype]. *)
Definition proto_members : list jsstring :=
  [ lit "constructor"; lit "__defineGetter__"; lit "__defineSetter__";
    lit "hasOwnProperty"; lit "__lookupGetter__"; lit "__lookupSetter__";
    lit "isPrototypeOf"; lit "propertyIsEnumerable"; lit "toString";
    lit "valueOf"; lit "__proto__"; lit "toLocaleString" ].

Definition is_proto_member (k : jsstring) : bool :=
  existsb (str_eqb k) proto_members.

Fixpoint own_get (o : object) (k : jsstring) : option jsval :=
  match o with
  | [] => None
  | (k', v) :: r => if str_eqb k' k then Some v else own_get r k
  end.

(** [o[k]]: own property first, then the prototype; [None] is
    [undefined]. *)
Definition obj_get (o : object) (k : jsstring) : option jsval :=
  match own_get o k with
  | Some v => Some v
  | None => if is_proto_member k then Some VProtoMember else None
  end.

(** Truthiness of [o[k]]. *)
Definition get_truthy (o : object) (k : jsstring) : bool :=
  match obj_get o k with
  | Some v => val_truthy v
  | None => false
  end.

Definition is_digit (c : codeunit) : bool := (48 <=? c) && (c <=? 57).

Fixpoint digits_value (acc : N) (s : jsstring) : N :=
  match s with
  | [] => acc
  | c :: r => digits_value (10 * acc + (c - 48)) r
  end.

(** An array index is the canonical decimal form of an integer in
    [0, 2^32 - 2]. *)
Definition array_index (k : jsstring) : option N :=
  match k with
  | [] => None
  | c :: r =>
      if forallb is_digit k && ((negb (c =? 48)) || str_eqb r [])
      then let n := digits_value 0 k in
           if n <=? 4294967294 then Some n else None
      else None
  end.

Fixpoint replace_own (o : object) (k : jsstring) (v : jsval) : object :=
  match o with
  | [] => []
  | (k', v') :: r =>
      if str_eqb k' k then (k', v) :: r else (k', v') :: replace_own r k v
  end.

(** Place a new array-index key [n] before the first own key that is
    not an array index or is a larger one. *)
Fixpoint insert_index (o : object) (n : N) (k : jsstring) (v : jsval) : object :=
  match o with
  | [] => [(k, v)]
  | (k', v') :: r =>
      match array_index k' with
      | Some m => if m <? n then (k', v') :: insert_index r n k v
                  else (k, v) :: o
      | None => (k, v) :: o
      end
  end.

(** [o[k] = v].  Assigning to [__proto__] runs the inherited setter and
    creates no own property. *)
Definition obj_set (o : object) (k : jsstring) (v : jsval) : object :=
  if str_eqb k (lit "__proto__") then o
  else match own_get o k with
       | Some _ => replace_own o k v
       | None =>
           match array_index k with
           | Some n => insert_index o n k v
           | None => o ++ [(k, v)]
           end
       end.

Module Object.

(** [Object.entries(o)] *)
Definition entries (o : object) : list (jsstring * jsval) := o.

(** [Object.keys(o)] *)
Definition keys (o : object) : list jsstring := map fst o.

(** [Object.assign(target, source)] *)
Definition assign (target source : object) : object :=
  fold_left (fun t kv => obj_set t (fst kv) (snd kv)) (entries source) target.

End Object.

(* ================================================================== *)
(** * JSON *)
(* ================================================================== *)

Module JSON.

(** A parsed JSON text.  A number keeps its exact decimal value
    [(-1)^negative * mantissa * 10^exponent]; an object keeps its
    members in source order, repeated names included (the last one is
    the property the resulting object ends up with). *)
Inductive value :=
| Null
| Bool (b : bool)
| Number (negative : bool) (mantissa : N) (exponent : Z)
| Str (s : jsstring)
| Array (items : list value)
| Obj (members : list (jsstring * value)).

Inductive outcome (A : Type) :=
| Parsed (a : A) (rest : jsstring)
| SyntaxError
| Exhausted.
Arguments Parsed {A} a rest.
Arguments SyntaxError {A}.
Arguments Exhausted {A}.

Definition is_ws (c : codeunit) : bool :=
  (c =? 9) || (c =? 10) || (c =? 13) || (c =? 32).

Fixpoint skip_ws (s : jsstring) : jsstring :=
  match s with
  | [] => []
  | c :: r => if is_ws c then skip_ws r else s
  end.

Definition hex_val (c : codeunit) : option N :=
  if (48 <=? c) && (c <=? 57) then Some (c - 48)
  else if (97 <=? c) && (c <=? 102) then Some (c - 87)
  else if (65 <=? c) && (c <=? 70) then Some (c - 55)
  else None.

Definition hex4_val (a b c d : codeunit) : option N :=
  match hex_val a, hex_val b, hex_val c, hex_val d with
  | Some x, Some y, Some z, Some w => Some (4096 * x + 256 * y + 16 * z + w)
  | _, _, _, _ => None
  end.

(** The characters of a string literal after its opening quote, up to
    and including the closing quote. *)
Fixpoint parse_string (s : jsstring) : option (jsstring * jsstring) :=
  match s with
  | [] => None
  | c :: r =>
      if c =? 34 then Some ([], r)
      else if c =? 92 then
        match r with
        | [] => None
        | e :: r1 =>
            let simple (u : codeunit) :=
              match parse_string r1 with
              | Some (t, rest) => Some (u :: t, rest)
              | None => None
              end in
            if e =? 34 then simple 34
            else if e =? 92 then simple 92
            else if e =? 47 then simple 47
            else if e =? 98 then simple 8
            else if e =? 102 then simple 12
            else if e =? 110 then simple 10
            else if e =? 114 then simple 13
            else if e =? 116 then simple 9
            else if e =? 117 then
              match r1 with
              | h1 :: h2 :: h3 :: h4 :: r2 =>
                  match hex4_val h1 h2 h3 h4 with
                  | Some u =>
                      match parse_string r2 with
                      | Some (t, rest) => Some (u :: t, rest)
                      | None => None
                      end
                  | None => None
                  end
              | _ => None
              end
            else None
        end
      else if c <? 32 then None
      else match parse_string r with
           | Some (t, rest) => Some (c :: t, rest)
           | None => None
           end
  end.

Fixpoint take_digits (s : jsstring) : jsstring * jsstring :=
  match s with
  | [] => ([], [])
  | c :: r =>
      if is_digit c then let (d, rest) := take_digits r in (c :: d, rest)
      else ([], s)
  end.

(** The integer part: a single [0], or a non-zero digit followed by
    digits. *)
Definition take_int (s : jsstring) : option (jsstring * jsstring) :=
  match s with
  | [] => None
  | c :: r =>
      if c =? 48 then Some ([c], r)
      else if is_digit c then let (d, rest) := take_digits r in Some (c :: d, rest)
      else None
  end.

Definition take_frac (s : jsstring) : option (jsstring * jsstring) :=
  match s with
  | c :: r =>
      if c =? 46 then
        match take_digits r with
        | ([], _) => None
        | (d, rest) => Some (d, rest)
        end
      else Some ([], s)
  | [] => Some ([], s)
  end.

Definition take_exp (s : jsstring) : option (Z * jsstring) :=
  match s with
  | c :: r =>
      if (c =? 101) || (c =? 69) then
        let '(neg, r1) :=
          match r with
          | sg :: r' => if sg =? 45 then (true, r')
                        else if sg =? 43 then (false, r') else (false, r)
          | [] => (false, r)
          end in
        match take_digits r1 with
        | ([], _) => None
        | (d, rest) =>
            let e := Z.of_N (digits_value 0 d) in
            Some (if neg then (- e)%Z else e, rest)
        end
      else Some (0%Z, s)
  | [] => Some (0%Z, s)
  end.

Definition parse_number (s : jsstring) : outcome value :=
  let '(neg, s1) :=
    match s with
    | c :: r => if c =? 45 then (true, r) else (false, s)
    | [] => (false, s)
    end in
  match take_int s1 with
  | None => SyntaxError
  | Some (ip, s2) =>
      match take_frac s2 with
      | None => SyntaxError
      | Some (fp, s3) =>
          match take_exp s3 with
          | None => SyntaxError
          | Some (e, s4) =>
              Parsed (Number neg (digits_value 0 (ip ++ fp))
                                 (e - Z.of_nat (length fp))%Z) s4
          end
      end
  end.

(** [keyword w v s]: the input continues with the literal [w]. *)
Fixpoint drop_prefix (w s : jsstring) {struct w} : option jsstring :=
  match w, s with
  | [], _ => Some s
  | _ :: _, [] => None
  | y :: w', x :: s' => if x =? y then drop_prefix w' s' else None
  end.

Definition keyword (w : jsstring) (v : value) (s : jsstring) : outcome value :=
  match drop_prefix w s with
  | Some rest => Parsed v rest
  | None => SyntaxError
  end.

(** Recursive descent over the JSON grammar.  Each nested call spends
    one unit of [fuel]; twice the length of the text plus two is always
    enough (see [enough_fuel]). *)
Fixpoint parse_value (fuel : nat) (s : jsstring) {struct fuel} : outcome value :=
  match fuel with
  | O => Exhausted
  | S n =>
      match skip_ws s with
      | [] => SyntaxError
      | c :: r =>
          if c =? 123 then
            match skip_ws r with
            | [] => SyntaxError
            | c2 :: r2 =>
                if c2 =? 125 then Parsed (Obj []) r2
                else match parse_members n (c2 :: r2) with
                     | Parsed ms rest => Parsed (Obj ms) rest
                     | SyntaxError => SyntaxError
                     | Exhausted => Exhausted
                     end
            end
          else if c =? 91 then
            match skip_ws r with
            | [] => SyntaxError
            | c2 :: r2 =>
                if c2 =? 93 then Parsed (Array []) r2
                else match parse_elements n (c2 :: r2) with
                     | Parsed vs rest => Parsed (Array vs) rest
                     | SyntaxError => SyntaxError
                     | Exhausted => Exhausted
                     end
            end
          else if c =? 34 then
            match parse_string r with
            | Some (str, rest) => Parsed (Str str) rest
            | None => SyntaxError
            end
          else if c =? 116 then keyword (lit "true") (Bool true) (c :: r)
          else if c =? 102 then keyword (lit "false") (Bool false) (c :: r)
          else if c =? 110 then keyword (lit "null") Null (c :: r)
          else parse_number (c :: r)
      end
  end
with parse_members (fuel : nat) (s : jsstring) {struct fuel}
  : outcome (list (jsstring * value)) :=
  match fuel with
  | O => Exhausted
  | S n =>
      match skip_ws s with
      | [] => SyntaxError
      | c :: r =>
          if c =? 34 then
            match parse_string r with
            | None => SyntaxError
            | Some (k, r1) =>
                match skip_ws r1 with
                | [] => SyntaxError
                | c1 :: r2 =>
                    if c1 =? 58 then
                      match parse_value n r2 with
                      | SyntaxError => SyntaxError
                      | Exhausted => Exhausted
                      | Parsed v r3 =>
                          match skip_ws r3 with
                          | [] => SyntaxError
                          | c3 :: r4 =>
                              if c3 =? 44 then
                                match parse_members n r4 with
                                | Parsed ms r5 => Parsed ((k, v) :: ms) r5
                                | SyntaxError => SyntaxError
                                | Exhausted => Exhausted
                                end
                              else if c3 =? 125 then Parsed [(k, v)] r4
                              else SyntaxError
                          end
                      end
                    else SyntaxError
                end
            end
          else SyntaxError
      end
  end
with parse_elements (fuel : nat) (s : jsstring) {struct fuel}
  : outcome (list value) :=
  match fuel with
  | O => Exhausted
  | S n =>
      match parse_value n s with
      | SyntaxError => SyntaxError
      | Exhausted => Exhausted
      | Parsed v r1 =>
          match skip_ws r1 with
          | [] => SyntaxError
          | c :: r2 =>
              if c =? 44 then
                match parse_elements n r2 with
                | Parsed vs r3 => Parsed (v :: vs) r3
                | SyntaxError => SyntaxError
                | Exhausted => Exhausted
                end
              else if c =? 93 then Parsed [v] r2
              else SyntaxError
          end
      end
  end.

Definition parse_document (s : jsstring) : outcome value :=
  match parse_value (S (S (length s + length s))) s with
  | Parsed v rest =>
      match skip_ws rest with
      | [] => Parsed v []
      | _ :: _ => SyntaxError
      end
  | SyntaxError => SyntaxError
  | Exhausted => Exhausted
  end.

(** [JSON.parse(text)]: [None] stands for the thrown SyntaxError. *)
Definition parse (s : jsstring) : option value :=
  match parse_document s with
  | Parsed v _ => Some v
  | _ => None
  end.

(** [typeof v === 'object' && v !== null] *)
Definition is_object (v : value) : bool :=
  match v with
  | Array _ | Obj _ => true
  | _ => false
  end.

(** [name in v] for a value with [is_object v] and a name that is not
    inherited from a prototype. *)
Definition has (v : value) (name : jsstring) : bool :=
  match v with
  | Obj ms => existsb (fun kv => str_eqb (fst kv) name) ms
  | _ => false
  end.

Fixpoint last_member (ms : list (jsstring * value)) (name : jsstring)
  : option value :=
  match ms with
  | [] => None
  | (k, v) :: r =>
      match last_member r name with
      | Some v' => Some v'
      | None => if str_eqb k name then Some v else None
      end
  end.

(** [v.name] for a non-null [v]; [None] is [undefined]. *)
Definition get (v : value) (name : jsstring) : option value :=
  match v with
  | Obj ms => last_member ms name
  | _ => None
  end.

(** A decimal becomes the double zero when it is zero or at most
    2^-1075, half the least subnormal (ties go to the even zero). *)
Definition number_truthy (mantissa : N) (exponent : Z) : bool :=
  negb (mantissa =? 0) &&
  (if (0 <=? exponent)%Z then true
   else (10 ^ (- exponent) <? Z.of_N mantissa * 2 ^ 1075)%Z).

(** [!!v], with [None] for [undefined]. *)
Definition truthy (v : option value) : bool :=
  match v with
  | None => false
  | Some Null => false
  | Some (Bool b) => b
  | Some (Number _ m e) => number_truthy m e
  | Some (Str s) => str_truthy s
  | Some (Array _) => true
  | Some (Obj _) => true
  end.

Definition hex_digit (d : N) : codeunit :=
  if d <? 10 then 48 + d else 87 + d.

(** The six-character escape [\uXXXX], lower-case hex. *)
Definition unicode_escape (u : codeunit) : jsstring :=
  [92; 117; hex_digit (u / 4096); hex_digit ((u / 256) mod 16);
   hex_digit ((u / 16) mod 16); hex_digit (u mod 16)].

Definition is_high_surrogate (u : codeunit) : bool := (55296 <=? u) && (u <=? 56319).
Definition is_low_surrogate (u : codeunit) : bool := (56320 <=? u) && (u <=? 57343).

Definition quote_unit (u : codeunit) : jsstring :=
  if u =? 8 then [92; 98]
  else if u =? 9 then [92; 116]
  else if u =? 10 then [92; 110]
  else if u =? 12 then [92; 102]
  else if u =? 13 then [92; 114]
  else if u =? 34 then [92; 34]
  else if u =? 92 then [92; 92]
  else if u <? 32 then unicode_escape u
  else [u].

(** The body of QuoteJSONString: short escapes, [\u00XX] for the other
    control characters, [\uDXXX] for a surrogate without its partner. *)
Fixpoint quote_body (s : jsstring) : jsstring :=
  match s with
  | [] => []
  | u :: r =>
      if is_high_surrogate u then
        match r with
        | l :: r' =>
            if is_low_surrogate l then u :: l :: quote_body r'
            else unicode_escape u ++ quote_body r
        | [] => unicode_escape u
        end
      else if is_low_surrogate u then unicode_escape u ++ quote_body r
      else quote_unit u ++ quote_body r
  end.

Definition quote (s : jsstring) : jsstring := 34 :: quote_body s ++ [34].

Fixpoint stringify_members (fields : list (jsstring * jsstring)) : jsstring :=
  match fields with
  | [] => []
  | [(k, v)] => quote k ++ 58 :: quote v
  | (k, v) :: rest => quote k ++ 58 :: quote v ++ 44 :: stringify_members rest
  end.

(** [JSON.stringify(o)] for an object whose own properties, in order,
    are the string-valued [fields]. *)
Definition stringify (fields : list (jsstring * jsstring)) : jsstring :=
  123 :: stringify_members fields ++ [125].

End JSON.

(* ================================================================== *)
(** * Byte buffers: base64 and UTF-8 *)
(* ================================================================== *)

Definition bytes := list byte.

(** The byte with the given value, modulo 256. *)
Definition byte_of_N (n : N) : byte :=
  match Byte.of_N (n mod 256) with
  | Some b => b
  | None => x00
  end.

Module Buffer.

Definition b64_char (i : N) : codeunit :=
  if i <? 26 then 65 + i
  else if i <? 52 then 71 + i
  else if i <? 62 then i - 4
  else if i =? 62 then 43
  else 47.

Definition ch_pad : codeunit := 61.

(** [buf.toString('base64')] *)
Fixpoint toString_base64 (b : bytes) : jsstring :=
  match b with
  | [] => []
  | [x] =>
      let x := Byte.to_N x in
      [b64_char (x / 4); b64_char ((x mod 4) * 16); ch_pad; ch_pad]
  | [x; y] =>
      let x := Byte.to_N x in
      let y := Byte.to_N y in
      [b64_char (x / 4); b64_char ((x mod 4) * 16 + y / 16);
       b64_char ((y mod 16) * 4); ch_pad]
  | x :: y :: z :: r =>
      let x := Byte.to_N x in
      let y := Byte.to_N y in
      let z := Byte.to_N z in
      b64_char (x / 4) :: b64_char ((x mod 4) * 16 + y / 16)
        :: b64_char ((y mod 16) * 4 + z / 64) :: b64_char (z mod 64)
        :: toString_base64 r
  end.

(** The value of a base64 or base64url character. *)
Definition unbase64 (c : codeunit) : option N :=
  if (65 <=? c) && (c <=? 90) then Some (c - 65)
  else if (97 <=? c) && (c <=? 122) then Some (c - 71)
  else if (48 <=? c) && (c <=? 57) then Some (c + 4)
  else if (c =? 43) || (c =? 45) then Some 62
  else if (c =? 47) || (c =? 95) then Some 63
  else None.

(** Node's decoder is forgiving: it reads each code unit by its low
    byte, passes over characters outside the alphabet and stops at the
    first padding character. *)
Fixpoint sextets (s : jsstring) : list N :=
  match s with
  | [] => []
  | c :: r =>
      let c := c mod 256 in
      match unbase64 c with
      | Some v => v :: sextets r
      | None => if c =? ch_pad then [] else sextets r
      end
  end.

Fixpoint bytes_of_sextets (l : list N) : bytes :=
  match l with
  | a :: b :: c :: d :: r =>
      byte_of_N (a * 4 + b / 16) :: byte_of_N ((b mod 16) * 16 + c / 4)
        :: byte_of_N ((c mod 4) * 64 + d) :: bytes_of_sextets r
  | [a; b; c] =>
      [byte_of_N (a * 4 + b / 16); byte_of_N ((b mod 16) * 16 + c / 4)]
  | [a; b] => [byte_of_N (a * 4 + b / 16)]
  | _ => []
  end.

(** [Buffer.from(s, 'base64')] *)
Definition from_base64 (s : jsstring) : bytes := bytes_of_sextets (sextets s).

End Buffer.

(** ** UTF-8 *)

Definition is_surrogate (u : N) : bool := (55296 <=? u) && (u <=? 57343).

Definition REPLACEMENT : N := 65533.   (* U+FFFD *)
Definition BOM : N := 65279.           (* U+FEFF *)

(** The UTF-8 bytes of a scalar value. *)
Definition utf8_of_scalar (c : N) : bytes :=
  if c <? 128 then [byte_of_N c]
  else if c <? 2048 then [byte_of_N (192 + c / 64); byte_of_N (128 + c mod 64)]
  else if c <? 65536 then
    [byte_of_N (224 + c / 4096); byte_of_N (128 + (c / 64) mod 64);
     byte_of_N (128 + c mod 64)]
  else
    [byte_of_N (240 + c / 262144); byte_of_N (128 + (c / 4096) mod 64);
     byte_of_N (128 + (c / 64) mod 64); byte_of_N (128 + c mod 64)].

Module TextEncoder.

(** [new TextEncoder().encode(s)]: the string is read as scalar values
    (a surrogate pair is one, a lone surrogate becomes U+FFFD) and each
    is written in UTF-8. *)
Fixpoint encode (s : jsstring) : bytes :=
  match s with
  | [] => []
  | u :: r =>
      if JSON.is_high_surrogate u then
        match r with
        | l :: r' =>
            if JSON.is_low_surrogate l
            then utf8_of_scalar (65536 + (u - 55296) * 1024 + (l - 56320))
                   ++ encode r'
            else utf8_of_scalar REPLACEMENT ++ encode r
        | [] => utf8_of_scalar REPLACEMENT
        end
      else if JSON.is_low_surrogate u then utf8_of_scalar REPLACEMENT ++ encode r
      else utf8_of_scalar u ++ encode r
  end.

End TextEncoder.

Module TextDecoder.

(** A multi-byte sequence in progress: the bits gathered so far, the
    continuation bytes still needed and the range allowed for the next
    byte. *)
Record pending := {
  code_point : N;
  needed : N;
  lower : N;
  upper : N
}.

(** The code units of a decoded scalar value. *)
Definition units_of_scalar (c : N) : jsstring :=
  if c <? 65536 then [c]
  else [55296 + (c - 65536) / 1024; 56320 + (c - 65536) mod 1024].

(** The WHATWG UTF-8 decoder without the byte-order-mark step: a byte
    that cannot continue or start a sequence yields U+FFFD, and a byte
    that breaks a sequence is read again as a first byte. *)
Fixpoint scalars (st : option pending) (bs : bytes) : list N :=
  match bs with
  | [] => match st with None => [] | Some _ => [REPLACEMENT] end
  | b :: r =>
      let n := Byte.to_N b in
      let first :=
        if n <=? 127 then n :: scalars None r
        else if (194 <=? n) && (n <=? 223)
          then scalars (Some {| code_point := n - 192; needed := 1;
                                lower := 128; upper := 191 |}) r
        else if (224 <=? n) && (n <=? 239)
          then scalars (Some {| code_point := n - 224; needed := 2;
                                lower := if n =? 224 then 160 else 128;
                                upper := if n =? 237 then 159 else 191 |}) r
        else if (240 <=? n) && (n <=? 244)
          then scalars (Some {| code_point := n - 240; needed := 3;
                                lower := if n =? 240 then 144 else 128;
                                upper := if n =? 244 then 143 else 191 |}) r
        else REPLACEMENT :: scalars None r in
      match st with
      | None => first
      | Some p =>
          if (lower p <=? n) && (n <=? upper p) then
            let cp := code_point p * 64 + (n - 128) in
            if needed p =? 1 then cp :: scalars None r
            else scalars (Some {| code_point := cp; needed := needed p - 1;
                                  lower := 128; upper := 191 |}) r
          else REPLACEMENT :: first
      end
  end.

(** [new TextDecoder().decode(bytes)] with the default options: errors
    are replaced, and a leading byte order mark is dropped. *)
Definition decode (bs : bytes) : jsstring :=
  match scalars None bs with
  | c :: r => if c =? BOM then flat_map units_of_scalar r
              else flat_map units_of_scalar (c :: r)
  | [] => []
  end.

End TextDecoder.

(* ================================================================== *)
(** * Exceptions, the world, and the monad of effectful code *)
(* ================================================================== *)

(** The exceptions the modelled code can raise or receive. *)
Inductive JsError :=
| LengthMustBePositive       (* Error('Length must be greater than zero.') *)
| EncryptedDataRequired      (* Error('Encrypted data is required.') *)
| MissingRequiredProperties  (* Error('Missing required properties in encryption parameters.') *)
| JsonSyntaxError            (* the SyntaxError of JSON.parse *)
| TypeError                  (* a TypeError raised by the runtime *)
| KeyDerivationError         (* argon2.hash rejected *)
| ImportKeyError             (* crypto.subtle.importKey rejected *)
| OperationError             (* crypto.subtle.encrypt / decrypt rejected *)
| PathError                  (* AsyncFileManager could not resolve the path *)
| FileSystemError            (* fs.promises.readFile rejected *)
| RangeError                 (* a RangeError raised by the runtime: a size out of range *)
| StringTooLong              (* Error('Cannot create a string longer than 0x1fffffe8 characters') *)
| OutsideModel.              (* a run the model does not follow further *)

Inductive result (A : Type) :=
| Ok (a : A)
| Throw (e : JsError).
Arguments Ok {A} a.
Arguments Throw {A} e.

Inductive LogLevel := Info | Warn.

(** What the code can observe and change: the files it reads and
    writes (by resolved path), the operating system's random bytes and
    how many of them have been drawn, the lines sent to the logger at
    levels info and warn, and the calls made to [fs.writeFile]. *)
Record World := {
  files : list (jsstring * jsstring);
  entropy : nat -> byte;
  drawn : nat;
  logged : list (LogLevel * jsstring);
  written : list (jsstring * jsstring)
}.

Definition M (A : Type) : Type := World -> result A * World.

Definition ret {A} (a : A) : M A := fun w => (Ok a, w).

Definition throw {A} (e : JsError) : M A := fun w => (Throw e, w).

Definition bind {A B} (m : M A) (k : A -> M B) : M B :=
  fun w =>
    match m w with
    | (Ok a, w') => k a w'
    | (Throw e, w') => (Throw e, w')
    end.

Notation "x <- m ;; k" := (bind m (fun x => k))
  (at level 61, m at next level, right associativity).
Notation "m ;;; k" := (bind m (fun _ => k))
  (at level 61, right associativity).

(** A promise that is started and not awaited: its rejection does not
    reach the caller. *)
Definition detached (m : M unit) : M unit :=
  fun w => (Ok tt, snd (m w)).

Definition of_option {A} (e : JsError) (o : option A) : M A :=
  match o with
  | Some a => ret a
  | None => throw e
  end.

Module logger.

Definition log (level : LogLevel) (message : jsstring) : M unit :=
  fun w =>
    (Ok tt, {| files := files w; entropy := entropy w; drawn := drawn w;
               logged := logged w ++ [(level, message)];
               written := written w |}).

Definition info := log Info.
Definition warn := log Warn.

End logger.

(** [String(n)] for a natural number. *)
Definition decimal (n : N) : jsstring :=
  lit (DecimalString.NilZero.string_of_uint (N.to_uint n)).

(* ================================================================== *)
(** * The platform: argon2, Web Crypto AES-GCM, path resolution *)
(* ================================================================== *)

Inductive Argon2Type := argon2d | argon2i | argon2id.

(** The options object handed to [argon2.hash]. *)
Record Argon2Options := {
  type : Argon2Type;
  hashLength : N;
  salt_bytes : bytes;
  memoryCost : N;
  timeCost : N;
  parallelism : N;
  raw : bool
}.

(** The libraries the code calls and this development does not look
    inside.  [None] is a rejected promise or a thrown error. *)
Record Platform := {
  argon2_hash : jsstring -> Argon2Options -> option bytes;
  aes_gcm_encrypt : bytes -> bytes -> bytes -> option bytes;
  aes_gcm_decrypt : bytes -> bytes -> bytes -> option bytes;
  getFilePath : jsstring -> jsstring -> option jsstring
}.

(** ** config/configTypes/encryption.interface.ts *)

Record EncryptionParameters := {
  salt : jsstring;
  iv : jsstring;
  cipherText : jsstring
}.

Module CRYPTO_CONFIG.
Module BYTE_LENGTHS.
Definition IV : Z := 16.
Definition WEB_CRYPTO_IV : Z := 12.
Definition SALT : Z := 32.
Definition SECRET_KEY : Z := 32.
End BYTE_LENGTHS.
Module ARGON2_PARAMETERS.
Definition MEMORY_COST : N := 262144.
Definition TIME_COST : N := 4.
Definition PARALLELISM : N := 3.
End ARGON2_PARAMETERS.
End CRYPTO_CONFIG.

(** ** Node's crypto and fs *)

Module crypto.

(** The largest size [crypto.randomBytes] takes: 2^31 - 1. *)
Definition MAX_RANDOM_BYTES : Z := 2147483647.

(** [crypto.randomBytes(size)]: a RangeError for a size below zero or
    above [MAX_RANDOM_BYTES], the next [size] bytes of the system's
    entropy otherwise.  Sizes are integers here. *)
Definition randomBytes (size : Z) : M bytes :=
  if (size <? 0)%Z || (MAX_RANDOM_BYTES <? size)%Z then throw RangeError
  else
    fun w =>
      let n := Z.to_nat size in
      (Ok (map (fun i => entropy w (drawn w + i)%nat) (seq 0 n)),
       {| files := files w; entropy := entropy w; drawn := (drawn w + n)%nat;
          logged := logged w; written := written w |}).

(** A raw AES key has 128, 192 or 256 bits. *)
Definition valid_aes_key (k : bytes) : bool :=
  let n := length k in
  (n =? 16)%nat || (n =? 24)%nat || (n =? 32)%nat.

End crypto.

Module fs.

Fixpoint lookup (fsys : list (jsstring * jsstring)) (path : jsstring)
  : option jsstring :=
  match fsys with
  | [] => None
  | (p, c) :: r => if str_eqb p path then Some c else lookup r path
  end.

Fixpoint store (fsys : list (jsstring * jsstring)) (path content : jsstring)
  : list (jsstring * jsstring) :=
  match fsys with
  | [] => [(path, content)]
  | (p, c) :: r =>
      if str_eqb p path then (p, content) :: r else (p, c) :: store r path content
  end.

(** [fs.promises.readFile(path, { encoding: 'utf8' })] *)
Definition readFile (path : jsstring) : M jsstring :=
  fun w =>
    match lookup (files w) path with
    | Some c => (Ok c, w)
    | None => (Throw FileSystemError, w)
    end.

(** [fs.promises.writeFile(path, content, { encoding: 'utf8' })]: the
    whole content of the file is replaced.  The file store takes every
    write; a write that the file system refuses is not modelled. *)
Definition writeFile (path content : jsstring) : M unit :=
  fun w =>
    (Ok tt,
     {| files := store (files w) path content; entropy := entropy w;
        drawn := drawn w; logged := logged w;
        written := written w ++ [(path, content)] |}).

End fs.

(* ================================================================== *)
(** * src/cryptography/keyManagement/secureKeyGenerator.ts *)
(* ================================================================== *)

(** ** Buffer.prototype.toString *)

Module BufferPrototype.

(** [buffer.constants.MAX_STRING_LENGTH] of a 64-bit build: 2^29 - 24,
    the 0x1fffffe8 of the error message. *)
Definition MAX_STRING_LENGTH : N := 536870888.

(** [buf.toString('base64')] where the code calls it on a buffer of a
    length the caller chose: the text has four characters for every
    three bytes, rounded up, and the runtime throws rather than build a
    string longer than [MAX_STRING_LENGTH]. *)
Definition toString_base64 (b : bytes) : M jsstring :=
  if MAX_STRING_LENGTH <? 4 * ((N.of_nat (length b) + 2) / 3)
  then throw StringTooLong
  else ret (Buffer.toString_base64 b).

End BufferPrototype.

Module SecureKeyGenerator.

Definition IV_LENGTH := CRYPTO_CONFIG.BYTE_LENGTHS.IV.
Definition WEB_CRYPTO_IV_LENGTH := CRYPTO_CONFIG.BYTE_LENGTHS.WEB_CRYPTO_IV.
Definition SALT_LENGTH := CRYPTO_CONFIG.BYTE_LENGTHS.SALT.
Definition SECRET_KEY_LENGTH := CRYPTO_CONFIG.BYTE_LENGTHS.SECRET_KEY.

(** A parameter with a default value: [None] is an omitted argument. *)
Definition or_default (d : Z) (length : option Z) : Z :=
  match length with
  | Some l => l
  | None => d
  end.

Definition validateLength (length : Z) : M unit :=
  if (length <=? 0)%Z then throw LengthMustBePositive else ret tt.

Definition generateBase64IV (length : option Z) : M jsstring :=
  let length := or_default IV_LENGTH length in
  validateLength length ;;;
  b <- crypto.randomBytes length ;;
  BufferPrototype.toString_base64 b.

Definition generateBufferIV (length : option Z) : M bytes :=
  let length := or_default IV_LENGTH length in
  validateLength length ;;;
  crypto.randomBytes length.

(** Both branches of the source (Web Crypto in a browser, Node's crypto
    otherwise) fill an array of [length] bytes from the system's
    entropy. *)
Definition generateSecureUint8Array (length : Z) : M bytes :=
  validateLength length ;;;
  crypto.randomBytes length.

Definition generateWebCryptoIV (length : option Z) : M bytes :=
  let length := or_default WEB_CRYPTO_IV_LENGTH length in
  validateLength length ;;;
  generateSecureUint8Array length.

Definition generateBase64Salt (length : option Z) : M jsstring :=
  let length := or_default SALT_LENGTH length in
  validateLength length ;;;
  b <- crypto.randomBytes length ;;
  BufferPrototype.toString_base64 b.

Definition generateBufferSalt (length : option Z) : M bytes :=
  let length := or_default SALT_LENGTH length in
  validateLength length ;;;
  crypto.randomBytes length.

Definition generateBase64SecretKey (length : option Z) : M jsstring :=
  let length := or_default SECRET_KEY_LENGTH length in
  validateLength length ;;;
  b <- crypto.randomBytes length ;;
  BufferPrototype.toString_base64 b.

Definition generateBufferSecretKey (length : option Z) : M bytes :=
  let length := or_default SECRET_KEY_LENGTH length in
  validateLength length ;;;
  crypto.randomBytes length.

End SecureKeyGenerator.

(* ================================================================== *)
(** * src/cryptography/services/encryptionService.ts *)
(* ================================================================== *)

Module EncryptionService.
Section WithPlatform.
Context (P : Platform).

Definition argon2Hashing (secretKey : jsstring) (options : Argon2Options)
  : M bytes :=
  of_option KeyDerivationError
    (argon2_hash P secretKey
       {| type := type options; hashLength := hashLength options;
          salt_bytes := salt_bytes options; memoryCost := memoryCost options;
          timeCost := timeCost options; parallelism := parallelism options;
          raw := true |}).

(** The imported CryptoKey is the raw key itself. *)
Definition importKeyForCrypto (keyBuffer : bytes) : M bytes :=
  if crypto.valid_aes_key keyBuffer then ret keyBuffer else throw ImportKeyError.

Definition deriveKeyWithArgon2 (secretKey salt : jsstring) : M bytes :=
  let options :=
    {| type := argon2id;
       hashLength := Z.to_N CRYPTO_CONFIG.BYTE_LENGTHS.SECRET_KEY;
       salt_bytes := Buffer.from_base64 salt;
       memoryCost := CRYPTO_CONFIG.ARGON2_PARAMETERS.MEMORY_COST;
       timeCost := CRYPTO_CONFIG.ARGON2_PARAMETERS.TIME_COST;
       parallelism := CRYPTO_CONFIG.ARGON2_PARAMETERS.PARALLELISM;
       raw := true |} in
  keyBuffer <- argon2Hashing secretKey options ;;
  importKeyForCrypto keyBuffer.

Definition encryptBuffer (webCryptoIv key : bytes) (value : jsstring) : M bytes :=
  of_option OperationError
    (aes_gcm_encrypt P key webCryptoIv (TextEncoder.encode value)).

Definition encrypt (value secretKey : jsstring) : M EncryptionParameters :=
  salt <- SecureKeyGenerator.generateBase64Salt None ;;
  webCryptoIv <- SecureKeyGenerator.generateWebCryptoIV None ;;
  key <- deriveKeyWithArgon2 secretKey salt ;;
  encryptedBuffer <- encryptBuffer webCryptoIv key value ;;
  ret {| salt := salt;
         iv := Buffer.toString_base64 webCryptoIv;
         cipherText := Buffer.toString_base64 encryptedBuffer |}.

Definition decryptBuffer (ivBuffer key cipherBuffer : bytes) : M bytes :=
  of_option OperationError (aes_gcm_decrypt P key ivBuffer cipherBuffer).

(** [const { salt, iv, cipherText } = params] throws on [null]; then
    each of the three must be truthy. *)
Definition validateParsedData (params : JSON.value) : M unit :=
  match params with
  | JSON.Null => throw TypeError
  | _ =>
      let salt := JSON.get params (lit "salt") in
      let iv := JSON.get params (lit "iv") in
      let cipherText := JSON.get params (lit "cipherText") in
      if negb (JSON.truthy salt) || negb (JSON.truthy iv)
         || negb (JSON.truthy cipherText)
      then throw MissingRequiredProperties
      else ret tt
  end.

Definition parseEncryptedData (encryptedData : jsstring) : M JSON.value :=
  (if negb (str_truthy encryptedData) then throw EncryptedDataRequired else ret tt) ;;;
  parsedData <- of_option JsonSyntaxError (JSON.parse encryptedData) ;;
  validateParsedData parsedData ;;;
  ret parsedData.

(** A validated field used where the code expects a string.  The type
    [EncryptionParameters] is only asserted by a cast: a truthy number
    or boolean makes [Buffer.from] throw a TypeError; what the runtime
    does with an array or an object there is not followed. *)
Definition string_field (v : option JSON.value) : M jsstring :=
  match v with
  | Some (JSON.Str s) => ret s
  | Some (JSON.Array _) | Some (JSON.Obj _) => throw OutsideModel
  | _ => throw TypeError
  end.

Definition decrypt (encryptedData secretKey : jsstring) : M jsstring :=
  parsedData <- parseEncryptedData encryptedData ;;
  salt <- string_field (JSON.get parsedData (lit "salt")) ;;
  key <- deriveKeyWithArgon2 secretKey salt ;;
  iv <- string_field (JSON.get parsedData (lit "iv")) ;;
  let ivBuffer := Buffer.from_base64 iv in
  cipherText <- string_field (JSON.get parsedData (lit "cipherText")) ;;
  let cipherBuffer := Buffer.from_base64 cipherText in
  decryptedBuffer <- decryptBuffer ivBuffer key cipherBuffer ;;
  ret (TextDecoder.decode decryptedBuffer).

End WithPlatform.
End EncryptionService.

(* ================================================================== *)
(** * src/cryptography/services/environmentEncryptionManager.ts *)
(* ================================================================== *)

Module EnvironmentEncryptionManager.
Section WithPlatform.
Context (P : Platform).

(** [AsyncFileManager.ensureDirectoryExists] followed by
    [AsyncFileManager.getFilePath]: the platform's [getFilePath] is the
    path when both return and [None] when one of them throws.
    Directories are not part of the file store. *)
Definition resolveFilePath (directoryName fileName : jsstring) : M jsstring :=
  of_option PathError (getFilePath P directoryName fileName).

Definition readEnvironmentFileAsLines (directory environmentFilePath : jsstring)
  : M (list jsstring) :=
  resolvedEnvironmentFilePath <- resolveFilePath directory environmentFilePath ;;
  content <- fs.readFile resolvedEnvironmentFilePath ;;
  ret (split ch_newline content).

Definition writeEnvironmentFileLines (environmentFilePath : jsstring)
  (lines : list jsstring) : M unit :=
  fs.writeFile environmentFilePath (join ch_newline lines).

Definition parseEnvironmentLine (line : jsstring) : option (jsstring * jsstring) :=
  let trimmedLine := trim line in
  if str_eqb trimmedLine [] || negb (includes trimmedLine ch_equals) then None
  else
    match split ch_equals trimmedLine with
    | key :: valueParts =>
        let value := join ch_equals valueParts in
        if str_truthy key && str_truthy value
        then Some (trim key, trim value)
        else None
    | [] => None
    end.

Definition extractEnvironmentVariables (lines : list jsstring) : object :=
  fold_left
    (fun variables line =>
       match parseEnvironmentLine line with
       | Some (key, value) => obj_set variables key (VStr value)
       | None => variables
       end)
    lines [].

(** [value === lookupValue] *)
Definition strict_equal (value : jsval) (lookupValue : jsstring) : bool :=
  match value with
  | VStr s => str_eqb s lookupValue
  | VProtoMember => false
  end.

Fixpoint find_by_value (entries : list (jsstring * jsval)) (lookupValue : jsstring)
  : option (jsstring * jsval) :=
  match entries with
  | [] => None
  | (key, value) :: rest =>
      if strict_equal value lookupValue then Some (key, value)
      else find_by_value rest lookupValue
  end.

Definition findEnvironmentVariableByKey (allEnvVariables : object)
  (lookupValue : jsstring) : M object :=
  if get_truthy allEnvVariables lookupValue then
    match obj_get allEnvVariables lookupValue with
    | Some v => ret (obj_set [] lookupValue v)
    | None => ret []
    end
  else
    match find_by_value (Object.entries allEnvVariables) lookupValue with
    | Some (key, value) =>
        logger.info (lit "Environment variable key '" ++ key ++ lit "' found") ;;;
        ret (obj_set [] key value)
    | None => ret []
    end.

(** [!found] for an object: every object is truthy, the empty one
    too. *)
Definition not_object (found : object) : bool := false.

Fixpoint resolve_each (allEnvVariables : object) (envVariables : list jsstring)
  (variablesToEncrypt : object) : M object :=
  match envVariables with
  | [] => ret variablesToEncrypt
  | lookupValue :: rest =>
      found <- findEnvironmentVariableByKey allEnvVariables lookupValue ;;
      (if not_object found
       then logger.warn (lit "Environment variable with key or value '"
                           ++ lookupValue ++ lit "' not found in the file.")
       else ret tt) ;;;
      resolve_each allEnvVariables rest (Object.assign variablesToEncrypt found)
  end.

(** [envVariables] is [None] when the argument is omitted. *)
Definition resolveVariablesToEncrypt (allEnvVariables : object)
  (envVariables : option (list jsstring)) : M object :=
  match envVariables with
  | Some ((_ :: _) as selectors) => resolve_each allEnvVariables selectors []
  | _ => ret (Object.assign [] allEnvVariables)
  end.

Definition has_encryption_fields (parsedData : JSON.value) : bool :=
  JSON.is_object parsedData
  && JSON.has parsedData (lit "salt")
  && JSON.has parsedData (lit "iv")
  && JSON.has parsedData (lit "cipherText").

Definition isAlreadyEncrypted (value : jsstring) : M bool :=
  if negb (str_truthy value) then
    logger.warn (lit "Environment variable cannot be null or empty.") ;;;
    ret false
  else
    let trimmedValue := trim value in
    if negb (startsWith trimmedValue [ch_lbrace] && endsWith trimmedValue [ch_rbrace])
    then ret false
    else
      match JSON.parse value with
      | Some parsedData => ret (has_encryption_fields parsedData)
      | None => ret false
      end.

(** The result is the value itself when it is already encrypted, the
    fresh envelope otherwise. *)
Definition encryptValueIfPlaintext (value secretKey : jsstring)
  : M (jsstring + EncryptionParameters) :=
  already <- isAlreadyEncrypted value ;;
  if already then ret (inl value)
  else
    encryptedResult <- EncryptionService.encrypt P value secretKey ;;
    ret (inr {| salt := salt encryptedResult; iv := iv encryptedResult;
                cipherText := cipherText encryptedResult |}).

Definition assignment (envVariable value : jsstring) : jsstring :=
  envVariable ++ ch_equals :: value.

Definition updateEnvironmentFileLines (existingLines : list jsstring)
  (envVariable value : jsstring) : list jsstring :=
  let isUpdated :=
    existsb (fun line => startsWith line (envVariable ++ [ch_equals])) existingLines in
  let updatedLines :=
    map (fun line =>
           if startsWith line (envVariable ++ [ch_equals])
           then assignment envVariable value
           else line)
        existingLines in
  if negb isUpdated then updatedLines ++ [assignment envVariable value]
  else updatedLines.

(** [JSON.stringify(encryptedValue)] *)
Definition stringify_result (encryptedValue : jsstring + EncryptionParameters)
  : jsstring :=
  match encryptedValue with
  | inl s => JSON.quote s
  | inr e => JSON.stringify [(lit "salt", salt e); (lit "iv", iv e);
                             (lit "cipherText", cipherText e)]
  end.

(** [!encryptedValue || encryptedValue === value] *)
Definition nothing_to_write (encryptedValue : jsstring + EncryptionParameters)
  (value : jsstring) : bool :=
  match encryptedValue with
  | inl s => negb (str_truthy s) || str_eqb s value
  | inr _ => false
  end.

Fixpoint encrypt_each (entries : list (jsstring * jsval)) (secretKeyVariable : jsstring)
  (updatedLines : list jsstring) (encryptedCount : N) : M (list jsstring * N) :=
  match entries with
  | [] => ret (updatedLines, encryptedCount)
  | (key, value) :: rest =>
      if val_truthy value then
        match value with
        | VProtoMember => throw TypeError   (* value.trim is not a function *)
        | VStr value =>
            encryptedValue <- encryptValueIfPlaintext (trim value) secretKeyVariable ;;
            if nothing_to_write encryptedValue value then
              logger.info (lit "Skipping encryption: '" ++ key
                             ++ lit "' is already encrypted.") ;;;
              encrypt_each rest secretKeyVariable updatedLines encryptedCount
            else
              encrypt_each rest secretKeyVariable
                (updateEnvironmentFileLines updatedLines key
                   (stringify_result encryptedValue))
                (encryptedCount + 1)
        end
      else encrypt_each rest secretKeyVariable updatedLines encryptedCount
  end.

Definition encryptVariableValuesInFileLines (envFileLines : list jsstring)
  (variablesToEncrypt : object) (secretKeyVariable : jsstring)
  : M (list jsstring * N) :=
  encrypt_each (Object.entries variablesToEncrypt) secretKeyVariable envFileLines 0.

Definition logEncryptionSuccess (directory environmentFilePath : jsstring)
  (originalCount encryptedCount : N) : M unit :=
  if 0 <? encryptedCount then
    filePath <- resolveFilePath directory environmentFilePath ;;
    logger.info (lit "Encryption complete. Successfully encrypted "
                   ++ decimal encryptedCount ++ lit " variable(s) in the "
                   ++ filePath ++ lit " file.")
  else ret tt.

Definition encryptAndUpdateEnvironmentVariables
  (directory environmentFilePath secretKeyVariable : jsstring)
  (envVariables : option (list jsstring)) : M unit :=
  envFileLines <- readEnvironmentFileAsLines directory environmentFilePath ;;
  let allEnvVariables := extractEnvironmentVariables envFileLines in
  variablesToEncrypt <- resolveVariablesToEncrypt allEnvVariables envVariables ;;
  r <- encryptVariableValuesInFileLines envFileLines variablesToEncrypt
         secretKeyVariable ;;
  let '(updatedLines, encryptedCount) := r in
  resolvedEnvironmentFilePath <- resolveFilePath directory environmentFilePath ;;
  writeEnvironmentFileLines resolvedEnvironmentFilePath updatedLines ;;;
  detached (logEncryptionSuccess directory environmentFilePath
              (N.of_nat (length (Object.keys variablesToEncrypt))) encryptedCount) ;;;
  ret tt.

End WithPlatform.
End EnvironmentEncryptionManager.

(* ================================================================== *)
(** * An executable stand-in for the platform *)
(* ================================================================== *)

(** The model runs on any [Platform].  To run it on examples, here is a
    small one: a key derivation that stretches password and salt to the
    requested length, and an authenticated "cipher" that adds the key
    stream to the message and appends a 16-byte tag.  It has the
    functional properties the theorems below ask of argon2 and AES-GCM
    and none of their strength. *)
Module Demo.

Definition xor_byte (a b : byte) : byte :=
  byte_of_N (N.lxor (Byte.to_N a) (Byte.to_N b)).

Definition stretch (material : bytes) (n : nat) : bytes :=
  map (fun i => nth (i mod (length material)) material x00) (seq 0 n).

Definition kdf (secretKey : jsstring) (o : Argon2Options) : option bytes :=
  if (length (salt_bytes o) <? 8)%nat then None
  else
    let n := N.to_nat (hashLength o) in
    Some (map (fun ab => xor_byte (fst ab) (snd ab))
              (combine (stretch (salt_bytes o) n)
                       (stretch (x01 :: TextEncoder.encode secretKey) n))).

Definition tag (key iv : bytes) : bytes := stretch (x02 :: key ++ iv) 16.

Fixpoint mask (key m : bytes) (i : nat) : bytes :=
  match m with
  | [] => []
  | b :: r => xor_byte b (nth (i mod (length key)) key x00) :: mask key r (S i)
  end.

Definition seal (key iv m : bytes) : option bytes :=
  match iv with
  | [] => None
  | _ :: _ => Some (mask key m 0 ++ tag key iv)
  end.

Definition bytes_eqb (a b : bytes) : bool :=
  if list_eq_dec Byte.byte_eq_dec a b then true else false.

Definition unseal (key iv c : bytes) : option bytes :=
  let n := (length c - 16)%nat in
  if (16 <=? length c)%nat && bytes_eqb (skipn n c) (tag key iv)
  then Some (mask key (firstn n c) 0)
  else None.

Definition file_path (directory fileName : jsstring) : option jsstring :=
  if str_truthy directory && str_truthy fileName
  then Some (directory ++ 47 :: fileName)
  else None.

Definition platform : Platform :=
  {| argon2_hash := kdf;
     aes_gcm_encrypt := seal;
     aes_gcm_decrypt := unseal;
     getFilePath := file_path |}.

(** A world with one file, an entropy source counting upwards, and
    nothing logged or written yet. *)
Definition world (path content : jsstring) : World :=
  {| files := [(path, content)];
     entropy := fun i => byte_of_N (N.of_nat (7 * i + 3));
     drawn := 0;
     logged := [];
     written := [] |}.

Definition envs := lit "envs".
Definition env_uat := lit ".env.uat".
Definition env_path := lit "envs/.env.uat".
Definition UAT_SECRET_KEY := lit "UAT_SECRET_KEY".

(** One call of [encryptAndUpdateEnvironmentVariables] on the demo
    file. *)
Definition run (envVariables : option (list jsstring)) (w : World)
  : result unit * World :=
  EnvironmentEncryptionManager.encryptAndUpdateEnvironmentVariables
    platform envs env_uat UAT_SECRET_KEY envVariables w.

Definition content_after (r : result unit * World) : option jsstring :=
  fs.lookup (files (snd r)) env_path.

End Demo.

Module Mgr := EnvironmentEncryptionManager.

(* ================================================================== *)
(** * Vocabulary for the statements below *)
(* ================================================================== *)

(** The raw text of [line] begins with [key=]: the test
    [updateEnvironmentFileLines] applies to every line. *)
Definition begins_with_key (key line : jsstring) : bool :=
  startsWith line (key ++ [ch_equals]).

(** Several calls of [updateEnvironmentFileLines] in a row. *)
Definition apply_updates (updates : list (jsstring * jsstring))
  (lines : list jsstring) : list jsstring :=
  fold_left
    (fun ls kv =>
       EnvironmentEncryptionManager.updateEnvironmentFileLines ls (fst kv) (snd kv))
    updates lines.

(** The text written for an encrypted variable. *)
Definition envelope_json (e : EncryptionParameters) : jsstring :=
  EnvironmentEncryptionManager.stringify_result (inr e).

(** Keys of a run of updates: pairwise distinct, none holding [=]. *)
Definition keys_plain (updates : list (jsstring * jsstring)) : Prop :=
  NoDup (map fst updates) /\ Forall (fun kv => ~ In ch_equals (fst kv)) updates.

(** The answer of [isAlreadyEncrypted], without its logging. *)
Definition classified_encrypted (value : jsstring) : bool :=
  str_truthy value
  && (startsWith (trim value) [ch_lbrace] && endsWith (trim value) [ch_rbrace])
  && match JSON.parse value with
     | Some parsedData => EnvironmentEncryptionManager.has_encryption_fields parsedData
     | None => false
     end.

(** A computation that leaves the files alone and writes nothing; it
    may log and draw random bytes. *)
Definition keeps_files {A} (m : M A) : Prop :=
  forall w, files (snd (m w)) = files w /\ written (snd (m w)) = written w
            /\ entropy (snd (m w)) = entropy w
            /\ (drawn w <= drawn (snd (m w)))%nat.

(** A computation that does nothing but log. *)
Definition only_logs {A} (m : M A) : Prop :=
  forall w, files (snd (m w)) = files w /\ written (snd (m w)) = written w
            /\ entropy (snd (m w)) = entropy w
            /\ drawn (snd (m w)) = drawn w.

(** The lines logged at level warn. *)
Definition warnings (w : World) : list jsstring :=
  map snd (filter (fun e => match fst e with Warn => true | Info => false end)
                  (logged w)).

(** The next [n] bytes of the entropy source, and the world once they
    have been drawn. *)
Definition next_bytes (w : World) (n : nat) : bytes :=
  map (fun i => entropy w (drawn w + i)%nat) (seq 0 n).

Definition after_draw (w : World) (n : nat) : World :=
  {| files := files w; entropy := entropy w; drawn := (drawn w + n)%nat;
     logged := logged w; written := written w |}.

(** The exceptions the specification calls InvalidLength and
    MalformedEnvelope. *)
Definition InvalidLength (e : JsError) : Prop := e = LengthMustBePositive.

Definition MalformedEnvelope (e : JsError) : Prop :=
  e = EncryptedDataRequired \/ e = JsonSyntaxError \/ e = MissingRequiredProperties.

(** A property of a parsed envelope is missing, or is the empty
    string. *)
Definition missing_or_empty (v : JSON.value) (name : jsstring) : Prop :=
  JSON.has v name = false \/ JSON.get v name = Some (JSON.Str []).

(** The text [{"salt":"x"}]. *)
Definition salt_only_text : jsstring :=
  JSON.stringify [(lit "salt", lit "x")].

(** An object whose own keys are pairwise distinct.  [__proto__] is
    never among them: [obj_set] does not create it. *)
Definition wf_object (o : object) : Prop :=
  NoDup (map fst o) /\ ~ In (lit "__proto__") (map fst o).

(** The pair [(k, v)] is a variable some line of the file parses to. *)
Definition parsed_from (lines : list jsstring) (k : jsstring) (v : jsval) : Prop :=
  exists s line, v = VStr s /\ In line lines
                 /\ EnvironmentEncryptionManager.parseEnvironmentLine line = Some (k, s).

(** From [w] to [w'] nothing happened but logging at level info. *)
Definition only_info (w w' : World) : Prop :=
  files w' = files w /\ written w' = written w /\ entropy w' = entropy w
  /\ drawn w' = drawn w /\ warnings w' = warnings w.

(** An entry of the record handed to the encryption loop, as the
    extraction and the selectors leave it: a member of
    [Object.prototype], or a non-empty trimmed string under a key
    without [=]. *)
Definition loop_entry (k : jsstring) (v : jsval) : Prop :=
  v = VProtoMember \/
  exists s, v = VStr s /\ s <> [] /\ trim s = s /\ ~ In ch_equals k.

(** The envelope [e] is what one call of [encrypt] under the platform
    [P] returned for the value [v]. *)
Definition encrypted_by (P : Platform) (secretKey v : jsstring)
  (e : EncryptionParameters) : Prop :=
  exists w1 w2, EncryptionService.encrypt P v secretKey w1 = (Ok e, w2).

(** The texts written for a list of encrypted variables. *)
Definition envelope_updates (updates : list (jsstring * EncryptionParameters))
  : list (jsstring * jsstring) :=
  map (fun ke => (fst ke, envelope_json (snd ke))) updates.

(** Files of several lines, for the examples. *)
Definition file_of (lines : list jsstring) : jsstring := join ch_newline lines.

(** A character that JSON writes as it is: printable ASCII other than
    the double quote and the backslash.  Base64 text is made of
    these. *)
Definition plain_char (c : codeunit) : Prop :=
  32 <= c /\ c < 127 /\ c <> 34 /\ c <> 92.

(** Names and values made of 16-bit code units, and the members they
    parse to. *)
Definition units_ok (fields : list (jsstring * jsstring)) : Prop :=
  Forall (fun kv => Forall (fun u => u < 65536) (fst kv)
                    /\ Forall (fun u => u < 65536) (snd kv)) fields.

Definition parsed_fields (fields : list (jsstring * jsstring))
  : list (jsstring * JSON.value) :=
  map (fun kv => (fst kv, JSON.Str (snd kv))) fields.

(** An envelope whose three fields are base64 text, as [encrypt]
    builds them. *)
Definition base64_envelope (e : EncryptionParameters) : Prop :=
  exists s i c : bytes,
    salt e = Buffer.toString_base64 s
    /\ iv e = Buffer.toString_base64 i
    /\ cipherText e = Buffer.toString_base64 c.

(** The options [deriveKeyWithArgon2] hands to argon2 for a salt. *)
Definition argon2_options (saltBytes : bytes) : Argon2Options :=
  {| type := argon2id; hashLength := 32; salt_bytes := saltBytes;
     memoryCost := 262144; timeCost := 4; parallelism := 3; raw := true |}.

(** A string without unpaired surrogates, made of 16-bit code units. *)
Fixpoint well_formed (s : jsstring) : bool :=
  match s with
  | [] => true
  | u :: r =>
      if JSON.is_high_surrogate u then
        match r with
        | l :: r' => JSON.is_low_surrogate l && well_formed r'
        | [] => false
        end
      else negb (JSON.is_low_surrogate u) && (u <? 65536) && well_formed r
  end.

(** The scalar values a well-formed string spells. *)
Fixpoint scalar_values (s : jsstring) : list N :=
  match s with
  | [] => []
  | u :: r =>
      if JSON.is_high_surrogate u then
        match r with
        | l :: r' => (65536 + (u - 55296) * 1024 + (l - 56320)) :: scalar_values r'
        | [] => [REPLACEMENT]
        end
      else u :: scalar_values r
  end.

(** A scalar value: below the surrogates, or above them and at most
    U+10FFFF. *)
Definition is_scalar (c : N) : Prop := c < 55296 \/ (57343 < c /\ c < 1114112).


(** What the code relies on from AES-GCM: the ciphertext is the message
    followed by a 16-byte tag, so it is never empty, and opening it with
    the key and IV that sealed it gives the message back. *)
Record aes_gcm_laws (P : Platform) : Prop := {
  sealed_length : forall key iv m c,
    aes_gcm_encrypt P key iv m = Some c -> length c = (length m + 16)%nat;
  open_sealed : forall key iv m c,
    aes_gcm_encrypt P key iv m = Some c -> aes_gcm_decrypt P key iv c = Some m
}.

(** What [TextDecoder.decode] makes of the UTF-8 encoding of a
    well-formed string: a leading U+FEFF is dropped. *)
Definition without_mark (p : jsstring) : jsstring :=
  match p with
  | c :: r => if c =? BOM then r else p
  | [] => []
  end.

(** [decrypt(JSON.stringify(await encrypt(value, secretKey)), secretKey)] *)
Definition decrypt_encrypted (P : Platform) (value secretKey : jsstring)
  : M jsstring :=
  fun w =>
    match EncryptionService.encrypt P value secretKey w with
    | (Ok e, w') => EncryptionService.decrypt P (envelope_json e) secretKey w'
    | (Throw x, w') => (Throw x, w')
    end.

(** The value [line] gives the variable [k], if it assigns it. *)
Definition assigns (k line : jsstring) : option jsstring :=
  match EnvironmentEncryptionManager.parseEnvironmentLine line with
  | Some (k', v) => if str_eqb k' k then Some v else None
  | None => None
  end.

(** The value of the last line that assigns [k]: what
    [extractEnvironmentVariables] keeps for it. *)
Fixpoint last_value (lines : list jsstring) (k : jsstring) : option jsstring :=
  match lines with
  | [] => None
  | line :: rest =>
      match last_value rest k with
      | Some v => Some v
      | None => assigns k line
      end
  end.

(** The line [line] concerns the variable [k]: it assigns it, or its
    raw text begins with [k=]. *)
Definition concerns (k line : jsstring) : bool :=
  begins_with_key k line
  || match assigns k line with Some _ => true | None => false end.

(** The last line that concerns [k]. *)
Fixpoint last_concerning (lines : list jsstring) (k : jsstring) : option jsstring :=
  match lines with
  | [] => None
  | line :: rest =>
      match last_concerning rest k with
      | Some l => Some l
      | None => if concerns k line then Some line else None
      end
  end.

(** Where some line begins with [k=], no line after the last of them
    assigns [k]. *)
Definition key_settled (lines : list jsstring) (k : jsstring) : bool :=
  negb (existsb (begins_with_key k) lines)
  || match last_concerning lines k with
     | Some l => begins_with_key k l
     | None => true
     end.

(** The object [findEnvironmentVariableByKey] returns for a selector. *)
Definition found_for (allEnvVariables : object) (lookupValue : jsstring) : object :=
  if get_truthy allEnvVariables lookupValue then
    match obj_get allEnvVariables lookupValue with
    | Some v => obj_set [] lookupValue v
    | None => []
    end
  else
    match EnvironmentEncryptionManager.find_by_value
            (Object.entries allEnvVariables) lookupValue with
    | Some (key, value) => obj_set [] key value
    | None => []
    end.

(** The variables the selectors choose in [allEnvVariables]: what is
    found for one of them, or every variable when there is no selector. *)
Definition chosen (allEnvVariables : object) (envVariables : option (list jsstring))
  (k : jsstring) (v : jsval) : Prop :=
  match envVariables with
  | Some ((_ :: _) as selectors) =>
      exists s, In s selectors /\ In (k, v) (found_for allEnvVariables s)
  | _ => In (k, v) allEnvVariables
  end.

(** Every chosen variable that is not yet encrypted is settled: where
    some line begins with its name and [=], no line after the last of
    them assigns it. *)
Definition settled_lines (lines : list jsstring)
  (envVariables : option (list jsstring)) : Prop :=
  let all := EnvironmentEncryptionManager.extractEnvironmentVariables lines in
  forall k s,
    chosen all envVariables k (VStr s) -> classified_encrypted s = false ->
    key_settled lines k = true.

(** Every variable that holds the text of a selector which is neither
    the name of a variable nor an envelope is itself chosen. *)
Definition values_covered (lines : list jsstring)
  (envVariables : option (list jsstring)) : Prop :=
  match envVariables with
  | Some selectors =>
      let all := EnvironmentEncryptionManager.extractEnvironmentVariables lines in
      forall s k,
        In s selectors -> ~ In s (Object.keys all) ->
        classified_encrypted s = false ->
        In (k, VStr s) all -> chosen all envVariables k (VStr s)
  | None => True
  end.

(** What a series of updates makes of one line of the file. *)
Definition rewrite_line (updates : list (jsstring * jsstring)) (line : jsstring)
  : jsstring :=
  match find (fun kv => begins_with_key (fst kv) line) updates with
  | Some (k, v) => EnvironmentEncryptionManager.assignment k v
  | None => line
  end.

(** The names a run works on when every selector is a name: the
    selectors, or every name when no selector is given. *)
Definition selected (envVariables : option (list jsstring)) (k : jsstring) : Prop :=
  match envVariables with
  | Some ((_ :: _) as selectors) => In k selectors
  | _ => True
  end.

(* ================================================================== *)
(** * Errors that carry their message *)
(* ================================================================== *)

(** What the code below can throw: one of the exceptions above, or an
    [Error] made with [new Error(message)]. *)
Inductive Failure :=
| Raised (e : JsError)
| ErrorWith (message : jsstring).

Inductive settled (A : Type) :=
| Fulfilled (a : A)
| Rejected (f : Failure).
Arguments Fulfilled {A} a.
Arguments Rejected {A} f.

(** Code that returns or throws, and may change the world. *)
Definition Task (A : Type) : Type := World -> settled A * World.

Definition done {A} (a : A) : Task A := fun w => (Fulfilled a, w).

Definition fail {A} (f : Failure) : Task A := fun w => (Rejected f, w).

Definition andThen {A B} (m : Task A) (k : A -> Task B) : Task B :=
  fun w =>
    match m w with
    | (Fulfilled a, w') => k a w'
    | (Rejected f, w') => (Rejected f, w')
    end.

Notation "x <~ m ;; k" := (andThen m (fun x => k))
  (at level 61, m at next level, right associativity).
Notation "m ~;; k" := (andThen m (fun _ => k))
  (at level 61, right associativity).

(** A computation of the first kind used in the second. *)
Definition await {A} (m : M A) : Task A :=
  fun w =>
    match m w with
    | (Ok a, w') => (Fulfilled a, w')
    | (Throw e, w') => (Rejected (Raised e), w')
    end.

(** [ErrorHandler.logAndThrow(message, source)]: the error is reported
    at level error, which the world does not record, and a new [Error]
    with the same message is thrown. *)
Definition logAndThrow {A} (message : jsstring) : Task A :=
  fail (ErrorWith message).

(* ================================================================== *)
(** * src/utils/fileManagers/asyncFileManager.ts *)
(* ================================================================== *)

(** Node's [path] module and [process.cwd()], which this development
    does not look inside. *)
Record NodePath := {
  path_normalize : jsstring -> jsstring;
  path_resolve : jsstring -> jsstring;
  path_isAbsolute : jsstring -> bool;
  path_dirname : jsstring -> jsstring;
  process_cwd : jsstring
}.

(** The result object of a file operation; only [success] is used. *)
Record FileOperationResult := { success : bool }.

(** [!r] for a result object: an object is truthy. *)
Definition not_result (r : FileOperationResult) : bool := false.

Module AsyncFileManager.
Section WithPath.
Context (Np : NodePath).

Definition normalizePath (inputPath : jsstring) : Task jsstring :=
  if negb (str_truthy inputPath) then fail (ErrorWith (lit "Path cannot be empty"))
  else if includes inputPath 0 then fail (ErrorWith (lit "Path contains null bytes"))
  else
    let normalizedPath := path_normalize Np inputPath in
    let absolutePath := path_resolve Np normalizedPath in
    let cwd := process_cwd Np in
    if negb (startsWith absolutePath cwd) && negb (path_isAbsolute Np inputPath)
    then fail (ErrorWith (lit "Path traversal attempt detected"))
    else done absolutePath.

Definition validatePath (filePath paramName : jsstring) : Task unit :=
  (if negb (str_truthy filePath)
   then logAndThrow (lit "Invalid arguments: '" ++ paramName ++ lit "' is required.")
   else done tt) ~;;
  if str_eqb paramName (lit "filePath")
     && (endsWith filePath [47] || endsWith filePath [92])
  then logAndThrow (lit "Invalid file path: '" ++ filePath
                      ++ lit "' cannot end with a directory separator.")
  else done tt.

(** [fs.promises.mkdir(dirPath, { recursive: true })]: the world keeps
    no directories, and the file system is taken never to refuse. *)
Definition ensureDirectoryExists (dirPath : jsstring) : Task FileOperationResult :=
  dirPath <~ normalizePath dirPath ;;
  validatePath dirPath (lit "dirPath") ~;;
  done {| success := true |}.

(** [fs.promises.open(path, 'a')] followed by [close]: a file that is
    not there is created empty, one that is there is left as it is. *)
Definition open_append (path : jsstring) : Task unit :=
  fun w =>
    (Fulfilled tt,
     match fs.lookup (files w) path with
     | Some _ => w
     | None => {| files := fs.store (files w) path []; entropy := entropy w;
                  drawn := drawn w; logged := logged w; written := written w |}
     end).

Definition ensureFileExists (filePath : jsstring) : Task FileOperationResult :=
  filePath <~ normalizePath filePath ;;
  validatePath filePath (lit "filePath") ~;;
  let dirPath := path_dirname Np filePath in
  dirResult <~ ensureDirectoryExists dirPath ;;
  if negb (success dirResult) then done dirResult
  else
    open_append filePath ~;;
    done {| success := true |}.

Definition readFile (filePath : jsstring) : Task jsstring :=
  filePath <~ normalizePath filePath ;;
  validatePath filePath (lit "filePath") ~;;
  await (fs.readFile filePath).

(** With the default options: parent directories are created and an
    existing file is overwritten.  [content] is a string, so the test
    for [undefined] and [null] never fires. *)
Definition writeFile (filePath content keyName : jsstring)
  : Task FileOperationResult :=
  filePath <~ normalizePath filePath ;;
  validatePath filePath (lit "filePath") ~;;
  let dirPath := path_dirname Np filePath in
  ensureDirectoryExists dirPath ~;;
  await (fs.writeFile filePath content) ~;;
  done {| success := true |}.

End WithPath.
End AsyncFileManager.

(* ================================================================== *)
(** * Regular expressions built from a key name *)
(* ================================================================== *)

(** The characters with a meaning of their own in a pattern.  A key
    name without them is a pattern that matches itself; the functions
    below are followed for such names only. *)
Definition is_syntax_character (c : codeunit) : bool :=
  existsb (N.eqb c) (lit "^$\.*+?()[]{}|").

Definition literal_pattern (p : jsstring) : bool :=
  forallb (fun c => negb (is_syntax_character c)) p.

(** LineTerminator: what [^] and [$] stop at under the flag [m], and
    what [.] does not match. *)
Definition isLineTerminator (c : codeunit) : bool :=
  (c =? 10) || (c =? 13) || (c =? 8232) || (c =? 8233).

(** The text after the first occurrence of the literal [p] at the start
    of the input or right after a line terminator: where the pattern
    [^p] with the flag [m] matches first. *)
Fixpoint after_line_start (p s : jsstring) (at_start : bool) {struct s}
  : option jsstring :=
  if at_start && startsWith s p then Some (skipn (length p) s)
  else match s with
       | [] => None
       | c :: r => after_line_start p r (isLineTerminator c)
       end.

(** What the group of any characters before [$] captures under the flag
    [m]: the text up to the next line terminator or the end. *)
Fixpoint rest_of_line (s : jsstring) : jsstring :=
  match s with
  | [] => []
  | c :: r => if isLineTerminator c then [] else c :: rest_of_line r
  end.

(** [new RegExp(`^${keyName}=`, 'm').test(content)] *)
Definition key_line_test (keyName content : jsstring) : bool :=
  match after_line_start (keyName ++ [ch_equals]) content true with
  | Some _ => true
  | None => false
  end.

(** [content.match(regex)] for the pattern [^keyName=] followed by a
    group of any characters and [$], with the flag [m]; then
    [match ? match[1] : undefined]. *)
Definition key_line_match (keyName content : jsstring) : option jsstring :=
  option_map rest_of_line
    (after_line_start (keyName ++ [ch_equals]) content true).

(* ================================================================== *)
(** * src/utils/environment/utils/environmentSecretFileManager.ts *)
(* ================================================================== *)

Module EnvironmentSecretFileManager.
Section WithPath.
Context (Np : NodePath).

Definition getOrCreateBaseEnvFileContent (filePath : jsstring) : Task jsstring :=
  fileExists <~ AsyncFileManager.ensureFileExists Np filePath ;;
  if not_result fileExists then
    await (logger.warn (lit "Base environment file not found at " ++ ch_quote
                          :: filePath ++ ch_quote
                          :: lit ". A new empty file will be created.")) ~;;
    AsyncFileManager.writeFile Np filePath []
      (lit "Created empty environment file") ~;;
    done []
  else AsyncFileManager.readFile Np filePath.

Definition writeSecretKeyVariableToBaseEnvFile (filePath content keyName : jsstring)
  : Task unit :=
  AsyncFileManager.writeFile Np filePath content keyName ~;;
  done tt.

(** [None] is [undefined].  A key name with pattern syntax in it is
    not followed. *)
Definition getKeyValue (filePath keyName : jsstring) : Task (option jsstring) :=
  fileContent <~ getOrCreateBaseEnvFileContent filePath ;;
  if literal_pattern keyName then done (key_line_match keyName fileContent)
  else fail (Raised OutsideModel).

Definition storeBaseEnvironmentKey (filePath keyName keyValue : jsstring)
  : Task unit :=
  fileContent <~ getOrCreateBaseEnvFileContent filePath ;;
  if negb (literal_pattern keyName) then fail (Raised OutsideModel)
  else
    let keyExists := key_line_test keyName fileContent in
    if keyExists then
      await (logger.info (lit "The environment variable " ++ ch_quote :: keyName
                            ++ ch_quote
                            :: lit " already exists. Delete it before regenerating."))
    else
      let fileContent :=
        if str_truthy fileContent && negb (endsWith fileContent [ch_newline])
        then fileContent ++ [ch_newline] else fileContent in
      let fileContent := fileContent ++ keyName ++ ch_equals :: keyValue in
      writeSecretKeyVariableToBaseEnvFile filePath fileContent keyName ~;;
      await (logger.info (lit "Environment variable " ++ ch_quote :: keyName
                            ++ ch_quote :: lit " has been added successfully.")).

End WithPath.
End EnvironmentSecretFileManager.

(* ================================================================== *)
(** * src/cryptography/orchestration/environmentEncryptionCoordinator.ts *)
(* ================================================================== *)

Module EnvironmentEncryptionCoordinator.
Section WithPlatform.
Context (P : Platform) (Np : NodePath).

Definition generateAndStoreSecretKey
  (directory environmentBaseFilePath keyName : jsstring) : Task unit :=
  secretKey <~ await (SecureKeyGenerator.generateBase64SecretKey None) ;;
  (if negb (str_truthy secretKey)
   then logAndThrow
          (lit "Failed to generate secret key: Secret key cannot be null or undefined")
   else done tt) ~;;
  resolvedBaseEnvironmentFilePath <~
    await (Mgr.resolveFilePath P directory environmentBaseFilePath) ;;
  EnvironmentSecretFileManager.storeBaseEnvironmentKey Np
    resolvedBaseEnvironmentFilePath keyName secretKey.

Definition orchestrateEnvironmentEncryption
  (directory envFilePath secretKeyVariable : jsstring)
  (envVariables : option (list jsstring)) : Task unit :=
  await (Mgr.encryptAndUpdateEnvironmentVariables P directory envFilePath
           secretKeyVariable envVariables).

End WithPlatform.
End EnvironmentEncryptionCoordinator.

(* ================================================================== *)
(** * Vocabulary for the statements about the secret key file *)
(* ================================================================== *)

(** A text on one line: no line terminator in it. *)
Definition one_line (s : jsstring) : bool :=
  forallb (fun c => negb (isLineTerminator c)) s.

(** A key name that is a pattern matching itself, on one line and
    without [=]. *)
Definition plain_key (k : jsstring) : bool :=
  literal_pattern k && one_line k && negb (includes k ch_equals).

(** The argument [filePath] passes the checks of the file manager and
    stands for the file [path]; so does the directory of [path]. *)
Definition names_file (Np : NodePath) (filePath path : jsstring) : Prop :=
  forall w,
    AsyncFileManager.normalizePath Np filePath w = (Fulfilled path, w)
    /\ AsyncFileManager.validatePath path (lit "filePath") w = (Fulfilled tt, w)
    /\ AsyncFileManager.ensureDirectoryExists Np (path_dirname Np path) w
       = (Fulfilled {| success := true |}, w).

(** The content of a file, the empty text when there is no file. *)
Definition content_of (w : World) (path : jsstring) : jsstring :=
  match fs.lookup (files w) path with
  | Some c => c
  | None => []
  end.

(** What [storeBaseEnvironmentKey] writes when the key is new. *)
Definition with_key (content keyName keyValue : jsstring) : jsstring :=
  (if str_truthy content && negb (endsWith content [ch_newline])
   then content ++ [ch_newline] else content)
  ++ keyName ++ ch_equals :: keyValue.

(** The world once the file [path] is sure to exist. *)
Definition touched (w : World) (path : jsstring) : World :=
  snd (AsyncFileManager.open_append path w).

Module Sfm := EnvironmentSecretFileManager.
Module Afm := AsyncFileManager.
Module Coordinator := EnvironmentEncryptionCoordinator.

(** An executable stand-in for Node's [path] on paths written with
    [/], with the working directory [/work]; it is used to run the
    definitions above on examples. *)
Module DemoPath.

Definition cwd : jsstring := lit "/work".

Definition isAbsolute (p : jsstring) : bool := startsWith p (lit "/").

Definition resolve (p : jsstring) : jsstring :=
  if isAbsolute p then p else cwd ++ 47 :: p.

Fixpoint drop_last_segment (r : jsstring) : jsstring :=
  match r with
  | [] => []
  | c :: t => if c =? 47 then t else drop_last_segment t
  end.

Definition dirname (p : jsstring) : jsstring :=
  match rev (drop_last_segment (rev p)) with
  | [] => lit "/"
  | d => d
  end.

Definition node : NodePath :=
  {| path_normalize := fun p => p;
     path_resolve := resolve;
     path_isAbsolute := isAbsolute;
     path_dirname := dirname;
     process_cwd := cwd |}.

Definition env_file : jsstring := lit "/work/envs/.env".

(** A platform whose [getFilePath] agrees with [node]. *)
Definition file_path (directory fileName : jsstring) : option jsstring :=
  if str_truthy directory && str_truthy fileName
  then Some (resolve directory ++ 47 :: fileName)
  else None.

Definition platform : Platform :=
  {| argon2_hash := Demo.kdf;
     aes_gcm_encrypt := Demo.seal;
     aes_gcm_decrypt := Demo.unseal;
     getFilePath := file_path |}.

End DemoPath.

(* ================================================================== *)
(** * src/cryptography/services/encryptionService.ts, continued *)
(* ================================================================== *)

(** [Promise.all] over promises that have settled as [rs]: the values
    in order when every one is fulfilled; otherwise the reason of the
    promise that was rejected first in time.  [first] says which of the
    rejected promises that was, counted from zero in the order of the
    array; a count past the last stands for the first of them. *)
Definition reasons {A} (rs : list (result A)) : list JsError :=
  flat_map (fun r => match r with Throw e => [e] | Ok _ => [] end) rs.

Definition fulfilled {A} (rs : list (result A)) : list A :=
  flat_map (fun r => match r with Ok a => [a] | Throw _ => [] end) rs.

Definition Promise_all {A} (first : nat) (rs : list (result A))
  : result (list A) :=
  match reasons rs with
  | [] => Ok (fulfilled rs)
  | e :: es => Throw (nth first (e :: es) e)
  end.

Module EncryptionServiceBatch.
Section WithPlatform.
Context (P : Platform) (first : nat).

(** [encryptedDataArray.map((data) => this.decrypt(data, secretKey))]:
    every call is made, whatever the others do. *)
Fixpoint decrypt_all (encryptedDataArray : list jsstring) (secretKey : jsstring)
  (w : World) : list (result jsstring) * World :=
  match encryptedDataArray with
  | [] => ([], w)
  | data :: rest =>
      let (r, w1) := EncryptionService.decrypt P data secretKey w in
      let (rs, w2) := decrypt_all rest secretKey w1 in
      (r :: rs, w2)
  end.

Definition decryptMultipleKeys (encryptedDataArray : list jsstring)
  (secretKey : jsstring) : M (list jsstring) :=
  fun w =>
    let (rs, w') := decrypt_all encryptedDataArray secretKey w in
    (Promise_all first rs, w').

End WithPlatform.
End EncryptionServiceBatch.

(* ================================================================== *)
(** * FetchLocalEnvironmentVariables (src/unnamed/part_011) *)
(* ================================================================== *)

Record UserCredentials := {
  username : jsstring;
  password : jsstring
}.

(** The values [ENV] took from [process.env] when the module was
    loaded; [None] is [undefined]. *)
Record ENV := {
  APP_VERSION : option jsstring;
  TEST_PLATFORM : option jsstring;
  TEST_TYPE : option jsstring;
  API_BASE_URL : option jsstring;
  TOKEN_USERNAME : option jsstring;
  TOKEN_PASSWORD : option jsstring
}.

(** The [process.env] values [FetchCIEnvironmentVariables] keeps in
    its [ciEnvironmentVariables] field. *)
Record CIEnvironmentVariables := {
  appVersion : option jsstring;
  testPlatform : option jsstring;
  testType : option jsstring;
  apiBaseUrl : option jsstring;
  tokenUsername : option jsstring;
  tokenPassword : option jsstring
}.

(** [undefined] and the empty text are the two falsy values a
    [process.env] entry can have. *)
Definition text_of (v : option jsstring) : jsstring :=
  match v with
  | Some s => s
  | None => []
  end.

Module SanitizationConfig.

(** The class of the pattern of [sanitizeString]: the two quotes, the
    backslash and the angle brackets. *)
Definition is_removed (c : codeunit) : bool :=
  (c =? 34) || (c =? 39) || (c =? 92) || (c =? 60) || (c =? 62).

(** [value.replace(pattern, '').trim()], the empty text for a falsy
    [value]. *)
Definition sanitizeString (value : option jsstring) : jsstring :=
  if negb (str_truthy (text_of value)) then []
  else trim (filter (fun c => negb (is_removed c)) (text_of value)).

End SanitizationConfig.

Module EnvironmentSecretKeyVariables.
Definition DEV : jsstring := lit "DEV_SECRET_KEY".
Definition UAT : jsstring := lit "UAT_SECRET_KEY".
Definition PROD : jsstring := lit "PROD_SECRET_KEY".
End EnvironmentSecretKeyVariables.

Module FetchLocalEnvironmentVariables.
Section WithPlatform.
Context (P : Platform) (env : ENV).

Definition decryptCredentials (username password secretKey : jsstring)
  : Task UserCredentials :=
  u <~ await (EncryptionService.decrypt P username secretKey) ;;
  p <~ await (EncryptionService.decrypt P password secretKey) ;;
  done {| username := u; password := p |}.

Definition verifyCredentials (credentials : UserCredentials) : Task unit :=
  if negb (str_truthy (username credentials))
     || negb (str_truthy (password credentials))
  then logAndThrow (lit "Invalid credentials: Missing username or password.")
  else done tt.

(** [decrypt] tests [!encryptedData] first, which is true for
    [undefined] as it is for the empty text. *)
Definition getTokenCredentials : Task UserCredentials :=
  credentials <~ decryptCredentials (text_of (TOKEN_USERNAME env))
                   (text_of (TOKEN_PASSWORD env)) EnvironmentSecretKeyVariables.UAT ;;
  verifyCredentials credentials ~;;
  done credentials.

Definition validateEnvironmentVariable (value : option jsstring)
  (variableName : jsstring) : Task unit :=
  if negb (str_truthy (text_of value)) || str_eqb (trim (text_of value)) []
  then fail (ErrorWith (lit "Environment variable " ++ variableName
                          ++ lit " is not set or is empty"))
  else done tt.

(** The result is the value itself; an [undefined] one never gets past
    the validation. *)
Definition getEnvironmentVariable (getValue : unit -> option jsstring)
  (variableName : jsstring) (sanitize : bool) : Task jsstring :=
  let value := getValue tt in
  validateEnvironmentVariable value variableName ~;;
  done (if sanitize then SanitizationConfig.sanitizeString value
        else text_of value).

Definition getAppVersion : Task jsstring :=
  getEnvironmentVariable (fun _ => APP_VERSION env) (lit "APP_VERSION") false.

Definition getTestPlatform : Task jsstring :=
  getEnvironmentVariable (fun _ => TEST_PLATFORM env) (lit "TEST_PLATFORM") false.

Definition getTestType : Task jsstring :=
  getEnvironmentVariable (fun _ => TEST_TYPE env) (lit "TEST_TYPE") false.

Definition getApiBaseUrl : Task jsstring :=
  getEnvironmentVariable (fun _ => API_BASE_URL env) (lit "API_URL") false.

End WithPlatform.
End FetchLocalEnvironmentVariables.

(* ================================================================== *)
(** * FetchCIEnvironmentVariables *)
(* ================================================================== *)

Module FetchCIEnvironmentVariables.
Section WithVariables.
Context (ciEnvironmentVariables : CIEnvironmentVariables).

Definition verifyCredentials (credentials : UserCredentials) : Task unit :=
  if negb (str_truthy (username credentials))
     || negb (str_truthy (password credentials))
  then logAndThrow (lit "Invalid credentials: Missing username or password.")
  else done tt.

Definition getTokenCredentials : Task UserCredentials :=
  let credentials :=
    {| username :=
         SanitizationConfig.sanitizeString (tokenUsername ciEnvironmentVariables);
       password :=
         SanitizationConfig.sanitizeString (tokenPassword ciEnvironmentVariables) |} in
  verifyCredentials credentials ~;;
  done credentials.

Definition validateEnvironmentVariable (value : option jsstring)
  (variableName : jsstring) : Task unit :=
  if negb (str_truthy (text_of value)) || str_eqb (trim (text_of value)) []
  then fail (ErrorWith (lit "Environment variable " ++ variableName
                          ++ lit " is not set or is empty"))
  else done tt.

Definition getEnvironmentVariable (getValue : unit -> option jsstring)
  (variableName : jsstring) : Task jsstring :=
  let value := getValue tt in
  validateEnvironmentVariable value variableName ~;;
  done (SanitizationConfig.sanitizeString value).

Definition getAppVersion : Task jsstring :=
  getEnvironmentVariable (fun _ => appVersion ciEnvironmentVariables)
    (lit "CI_APP_VERSION").

Definition getTestPlatform : Task jsstring :=
  getEnvironmentVariable (fun _ => testPlatform ciEnvironmentVariables)
    (lit "CI_TEST_PLATFORM").

Definition getTestType : Task jsstring :=
  getEnvironmentVariable (fun _ => testType ciEnvironmentVariables)
    (lit "CI_TEST_TYPE").

Definition getApiBaseUrl : Task jsstring :=
  getEnvironmentVariable (fun _ => apiBaseUrl ciEnvironmentVariables)
    (lit "CI_API_BASE_URL").

End WithVariables.
End FetchCIEnvironmentVariables.

Module FetchCI := FetchCIEnvironmentVariables.

Module Fetch := FetchLocalEnvironmentVariables.
Module Batch := EncryptionServiceBatch.

(** A computation that leaves the world as it is. *)
Definition unchanging {A} (m : M A) : Prop := forall w, snd (m w) = w.

(** The envelope the stand-in platform makes for [value] under
    [secretKey] in the world [w]. *)
Definition demo_envelope (value secretKey : jsstring) (w : World)
  : EncryptionParameters :=
  match fst (EncryptionService.encrypt Demo.platform value secretKey w) with
  | Ok e => e
  | Throw _ => {| salt := []; iv := []; cipherText := [] |}
  end.

(* ================================================================== *)
(** * A JavaScript [Map] with text keys *)
(* ================================================================== *)

(** The entries in insertion order.  [set] on a key that is present
    changes the value where the entry stands, a new key goes to the
    end; the keys of a map are distinct. *)
Definition JsMap (V : Type) : Type := list (jsstring * V).

Fixpoint map_get {V} (m : JsMap V) (k : jsstring) : option V :=
  match m with
  | [] => None
  | (k', v) :: r => if str_eqb k' k then Some v else map_get r k
  end.

Fixpoint map_set {V} (m : JsMap V) (k : jsstring) (v : V) : JsMap V :=
  match m with
  | [] => [(k, v)]
  | (k', v') :: r =>
      if str_eqb k' k then (k', v) :: r else (k', v') :: map_set r k v
  end.

Fixpoint map_delete {V} (m : JsMap V) (k : jsstring) : JsMap V :=
  match m with
  | [] => []
  | (k', v) :: r => if str_eqb k' k then r else (k', v) :: map_delete r k
  end.

Definition map_size {V} (m : JsMap V) : N := N.of_nat (length m).

(* ================================================================== *)
(** * src/api/context/requestContext.ts *)
(* ================================================================== *)

Record RequestExpectation := {
  expectedStatusCodes : list N;
  isNegativeTest : bool
}.

Module RequestContext.

Definition Expectations := JsMap RequestExpectation.

(** [isNegativeTest] is false when the caller leaves it out. *)
Definition registerExpectation (contextKey : jsstring)
  (expectedStatusCodes : list N) (isNegative : option bool)
  (expectations : Expectations) : Expectations :=
  map_set expectations contextKey
    {| expectedStatusCodes := expectedStatusCodes;
       isNegativeTest := match isNegative with Some b => b | None => false end |}.

Definition isExpectedStatus (expectations : Expectations)
  (contextKey : jsstring) (statusCode : N) : bool :=
  match map_get expectations contextKey with
  | Some expectation => existsb (N.eqb statusCode) (expectedStatusCodes expectation)
  | None => false
  end.

Definition isNegativeTest (expectations : Expectations)
  (contextKey : jsstring) : bool :=
  match map_get expectations contextKey with
  | Some expectation => isNegativeTest expectation
  | None => false
  end.

Definition clearExpectations (expectations : Expectations) : Expectations := [].

End RequestContext.

(* ================================================================== *)
(** * src/utils/errors/errorProcessor.ts: the cache key *)
(* ================================================================== *)

(** The fields of [ErrorDetails] the cache key is made of.  [category]
    is the text of the [ErrorCategory] member. *)
Record ErrorDetails := {
  source : jsstring;
  category : jsstring;
  statusCode : option N;
  message : jsstring
}.

Module ErrorProcessor.

(** A status code that is [undefined] or zero is printed as 0. *)
Definition createCacheKey (details : ErrorDetails) : jsstring :=
  source details ++ lit "_" ++ category details ++ lit "_"
  ++ match statusCode details with
     | Some n => if n =? 0 then lit "0" else decimal n
     | None => lit "0"
     end
  ++ lit "_" ++ firstn 30 (message details).

End ErrorProcessor.

(* ================================================================== *)
(** * src/utils/errors/errorHandler.ts *)
(* ================================================================== *)

(** What [captureError] did with an error: left it out as the expected
    error of a negative test, left it out as a repetition, or reported
    it at level error. *)
Inductive Capture := Skipped | Suppressed | Reported.

Module ErrorHandler.

(** [loggedErrors]: cache key to the reading of [Date.now()], in
    milliseconds, when the error was reported. *)
Definition Cache := JsMap Z.

Definition MAX_CACHE_SIZE : N := 1000.
Definition CACHE_TTL : Z := (1000 * 60 * 20)%Z.

Definition resetCache (loggedErrors : Cache) : Cache := [].

(** [now] is read only when there is a time stamp, and a time stamp of
    zero counts as none. *)
Definition isRecentlyLogged (now : Z) (cacheKey : jsstring)
  (loggedErrors : Cache) : bool * Cache :=
  match map_get loggedErrors cacheKey with
  | None => (false, loggedErrors)
  | Some timestamp =>
      if (timestamp =? 0)%Z then (false, loggedErrors)
      else if (now - timestamp >? CACHE_TTL)%Z
           then (false, map_delete loggedErrors cacheKey)
           else (true, loggedErrors)
  end.

(** [forEach] visits every entry of the map; deleting the entry it is
    at does not disturb the visit of the others. *)
Definition cleanExpiredEntries (now : Z) (loggedErrors : Cache) : Cache :=
  fold_left
    (fun (m : Cache) (entry : jsstring * Z) =>
       if (now - snd entry >? CACHE_TTL)%Z then map_delete m (fst entry) else m)
    loggedErrors loggedErrors.

(** [Array.prototype.sort] with the comparator
    [timestampA - timestampB]: ascending time stamps, and entries with
    the same time stamp in the order they had (the sort is stable). *)
Fixpoint insert_by_timestamp (entry : jsstring * Z) (sorted : list (jsstring * Z))
  : list (jsstring * Z) :=
  match sorted with
  | [] => [entry]
  | x :: r =>
      if (snd entry <=? snd x)%Z then entry :: sorted
      else x :: insert_by_timestamp entry r
  end.

Definition sort_by_timestamp (entries : list (jsstring * Z)) : list (jsstring * Z) :=
  fold_right insert_by_timestamp [] entries.

Definition removeOldestEntries (loggedErrors : Cache) : Cache :=
  let errorEntryList := sort_by_timestamp loggedErrors in
  let excessEntryCount := map_size loggedErrors - MAX_CACHE_SIZE in
  fold_left (fun (m : Cache) (entry : jsstring * Z) => map_delete m (fst entry))
    (firstn (N.to_nat excessEntryCount) errorEntryList) loggedErrors.

Definition manageCacheSize (now : Z) (cacheKey : jsstring)
  (loggedErrors : Cache) : Cache :=
  let cleaned := cleanExpiredEntries now loggedErrors in
  let added := map_set cleaned cacheKey now in
  if MAX_CACHE_SIZE <? map_size added then removeOldestEntries added else added.

Section WithHelpers.

(** The errors [captureError] is given, with what it asks of them:
    [axios_status error] is [error.response.status] of an axios error
    that has a response, [createErrorDetails] is the helper of
    [errorProcessor.ts] that classifies the error. *)
Context {Error : Type}.
Context (axios_status : Error -> option N).
Context (createErrorDetails : Error -> jsstring -> option jsstring -> ErrorDetails).

Definition shouldSkipErrorLogging (expectations : RequestContext.Expectations)
  (error : Error) (context : option jsstring) : bool :=
  match context with
  | None => false
  | Some c =>
      if negb (str_truthy c) then false
      else match axios_status error with
           | Some status =>
               if status =? 0 then false
               else RequestContext.isExpectedStatus expectations c status
                    && RequestContext.isNegativeTest expectations c
           | None => false
           end
  end.

(** [captureError] up to the report: [now_read] and [now_added] are the
    readings of [Date.now()] in [isRecentlyLogged] and in
    [manageCacheSize]. *)
Definition captureError (expectations : RequestContext.Expectations)
  (now_read now_added : Z) (error : Error) (source : jsstring)
  (context : option jsstring) (loggedErrors : Cache) : Capture * Cache :=
  if shouldSkipErrorLogging expectations error context
  then (Skipped, loggedErrors)
  else
    let details := createErrorDetails error source context in
    let cacheKey := ErrorProcessor.createCacheKey details in
    let (recent, checked) := isRecentlyLogged now_read cacheKey loggedErrors in
    if recent then (Suppressed, checked)
    else (Reported, manageCacheSize now_added cacheKey checked).

End WithHelpers.
End ErrorHandler.

(** One call of [captureError]: the two clock readings and the
    arguments. *)
Record Call (Error : Type) := {
  now_read : Z;
  now_added : Z;
  error : Error;
  call_source : jsstring;
  call_context : option jsstring
}.
Arguments now_read {Error}.
Arguments now_added {Error}.
Arguments error {Error}.
Arguments call_source {Error}.
Arguments call_context {Error}.

(** The cache after a series of calls of [captureError]. *)
Definition after_calls {Error : Type} (axios_status : Error -> option N)
  (createErrorDetails : Error -> jsstring -> option jsstring -> ErrorDetails)
  (expectations : RequestContext.Expectations)
  (calls : list (Call Error)) (loggedErrors : ErrorHandler.Cache)
  : ErrorHandler.Cache :=
  fold_left
    (fun m c =>
       snd (ErrorHandler.captureError axios_status createErrorDetails expectations
              (now_read c) (now_added c) (error c) (call_source c)
              (call_context c) m))
    calls loggedErrors.


(** The representation invariant of a [Map]: the keys are distinct. *)
Definition distinct_keys {V} (m : JsMap V) : Prop := NoDup (map fst m).

(** Deleting from [m] the keys of the entries of [es] that [cond]
    picks, one after the other. *)
Definition delete_where {V} (cond : jsstring * V -> bool)
  (es : list (jsstring * V)) (m : JsMap V) : JsMap V :=
  fold_left (fun (m : JsMap V) e => if cond e then map_delete m (fst e) else m) es m.

(** [k1] does not come after [k2] in the order of own keys: array
    indices ascending, then the other names. *)
Definition key_before (k1 k2 : jsstring) : Prop :=
  match array_index k1, array_index k2 with
  | Some a, Some b => a <= b
  | Some _, None => True
  | None, Some _ => False
  | None, None => True
  end.

Fixpoint key_ordered (keys : list jsstring) : Prop :=
  match keys with
  | [] => True
  | k :: rest => Forall (key_before k) rest /\ key_ordered rest
  end.
(* ================================================================== *)
(** * Facts about strings *)
(* ================================================================== *)

Section StringFacts.

Lemma str_eqb_refl (a : jsstring) : str_eqb a a = true.
Proof. induction a as [|x a IH]; simpl; [reflexivity|]. now rewrite N.eqb_refl. Qed.

Lemma str_eqb_eq (a b : jsstring) : str_eqb a b = true <-> a = b.
Proof.
  split.
  - revert b. induction a as [|x a IH]; intros [|y b]; simpl; try discriminate; auto.
    intros H. apply andb_true_iff in H as [H1 H2].
    apply N.eqb_eq in H1. apply IH in H2. congruence.
  - intros ->. apply str_eqb_refl.
Qed.

Lemma str_eqb_neq (a b : jsstring) : str_eqb a b = false <-> a <> b.
Proof.
  destruct (str_eqb a b) eqn:E.
  - apply str_eqb_eq in E. split; [discriminate | intros H; contradiction].
  - split; [|reflexivity]. intros _ H. apply str_eqb_eq in H. congruence.
Qed.

Lemma str_eqb_sym (a b : jsstring) : str_eqb a b = str_eqb b a.
Proof.
  destruct (str_eqb a b) eqn:E; symmetry.
  - apply str_eqb_eq in E. subst. apply str_eqb_refl.
  - apply str_eqb_neq in E. apply str_eqb_neq. congruence.
Qed.

Lemma str_truthy_true (s : jsstring) : str_truthy s = true <-> s <> [].
Proof. destruct s; simpl; split; congruence. Qed.

Lemma startsWith_app (p r : jsstring) : startsWith (p ++ r) p = true.
Proof. induction p as [|y p IH]; simpl; [reflexivity|]. now rewrite N.eqb_refl. Qed.

Lemma startsWith_iff (s p : jsstring) :
  startsWith s p = true <-> exists r, s = p ++ r.
Proof.
  split.
  - revert s. induction p as [|y p IH]; intros s H.
    + now exists s.
    + destruct s as [|x s]; simpl in H; [discriminate|].
      apply andb_true_iff in H as [H1 H2]. apply N.eqb_eq in H1.
      destruct (IH _ H2) as [r ->]. exists r. now subst.
  - intros [r ->]. apply startsWith_app.
Qed.

Lemma startsWith_nil (p : jsstring) : startsWith [] p = true -> p = [].
Proof. destruct p; simpl; [reflexivity | discriminate]. Qed.

Lemma includes_false (s : jsstring) (c : codeunit) :
  includes s c = false <-> ~ In c s.
Proof.
  unfold includes. induction s as [|x s IH]; simpl.
  - split; auto.
  - rewrite orb_false_iff, IH. split.
    + intros [H1 H2] [H | H]; [subst; now rewrite N.eqb_refl in H1 | auto].
    + intros H. split; [|tauto]. apply N.eqb_neq. intros ->. tauto.
Qed.

Lemma includes_true (s : jsstring) (c : codeunit) :
  includes s c = true <-> In c s.
Proof.
  destruct (includes s c) eqn:E.
  - split; [|reflexivity]. intros _. destruct (in_dec N.eq_dec c s) as [H|H]; [exact H|].
    apply includes_false in H. congruence.
  - apply includes_false in E. split; [discriminate | contradiction].
Qed.

(** ** trim *)

Lemma trimStart_head (s : jsstring) (c : codeunit) (r : jsstring) :
  trimStart s = c :: r -> isWhiteSpace c = false.
Proof.
  induction s as [|x s IH]; simpl; [discriminate|].
  destruct (isWhiteSpace x) eqn:E; [exact IH|]. intros H. now inversion H; subst.
Qed.

Lemma trimStart_fixed (c : codeunit) (r : jsstring) :
  isWhiteSpace c = false -> trimStart (c :: r) = c :: r.
Proof. intros H. simpl. now rewrite H. Qed.

Lemma trimStart_suffix (s : jsstring) : exists l, s = l ++ trimStart s.
Proof.
  induction s as [|x s [l IH]]; simpl.
  - now exists [].
  - destruct (isWhiteSpace x).
    + exists (x :: l). simpl. now f_equal.
    + now exists [].
Qed.

Lemma trimEnd_nil_or_head (c : codeunit) (r : jsstring) :
  trimEnd (c :: r) = [] \/ exists t, trimEnd (c :: r) = c :: t.
Proof.
  simpl. destruct (trimEnd r); [destruct (isWhiteSpace c)|]; eauto.
Qed.

Lemma trimEnd_head (c : codeunit) (r : jsstring) :
  isWhiteSpace c = false -> exists t, trimEnd (c :: r) = c :: t.
Proof.
  intros H. simpl. destruct (trimEnd r); [rewrite H|]; eauto.
Qed.

Lemma trimEnd_idempotent (s : jsstring) : trimEnd (trimEnd s) = trimEnd s.
Proof.
  induction s as [|c r IH]; simpl; [reflexivity|].
  destruct (trimEnd r) as [|x t] eqn:E.
  - destruct (isWhiteSpace c) eqn:W; simpl; [reflexivity | now rewrite W].
  - simpl in *. now rewrite IH.
Qed.

Lemma trim_head (s : jsstring) (c : codeunit) (r : jsstring) :
  trim s = c :: r -> isWhiteSpace c = false.
Proof.
  unfold trim. destruct (trimStart s) as [|x t] eqn:E; [discriminate|].
  pose proof (trimStart_head _ _ _ E) as W.
  destruct (trimEnd_head x t W) as [t' ->]. intros H. now inversion H; subst.
Qed.

Lemma trim_idempotent (s : jsstring) : trim (trim s) = trim s.
Proof.
  unfold trim at 1. destruct (trim s) as [|c r] eqn:E; [reflexivity|].
  rewrite trimStart_fixed by (eapply trim_head; eauto).
  rewrite <- E. unfold trim. apply trimEnd_idempotent.
Qed.

Lemma trimEnd_prefix (s : jsstring) : exists l, s = trimEnd s ++ l.
Proof.
  induction s as [|c r [l IH]]; simpl.
  - now exists [].
  - destruct (trimEnd r) as [|x t] eqn:E.
    + destruct (isWhiteSpace c).
      * now exists (c :: r).
      * exists l. simpl in *. now f_equal.
    + exists l. simpl in *. now f_equal.
Qed.

(** The last code unit of a trimmed string is not white space. *)
Lemma trimEnd_last (s t : jsstring) (c : codeunit) :
  trimEnd s = t ++ [c] -> isWhiteSpace c = false.
Proof.
  revert t. induction s as [|x r IH]; intros t; simpl.
  - destruct t; discriminate.
  - destruct (trimEnd r) as [|y u] eqn:E.
    + destruct (isWhiteSpace x) eqn:W; [destruct t; discriminate|].
      destruct t as [|? [|? ?]]; intros H; inversion H; now subst.
    + destruct t as [|z t]; intros H; inversion H; subst.
      eapply IH. eassumption.
Qed.

Lemma trimEnd_fixed (t : jsstring) (c : codeunit) :
  isWhiteSpace c = false -> trimEnd (t ++ [c]) = t ++ [c].
Proof.
  intros W. induction t as [|x t IH]; simpl.
  - now rewrite W.
  - rewrite IH. destruct t; reflexivity.
Qed.

Lemma trim_fixed (c d : codeunit) (m : jsstring) :
  isWhiteSpace c = false -> isWhiteSpace d = false ->
  trim (c :: m ++ [d]) = c :: m ++ [d].
Proof.
  intros Hc Hd. unfold trim. rewrite trimStart_fixed by assumption.
  change (c :: m ++ [d]) with ((c :: m) ++ [d]). now apply trimEnd_fixed.
Qed.

Lemma trim_single (c : codeunit) : isWhiteSpace c = false -> trim [c] = [c].
Proof. intros H. unfold trim. simpl. rewrite H. simpl. now rewrite H. Qed.

End StringFacts.

(** ** split and join *)

Section SplitJoin.
Variable sep : codeunit.

Lemma split_nonempty (s : jsstring) : split sep s <> [].
Proof.
  destruct s as [|c r]; simpl; [discriminate|].
  destruct (c =? sep); [discriminate|]. destruct (split sep r); discriminate.
Qed.

Lemma join_split (s : jsstring) : join sep (split sep s) = s.
Proof.
  induction s as [|c r IH]; simpl; [reflexivity|].
  destruct (c =? sep) eqn:E.
  - apply N.eqb_eq in E. subst c.
    change (join sep ([] :: split sep r)) with
      (match split sep r with [] => [] | _ :: _ => sep :: join sep (split sep r) end).
    pose proof (split_nonempty r). destruct (split sep r); [contradiction|].
    now rewrite IH.
  - pose proof (split_nonempty r). destruct (split sep r) as [|h t]; [contradiction|].
    destruct t; simpl in *; now rewrite <- IH.
Qed.

Lemma split_no_sep (s : jsstring) : ~ In sep s -> split sep s = [s].
Proof.
  induction s as [|c r IH]; simpl; intros H; [reflexivity|].
  destruct (N.eqb_spec c sep) as [->|_]; [tauto|].
  rewrite IH by tauto. reflexivity.
Qed.

Lemma split_app_sep (k v : jsstring) :
  ~ In sep k -> split sep (k ++ sep :: v) = k :: split sep v.
Proof.
  induction k as [|c k IH]; simpl; intros H.
  - now rewrite N.eqb_refl.
  - destruct (N.eqb_spec c sep) as [->|_]; [tauto|].
    rewrite IH by tauto. reflexivity.
Qed.

(** The first part holds no separator, and the input is the first part
    alone or the first part, a separator and the joined rest. *)
Lemma split_cons (s k : jsstring) (parts : list jsstring) :
  split sep s = k :: parts ->
  ~ In sep k /\
  ((parts = [] /\ s = k) \/ (parts <> [] /\ s = k ++ sep :: join sep parts)).
Proof.
  revert k parts. induction s as [|c r IH]; simpl; intros k parts H.
  - inversion H; subst. split; [tauto|]. now left.
  - destruct (N.eqb_spec c sep) as [->|Hc].
    + inversion H; subst. split; [tauto|]. right.
      split; [apply split_nonempty|]. simpl. now rewrite join_split.
    + pose proof (split_nonempty r) as Hne.
      destruct (split sep r) as [|h t] eqn:E; [contradiction|].
      inversion H; subst. destruct (IH h parts eq_refl) as [Hh Hs].
      split; [simpl; intros [?|?]; [congruence | tauto]|].
      destruct Hs as [[-> ->] | [Hp ->]]; [now left | now right].
Qed.

Lemma join_cons (a : jsstring) (rest : list jsstring) :
  rest <> [] -> join sep (a :: rest) = a ++ sep :: join sep rest.
Proof. destruct rest; [contradiction | reflexivity]. Qed.

Lemma split_join (ls : list jsstring) :
  ls <> [] -> Forall (fun l => ~ In sep l) ls -> split sep (join sep ls) = ls.
Proof.
  induction ls as [|a rest IH]; intros Hne Hall; [contradiction|].
  inversion Hall as [|? ? Ha Hrest]; subst.
  destruct rest as [|b rest].
  - simpl. now apply split_no_sep.
  - rewrite join_cons by discriminate. rewrite split_app_sep by assumption.
    now rewrite IH.
Qed.

Lemma split_parts_no_sep (s : jsstring) : Forall (fun l => ~ In sep l) (split sep s).
Proof.
  induction s as [|c r IH]; simpl.
  - constructor; [tauto | constructor].
  - destruct (N.eqb_spec c sep) as [->|Hc].
    + constructor; [tauto | assumption].
    + destruct (split sep r) as [|h t]; [repeat constructor; simpl; intros [?|[]]; congruence|].
      inversion IH; subst. constructor; [|assumption].
      simpl. intros [?|?]; [congruence | tauto].
Qed.

End SplitJoin.

(** ** What trimming keeps *)

Lemma trimStart_incl (s : jsstring) (c : codeunit) : In c (trimStart s) -> In c s.
Proof.
  destruct (trimStart_suffix s) as [l H]. intros Hin. rewrite H.
  apply in_or_app. now right.
Qed.

Lemma trimEnd_incl (s : jsstring) (c : codeunit) : In c (trimEnd s) -> In c s.
Proof.
  destruct (trimEnd_prefix s) as [l H]. intros Hin. rewrite H.
  apply in_or_app. now left.
Qed.

Lemma trim_incl (s : jsstring) (c : codeunit) : In c (trim s) -> In c s.
Proof. intros H. apply trimStart_incl, trimEnd_incl, H. Qed.

Lemma trimStart_app_last (t : jsstring) (c : codeunit) :
  isWhiteSpace c = false -> exists t', trimStart (t ++ [c]) = t' ++ [c].
Proof.
  intros W. induction t as [|x t [t' IH]]; simpl.
  - rewrite W. now exists [].
  - destruct (isWhiteSpace x); [now exists t' | now exists (x :: t)].
Qed.

(** A string ending in a visible character keeps that ending when
    trimmed. *)
Lemma trim_app_last (t : jsstring) (c : codeunit) :
  isWhiteSpace c = false -> exists t', trim (t ++ [c]) = t' ++ [c].
Proof.
  intros W. unfold trim. destruct (trimStart_app_last t c W) as [t' ->].
  exists t'. now apply trimEnd_fixed.
Qed.

Lemma trim_last (s t : jsstring) (c : codeunit) :
  trim s = t ++ [c] -> isWhiteSpace c = false.
Proof. unfold trim. apply trimEnd_last. Qed.

Lemma trim_cons_head (c : codeunit) (r : jsstring) :
  isWhiteSpace c = false -> exists t, trim (c :: r) = c :: t.
Proof.
  intros W. unfold trim. rewrite trimStart_fixed by assumption.
  now apply trimEnd_head.
Qed.

(** A trimmed non-empty string is fixed by [trim]. *)
Lemma trim_eq_fixed (s : jsstring) : trim (trim s) = trim s.
Proof. apply trim_idempotent. Qed.

Lemma list_last_cases {A} (l : list A) : l = [] \/ exists t c, l = t ++ [c].
Proof.
  destruct l as [|a l]; [now left | right].
  destruct (@exists_last _ (a :: l)) as (t & c & H); [discriminate|]. eauto.
Qed.

(* ================================================================== *)
(** * Lines of an environment file *)
(* ================================================================== *)


Lemma trimmed_head (s : jsstring) :
  s <> [] -> trim s = s -> exists c r, s = c :: r /\ isWhiteSpace c = false.
Proof.
  intros Hne Ht. destruct s as [|c r]; [contradiction|].
  exists c, r. split; [reflexivity|]. eapply trim_head. exact Ht.
Qed.

Lemma trimmed_last (s : jsstring) :
  s <> [] -> trim s = s -> exists t c, s = t ++ [c] /\ isWhiteSpace c = false.
Proof.
  intros Hne Ht. destruct (list_last_cases s) as [->|(t & c & ->)]; [contradiction|].
  exists t, c. split; [reflexivity|]. eapply trim_last. exact Ht.
Qed.

(** What a parsed line looks like: after trimming it is a key without
    [=], an [=] and a value, both non-empty; the result holds both
    trimmed. *)
Lemma parseEnvironmentLine_inv (line k v : jsstring) :
  Mgr.parseEnvironmentLine line = Some (k, v) ->
  exists key value,
    trim line = key ++ ch_equals :: value /\ ~ In ch_equals key /\
    key <> [] /\ value <> [] /\ k = trim key /\ v = trim value.
Proof.
  unfold Mgr.parseEnvironmentLine.
  destruct (str_eqb (trim line) [] || negb (includes (trim line) ch_equals)) eqn:E;
    [discriminate|].
  apply orb_false_iff in E as [_ E]. apply negb_false_iff, includes_true in E.
  destruct (split ch_equals (trim line)) as [|key parts] eqn:S; [discriminate|].
  destruct (split_cons _ _ _ _ S) as [Hk [[-> Hs] | [Hp Hs]]].
  - rewrite Hs in E. contradiction.
  - destruct (str_truthy key && str_truthy (join ch_equals parts)) eqn:T; [|discriminate].
    apply andb_true_iff in T as [T1 T2].
    apply str_truthy_true in T1, T2. intros H. inversion H; subst.
    exists key, (join ch_equals parts). repeat split; auto.
Qed.

Lemma trim_nonempty_of_last (t : jsstring) (c : codeunit) :
  isWhiteSpace c = false -> trim (t ++ [c]) <> [].
Proof.
  intros W. destruct (trim_app_last t c W) as [t' ->]. destruct t'; discriminate.
Qed.

(** Keys and values handed out by the parser are non-empty and trimmed,
    and a key holds no [=]. *)
Lemma parseEnvironmentLine_props (line k v : jsstring) :
  Mgr.parseEnvironmentLine line = Some (k, v) ->
  k <> [] /\ trim k = k /\ ~ In ch_equals k /\ v <> [] /\ trim v = v.
Proof.
  intros H. destruct (parseEnvironmentLine_inv _ _ _ H)
    as (key & value & Ht & Hk & Hkne & Hvne & -> & ->).
  destruct key as [|c key]; [contradiction|].
  assert (Wc : isWhiteSpace c = false) by (eapply trim_head; exact Ht).
  destruct (list_last_cases value) as [->|(t & d & ->)]; [contradiction|].
  assert (Wd : isWhiteSpace d = false).
  { eapply (trim_last line ((c :: key) ++ ch_equals :: t)).
    rewrite Ht. now rewrite <- app_assoc. }
  repeat split.
  - destruct (trim_cons_head c key Wc) as [t' ->]. discriminate.
  - apply trim_idempotent.
  - intros Hin. apply Hk. now apply trim_incl.
  - now apply trim_nonempty_of_last.
  - apply trim_idempotent.
Qed.

(** A line written as [KEY=VALUE] from its first column parses to that
    key and value. *)
Lemma parseEnvironmentLine_assignment (k v : jsstring) :
  k <> [] -> trim k = k -> ~ In ch_equals k -> v <> [] -> trim v = v ->
  Mgr.parseEnvironmentLine (Mgr.assignment k v) = Some (k, v).
Proof.
  intros Hk Htk Hek Hv Htv.
  destruct (trimmed_head k Hk Htk) as (c & kr & -> & Wc).
  destruct (trimmed_last v Hv Htv) as (vt & d & -> & Wd).
  unfold Mgr.parseEnvironmentLine, Mgr.assignment.
  assert (T : trim ((c :: kr) ++ ch_equals :: vt ++ [d])
              = (c :: kr) ++ ch_equals :: vt ++ [d]).
  { replace ((c :: kr) ++ ch_equals :: vt ++ [d])
      with (c :: (kr ++ ch_equals :: vt) ++ [d])
      by (simpl; now rewrite <- app_assoc).
    now apply trim_fixed. }
  rewrite T.
  replace (includes ((c :: kr) ++ ch_equals :: vt ++ [d]) ch_equals) with true
    by (symmetry; apply includes_true, in_or_app; right; now left).
  simpl (str_eqb _ []). simpl (false || negb true).
  rewrite split_app_sep by assumption.
  pose proof (join_split ch_equals (vt ++ [d])) as J. rewrite J.
  simpl (str_truthy (c :: kr)).
  replace (str_truthy (vt ++ [d])) with true
    by (symmetry; apply str_truthy_true; destruct vt; discriminate).
  simpl. now rewrite Htk, Htv.
Qed.


(** ** Rewriting the lines *)

Section UpdateLines.

Lemma update_lines_eq (lines : list jsstring) (k v : jsstring) :
  Mgr.updateEnvironmentFileLines lines k v =
  map (fun line => if begins_with_key k line then Mgr.assignment k v else line) lines
  ++ (if existsb (begins_with_key k) lines then [] else [Mgr.assignment k v]).
Proof.
  unfold Mgr.updateEnvironmentFileLines, begins_with_key.
  destruct (existsb _ lines); simpl; [now rewrite app_nil_r | reflexivity].
Qed.

Lemma update_lines_nth (lines : list jsstring) (k v : jsstring) (i : nat)
  (line : jsstring) :
  nth_error lines i = Some line ->
  nth_error (Mgr.updateEnvironmentFileLines lines k v) i =
  Some (if begins_with_key k line then Mgr.assignment k v else line).
Proof.
  intros H. rewrite update_lines_eq.
  rewrite nth_error_app1 by (rewrite length_map; apply nth_error_Some; congruence).
  rewrite nth_error_map, H. reflexivity.
Qed.

Lemma update_lines_length (lines : list jsstring) (k v : jsstring) :
  length (Mgr.updateEnvironmentFileLines lines k v) =
  (length lines + if existsb (begins_with_key k) lines then 0 else 1)%nat.
Proof.
  rewrite update_lines_eq, length_app, length_map.
  destruct (existsb _ lines); reflexivity.
Qed.


(** Two keys without [=]: a line [k=...] begins with [k2=] only when
    the keys are the same. *)
Lemma begins_with_other_key (k k2 v : jsstring) :
  ~ In ch_equals k -> ~ In ch_equals k2 ->
  begins_with_key k2 (Mgr.assignment k v) = true -> k2 = k.
Proof.
  unfold begins_with_key, Mgr.assignment. revert k2.
  induction k as [|c k IH]; intros [|d k2] Hk Hk2; cbn [startsWith app].
  - reflexivity.
  - destruct (N.eqb_spec ch_equals d) as [<-|_]; [simpl in Hk2; tauto | discriminate].
  - destruct (N.eqb_spec c ch_equals) as [->|_]; [simpl in Hk; tauto | discriminate].
  - destruct (N.eqb_spec c d) as [->|_]; [|discriminate].
    cbn [andb]. intros H. f_equal. apply IH; simpl in *; tauto.
Qed.

Lemma begins_with_two_keys (k k2 line : jsstring) :
  ~ In ch_equals k -> ~ In ch_equals k2 ->
  begins_with_key k line = true -> begins_with_key k2 line = true -> k2 = k.
Proof.
  unfold begins_with_key. intros Hk Hk2 H1 H2.
  apply startsWith_iff in H1 as [r ->]. rewrite <- app_assoc in H2. simpl in H2.
  now apply (begins_with_other_key k k2 r).
Qed.

End UpdateLines.

(** ** A run of updates *)

Section ApplyUpdates.

Lemma keys_plain_cons (k v : jsstring) (rest : list (jsstring * jsstring)) :
  keys_plain ((k, v) :: rest) ->
  ~ In ch_equals k /\ keys_plain rest /\
  (forall k2 v2, In (k2, v2) rest -> k2 <> k /\ ~ In ch_equals k2).
Proof.
  intros [Hnd Hall]. inversion Hnd as [|? ? Hnotin Hnd']; subst.
  inversion Hall as [|? ? Hk Hall']; subst. simpl in Hk.
  split; [assumption|]. split; [split; assumption|].
  intros k2 v2 Hin. split.
  - intros ->. apply Hnotin. now apply (in_map fst) in Hin.
  - rewrite Forall_forall in Hall'. now apply (Hall' (k2, v2)).
Qed.

Lemma apply_updates_cons (k v : jsstring) (rest : list (jsstring * jsstring))
  (lines : list jsstring) :
  apply_updates ((k, v) :: rest) lines =
  apply_updates rest (Mgr.updateEnvironmentFileLines lines k v).
Proof. reflexivity. Qed.

Lemma apply_updates_app (u1 u2 : list (jsstring * jsstring)) (lines : list jsstring) :
  apply_updates (u1 ++ u2) lines = apply_updates u2 (apply_updates u1 lines).
Proof. unfold apply_updates. apply fold_left_app. Qed.

Lemma apply_updates_length (updates : list (jsstring * jsstring))
  (lines : list jsstring) :
  (length lines <= length (apply_updates updates lines))%nat.
Proof.
  revert lines. induction updates as [|[k v] rest IH]; intros lines; [simpl; lia|].
  rewrite apply_updates_cons. specialize (IH (Mgr.updateEnvironmentFileLines lines k v)).
  rewrite update_lines_length in IH. lia.
Qed.

(** A line that begins with none of the updated keys keeps its place
    and its text. *)
Lemma apply_updates_frame (updates : list (jsstring * jsstring))
  (lines : list jsstring) (i : nat) (line : jsstring) :
  nth_error lines i = Some line ->
  (forall k v, In (k, v) updates -> begins_with_key k line = false) ->
  nth_error (apply_updates updates lines) i = Some line.
Proof.
  revert lines. induction updates as [|[k v] rest IH]; intros lines Hn Hno;
    [exact Hn|].
  rewrite apply_updates_cons. apply IH.
  - rewrite (update_lines_nth _ _ _ _ _ Hn), (Hno k v) by now left. reflexivity.
  - intros k2 v2 Hin. apply (Hno k2 v2). now right.
Qed.

Lemma apply_updates_nth (updates : list (jsstring * jsstring))
  (lines : list jsstring) (i : nat) (line : jsstring) :
  keys_plain updates ->
  nth_error lines i = Some line ->
  nth_error (apply_updates updates lines) i =
  Some (match find (fun kv => begins_with_key (fst kv) line) updates with
        | Some (k, v) => Mgr.assignment k v
        | None => line
        end).
Proof.
  revert lines line. induction updates as [|[k v] rest IH]; intros lines line Hp Hn;
    [exact Hn|].
  destruct (keys_plain_cons _ _ _ Hp) as (Hk & Hrest & Hother).
  rewrite apply_updates_cons. cbn [find fst].
  pose proof (update_lines_nth lines k v i line Hn) as Hn1.
  destruct (begins_with_key k line) eqn:B.
  - apply apply_updates_frame; [exact Hn1|].
    intros k2 v2 Hin. destruct (Hother _ _ Hin) as [Hne Hk2].
    destruct (begins_with_key k2 (Mgr.assignment k v)) eqn:B2; [|reflexivity].
    exfalso. apply Hne. now apply (begins_with_other_key k k2 v).
  - now apply IH.
Qed.

Lemma existsb_update_other (lines : list jsstring) (k v k2 : jsstring) :
  ~ In ch_equals k -> ~ In ch_equals k2 -> k2 <> k ->
  existsb (begins_with_key k2) (Mgr.updateEnvironmentFileLines lines k v)
  = existsb (begins_with_key k2) lines.
Proof.
  intros Hk Hk2 Hne.
  assert (Hnew : begins_with_key k2 (Mgr.assignment k v) = false).
  { destruct (begins_with_key k2 (Mgr.assignment k v)) eqn:B; [|reflexivity].
    exfalso. apply Hne. now apply (begins_with_other_key k k2 v). }
  rewrite update_lines_eq, existsb_app.
  replace (existsb (begins_with_key k2)
             (if existsb (begins_with_key k) lines then [] else [Mgr.assignment k v]))
    with false
    by (destruct (existsb (begins_with_key k) lines); simpl; now rewrite ?Hnew).
  rewrite orb_false_r. induction lines as [|l lines IH]; [reflexivity|].
  cbn [map existsb]. rewrite IH. f_equal.
  destruct (begins_with_key k l) eqn:B; [|reflexivity].
  rewrite Hnew. symmetry. destruct (begins_with_key k2 l) eqn:B2; [|reflexivity].
  exfalso. apply Hne. now apply (begins_with_two_keys k k2 l).
Qed.

Lemma skipn_nth_error {A} (l : list A) (n : nat) (x : A) :
  nth_error l n = Some x -> skipn n l = x :: skipn (S n) l.
Proof.
  revert l. induction n as [|n IH]; intros [|a l] H; try discriminate.
  - now inversion H.
  - simpl in H. cbn [skipn]. rewrite (IH l H). reflexivity.
Qed.

(** The lines added at the end are the assignments of the updated keys
    that no line of the file begins with, in the order of the
    updates. *)
Lemma apply_updates_tail (updates : list (jsstring * jsstring))
  (lines : list jsstring) :
  keys_plain updates ->
  skipn (length lines) (apply_updates updates lines) =
  map (fun kv => Mgr.assignment (fst kv) (snd kv))
      (filter (fun kv => negb (existsb (begins_with_key (fst kv)) lines)) updates).
Proof.
  revert lines. induction updates as [|[k v] rest IH]; intros lines Hp.
  - simpl. apply skipn_all.
  - destruct (keys_plain_cons _ _ _ Hp) as (Hk & Hrest & Hother).
    rewrite apply_updates_cons. cbn [filter fst].
    assert (Hfilter :
      filter (fun kv => negb (existsb (begins_with_key (fst kv))
                                (Mgr.updateEnvironmentFileLines lines k v))) rest
      = filter (fun kv => negb (existsb (begins_with_key (fst kv)) lines)) rest).
    { apply filter_ext_in. intros [k2 v2] Hin. destruct (Hother _ _ Hin).
      cbn [fst]. now rewrite existsb_update_other. }
    specialize (IH (Mgr.updateEnvironmentFileLines lines k v) Hrest).
    rewrite Hfilter in IH. rewrite update_lines_length in IH.
    destruct (existsb (begins_with_key k) lines) eqn:E; cbn [negb].
    + rewrite Nat.add_0_r in IH. exact IH.
    + cbn [map fst snd].
      assert (Hlast : nth_error (Mgr.updateEnvironmentFileLines lines k v) (length lines)
                      = Some (Mgr.assignment k v)).
      { rewrite update_lines_eq, E, nth_error_app2 by (rewrite length_map; lia).
        rewrite length_map, Nat.sub_diag. reflexivity. }
      rewrite (skipn_nth_error _ _ (Mgr.assignment k v)).
      * f_equal. replace (S (length lines)) with (length lines + 1)%nat by lia.
        exact IH.
      * apply apply_updates_frame; [exact Hlast|].
        intros k2 v2 Hin. destruct (Hother _ _ Hin) as [Hne Hk2].
        destruct (begins_with_key k2 (Mgr.assignment k v)) eqn:B2; [|reflexivity].
        exfalso. apply Hne. now apply (begins_with_other_key k k2 v).
Qed.

Lemma find_begins (updates : list (jsstring * jsstring)) (k v line : jsstring) :
  keys_plain updates -> In (k, v) updates -> begins_with_key k line = true ->
  find (fun kv => begins_with_key (fst kv) line) updates = Some (k, v).
Proof.
  induction updates as [|[k1 v1] rest IH]; intros Hp Hin B; [contradiction|].
  destruct (keys_plain_cons _ _ _ Hp) as (Hk1 & Hrest & Hother).
  cbn [find fst]. destruct Hin as [Heq | Hin].
  - inversion Heq; subst. now rewrite B.
  - destruct (Hother _ _ Hin) as [Hne Hk].
    destruct (begins_with_key k1 line) eqn:B1; [|now apply IH].
    exfalso. apply Hne. now apply (begins_with_two_keys k1 k line).
Qed.

(** Every line that begins with an updated key is replaced, where it
    stands, by that key's assignment. *)
Lemma apply_updates_replaced (updates : list (jsstring * jsstring))
  (lines : list jsstring) (i : nat) (line k v : jsstring) :
  keys_plain updates -> In (k, v) updates ->
  nth_error lines i = Some line -> begins_with_key k line = true ->
  nth_error (apply_updates updates lines) i = Some (Mgr.assignment k v).
Proof.
  intros Hp Hin Hn B. rewrite (apply_updates_nth _ _ _ _ Hp Hn).
  now rewrite (find_begins _ _ _ _ Hp Hin B).
Qed.

(** An updated key that no line begins with is added at the end. *)
Lemma apply_updates_appended (updates : list (jsstring * jsstring))
  (lines : list jsstring) (k v : jsstring) :
  keys_plain updates -> In (k, v) updates ->
  (forall line, In line lines -> begins_with_key k line = false) ->
  In (Mgr.assignment k v) (skipn (length lines) (apply_updates updates lines)).
Proof.
  intros Hp Hin Hno. rewrite apply_updates_tail by assumption.
  apply (in_map (fun kv => Mgr.assignment (fst kv) (snd kv)) _ (k, v)).
  apply filter_In. split; [assumption|]. cbn [fst].
  apply negb_true_iff, not_true_is_false. intros E.
  apply existsb_exists in E as (l & Hl & E). rewrite Hno in E by assumption.
  discriminate.
Qed.

(** Whatever stands past the original lines is the assignment of an
    updated key that no original line begins with. *)
Lemma apply_updates_tail_inv (updates : list (jsstring * jsstring))
  (lines : list jsstring) (l : jsstring) :
  keys_plain updates ->
  In l (skipn (length lines) (apply_updates updates lines)) ->
  exists k v, In (k, v) updates /\ l = Mgr.assignment k v /\
              forall line, In line lines -> begins_with_key k line = false.
Proof.
  intros Hp Hin. rewrite apply_updates_tail in Hin by assumption.
  apply in_map_iff in Hin as ([k v] & <- & Hf).
  apply filter_In in Hf as [Hu Hno]. cbn [fst snd] in *.
  exists k, v. repeat split; try assumption.
  intros line Hl. apply negb_true_iff in Hno.
  destruct (begins_with_key k line) eqn:B; [|reflexivity].
  assert (existsb (begins_with_key k) lines = true)
    by (apply existsb_exists; eauto). congruence.
Qed.

End ApplyUpdates.

(* ================================================================== *)
(** * Effects of the modelled code *)
(* ================================================================== *)

Section Effects.

Lemma bind_ok {A B} (m : M A) (k : A -> M B) (w w1 : World) (a : A) :
  m w = (Ok a, w1) -> bind m k w = k a w1.
Proof. unfold bind. now intros ->. Qed.

Lemma bind_throw {A B} (m : M A) (k : A -> M B) (w w1 : World) (e : JsError) :
  m w = (Throw e, w1) -> bind m k w = (Throw e, w1).
Proof. unfold bind. now intros ->. Qed.

(** How a sequence of two steps can end. *)
Lemma bind_inv {A B} (m : M A) (k : A -> M B) (w w2 : World) (r : result B) :
  bind m k w = (r, w2) ->
  (exists a w1, m w = (Ok a, w1) /\ k a w1 = (r, w2)) \/
  (exists e, m w = (Throw e, w2) /\ r = Throw e).
Proof.
  unfold bind. destruct (m w) as [[a|e] w1]; intros H.
  - left. eauto.
  - right. inversion H; subst. eauto.
Qed.

Lemma bind_ok_inv {A B} (m : M A) (k : A -> M B) (w w2 : World) (b : B) :
  bind m k w = (Ok b, w2) ->
  exists a w1, m w = (Ok a, w1) /\ k a w1 = (Ok b, w2).
Proof.
  intros H. apply bind_inv in H as [H | (e & _ & H)]; [exact H | discriminate].
Qed.

Lemma keeps_files_ret {A} (a : A) : keeps_files (ret a).
Proof. intros w. simpl. auto. Qed.

Lemma keeps_files_throw {A} (e : JsError) : keeps_files (@throw A e).
Proof. intros w. simpl. auto. Qed.

Lemma keeps_files_bind {A B} (m : M A) (k : A -> M B) :
  keeps_files m -> (forall a, keeps_files (k a)) -> keeps_files (bind m k).
Proof.
  intros Hm Hk w. unfold bind. specialize (Hm w).
  destruct (m w) as [[a|e] w1]; simpl in *.
  - specialize (Hk a w1). destruct Hm as (H1 & H2 & H3 & Hd).
    destruct Hk as (K1 & K2 & K3 & Kd). repeat split; try congruence. lia.
  - exact Hm.
Qed.

Lemma keeps_files_of_option {A} (e : JsError) (o : option A) :
  keeps_files (of_option e o).
Proof. destruct o; [apply keeps_files_ret | apply keeps_files_throw]. Qed.

Lemma only_logs_keeps_files {A} (m : M A) : only_logs m -> keeps_files m.
Proof.
  intros H w. destruct (H w) as (? & ? & ? & Hd). repeat split; auto. lia.
Qed.

Lemma only_logs_ret {A} (a : A) : only_logs (ret a).
Proof. intros w. simpl. auto. Qed.

Lemma only_logs_throw {A} (e : JsError) : only_logs (@throw A e).
Proof. intros w. simpl. auto. Qed.

Lemma only_logs_bind {A B} (m : M A) (k : A -> M B) :
  only_logs m -> (forall a, only_logs (k a)) -> only_logs (bind m k).
Proof.
  intros Hm Hk w. unfold bind. specialize (Hm w).
  destruct (m w) as [[a|e] w1]; simpl in *.
  - specialize (Hk a w1). destruct Hm as (H1 & H2 & H3 & Hd).
    destruct Hk as (K1 & K2 & K3 & Kd). repeat split; congruence.
  - exact Hm.
Qed.

Lemma only_logs_log (level : LogLevel) (message : jsstring) :
  only_logs (logger.log level message).
Proof. intros w. simpl. auto. Qed.

Lemma only_logs_of_option {A} (e : JsError) (o : option A) :
  only_logs (of_option e o).
Proof. destruct o; [apply only_logs_ret | apply only_logs_throw]. Qed.

Lemma keeps_files_randomBytes (size : Z) : keeps_files (crypto.randomBytes size).
Proof.
  unfold crypto.randomBytes.
  destruct ((size <? 0)%Z || (crypto.MAX_RANDOM_BYTES <? size)%Z);
    [apply keeps_files_throw|].
  intros w. simpl. repeat split; auto. lia.
Qed.

Lemma keeps_files_toString_base64 (b : bytes) :
  keeps_files (BufferPrototype.toString_base64 b).
Proof.
  unfold BufferPrototype.toString_base64.
  destruct (_ <? _); [apply keeps_files_throw | apply keeps_files_ret].
Qed.

Lemma only_logs_detached (m : M unit) : only_logs m -> only_logs (detached m).
Proof. intros H w. unfold detached. simpl. apply H. Qed.

End Effects.

Ltac effects :=
  repeat first
    [ progress intros
    | apply keeps_files_bind | apply only_logs_bind
    | apply keeps_files_ret | apply keeps_files_throw | apply keeps_files_of_option
    | apply keeps_files_randomBytes | apply keeps_files_toString_base64
    | apply only_logs_ret | apply only_logs_throw | apply only_logs_log
    | apply only_logs_of_option
    | match goal with
      | |- keeps_files (if ?b then _ else _) => destruct b
      | |- only_logs (if ?b then _ else _) => destruct b
      | |- keeps_files (match ?o with Some _ => _ | None => _ end) => destruct o
      | |- only_logs (match ?o with Some _ => _ | None => _ end) => destruct o
      end ].

Section ServiceEffects.
Context (P : Platform).

Lemma keeps_files_validateLength (l : Z) :
  keeps_files (SecureKeyGenerator.validateLength l).
Proof. unfold SecureKeyGenerator.validateLength. effects. Qed.

Lemma keeps_files_generateBase64Salt (l : option Z) :
  keeps_files (SecureKeyGenerator.generateBase64Salt l).
Proof.
  unfold SecureKeyGenerator.generateBase64Salt, SecureKeyGenerator.validateLength.
  effects.
Qed.

Lemma keeps_files_generateWebCryptoIV (l : option Z) :
  keeps_files (SecureKeyGenerator.generateWebCryptoIV l).
Proof.
  unfold SecureKeyGenerator.generateWebCryptoIV,
    SecureKeyGenerator.generateSecureUint8Array, SecureKeyGenerator.validateLength.
  effects.
Qed.

Lemma keeps_files_deriveKey (secretKey salt : jsstring) :
  keeps_files (EncryptionService.deriveKeyWithArgon2 P secretKey salt).
Proof.
  unfold EncryptionService.deriveKeyWithArgon2, EncryptionService.argon2Hashing,
    EncryptionService.importKeyForCrypto.
  effects.
Qed.

Lemma keeps_files_encrypt (value secretKey : jsstring) :
  keeps_files (EncryptionService.encrypt P value secretKey).
Proof.
  unfold EncryptionService.encrypt, EncryptionService.encryptBuffer.
  apply keeps_files_bind; [apply keeps_files_generateBase64Salt|]. intros s.
  apply keeps_files_bind; [apply keeps_files_generateWebCryptoIV|]. intros i.
  apply keeps_files_bind; [apply keeps_files_deriveKey|]. intros k.
  effects.
Qed.

Lemma isAlreadyEncrypted_eq (value : jsstring) (w : World) :
  Mgr.isAlreadyEncrypted value w =
  (Ok (classified_encrypted value),
   if str_truthy value then w
   else snd (logger.warn (lit "Environment variable cannot be null or empty.") w)).
Proof.
  unfold Mgr.isAlreadyEncrypted, classified_encrypted.
  destruct (str_truthy value) eqn:T; cbn [negb andb]; [|reflexivity].
  destruct (startsWith (trim value) [ch_lbrace] && endsWith (trim value) [ch_rbrace]);
    cbn [negb andb]; [|reflexivity].
  destruct (JSON.parse value); reflexivity.
Qed.

Lemma only_logs_isAlreadyEncrypted (value : jsstring) :
  only_logs (Mgr.isAlreadyEncrypted value).
Proof.
  intros w. rewrite isAlreadyEncrypted_eq. cbn [snd].
  destruct (str_truthy value); simpl; auto.
Qed.

End ServiceEffects.

(* ================================================================== *)
(** * SecureKeyGenerator *)
(* ================================================================== *)

Section Generators.

(** Induction three bytes at a time, the way base64 reads them. *)
Lemma list_ind3 {A} (Q : list A -> Prop) :
  Q [] -> (forall x, Q [x]) -> (forall x y, Q [x; y]) ->
  (forall x y z r, Q r -> Q (x :: y :: z :: r)) ->
  forall l, Q l.
Proof.
  intros H0 H1 H2 H3.
  assert (H : forall l, Q l /\ (forall x, Q (x :: l)) /\ (forall x y, Q (x :: y :: l))).
  { induction l as [|a l (IH0 & IH1 & IH2)]; auto. }
  intros l. apply H.
Qed.

Lemma toString_base64_length (b : bytes) :
  length (Buffer.toString_base64 b) = (4 * ((length b + 2) / 3))%nat.
Proof.
  induction b as [| x | x y | x y z r IH] using list_ind3; try reflexivity.
  cbn [Buffer.toString_base64 length]. rewrite IH.
  replace (S (S (S (length r))) + 2)%nat with (length r + 2 + 1 * 3)%nat by lia.
  rewrite Nat.div_add by discriminate. lia.
Qed.

Lemma toString_base64_nonempty (b : bytes) :
  b <> [] -> Buffer.toString_base64 b <> [].
Proof. destruct b as [|x [|y [|z r]]]; simpl; congruence. Qed.

Lemma next_bytes_length (w : World) (n : nat) : length (next_bytes w n) = n.
Proof. unfold next_bytes. now rewrite length_map, length_seq. Qed.

Lemma randomBytes_eq (size : Z) (w : World) :
  (0 <= size <= crypto.MAX_RANDOM_BYTES)%Z ->
  crypto.randomBytes size w =
  (Ok (next_bytes w (Z.to_nat size)), after_draw w (Z.to_nat size)).
Proof.
  intros H. unfold crypto.randomBytes.
  destruct (Z.ltb_spec size 0); [lia|]. destruct (Z.ltb_spec crypto.MAX_RANDOM_BYTES size);
    [lia | reflexivity].
Qed.

Lemma randomBytes_rejects (size : Z) (w : World) :
  (crypto.MAX_RANDOM_BYTES < size)%Z ->
  crypto.randomBytes size w = (Throw RangeError, w).
Proof.
  intros H. unfold crypto.randomBytes.
  destruct (Z.ltb_spec crypto.MAX_RANDOM_BYTES size); [|lia].
  now rewrite orb_true_r.
Qed.

(** The base64 text of [n] bytes fits in a string when [n] is at most
    402653166. *)
Lemma toString_base64_fits (b : bytes) (w : World) :
  N.of_nat (length b) <= 402653166 ->
  BufferPrototype.toString_base64 b w = (Ok (Buffer.toString_base64 b), w).
Proof.
  intros H. unfold BufferPrototype.toString_base64, BufferPrototype.MAX_STRING_LENGTH.
  destruct (N.ltb_spec 536870888 (4 * ((N.of_nat (length b) + 2) / 3)));
    [|reflexivity].
  exfalso. assert ((N.of_nat (length b) + 2) / 3 < 134217723); [|lia].
  apply N.Div0.div_lt_upper_bound. lia.
Qed.

Lemma toString_base64_too_long (b : bytes) (w : World) :
  402653166 < N.of_nat (length b) ->
  BufferPrototype.toString_base64 b w = (Throw StringTooLong, w).
Proof.
  intros H. unfold BufferPrototype.toString_base64, BufferPrototype.MAX_STRING_LENGTH.
  destruct (N.ltb_spec 536870888 (4 * ((N.of_nat (length b) + 2) / 3)));
    [reflexivity|].
  exfalso. assert (134217723 <= (N.of_nat (length b) + 2) / 3); [|lia].
  apply N.div_le_lower_bound; lia.
Qed.

Lemma validateLength_rejects (l : Z) (w : World) :
  (l <= 0)%Z -> SecureKeyGenerator.validateLength l w = (Throw LengthMustBePositive, w).
Proof.
  intros H. unfold SecureKeyGenerator.validateLength.
  destruct (Z.leb_spec l 0); [reflexivity | lia].
Qed.

Lemma validateLength_accepts (l : Z) (w : World) :
  (0 < l)%Z -> SecureKeyGenerator.validateLength l w = (Ok tt, w).
Proof.
  intros H. unfold SecureKeyGenerator.validateLength.
  destruct (Z.leb_spec l 0); [lia | reflexivity].
Qed.

End Generators.

Ltac generators :=
  unfold SecureKeyGenerator.generateBase64IV, SecureKeyGenerator.generateBufferIV,
    SecureKeyGenerator.generateWebCryptoIV, SecureKeyGenerator.generateSecureUint8Array,
    SecureKeyGenerator.generateBase64Salt, SecureKeyGenerator.generateBufferSalt,
    SecureKeyGenerator.generateBase64SecretKey,
    SecureKeyGenerator.generateBufferSecretKey, SecureKeyGenerator.or_default, bind.

(** C9, as amended.  Every random-byte generator rejects a length
    [l <= 0] with the error 'Length must be greater than zero.' before
    drawing any entropy.  For [0 < l <= 2^31 - 1] the buffer forms
    return exactly the next [l] bytes of the entropy source, and for
    [0 < l <= 402653166], while the text fits in a string, the base64
    forms return the base64 text of those bytes; the salt of 32 bytes,
    which is also the default, is 44 base64 characters long.  Above
    [2^31 - 1] every generator throws the RangeError of
    [crypto.randomBytes] and draws nothing, and between the two bounds
    the base64 forms throw because the text would be too long. *)
Theorem C9_generators_check_length (l : Z) (w : World) :
  ((l <= 0)%Z ->
   exists e, InvalidLength e /\
     SecureKeyGenerator.generateBase64IV (Some l) w = (Throw e, w) /\
     SecureKeyGenerator.generateBufferIV (Some l) w = (Throw e, w) /\
     SecureKeyGenerator.generateWebCryptoIV (Some l) w = (Throw e, w) /\
     SecureKeyGenerator.generateBase64Salt (Some l) w = (Throw e, w) /\
     SecureKeyGenerator.generateBufferSalt (Some l) w = (Throw e, w) /\
     SecureKeyGenerator.generateBase64SecretKey (Some l) w = (Throw e, w) /\
     SecureKeyGenerator.generateBufferSecretKey (Some l) w = (Throw e, w)) /\
  ((0 < l <= crypto.MAX_RANDOM_BYTES)%Z ->
   let b := next_bytes w (Z.to_nat l) in
   let w' := after_draw w (Z.to_nat l) in
   Z.of_nat (length b) = l /\
   SecureKeyGenerator.generateBufferIV (Some l) w = (Ok b, w') /\
   SecureKeyGenerator.generateWebCryptoIV (Some l) w = (Ok b, w') /\
   SecureKeyGenerator.generateBufferSalt (Some l) w = (Ok b, w') /\
   SecureKeyGenerator.generateBufferSecretKey (Some l) w = (Ok b, w')) /\
  ((0 < l <= 402653166)%Z ->
   let b := next_bytes w (Z.to_nat l) in
   let w' := after_draw w (Z.to_nat l) in
   Z.of_nat (length b) = l /\
   SecureKeyGenerator.generateBase64IV (Some l) w = (Ok (Buffer.toString_base64 b), w') /\
   SecureKeyGenerator.generateBase64Salt (Some l) w = (Ok (Buffer.toString_base64 b), w') /\
   SecureKeyGenerator.generateBase64SecretKey (Some l) w
     = (Ok (Buffer.toString_base64 b), w')) /\
  (exists s, SecureKeyGenerator.generateBase64Salt (Some 32%Z) w = (Ok s, after_draw w 32)
             /\ s = Buffer.toString_base64 (next_bytes w 32)
             /\ length (next_bytes w 32) = 32%nat /\ length s = 44%nat) /\
  SecureKeyGenerator.generateBase64Salt None w
    = SecureKeyGenerator.generateBase64Salt (Some 32%Z) w /\
  ((crypto.MAX_RANDOM_BYTES < l)%Z ->
     SecureKeyGenerator.generateBase64IV (Some l) w = (Throw RangeError, w) /\
     SecureKeyGenerator.generateBufferIV (Some l) w = (Throw RangeError, w) /\
     SecureKeyGenerator.generateWebCryptoIV (Some l) w = (Throw RangeError, w) /\
     SecureKeyGenerator.generateBase64Salt (Some l) w = (Throw RangeError, w) /\
     SecureKeyGenerator.generateBufferSalt (Some l) w = (Throw RangeError, w) /\
     SecureKeyGenerator.generateBase64SecretKey (Some l) w = (Throw RangeError, w) /\
     SecureKeyGenerator.generateBufferSecretKey (Some l) w = (Throw RangeError, w)) /\
  ((402653166 < l <= crypto.MAX_RANDOM_BYTES)%Z ->
     fst (SecureKeyGenerator.generateBase64IV (Some l) w) = Throw StringTooLong /\
     fst (SecureKeyGenerator.generateBase64Salt (Some l) w) = Throw StringTooLong /\
     fst (SecureKeyGenerator.generateBase64SecretKey (Some l) w) = Throw StringTooLong).
Proof.
  split; [|split; [|split; [|split; [|split; [|split]]]]].
  - intros H. exists LengthMustBePositive. split; [reflexivity|].
    pose proof (fun w => validateLength_rejects l w H) as V.
    repeat split; generators; rewrite ?(V _); reflexivity.
  - intros H b w'. subst b w'.
    pose proof (fun w => validateLength_accepts l w (proj1 H)) as V.
    assert (R : crypto.randomBytes l w
                = (Ok (next_bytes w (Z.to_nat l)), after_draw w (Z.to_nat l)))
      by (apply randomBytes_eq; lia).
    split; [rewrite next_bytes_length; lia|].
    repeat split; generators; rewrite ?(V _), ?R; reflexivity.
  - intros H b w'. subst b w'.
    pose proof (fun w => validateLength_accepts l w (proj1 H)) as V.
    assert (R : crypto.randomBytes l w
                = (Ok (next_bytes w (Z.to_nat l)), after_draw w (Z.to_nat l)))
      by (apply randomBytes_eq; unfold crypto.MAX_RANDOM_BYTES; lia).
    assert (T : forall w0, BufferPrototype.toString_base64 (next_bytes w (Z.to_nat l)) w0
                = (Ok (Buffer.toString_base64 (next_bytes w (Z.to_nat l))), w0)).
    { intros w0. apply toString_base64_fits. rewrite next_bytes_length. lia. }
    split; [rewrite next_bytes_length; lia|].
    repeat split; generators; rewrite ?(V _), ?R, ?T; reflexivity.
  - exists (Buffer.toString_base64 (next_bytes w 32)).
    split; [reflexivity|]. split; [reflexivity|].
    split; [apply next_bytes_length|].
    rewrite toString_base64_length, next_bytes_length. reflexivity.
  - reflexivity.
  - intros H.
    pose proof (fun w => validateLength_accepts l w
                  ltac:(unfold crypto.MAX_RANDOM_BYTES in H; lia)) as V.
    pose proof (randomBytes_rejects l w H) as R.
    repeat split; generators; rewrite ?(V _), ?R; reflexivity.
  - intros H.
    pose proof (fun w => validateLength_accepts l w ltac:(lia)) as V.
    assert (R : crypto.randomBytes l w
                = (Ok (next_bytes w (Z.to_nat l)), after_draw w (Z.to_nat l)))
      by (apply randomBytes_eq; lia).
    assert (T : forall w0, BufferPrototype.toString_base64 (next_bytes w (Z.to_nat l)) w0
                = (Throw StringTooLong, w0)).
    { intros w0. apply toString_base64_too_long. rewrite next_bytes_length. lia. }
    repeat split; generators; rewrite ?(V _), ?R, ?T; reflexivity.
Qed.

(** A salt of the default length, drawn on a concrete world. *)
Lemma C9_witness :
  (0 < 32 <= crypto.MAX_RANDOM_BYTES)%Z /\
  SecureKeyGenerator.generateBufferSalt (Some 32%Z) (Demo.world Demo.env_path [])
  = (Ok (next_bytes (Demo.world Demo.env_path []) 32),
     after_draw (Demo.world Demo.env_path []) 32).
Proof.
  assert (H : (0 < 32 <= crypto.MAX_RANDOM_BYTES)%Z)
    by (unfold crypto.MAX_RANDOM_BYTES; lia).
  split; [exact H|].
  apply (proj1 (proj2 (proj2 (proj2
    (proj1 (proj2 (C9_generators_check_length 32 (Demo.world Demo.env_path [])))
       H))))).
Defined.

(** C9 as it stands fails at the length [2^32]: it is greater than
    zero, yet no generator returns bytes for it; every one of them
    throws the RangeError of [crypto.randomBytes]. *)
Lemma C9_counterexample :
  let l := 4294967296%Z in
  let w := Demo.world Demo.env_path [] in
  (0 < l)%Z
  /\ SecureKeyGenerator.generateBufferSalt (Some l) w = (Throw RangeError, w)
  /\ SecureKeyGenerator.generateBase64Salt (Some l) w = (Throw RangeError, w)
  /\ SecureKeyGenerator.generateBufferIV (Some l) w = (Throw RangeError, w)
  /\ SecureKeyGenerator.generateBase64IV (Some l) w = (Throw RangeError, w)
  /\ SecureKeyGenerator.generateWebCryptoIV (Some l) w = (Throw RangeError, w)
  /\ SecureKeyGenerator.generateBufferSecretKey (Some l) w = (Throw RangeError, w)
  /\ SecureKeyGenerator.generateBase64SecretKey (Some l) w = (Throw RangeError, w)
  /\ ~ (exists b w', SecureKeyGenerator.generateBufferSalt (Some l) w = (Ok b, w')
                     /\ Z.of_nat (length b) = l).
Proof.
  cbv zeta. split; [lia|]. repeat split; try reflexivity.
  intros (b & w' & H & _). discriminate H.
Qed.

(* ================================================================== *)
(** * EncryptionService.decrypt on malformed input *)
(* ================================================================== *)

Section DecryptRejects.
Context (P : Platform).

Lemma last_member_none (ms : list (jsstring * JSON.value)) (name : jsstring) :
  existsb (fun kv => str_eqb (fst kv) name) ms = false ->
  JSON.last_member ms name = None.
Proof.
  induction ms as [|[k v] ms IH]; simpl; [reflexivity|].
  intros H. apply orb_false_iff in H as [H1 H2]. now rewrite IH, H1.
Qed.

Lemma missing_or_empty_falsy (v : JSON.value) (name : jsstring) :
  missing_or_empty v name -> JSON.truthy (JSON.get v name) = false.
Proof.
  intros [H | ->]; [|reflexivity].
  destruct v; try reflexivity. simpl in *. now rewrite last_member_none.
Qed.

Lemma validateParsedData_rejects (ms : list (jsstring * JSON.value)) (w : World) :
  missing_or_empty (JSON.Obj ms) (lit "salt")
  \/ missing_or_empty (JSON.Obj ms) (lit "iv")
  \/ missing_or_empty (JSON.Obj ms) (lit "cipherText") ->
  EncryptionService.validateParsedData (JSON.Obj ms) w
  = (Throw MissingRequiredProperties, w).
Proof.
  intros H. unfold EncryptionService.validateParsedData.
  destruct H as [H | [H | H]]; apply missing_or_empty_falsy in H; rewrite H;
    cbn [negb orb]; rewrite ?orb_true_r; reflexivity.
Qed.

Lemma parseEncryptedData_empty (w : World) :
  EncryptionService.parseEncryptedData [] w = (Throw EncryptedDataRequired, w).
Proof. reflexivity. Qed.

Lemma parseEncryptedData_syntax (s : jsstring) (w : World) :
  s <> [] -> JSON.parse s = None ->
  EncryptionService.parseEncryptedData s w = (Throw JsonSyntaxError, w).
Proof.
  intros Hs H. unfold EncryptionService.parseEncryptedData.
  destruct s; [contradiction|]. cbn [str_truthy negb].
  rewrite (bind_ok _ _ w w tt) by reflexivity.
  apply bind_throw. now rewrite H.
Qed.

Lemma parseEncryptedData_missing (s : jsstring) (ms : list (jsstring * JSON.value))
  (w : World) :
  s <> [] -> JSON.parse s = Some (JSON.Obj ms) ->
  missing_or_empty (JSON.Obj ms) (lit "salt")
  \/ missing_or_empty (JSON.Obj ms) (lit "iv")
  \/ missing_or_empty (JSON.Obj ms) (lit "cipherText") ->
  EncryptionService.parseEncryptedData s w = (Throw MissingRequiredProperties, w).
Proof.
  intros Hs H Hm. unfold EncryptionService.parseEncryptedData.
  destruct s; [contradiction|]. cbn [str_truthy negb].
  rewrite (bind_ok _ _ w w tt) by reflexivity.
  rewrite (bind_ok _ _ w w (JSON.Obj ms)) by now rewrite H.
  apply bind_throw. now apply validateParsedData_rejects.
Qed.

End DecryptRejects.

(** C3. [decrypt] throws, before any key is derived and leaving the
    world as it is, whenever its input is the empty string ('Encrypted
    data is required.'), is not a JSON text (the SyntaxError of
    JSON.parse), or parses to an object in which one of [salt], [iv],
    [cipherText] is missing or the empty string ('Missing required
    properties in encryption parameters.'). *)
Theorem C3_decrypt_rejects_malformed (P : Platform) (s k : jsstring) (w : World) :
  (s = []
   \/ JSON.parse s = None
   \/ exists ms, JSON.parse s = Some (JSON.Obj ms) /\
        (missing_or_empty (JSON.Obj ms) (lit "salt")
         \/ missing_or_empty (JSON.Obj ms) (lit "iv")
         \/ missing_or_empty (JSON.Obj ms) (lit "cipherText"))) ->
  exists e, EncryptionService.decrypt P s k w = (Throw e, w) /\ MalformedEnvelope e.
Proof.
  unfold EncryptionService.decrypt, MalformedEnvelope. intros H.
  destruct s as [|c s'].
  - exists EncryptedDataRequired. split; [|auto].
    apply bind_throw, parseEncryptedData_empty.
  - destruct H as [H | [H | (ms & H & Hm)]]; [discriminate| |].
    + exists JsonSyntaxError. split; [|auto].
      apply bind_throw, parseEncryptedData_syntax; [discriminate | exact H].
    + exists MissingRequiredProperties. split; [|auto].
      apply bind_throw. eapply parseEncryptedData_missing; eauto. discriminate.
Qed.

(** In particular [decrypt('{"salt":"x"}', k)] fails this way: [iv]
    and [cipherText] are missing. *)
Lemma C3_witness :
  exists e,
    EncryptionService.decrypt Demo.platform salt_only_text Demo.UAT_SECRET_KEY
      (Demo.world Demo.env_path []) = (Throw e, Demo.world Demo.env_path [])
    /\ MalformedEnvelope e.
Proof.
  apply C3_decrypt_rejects_malformed. right. right.
  exists [(lit "salt", JSON.Str (lit "x"))]. split; [reflexivity|].
  right. left. left. reflexivity.
Defined.

(* ================================================================== *)
(** * Already encrypted values *)
(* ================================================================== *)

Section AlreadyEncrypted.
Context (P : Platform).

Lemma has_encryption_fields_iff (d : JSON.value) :
  Mgr.has_encryption_fields d = true <->
  exists ms, d = JSON.Obj ms
             /\ JSON.has d (lit "salt") = true
             /\ JSON.has d (lit "iv") = true
             /\ JSON.has d (lit "cipherText") = true.
Proof.
  unfold Mgr.has_encryption_fields. split.
  - intros H. repeat (apply andb_true_iff in H as [H ?]).
    destruct d; simpl in *; try congruence. eauto.
  - intros (ms & -> & H1 & H2 & H3). now rewrite H1, H2, H3.
Qed.

Lemma classified_encrypted_iff (t : jsstring) :
  trim t = t ->
  (classified_encrypted t = true <->
   startsWith t [ch_lbrace] = true /\ endsWith t [ch_rbrace] = true /\
   exists ms, JSON.parse t = Some (JSON.Obj ms)
              /\ JSON.has (JSON.Obj ms) (lit "salt") = true
              /\ JSON.has (JSON.Obj ms) (lit "iv") = true
              /\ JSON.has (JSON.Obj ms) (lit "cipherText") = true).
Proof.
  intros Ht. unfold classified_encrypted. rewrite Ht. split.
  - intros H. apply andb_true_iff in H as [H Hp].
    apply andb_true_iff in H as [_ H]. apply andb_true_iff in H as [Hs He].
    repeat split; try assumption.
    destruct (JSON.parse t) as [d|]; [|discriminate].
    apply has_encryption_fields_iff in Hp as (ms & -> & ?). eauto.
  - intros (Hs & He & ms & Hp & H1 & H2 & H3). rewrite Hs, He, Hp.
    replace (str_truthy t) with true
      by (destruct t; [discriminate | reflexivity]).
    apply has_encryption_fields_iff. eauto.
Qed.

Lemma encryptValueIfPlaintext_encrypted (value secretKey : jsstring) (w : World) :
  value <> [] -> classified_encrypted value = true ->
  Mgr.encryptValueIfPlaintext P value secretKey w = (Ok (inl value), w).
Proof.
  intros Hv Hc. unfold Mgr.encryptValueIfPlaintext.
  erewrite bind_ok by apply isAlreadyEncrypted_eq. rewrite Hc.
  destruct value; [contradiction | reflexivity].
Qed.

Lemma encryptValueIfPlaintext_plain (value secretKey : jsstring) (w : World) :
  value <> [] -> classified_encrypted value = false ->
  Mgr.encryptValueIfPlaintext P value secretKey w =
  bind (EncryptionService.encrypt P value secretKey)
       (fun e => ret (inr e)) w.
Proof.
  intros Hv Hc. unfold Mgr.encryptValueIfPlaintext.
  erewrite bind_ok by apply isAlreadyEncrypted_eq. rewrite Hc.
  destruct value; [contradiction|]. cbn [str_truthy].
  unfold bind. destruct (EncryptionService.encrypt P (c :: value) secretKey w)
    as [[[s i c0]|e] w1]; reflexivity.
Qed.

(** One turn of the loop on a value that is already encrypted: a line
    is logged and nothing else happens. *)
Lemma encrypt_each_skip (key v skv : jsstring) (rest : list (jsstring * jsval))
  (lines : list jsstring) (n : N) (w : World) :
  v <> [] -> trim v = v -> classified_encrypted v = true ->
  Mgr.encrypt_each P ((key, VStr v) :: rest) skv lines n w =
  Mgr.encrypt_each P rest skv lines n
    (snd (logger.info (lit "Skipping encryption: '" ++ key
                         ++ lit "' is already encrypted.") w)).
Proof.
  intros Hv Ht Hc. cbn [Mgr.encrypt_each val_truthy].
  replace (str_truthy v) with true by (destruct v; [contradiction | reflexivity]).
  rewrite Ht. erewrite bind_ok by (apply encryptValueIfPlaintext_encrypted; assumption).
  cbn [Mgr.nothing_to_write]. rewrite str_eqb_refl, orb_true_r. reflexivity.
Qed.

(** One turn of the loop on a plain value: it is encrypted, and the
    lines are updated with the serialized envelope. *)
Lemma encrypt_each_plain (key v skv : jsstring) (rest : list (jsstring * jsval))
  (lines : list jsstring) (n : N) (w : World) :
  v <> [] -> trim v = v -> classified_encrypted v = false ->
  Mgr.encrypt_each P ((key, VStr v) :: rest) skv lines n w =
  bind (EncryptionService.encrypt P v skv)
       (fun e => Mgr.encrypt_each P rest skv
                   (Mgr.updateEnvironmentFileLines lines key (envelope_json e))
                   (n + 1)) w.
Proof.
  intros Hv Ht Hc. cbn [Mgr.encrypt_each val_truthy].
  replace (str_truthy v) with true by (destruct v; [contradiction | reflexivity]).
  rewrite Ht. unfold bind at 1.
  rewrite encryptValueIfPlaintext_plain by assumption.
  unfold bind. destruct (EncryptionService.encrypt P v skv w) as [[e|e] w1];
    [|reflexivity].
  cbn [ret Mgr.nothing_to_write]. destruct e; reflexivity.
Qed.

End AlreadyEncrypted.

(** C4. On a trimmed value [t] the probe [isAlreadyEncrypted] never
    throws, and it answers true exactly when [t] starts with an opening
    brace, ends with a closing brace and parses as a JSON object that
    has the three properties [salt], [iv] and [cipherText]; a text that
    JSON.parse rejects, and an object that lacks one of the three,
    get the answer false.  In the loop over the variables a value with
    the answer true is skipped (one line is logged, no line of the file
    and no count changes, no entropy is drawn), and a value with the
    answer false is handed to [EncryptionService.encrypt] and its line
    updated with the new envelope. *)
Theorem C4_already_encrypted_probe (P : Platform) (value : jsstring) (w : World) :
  let t := trim value in
  (exists b w', Mgr.isAlreadyEncrypted t w = (Ok b, w')) /\
  (fst (Mgr.isAlreadyEncrypted t w) = Ok true <->
   startsWith t [ch_lbrace] = true /\ endsWith t [ch_rbrace] = true /\
   exists ms, JSON.parse t = Some (JSON.Obj ms)
              /\ JSON.has (JSON.Obj ms) (lit "salt") = true
              /\ JSON.has (JSON.Obj ms) (lit "iv") = true
              /\ JSON.has (JSON.Obj ms) (lit "cipherText") = true) /\
  (JSON.parse t = None -> fst (Mgr.isAlreadyEncrypted t w) = Ok false) /\
  (forall ms, JSON.parse t = Some (JSON.Obj ms) ->
     JSON.has (JSON.Obj ms) (lit "salt") = false
     \/ JSON.has (JSON.Obj ms) (lit "iv") = false
     \/ JSON.has (JSON.Obj ms) (lit "cipherText") = false ->
     fst (Mgr.isAlreadyEncrypted t w) = Ok false) /\
  (forall key skv rest lines n,
     t <> [] ->
     (fst (Mgr.isAlreadyEncrypted t w) = Ok true ->
      Mgr.encrypt_each P ((key, VStr t) :: rest) skv lines n w =
      Mgr.encrypt_each P rest skv lines n
        (snd (logger.info (lit "Skipping encryption: '" ++ key
                             ++ lit "' is already encrypted.") w))) /\
     (fst (Mgr.isAlreadyEncrypted t w) = Ok false ->
      Mgr.encrypt_each P ((key, VStr t) :: rest) skv lines n w =
      bind (EncryptionService.encrypt P t skv)
           (fun e => Mgr.encrypt_each P rest skv
                       (Mgr.updateEnvironmentFileLines lines key (envelope_json e))
                       (n + 1)) w)).
Proof.
  intros t. pose proof (trim_idempotent value) as Ht. fold t in Ht.
  rewrite isAlreadyEncrypted_eq. cbn [fst].
  split; [eauto|]. split; [|split; [|split]].
  - rewrite <- (classified_encrypted_iff t Ht).
    split; [congruence | now intros ->].
  - intros Hp. f_equal. unfold classified_encrypted. rewrite Hp.
    now rewrite andb_false_r.
  - intros ms Hp Hm. f_equal.
    destruct (classified_encrypted t) eqn:C; [|reflexivity].
    apply (classified_encrypted_iff t Ht) in C as (_ & _ & ms' & Hp' & H1 & H2 & H3).
    rewrite Hp in Hp'. inversion Hp'; subst.
    destruct Hm as [Hm | [Hm | Hm]]; congruence.
  - intros key skv rest lines n Hne. split; intros H.
    + apply encrypt_each_skip; congruence.
    + apply encrypt_each_plain; congruence.
Qed.



(* ================================================================== *)
(** * Objects *)
(* ================================================================== *)

Section ObjectFacts.

Lemma own_get_In (o : object) (k : jsstring) (v : jsval) :
  own_get o k = Some v -> In (k, v) o.
Proof.
  induction o as [|[k' v'] o IH]; simpl; [discriminate|].
  destruct (str_eqb k' k) eqn:E.
  - apply str_eqb_eq in E. subst. intros H. inversion H. now left.
  - intros H. right. now apply IH.
Qed.

Lemma own_get_none (o : object) (k : jsstring) :
  own_get o k = None <-> ~ In k (map fst o).
Proof.
  induction o as [|[k' v'] o IH]; simpl; [tauto|].
  destruct (str_eqb k' k) eqn:E.
  - apply str_eqb_eq in E. subst. split; [discriminate | tauto].
  - apply str_eqb_neq in E. rewrite IH. tauto.
Qed.

Lemma In_own_get (o : object) (k : jsstring) (v : jsval) :
  NoDup (map fst o) -> In (k, v) o -> own_get o k = Some v.
Proof.
  induction o as [|[k' v'] o IH]; simpl; [contradiction|].
  intros Hnd [Heq | Hin]; inversion Hnd as [|? ? Hnotin Hnd']; subst.
  - inversion Heq; subst. now rewrite str_eqb_refl.
  - destruct (str_eqb k' k) eqn:E; [|now apply IH].
    apply str_eqb_eq in E. subst. exfalso. apply Hnotin.
    now apply (in_map fst) in Hin.
Qed.

Lemma replace_own_keys (o : object) (k : jsstring) (v : jsval) :
  map fst (replace_own o k v) = map fst o.
Proof.
  induction o as [|[k' v'] o IH]; simpl; [reflexivity|].
  destruct (str_eqb k' k); simpl; [reflexivity | now rewrite IH].
Qed.

Lemma replace_own_In (o : object) (k : jsstring) (v : jsval) (k' : jsstring)
  (v' : jsval) :
  NoDup (map fst o) -> In k (map fst o) ->
  (In (k', v') (replace_own o k v) <->
   (k' = k /\ v' = v) \/ (k' <> k /\ In (k', v') o)).
Proof.
  induction o as [|[k0 v0] o IH]; simpl; [tauto|].
  intros Hnd Hin. inversion Hnd as [|? ? Hnotin Hnd']; subst.
  destruct (str_eqb k0 k) eqn:E.
  - apply str_eqb_eq in E. subst k0. simpl. split.
    + intros [H | H]; [inversion H; now left|].
      right. split; [|now right]. intros ->. apply Hnotin.
      now apply (in_map fst) in H.
    + intros [[-> ->] | [Hne [H | H]]]; [now left | inversion H; congruence | now right].
  - apply str_eqb_neq in E. destruct Hin as [Hin | Hin]; [congruence|].
    simpl. rewrite (IH Hnd' Hin). split.
    + intros [H | H]; [inversion H; subst; right; split; [congruence | now left] |].
      destruct H as [H | [Hne H]]; [now left | right; split; [assumption | now right]].
    + intros [H | [Hne [H | H]]]; [right; now left | now left | right; now right].
Qed.

Lemma insert_index_split (o : object) (n : N) (k : jsstring) (v : jsval) :
  exists a b, o = a ++ b /\ insert_index o n k v = a ++ (k, v) :: b.
Proof.
  induction o as [|[k' v'] o (a & b & Ho & Hi)]; simpl.
  - now exists [], [].
  - destruct (array_index k') as [m|].
    + destruct (m <? n).
      * exists ((k', v') :: a), b. simpl. now rewrite <- Ho, Hi.
      * now exists [], ((k', v') :: o).
    + now exists [], ((k', v') :: o).
Qed.

(** A new property: the own properties are the old ones and the new
    one, whatever place the new key is given. *)
Lemma new_property (o : object) (k : jsstring) (v : jsval) :
  own_get o k = None ->
  exists a b, o = a ++ b /\
    match array_index k with
    | Some n => insert_index o n k v
    | None => o ++ [(k, v)]
    end = a ++ (k, v) :: b.
Proof.
  intros _. destruct (array_index k) as [n|].
  - apply insert_index_split.
  - exists o, []. now rewrite app_nil_r.
Qed.

Lemma obj_set_proto (o : object) (v : jsval) : obj_set o (lit "__proto__") v = o.
Proof. reflexivity. Qed.

Lemma obj_set_In (o : object) (k : jsstring) (v : jsval) (k' : jsstring) (v' : jsval) :
  NoDup (map fst o) -> k <> lit "__proto__" ->
  (In (k', v') (obj_set o k v) <->
   (k' = k /\ v' = v) \/ (k' <> k /\ In (k', v') o)).
Proof.
  intros Hnd Hk. unfold obj_set.
  replace (str_eqb k (lit "__proto__")) with false
    by (symmetry; now apply str_eqb_neq).
  destruct (own_get o k) as [v0|] eqn:G.
  - apply replace_own_In; [assumption|].
    apply own_get_In in G. now apply (in_map fst) in G.
  - destruct (new_property o k v G) as (a & b & Ho & ->).
    apply own_get_none in G. subst o. rewrite !in_app_iff. simpl. split.
    + intros [H | [H | H]].
      * right. split; [|now left]. intros ->. apply G.
        apply (in_map fst) in H. rewrite map_app, in_app_iff. now left.
      * inversion H. now left.
      * right. split; [|now right]. intros ->. apply G.
        apply (in_map fst) in H. rewrite map_app, in_app_iff. now right.
    + intros [[-> ->] | [_ [H | H]]]; auto.
Qed.

Lemma obj_set_wf (o : object) (k : jsstring) (v : jsval) :
  wf_object o -> wf_object (obj_set o k v).
Proof.
  intros [Hnd Hp]. unfold obj_set.
  destruct (str_eqb k (lit "__proto__")) eqn:E; [now split|].
  apply str_eqb_neq in E.
  destruct (own_get o k) as [v0|] eqn:G.
  - unfold wf_object. rewrite replace_own_keys. now split.
  - destruct (new_property o k v G) as (a & b & Ho & ->).
    apply own_get_none in G. subst o.
    assert (Hperm : Permutation (k :: map fst (a ++ b)) (map fst (a ++ (k, v) :: b))).
    { rewrite !map_app. simpl. apply Permutation_middle. }
    split.
    + eapply Permutation_NoDup; [exact Hperm|]. now constructor.
    + intros Hin. apply (Permutation_in _ (Permutation_sym Hperm)) in Hin.
      destruct Hin as [Hin | Hin]; [congruence | contradiction].
Qed.

Lemma wf_object_nil : wf_object [].
Proof. split; [constructor | simpl; tauto]. Qed.

Lemma obj_set_In_weak (o : object) (k : jsstring) (v : jsval) (k' : jsstring)
  (v' : jsval) :
  wf_object o -> In (k', v') (obj_set o k v) -> (k' = k /\ v' = v) \/ In (k', v') o.
Proof.
  intros [Hnd Hp] H. destruct (str_eqb k (lit "__proto__")) eqn:E.
  - apply str_eqb_eq in E. subst k. rewrite obj_set_proto in H. now right.
  - apply str_eqb_neq in E. apply obj_set_In in H; [tauto | assumption..].
Qed.

Lemma assign_wf (target source : object) :
  wf_object target -> wf_object (Object.assign target source).
Proof.
  unfold Object.assign, Object.entries. revert target.
  induction source as [|[k v] s IH]; intros t Ht; [exact Ht|].
  simpl. apply IH. now apply obj_set_wf.
Qed.

Lemma assign_In_weak (target source : object) (k : jsstring) (v : jsval) :
  wf_object target -> In (k, v) (Object.assign target source) ->
  In (k, v) source \/ In (k, v) target.
Proof.
  unfold Object.assign, Object.entries. revert target.
  induction source as [|[k0 v0] s IH]; intros t Ht H; [now right|].
  simpl in H. apply IH in H; [|now apply obj_set_wf].
  destruct H as [H | H]; [left; now right|].
  apply obj_set_In_weak in H; [|assumption].
  destruct H as [[-> ->] | H]; [left; now left | now right].
Qed.

Lemma assign_cons (target : object) (k : jsstring) (v : jsval) (s : object) :
  Object.assign target ((k, v) :: s) = Object.assign (obj_set target k v) s.
Proof. reflexivity. Qed.

Lemma assign_keeps (target source : object) (k : jsstring) (v : jsval) :
  wf_object target -> In (k, v) target -> ~ In k (map fst source) ->
  In (k, v) (Object.assign target source).
Proof.
  revert target. induction source as [|[k0 v0] s IH]; intros t Ht Hin Hno;
    [exact Hin|].
  rewrite assign_cons. simpl in Hno. apply IH; [now apply obj_set_wf | | tauto].
  destruct (str_eqb k0 (lit "__proto__")) eqn:E.
  - apply str_eqb_eq in E. subst k0. now rewrite obj_set_proto.
  - apply str_eqb_neq in E. apply obj_set_In; [apply Ht | assumption|].
    right. split; [|assumption]. intros ->. tauto.
Qed.

(** Copying a well-formed object into [target] brings all its
    properties along. *)
Lemma assign_In (target source : object) (k : jsstring) (v : jsval) :
  wf_object target -> wf_object source -> In (k, v) source ->
  In (k, v) (Object.assign target source).
Proof.
  revert target. induction source as [|[k0 v0] s IH]; intros t Ht Hs Hin;
    [contradiction|].
  rewrite assign_cons. destruct Hs as [Hnd Hp]. simpl in Hnd, Hp.
  inversion Hnd as [|? ? Hnotin Hnd']; subst.
  assert (Hs' : wf_object s) by (split; [assumption | tauto]).
  destruct Hin as [Heq | Hin].
  - inversion Heq; subst.
    assert (Hk : k <> lit "__proto__") by (intros ->; apply Hp; now left).
    apply assign_keeps; [now apply obj_set_wf | | assumption].
    apply obj_set_In; [apply Ht | assumption | now left].
  - apply IH; try assumption. now apply obj_set_wf.
Qed.

End ObjectFacts.

(* ================================================================== *)
(** * Variables of the file and the selected ones *)
(* ================================================================== *)

Section Selection.

Lemma only_info_refl (w : World) : only_info w w.
Proof. repeat split. Qed.

Lemma only_info_trans (w1 w2 w3 : World) :
  only_info w1 w2 -> only_info w2 w3 -> only_info w1 w3.
Proof.
  intros (A1 & A2 & A3 & A4 & A5) (B1 & B2 & B3 & B4 & B5).
  repeat split; congruence.
Qed.

Lemma only_info_log (message : jsstring) (w : World) :
  only_info w (snd (logger.info message w)).
Proof.
  repeat split. unfold warnings. cbn. rewrite filter_app, map_app. cbn.
  now rewrite app_nil_r.
Qed.

Lemma extract_step_wf (acc : object) (line : jsstring) :
  wf_object acc ->
  wf_object match Mgr.parseEnvironmentLine line with
            | Some (key, value) => obj_set acc key (VStr value)
            | None => acc
            end.
Proof.
  intros H. destruct (Mgr.parseEnvironmentLine line) as [[k v]|]; [|exact H].
  now apply obj_set_wf.
Qed.

Lemma extract_acc (lines : list jsstring) (acc : object) :
  wf_object acc ->
  let out := fold_left
               (fun variables line =>
                  match Mgr.parseEnvironmentLine line with
                  | Some (key, value) => obj_set variables key (VStr value)
                  | None => variables
                  end) lines acc in
  wf_object out /\
  forall k v, In (k, v) out -> In (k, v) acc \/ parsed_from lines k v.
Proof.
  revert acc. induction lines as [|line lines IH]; intros acc Hacc; simpl.
  - split; [exact Hacc | auto].
  - destruct (IH _ (extract_step_wf acc line Hacc)) as [Hwf Hin].
    split; [exact Hwf|]. intros k v H. apply Hin in H as [H | (s & l & -> & Hl & Hp)].
    + destruct (Mgr.parseEnvironmentLine line) as [[k0 v0]|] eqn:E; [|now left].
      apply obj_set_In_weak in H as [[-> ->] | H]; [|now left | assumption].
      right. exists v0, line. repeat split; [now left | assumption].
    + right. exists s, l. repeat split; [now right | assumption].
Qed.

Lemma extract_wf (lines : list jsstring) :
  wf_object (Mgr.extractEnvironmentVariables lines).
Proof. apply (extract_acc lines [] wf_object_nil). Qed.

(** Every variable of the extracted record was parsed from a line. *)
Lemma extract_In (lines : list jsstring) (k : jsstring) (v : jsval) :
  In (k, v) (Mgr.extractEnvironmentVariables lines) -> parsed_from lines k v.
Proof.
  intros H. apply (extract_acc lines [] wf_object_nil) in H as [[] | H]. exact H.
Qed.

(** The result of looking one selector up: nothing, or one property
    that is a variable of the file or a member of [Object.prototype]. *)
Lemma findEnvironmentVariableByKey_spec (allEnvVariables : object)
  (lookupValue : jsstring) (w : World) :
  exists found w',
    Mgr.findEnvironmentVariableByKey allEnvVariables lookupValue w = (Ok found, w')
    /\ only_info w w' /\ wf_object found
    /\ forall k v, In (k, v) found ->
         In (k, v) allEnvVariables
         \/ (v = VProtoMember /\ k = lookupValue /\ is_proto_member k = true).
Proof.
  unfold Mgr.findEnvironmentVariableByKey.
  destruct (get_truthy allEnvVariables lookupValue) eqn:T.
  - unfold get_truthy in T. destruct (obj_get allEnvVariables lookupValue) as [v|] eqn:G;
      [|discriminate].
    exists (obj_set [] lookupValue v), w. split; [reflexivity|].
    split; [apply only_info_refl|]. split; [apply obj_set_wf, wf_object_nil|].
    intros k v' H. apply obj_set_In_weak in H as [[-> ->] | []]; [|apply wf_object_nil].
    unfold obj_get in G. destruct (own_get allEnvVariables lookupValue) eqn:O.
    + inversion G; subst. left. now apply own_get_In.
    + destruct (is_proto_member lookupValue) eqn:M; [|discriminate].
      inversion G; subst. right. auto.
  - destruct (Mgr.find_by_value (Object.entries allEnvVariables) lookupValue)
      as [[key value]|] eqn:F.
    + eexists (obj_set [] key value), _. split; [reflexivity|].
      split; [apply only_info_log|]. split; [apply obj_set_wf, wf_object_nil|].
      intros k v' H. apply obj_set_In_weak in H as [[-> ->] | []]; [|apply wf_object_nil].
      left. clear T. unfold Object.entries in F.
      induction allEnvVariables as [|[k0 v0] o IH]; simpl in F; [discriminate|].
      destruct (Mgr.strict_equal v0 lookupValue); [inversion F; now left|].
      right. now apply IH.
    + exists [], w. split; [reflexivity|]. split; [apply only_info_refl|].
      split; [apply wf_object_nil | intros k v []].
Qed.

Lemma resolve_each_spec (allEnvVariables : object) (selectors : list jsstring)
  (acc : object) (w : World) :
  wf_object acc ->
  exists vars w',
    Mgr.resolve_each allEnvVariables selectors acc w = (Ok vars, w')
    /\ only_info w w' /\ wf_object vars
    /\ forall k v, In (k, v) vars ->
         In (k, v) acc \/ In (k, v) allEnvVariables
         \/ (v = VProtoMember /\ In k selectors /\ is_proto_member k = true).
Proof.
  revert acc w. induction selectors as [|s rest IH]; intros acc w Hacc.
  - exists acc, w. split; [reflexivity|]. split; [apply only_info_refl|].
    split; [exact Hacc | auto].
  - destruct (findEnvironmentVariableByKey_spec allEnvVariables s w)
      as (found & w1 & Hf & Hw1 & Hwf & Hin).
    destruct (IH (Object.assign acc found) w1 (assign_wf _ _ Hacc))
      as (vars & w2 & Hr & Hw2 & Hvwf & Hvin).
    exists vars, w2. split.
    + cbn [Mgr.resolve_each]. rewrite (bind_ok _ _ _ _ _ Hf).
      cbn [Mgr.not_object]. rewrite (bind_ok _ _ w1 w1 tt) by reflexivity.
      exact Hr.
    + split; [eapply only_info_trans; eassumption|]. split; [exact Hvwf|].
      intros k v H. apply Hvin in H as [H | [H | (-> & H & M)]].
      * apply assign_In_weak in H as [H | H]; [|now left | assumption].
        apply Hin in H as [H | (-> & -> & M)]; [right; now left|].
        right. right. repeat split; [now left | assumption].
      * right. now left.
      * right. right. repeat split; [now right | assumption].
Qed.

(** The variables to encrypt: the call never throws and never warns;
    every one of them is a variable of the file, or is a member of
    [Object.prototype] named by a selector. *)
Lemma resolveVariablesToEncrypt_spec (allEnvVariables : object)
  (envVariables : option (list jsstring)) (w : World) :
  wf_object allEnvVariables ->
  exists vars w',
    Mgr.resolveVariablesToEncrypt allEnvVariables envVariables w = (Ok vars, w')
    /\ only_info w w' /\ wf_object vars
    /\ forall k v, In (k, v) vars ->
         In (k, v) allEnvVariables
         \/ (v = VProtoMember /\ is_proto_member k = true
             /\ exists sels, envVariables = Some sels /\ In k sels).
Proof.
  intros Hall.
  assert (Hnone : exists vars w',
    ret (Object.assign [] allEnvVariables) w = (Ok vars, w')
    /\ only_info w w' /\ wf_object vars
    /\ forall k v, In (k, v) vars ->
         In (k, v) allEnvVariables
         \/ (v = VProtoMember /\ is_proto_member k = true
             /\ exists sels, envVariables = Some sels /\ In k sels)).
  { exists (Object.assign [] allEnvVariables), w. split; [reflexivity|].
    split; [apply only_info_refl|]. split; [apply assign_wf, wf_object_nil|].
    intros k v H. apply assign_In_weak in H as [H | []]; [now left | apply wf_object_nil]. }
  destruct envVariables as [[|s rest]|]; try exact Hnone.
  destruct (resolve_each_spec allEnvVariables (s :: rest) [] w wf_object_nil)
    as (vars & w' & Hr & Hw & Hwf & Hin).
  exists vars, w'. split; [exact Hr|]. split; [exact Hw|]. split; [exact Hwf|].
  intros k v H. apply Hin in H as [[] | [H | (-> & H & M)]]; [now left|].
  right. repeat split; [assumption|]. eauto.
Qed.

End Selection.

(* ================================================================== *)
(** * The encryption loop *)
(* ================================================================== *)

Section Loop.
Context (P : Platform).

Lemma keeps_files_encryptValueIfPlaintext (value skv : jsstring) :
  keeps_files (Mgr.encryptValueIfPlaintext P value skv).
Proof.
  unfold Mgr.encryptValueIfPlaintext.
  apply keeps_files_bind;
    [apply only_logs_keeps_files, only_logs_isAlreadyEncrypted|].
  intros [|]; [apply keeps_files_ret|].
  apply keeps_files_bind; [apply keeps_files_encrypt | intros; apply keeps_files_ret].
Qed.

Lemma keeps_files_encrypt_each (entries : list (jsstring * jsval)) (skv : jsstring)
  (lines : list jsstring) (n : N) :
  keeps_files (Mgr.encrypt_each P entries skv lines n).
Proof.
  revert lines n. induction entries as [|[k v] rest IH]; intros lines n;
    cbn [Mgr.encrypt_each]; [apply keeps_files_ret|].
  destruct (val_truthy v); [|apply IH].
  destruct v as [s|]; [|apply keeps_files_throw].
  apply keeps_files_bind; [apply keeps_files_encryptValueIfPlaintext|].
  intros r. destruct (Mgr.nothing_to_write r s); [|apply IH].
  apply keeps_files_bind; [apply only_logs_keeps_files, only_logs_log | intros; apply IH].
Qed.

Lemma loop_entry_tail (k : jsstring) (v : jsval) (rest : list (jsstring * jsval)) :
  (forall k' v', In (k', v') ((k, v) :: rest) -> loop_entry k' v') ->
  forall k' v', In (k', v') rest -> loop_entry k' v'.
Proof. intros H k' v' Hin. apply H. now right. Qed.

(** What a completed loop did: it encrypted, in order, exactly the
    variables whose value is not yet an envelope, and applied one update
    of the lines for each. *)
Lemma encrypt_each_spec (skv : jsstring) (entries : list (jsstring * jsval))
  (lines : list jsstring) (n : N) (w : World) (lines' : list jsstring) (n' : N)
  (w' : World) :
  NoDup (map fst entries) ->
  (forall k v, In (k, v) entries -> loop_entry k v) ->
  Mgr.encrypt_each P entries skv lines n w = (Ok (lines', n'), w') ->
  exists updates : list (jsstring * EncryptionParameters),
    lines' = apply_updates (envelope_updates updates) lines
    /\ n' = n + N.of_nat (length updates)
    /\ (forall k e, In (k, e) updates ->
          exists s, In (k, VStr s) entries /\ classified_encrypted s = false
                    /\ encrypted_by P skv s e)
    /\ (forall k s, In (k, VStr s) entries -> classified_encrypted s = false ->
          exists e, In (k, e) updates)
    /\ (forall k, In (k, VProtoMember) entries -> False)
    /\ (updates = [] -> drawn w' = drawn w)
    /\ NoDup (map fst updates).
Proof.
  revert lines n w. induction entries as [|[k v] rest IH]; intros lines n w Hnd Hent H.
  - inversion H; subst. exists []. repeat split; try (intros; contradiction).
    + now rewrite N.add_0_r.
    + constructor.
  - inversion Hnd as [|? ? Hnotin Hnd']; subst.
    pose proof (loop_entry_tail _ _ _ Hent) as Hrest.
    destruct (Hent k v (or_introl eq_refl)) as [-> | (s & -> & Hs & Ht & Hk)];
      [discriminate H|].
    destruct (classified_encrypted s) eqn:C.
    + rewrite encrypt_each_skip in H by assumption.
      destruct (IH _ _ _ Hnd' Hrest H)
        as (updates & Hl & Hn & Hu1 & Hu2 & Hu3 & Hu4 & Hu5).
      exists updates. split; [exact Hl|]. split; [exact Hn|].
      split; [|split; [|split; [|split]]].
      * intros k0 e Hin. destruct (Hu1 _ _ Hin) as (s0 & ? & ? & ?).
        exists s0. repeat split; auto. now right.
      * intros k0 s0 [Heq | Hin] C0; [inversion Heq; subst; congruence | eauto].
      * intros k0 [Heq | Hin]; [discriminate | eauto].
      * intros Hnil. rewrite (Hu4 Hnil). reflexivity.
      * exact Hu5.
    + rewrite encrypt_each_plain in H by assumption.
      apply bind_ok_inv in H as (e & w1 & He & H).
      destruct (IH _ _ _ Hnd' Hrest H)
        as (updates & Hl & Hn & Hu1 & Hu2 & Hu3 & Hu4 & Hu5).
      exists ((k, e) :: updates). split; [exact Hl|].
      split; [rewrite Hn; cbn [length]; lia|]. split; [|split; [|split; [|split]]].
      * intros k0 e0 [Heq | Hin].
        -- inversion Heq; subst. exists s. repeat split; [now left | assumption|].
           now exists w, w1.
        -- destruct (Hu1 _ _ Hin) as (s0 & ? & ? & ?).
           exists s0. repeat split; auto. now right.
      * intros k0 s0 [Heq | Hin] C0.
        -- inversion Heq; subst. exists e. now left.
        -- destruct (Hu2 _ _ Hin C0) as (e0 & ?). exists e0. now right.
      * intros k0 [Heq | Hin]; [discriminate | eauto].
      * discriminate.
      * cbn [map fst]. constructor; [|exact Hu5]. intros Hin.
        apply in_map_iff in Hin as ([k0 e0] & Heq & Hin). cbn [fst] in Heq. subst k0.
        destruct (Hu1 _ _ Hin) as (s0 & Hs0 & _). apply Hnotin.
        now apply (in_map fst) in Hs0.
Qed.

(** The keys of the updates are pairwise distinct and hold no [=]. *)
Lemma encrypt_each_keys_plain (skv : jsstring) (entries : list (jsstring * jsval))
  (updates : list (jsstring * EncryptionParameters)) :
  NoDup (map fst entries) ->
  (forall k v, In (k, v) entries -> loop_entry k v) ->
  (forall k e, In (k, e) updates -> exists s, In (k, VStr s) entries) ->
  NoDup (map fst updates) ->
  keys_plain (envelope_updates updates).
Proof.
  intros Hnd Hent Hin Hndu. unfold keys_plain, envelope_updates. split.
  - rewrite map_map. cbn [fst]. exact Hndu.
  - apply Forall_forall. intros [k j] H. apply in_map_iff in H as ([k0 e] & Heq & H).
    inversion Heq; subst. cbn [fst]. destruct (Hin _ _ H) as (s & Hs).
    destruct (Hent _ _ Hs) as [? | (s0 & _ & _ & _ & Hk)]; [discriminate | exact Hk].
Qed.

End Loop.

(* ================================================================== *)
(** * One call of encryptAndUpdateEnvironmentVariables *)
(* ================================================================== *)

Section Run.
Context (P : Platform).

Lemma only_logs_logEncryptionSuccess (dir file : jsstring) (a b : N) :
  only_logs (Mgr.logEncryptionSuccess P dir file a b).
Proof.
  unfold Mgr.logEncryptionSuccess, Mgr.resolveFilePath.
  destruct (0 <? b); [|apply only_logs_ret].
  apply only_logs_bind; [apply only_logs_of_option | intros; apply only_logs_log].
Qed.

Lemma readEnvironmentFileAsLines_inv (dir file : jsstring) (w w' : World)
  (r : result (list jsstring)) :
  Mgr.readEnvironmentFileAsLines P dir file w = (r, w') ->
  w' = w /\
  match r with
  | Ok lines => exists path content,
      getFilePath P dir file = Some path /\ fs.lookup (files w) path = Some content
      /\ lines = split ch_newline content
  | Throw e =>
      (getFilePath P dir file = None /\ e = PathError) \/
      (exists path, getFilePath P dir file = Some path
                    /\ fs.lookup (files w) path = None /\ e = FileSystemError)
  end.
Proof.
  unfold Mgr.readEnvironmentFileAsLines, Mgr.resolveFilePath, fs.readFile, bind.
  destruct (getFilePath P dir file) as [path|]; cbn.
  - destruct (fs.lookup (files w) path) as [content|] eqn:L; cbn; intros H;
      inversion H; subst.
    + split; [reflexivity|]. exists path, content. auto.
    + split; [reflexivity|]. right. exists path. auto.
  - intros H. inversion H; subst. split; [reflexivity|]. now left.
Qed.

(** The shape of every run: nothing is written unless the file was
    read, the variables resolved and the whole loop completed; then the
    joined lines are written once. *)
Lemma run_inv (dir file skv : jsstring) (sels : option (list jsstring))
  (w w' : World) (r : result unit) :
  Mgr.encryptAndUpdateEnvironmentVariables P dir file skv sels w = (r, w') ->
  match r with
  | Throw e => files w' = files w /\ written w' = written w
  | Ok _ =>
      exists path content vars w1 lines' count w2,
        getFilePath P dir file = Some path
        /\ fs.lookup (files w) path = Some content
        /\ Mgr.resolveVariablesToEncrypt
             (Mgr.extractEnvironmentVariables (split ch_newline content)) sels w
           = (Ok vars, w1)
        /\ Mgr.encryptVariableValuesInFileLines P (split ch_newline content) vars skv w1
           = (Ok (lines', count), w2)
        /\ files w2 = files w /\ written w2 = written w
        /\ written w' = written w ++ [(path, join ch_newline lines')]
        /\ files w' = fs.store (files w) path (join ch_newline lines')
        /\ drawn w' = drawn w2 /\ entropy w' = entropy w
  end.
Proof.
  unfold Mgr.encryptAndUpdateEnvironmentVariables. intros H.
  apply bind_inv in H as [(lines & w0 & Hread & H) | (e & Hread & ->)].
  2:{ apply readEnvironmentFileAsLines_inv in Hread as [-> _]. auto. }
  apply readEnvironmentFileAsLines_inv in Hread as [-> (path & content & Hp & Hc & ->)].
  destruct (resolveVariablesToEncrypt_spec
              (Mgr.extractEnvironmentVariables (split ch_newline content)) sels w
              (extract_wf _)) as (vars & w1 & Hres & Hw1 & _).
  rewrite (bind_ok _ _ _ _ _ Hres) in H.
  destruct Hw1 as (F1 & W1 & E1 & D1 & _).
  apply bind_inv in H as [([lines' count] & w2 & Hloop & H) | (e & Hloop & ->)].
  2:{ destruct (keeps_files_encrypt_each P (Object.entries vars) skv
                  (split ch_newline content) 0 w1) as (F2 & W2 & _).
      unfold Mgr.encryptVariableValuesInFileLines in Hloop.
      rewrite Hloop in F2, W2. cbn [snd] in F2, W2. split; congruence. }
  pose proof (keeps_files_encrypt_each P (Object.entries vars) skv
                (split ch_newline content) 0 w1) as K.
  unfold Mgr.encryptVariableValuesInFileLines in Hloop.
  destruct K as (F2 & W2 & E2 & _). rewrite Hloop in F2, W2, E2. cbn [snd] in F2, W2, E2.
  unfold Mgr.resolveFilePath in H. rewrite Hp in H. cbn [of_option] in H.
  rewrite (bind_ok _ _ w2 w2 path) in H by reflexivity.
  unfold Mgr.writeEnvironmentFileLines in H.
  erewrite bind_ok in H by reflexivity.
  match type of H with
  | bind (detached ?m) _ ?w3 = _ =>
      pose proof (only_logs_logEncryptionSuccess dir file
                    (N.of_nat (length (Object.keys vars))) count w3) as L;
      unfold bind, detached in H; cbn [ret] in H
  end.
  inversion H; subst r w'. clear H.
  destruct L as (F3 & W3 & E3 & D3).
  exists path, content, vars, w1, lines', count, w2.
  repeat split; try assumption; try congruence.
  - rewrite W3. cbn. congruence.
  - rewrite F3. cbn. congruence.
  - rewrite E3. cbn. congruence.
Qed.

End Run.



(* ================================================================== *)
(** * What a run rewrites *)
(* ================================================================== *)

Section Frame.
Context (P : Platform).

Lemma lookup_store (fsys : list (jsstring * jsstring)) (path content : jsstring) :
  fs.lookup (fs.store fsys path content) path = Some content.
Proof.
  induction fsys as [|[p c] r IH]; simpl.
  - now rewrite str_eqb_refl.
  - destruct (str_eqb p path) eqn:E; simpl; rewrite E; [reflexivity | exact IH].
Qed.

Lemma parsed_loop_entry (lines : list jsstring) (k : jsstring) (v : jsval) :
  parsed_from lines k v -> loop_entry k v.
Proof.
  intros (s & line & -> & _ & Hp). right. exists s.
  destruct (parseEnvironmentLine_props _ _ _ Hp) as (_ & _ & Hk & Hs & Ht). auto.
Qed.

Lemma trimEnd_keeps_visible (a : jsstring) (c : codeunit) (r : jsstring) :
  isWhiteSpace c = false -> exists r', trimEnd (a ++ c :: r) = a ++ c :: r'.
Proof.
  intros W. induction a as [|x a [r' IH]].
  - apply trimEnd_head, W.
  - exists r'. cbn [app trimEnd]. rewrite IH. destruct a; reflexivity.
Qed.

Lemma first_separator (c : codeunit) (a b x y : jsstring) :
  ~ In c a -> ~ In c b -> a ++ c :: x = b ++ c :: y -> a = b.
Proof.
  revert b. induction a as [|u a IH]; intros [|v b] Ha Hb H; simpl in *.
  - reflexivity.
  - inversion H; subst. tauto.
  - inversion H; subst. tauto.
  - inversion H; subst. f_equal. apply IH; tauto.
Qed.

(** A line that begins with [k=], for a key [k] as the parser hands
    them out, is parsed to the key [k]. *)
Lemma begins_with_key_parse (k line k0 v0 : jsstring) :
  k <> [] -> trim k = k -> ~ In ch_equals k ->
  begins_with_key k line = true ->
  Mgr.parseEnvironmentLine line = Some (k0, v0) -> k0 = k.
Proof.
  intros Hk Ht He B Hp. apply startsWith_iff in B as [r ->].
  rewrite <- app_assoc in Hp. cbn [app] in Hp.
  destruct (parseEnvironmentLine_inv _ _ _ Hp) as (key & value & Htl & Hkey & _ & _ & -> & _).
  destruct (trimmed_head k Hk Ht) as (c & kr & -> & Wc).
  unfold trim in Htl. cbn [app] in Htl. rewrite trimStart_fixed in Htl by exact Wc.
  destruct (trimEnd_keeps_visible (c :: kr) ch_equals r eq_refl) as [r' Hr].
  cbn [app] in Hr. rewrite Hr in Htl.
  change (c :: kr ++ ch_equals :: r') with ((c :: kr) ++ ch_equals :: r') in Htl.
  apply first_separator in Htl; [|assumption..].
  now rewrite <- Htl.
Qed.

Lemma begins_with_key_includes (k line : jsstring) :
  begins_with_key k line = true -> includes line ch_equals = true.
Proof.
  intros B. apply startsWith_iff in B as [r ->]. apply includes_true.
  rewrite <- app_assoc. apply in_or_app. right. now left.
Qed.

End Frame.

(** C6, as amended.  When a run returns, the content written is the
    list of lines [lines'] joined by newlines, and the variables
    encrypted in this run, [updates], are exactly the targeted
    variables whose value was not yet an envelope, each once.  The
    original lines keep their positions.  A line that begins with [k=]
    for none of the encrypted keys [k] keeps its text, which covers
    every line without [=] (blank lines among them) and every
    assignment of a variable that is not encrypted in this run, not
    targeted or already an envelope.  A line that begins with [k=] for
    an encrypted key is replaced where it stands by [k=<envelope>].
    Where every line that assigns an encrypted variable begins with the
    variable's name and [=], that is all: every such line is replaced
    where it stands and no line is added.  (In any file, what is added
    after the original lines is [k=<envelope>] for the encrypted keys
    that no line begins with.)  The code knows no comments: a line such
    as [# A=1] assigns the variable [# A]. *)
Theorem C6_frame_of_rewrite (P : Platform) (dir file skv : jsstring)
  (sels : option (list jsstring)) (w : World) (path content : jsstring) :
  let out := Mgr.encryptAndUpdateEnvironmentVariables P dir file skv sels w in
  let lines := split ch_newline content in
  getFilePath P dir file = Some path ->
  fs.lookup (files w) path = Some content ->
  fst out = Ok tt ->
  exists (lines' : list jsstring) (updates : list (jsstring * EncryptionParameters))
         (vars : object) (w1 : World),
    fs.lookup (files (snd out)) path = Some (join ch_newline lines')
    /\ Mgr.resolveVariablesToEncrypt (Mgr.extractEnvironmentVariables lines) sels w
       = (Ok vars, w1)
    /\ (length lines <= length lines')%nat
    /\ (forall k e, In (k, e) updates ->
          exists value, In (k, VStr value) vars
                        /\ classified_encrypted value = false
                        /\ encrypted_by P skv value e)
    /\ (forall k value, In (k, VStr value) vars ->
          classified_encrypted value = false -> exists e, In (k, e) updates)
    /\ NoDup (map fst updates)
    /\ (forall i line, nth_error lines i = Some line ->
          (forall k e, In (k, e) updates -> begins_with_key k line = false) ->
          nth_error lines' i = Some line)
    /\ (forall i line, nth_error lines i = Some line ->
          includes line ch_equals = false ->
          nth_error lines' i = Some line)
    /\ (forall i line k v, nth_error lines i = Some line ->
          Mgr.parseEnvironmentLine line = Some (k, v) ->
          ~ In k (map fst updates) ->
          nth_error lines' i = Some line)
    /\ (forall i line k v, nth_error lines i = Some line ->
          Mgr.parseEnvironmentLine line = Some (k, v) ->
          ~ In k (Object.keys vars) ->
          nth_error lines' i = Some line)
    /\ (forall k e i line, In (k, e) updates ->
          nth_error lines i = Some line -> begins_with_key k line = true ->
          nth_error lines' i = Some (Mgr.assignment k (envelope_json e)))
    /\ (forall k e, In (k, e) updates ->
          (forall line, In line lines -> begins_with_key k line = false) ->
          In (Mgr.assignment k (envelope_json e)) (skipn (length lines) lines'))
    /\ (forall l, In l (skipn (length lines) lines') ->
          exists k e, In (k, e) updates /\ l = Mgr.assignment k (envelope_json e)
                      /\ forall line, In line lines -> begins_with_key k line = false)
    /\ ((forall line k v e, In line lines ->
           Mgr.parseEnvironmentLine line = Some (k, v) -> In (k, e) updates ->
           begins_with_key k line = true) ->
        length lines' = length lines
        /\ forall i line k v e, nth_error lines i = Some line ->
             Mgr.parseEnvironmentLine line = Some (k, v) -> In (k, e) updates ->
             nth_error lines' i = Some (Mgr.assignment k (envelope_json e))).
Proof.
  intros out lines Hpath Hcontent Hok.
  pose proof (run_inv P dir file skv sels w (snd out) (fst out)) as H.
  rewrite <- surjective_pairing in H. specialize (H eq_refl). rewrite Hok in H.
  destruct H as (path' & content' & vars & w1 & lines' & count & w2 & Hp & Hc & Hres
                 & Hloop & _ & _ & _ & Hfiles & _).
  rewrite Hpath in Hp. inversion Hp; subst path'.
  rewrite Hcontent in Hc. inversion Hc; subst content'. fold lines in Hres, Hloop.
  destruct (resolveVariablesToEncrypt_spec (Mgr.extractEnvironmentVariables lines)
              sels w (extract_wf _)) as (vars' & w1' & Hres' & _ & Hwf & Hvars).
  rewrite Hres in Hres'. inversion Hres'; subst vars' w1'.
  assert (Hentries : forall k v, In (k, v) (Object.entries vars) -> loop_entry k v).
  { intros k v Hin. apply Hvars in Hin as [Hin | (-> & _)]; [|now left].
    apply extract_In in Hin. now apply (parsed_loop_entry lines). }
  unfold Mgr.encryptVariableValuesInFileLines in Hloop.
  destruct (encrypt_each_spec P skv _ _ _ _ _ _ _ (proj1 Hwf) Hentries Hloop)
    as (updates & Hl & _ & Hu1 & Hu2 & Hproto & _ & Hnd).
  assert (Hplain : keys_plain (envelope_updates updates)).
  { apply (encrypt_each_keys_plain skv (Object.entries vars)); try assumption.
    - apply Hwf.
    - intros k e Hin. destruct (Hu1 _ _ Hin) as (s & ? & _). eauto. }
  assert (Hin_updates : forall k e, In (k, e) updates ->
                          In (k, envelope_json e) (envelope_updates updates)).
  { intros k e Hin. unfold envelope_updates.
    now apply (in_map (fun ke => (fst ke, envelope_json (snd ke))) _ (k, e)). }
  assert (Hframe : forall i line, nth_error lines i = Some line ->
            (forall k e, In (k, e) updates -> begins_with_key k line = false) ->
            nth_error lines' i = Some line).
  { intros i line Hn Hno. rewrite Hl. apply apply_updates_frame; [exact Hn|].
    intros k j Hin. unfold envelope_updates in Hin.
    apply in_map_iff in Hin as ([k0 e] & Heq & Hin). inversion Heq; subst.
    eapply Hno. eassumption. }
  assert (Hkey : forall k0 e line k v, In (k0, e) updates ->
            begins_with_key k0 line = true ->
            Mgr.parseEnvironmentLine line = Some (k, v) -> k = k0).
  { intros k0 e line k v Hin B Hparse.
    destruct (Hu1 _ _ Hin) as (value & Hv & _).
    assert (Hk0 : In (k0, VStr value) (Mgr.extractEnvironmentVariables lines)).
    { apply Hvars in Hv as [Hv | (Heq & _)]; [exact Hv | discriminate]. }
    apply extract_In in Hk0 as (s & l0 & _ & _ & Hp0).
    destruct (parseEnvironmentLine_props _ _ _ Hp0) as (K1 & K2 & K3 & _).
    eapply begins_with_key_parse; eauto. }
  assert (Hother : forall i line k v, nth_error lines i = Some line ->
            Mgr.parseEnvironmentLine line = Some (k, v) ->
            ~ In k (map fst updates) ->
            nth_error lines' i = Some line).
  { intros i line k v Hn Hparse Hnot. apply Hframe; [exact Hn|]. intros k0 e Hin.
    destruct (begins_with_key k0 line) eqn:B; [|reflexivity]. exfalso.
    assert (k = k0) by (eapply Hkey; eauto). subst k0.
    apply Hnot. now apply (in_map fst) in Hin. }
  assert (Htail : forall l, In l (skipn (length lines) lines') ->
            exists k e, In (k, e) updates /\ l = Mgr.assignment k (envelope_json e)
                        /\ forall line, In line lines -> begins_with_key k line = false).
  { intros l Hin. rewrite Hl in Hin.
    apply apply_updates_tail_inv in Hin as (k & j & Hu & -> & Hno); [|assumption].
    unfold envelope_updates in Hu. apply in_map_iff in Hu as ([k0 e] & Heq & Hu).
    inversion Heq; subst. eauto. }
  assert (Hlen : (length lines <= length lines')%nat)
    by (rewrite Hl; apply apply_updates_length).
  exists lines', updates, vars, w1.
  split; [rewrite Hfiles; apply lookup_store|]. split; [exact Hres|].
  split; [exact Hlen|].
  split; [exact Hu1|]. split; [exact Hu2|]. split; [exact Hnd|]. split; [exact Hframe|].
  split; [|split; [exact Hother|split; [|split; [|split; [|split; [exact Htail|]]]]]].
  - intros i line Hn Hinc. apply Hframe; [exact Hn|]. intros k e _.
    destruct (begins_with_key k line) eqn:B; [|reflexivity].
    apply begins_with_key_includes in B. congruence.
  - intros i line k v Hn Hparse Hnot. apply (Hother i line k v Hn Hparse).
    intros Hin. apply in_map_iff in Hin as ([k0 e] & Hk & Hin). cbn [fst] in Hk. subst k0.
    destruct (Hu1 _ _ Hin) as (value & Hv & _).
    apply Hnot. unfold Object.keys. now apply (in_map fst) in Hv.
  - intros k e i line Hin Hn B. rewrite Hl.
    apply (apply_updates_replaced _ _ _ line k); auto.
  - intros k e Hin Hno. rewrite Hl. apply apply_updates_appended; auto.
  - intros Hcanon. split.
    + destruct (skipn (length lines) lines') as [|l rest] eqn:S.
      * pose proof (firstn_skipn (length lines) lines') as F. rewrite S, app_nil_r in F.
        rewrite <- F at 1. rewrite length_firstn. lia.
      * exfalso. destruct (Htail l (or_introl eq_refl)) as (k & e & Hin & _ & Hno).
        destruct (Hu1 _ _ Hin) as (value & Hv & _).
        assert (Hk : In (k, VStr value) (Mgr.extractEnvironmentVariables lines)).
        { apply Hvars in Hv as [Hv | (Heq & _)]; [exact Hv | discriminate]. }
        apply extract_In in Hk as (s & l0 & _ & Hl0 & Hp0).
        pose proof (Hcanon _ _ _ e Hl0 Hp0 Hin) as B. rewrite (Hno _ Hl0) in B. discriminate.
    + intros i line k v e Hn Hparse Hin. rewrite Hl.
      apply (apply_updates_replaced _ _ _ line k); auto.
      apply (Hcanon line k v e); [|exact Hparse | exact Hin].
      eapply nth_error_In. exact Hn.
Qed.

(** The file [A=1, B=2, C=3] with the selector [B]: the lines of [A]
    and [C] keep their text and position, the line of [B] is replaced
    where it stands by [B=<envelope>], the envelope [encrypt] made for
    the value [2], and there are three lines as before. *)
Lemma C6_witness :
  let w := Demo.world Demo.env_path (file_of [lit "A=1"; lit "B=2"; lit "C=3"]) in
  let out := Demo.run (Some [lit "B"]) w in
  fst out = Ok tt /\
  exists lines' e,
    Demo.content_after out = Some (join ch_newline lines')
    /\ nth_error lines' 0 = Some (lit "A=1")
    /\ nth_error lines' 1 = Some (Mgr.assignment (lit "B") (envelope_json e))
    /\ encrypted_by Demo.platform Demo.UAT_SECRET_KEY (lit "2") e
    /\ nth_error lines' 2 = Some (lit "C=3")
    /\ length lines' = 3%nat.
Proof.
  intros w out. split; [reflexivity|].
  destruct (C6_frame_of_rewrite Demo.platform Demo.envs Demo.env_uat Demo.UAT_SECRET_KEY
              (Some [lit "B"]) w Demo.env_path
              (file_of [lit "A=1"; lit "B=2"; lit "C=3"]) eq_refl eq_refl eq_refl)
    as (lines' & updates & vars & w1 & Hfile & Hres & _ & Hu1 & Hu2 & _ & _ & _ & _
        & Hkeep & Hrepl & _ & _ & Hcanon).
  vm_compute in Hres. inversion Hres; subst vars w1. clear Hres.
  destruct (Hu2 (lit "B") (lit "2") (or_introl eq_refl) eq_refl) as (e & He).
  destruct (Hu1 _ _ He) as (value & [Hv | []] & _ & Henc).
  injection Hv as <-.
  destruct Hcanon as [Hlen _].
  { intros line k v e0 Hin Hp _. vm_compute in Hin.
    destruct Hin as [<-|[<-|[<-|[]]]]; vm_compute in Hp; injection Hp as <- <-;
      reflexivity. }
  exists lines', e. split; [exact Hfile|]. split; [|split; [|split; [|split]]].
  - apply (Hkeep 0%nat (lit "A=1") (lit "A") (lit "1")); [reflexivity.. |].
    cbn. intros [H | []]. discriminate H.
  - apply (Hrepl (lit "B") e 1%nat (lit "B=2") He); reflexivity.
  - exact Henc.
  - apply (Hkeep 2%nat (lit "C=3") (lit "C") (lit "3")); [reflexivity.. |].
    cbn. intros [H | []]. discriminate H.
  - exact Hlen.
Defined.

(** C6 as it stands fails on the file [" A=1"]: the line parses to the
    variable [A], which is a target when no selector is given, and the
    run leaves that line where it is and adds a second line [A={...}]
    after it.  It also fails on the file ["# A=1"]: the code knows no
    comments, the line parses to a variable named [# A], and the run
    replaces the line by [# A={...}]. *)
Lemma C6_counterexample :
  let out := Demo.run None (Demo.world Demo.env_path (lit " A=1")) in
  let out' := Demo.run None (Demo.world Demo.env_path (lit "# A=1")) in
  Mgr.parseEnvironmentLine (lit " A=1") = Some (lit "A", lit "1") /\
  fst out = Ok tt /\
  (exists added,
     option_map (split ch_newline) (Demo.content_after out)
     = Some [lit " A=1"; lit "A=" ++ added]
     /\ startsWith added [ch_lbrace] = true) /\
  Mgr.parseEnvironmentLine (lit "# A=1") = Some (lit "# A", lit "1") /\
  fst out' = Ok tt /\
  exists written,
    option_map (split ch_newline) (Demo.content_after out')
    = Some [lit "# A=" ++ written]
    /\ startsWith written [ch_lbrace] = true.
Proof.
  cbv zeta. split; [reflexivity|]. split; [vm_compute; reflexivity|].
  split; [|split; [reflexivity|]; split; [vm_compute; reflexivity|]].
  - eexists. split.
    + vm_compute. reflexivity.
    + reflexivity.
  - eexists. split.
    + vm_compute. reflexivity.
    + reflexivity.
Qed.

(** C7 at a selector that is neither a key nor a value of the file
    [A=1]: the run returns, rewrites the file with the same content,
    and logs nothing, not even the warning written for this case. *)
Lemma C7_unresolved_selector_not_logged :
  let out := Demo.run (Some [lit "MISSING"]) (Demo.world Demo.env_path (lit "A=1")) in
  fst out = Ok tt /\ logged (snd out) = []
  /\ Demo.content_after out = Some (lit "A=1").
Proof. cbv zeta. vm_compute. repeat split. Qed.

(** The warning for an unresolved selector is never logged, whatever
    the selectors are. *)
Lemma resolveVariablesToEncrypt_never_warns (allEnvVariables : object)
  (envVariables : option (list jsstring)) (w : World) :
  wf_object allEnvVariables ->
  exists vars w',
    Mgr.resolveVariablesToEncrypt allEnvVariables envVariables w = (Ok vars, w')
    /\ warnings w' = warnings w.
Proof.
  intros H. destruct (resolveVariablesToEncrypt_spec _ envVariables w H)
    as (vars & w' & Hr & (_ & _ & _ & _ & Hw) & _).
  eauto.
Qed.

(* ================================================================== *)
(** * Base64 *)
(* ================================================================== *)

Ltac nlia := zify; Z.to_euclidean_division_equations; lia.

Section Base64.

Lemma to_N_lt (b : byte) : Byte.to_N b < 256.
Proof. pose proof (Byte.to_N_bounded b). lia. Qed.

Lemma byte_of_to_N (b : byte) : byte_of_N (Byte.to_N b) = b.
Proof.
  unfold byte_of_N. rewrite N.mod_small by apply to_N_lt.
  now rewrite Byte.of_to_N.
Qed.

Lemma to_N_byte_of_N (n : N) : n < 256 -> Byte.to_N (byte_of_N n) = n.
Proof.
  intros H. unfold byte_of_N. rewrite N.mod_small by exact H.
  destruct (Byte.of_N n) as [b|] eqn:E.
  - now apply Byte.to_of_N.
  - apply Byte.of_N_None_iff in E. lia.
Qed.

Lemma unbase64_b64_char (i : N) : i < 64 -> Buffer.unbase64 (Buffer.b64_char i) = Some i.
Proof.
  intros H. unfold Buffer.b64_char, Buffer.unbase64.
  destruct (N.ltb_spec i 26).
  { replace ((65 <=? 65 + i) && (65 + i <=? 90)) with true
      by (symmetry; apply andb_true_iff; split; apply N.leb_le; lia).
    f_equal. lia. }
  destruct (N.ltb_spec i 52).
  { replace ((65 <=? 71 + i) && (71 + i <=? 90)) with false
      by (symmetry; apply andb_false_iff; right; apply N.leb_gt; lia).
    replace ((97 <=? 71 + i) && (71 + i <=? 122)) with true
      by (symmetry; apply andb_true_iff; split; apply N.leb_le; lia).
    f_equal. lia. }
  destruct (N.ltb_spec i 62).
  { replace ((65 <=? i - 4) && (i - 4 <=? 90)) with false
      by (symmetry; apply andb_false_iff; left; apply N.leb_gt; lia).
    replace ((97 <=? i - 4) && (i - 4 <=? 122)) with false
      by (symmetry; apply andb_false_iff; left; apply N.leb_gt; lia).
    replace ((48 <=? i - 4) && (i - 4 <=? 57)) with true
      by (symmetry; apply andb_true_iff; split; apply N.leb_le; lia).
    f_equal. lia. }
  assert (i = 62 \/ i = 63) as [-> | ->] by lia; reflexivity.
Qed.

Lemma b64_char_low (i : N) : i < 64 -> Buffer.b64_char i mod 256 = Buffer.b64_char i.
Proof.
  intros H. apply N.mod_small. unfold Buffer.b64_char.
  destruct (N.ltb_spec i 26); [lia|]. destruct (N.ltb_spec i 52); [lia|].
  destruct (N.ltb_spec i 62); [lia|]. destruct (i =? 62); lia.
Qed.

Lemma sextets_cons (i : N) (s : jsstring) :
  i < 64 -> Buffer.sextets (Buffer.b64_char i :: s) = i :: Buffer.sextets s.
Proof.
  intros H. cbn [Buffer.sextets]. cbv zeta.
  now rewrite b64_char_low, unbase64_b64_char.
Qed.

Lemma sextets_pad (s : jsstring) : Buffer.sextets (Buffer.ch_pad :: s) = [].
Proof. reflexivity. Qed.

(** Decoding what was encoded gives the bytes back. *)
Lemma from_base64_toString (b : bytes) :
  Buffer.from_base64 (Buffer.toString_base64 b) = b.
Proof.
  unfold Buffer.from_base64.
  induction b as [| x | x y | x y z r IH] using list_ind3.
  - reflexivity.
  - pose proof (to_N_lt x). cbn [Buffer.toString_base64].
    rewrite !sextets_cons, sextets_pad by nlia. cbn [Buffer.bytes_of_sextets].
    f_equal. rewrite <- (byte_of_to_N x) at 3. f_equal. nlia.
  - pose proof (to_N_lt x). pose proof (to_N_lt y). cbn [Buffer.toString_base64].
    rewrite !sextets_cons, sextets_pad by nlia. cbn [Buffer.bytes_of_sextets].
    f_equal; [|f_equal].
    + rewrite <- (byte_of_to_N x) at 3. f_equal. nlia.
    + rewrite <- (byte_of_to_N y) at 3. f_equal. nlia.
  - pose proof (to_N_lt x). pose proof (to_N_lt y). pose proof (to_N_lt z).
    cbn [Buffer.toString_base64].
    rewrite !sextets_cons by nlia. cbn [Buffer.bytes_of_sextets]. rewrite IH.
    f_equal; [|f_equal; [|f_equal]].
    + rewrite <- (byte_of_to_N x) at 3. f_equal. nlia.
    + rewrite <- (byte_of_to_N y) at 3. f_equal. nlia.
    + rewrite <- (byte_of_to_N z) at 3. f_equal. nlia.
Qed.

Lemma b64_char_plain (i : N) : i < 64 -> plain_char (Buffer.b64_char i).
Proof.
  intros H. unfold plain_char, Buffer.b64_char.
  destruct (N.ltb_spec i 26); [lia|]. destruct (N.ltb_spec i 52); [lia|].
  destruct (N.ltb_spec i 62); [lia|].
  destruct (N.eqb_spec i 62); lia.
Qed.

Lemma toString_base64_plain (b : bytes) :
  Forall plain_char (Buffer.toString_base64 b).
Proof.
  assert (Hpad : plain_char Buffer.ch_pad) by (unfold plain_char, Buffer.ch_pad; lia).
  induction b as [| x | x y | x y z r IH] using list_ind3.
  - constructor.
  - pose proof (to_N_lt x). cbn [Buffer.toString_base64].
    repeat (apply Forall_cons; [first [exact Hpad | apply b64_char_plain; nlia]|]).
    apply Forall_nil.
  - pose proof (to_N_lt x). pose proof (to_N_lt y). cbn [Buffer.toString_base64].
    repeat (apply Forall_cons; [first [exact Hpad | apply b64_char_plain; nlia]|]).
    apply Forall_nil.
  - pose proof (to_N_lt x). pose proof (to_N_lt y). pose proof (to_N_lt z).
    cbn [Buffer.toString_base64].
    repeat (apply Forall_cons; [apply b64_char_plain; nlia|]). exact IH.
Qed.

End Base64.

(* ================================================================== *)
(** * JSON: what stringify writes, parse reads back *)
(* ================================================================== *)

Section JsonRoundTrip.

Lemma hex_val_hex_digit (d : N) : d < 16 -> JSON.hex_val (JSON.hex_digit d) = Some d.
Proof.
  intros H. unfold JSON.hex_digit, JSON.hex_val.
  destruct (N.ltb_spec d 10).
  - replace ((48 <=? 48 + d) && (48 + d <=? 57)) with true
      by (symmetry; apply andb_true_iff; split; apply N.leb_le; lia).
    f_equal. lia.
  - replace ((48 <=? 87 + d) && (87 + d <=? 57)) with false
      by (symmetry; apply andb_false_iff; right; apply N.leb_gt; lia).
    replace ((97 <=? 87 + d) && (87 + d <=? 102)) with true
      by (symmetry; apply andb_true_iff; split; apply N.leb_le; lia).
    f_equal. lia.
Qed.

Lemma parse_string_raw (c : codeunit) (t : jsstring) :
  32 <= c -> c <> 34 -> c <> 92 ->
  JSON.parse_string (c :: t) =
  match JSON.parse_string t with
  | Some (s, rest) => Some (c :: s, rest)
  | None => None
  end.
Proof.
  intros H1 H2 H3. cbn [JSON.parse_string].
  destruct (N.eqb_spec c 34); [contradiction|].
  destruct (N.eqb_spec c 92); [contradiction|].
  destruct (N.ltb_spec c 32); [lia | reflexivity].
Qed.

Lemma parse_string_unicode (u : codeunit) (t : jsstring) :
  u < 65536 ->
  JSON.parse_string (JSON.unicode_escape u ++ t) =
  match JSON.parse_string t with
  | Some (s, rest) => Some (u :: s, rest)
  | None => None
  end.
Proof.
  intros H. unfold JSON.unicode_escape. cbn [app JSON.parse_string].
  change (92 =? 34) with false. change (92 =? 92) with true.
  change (117 =? 34) with false. change (117 =? 92) with false.
  change (117 =? 47) with false. change (117 =? 98) with false.
  change (117 =? 102) with false. change (117 =? 110) with false.
  change (117 =? 114) with false. change (117 =? 116) with false.
  change (117 =? 117) with true. cbv iota.
  unfold JSON.hex4_val. rewrite !hex_val_hex_digit by nlia.
  replace (4096 * (u / 4096) + 256 * ((u / 256) mod 16) + 16 * ((u / 16) mod 16)
           + u mod 16) with u by nlia.
  reflexivity.
Qed.

Lemma parse_string_quote_unit (u : codeunit) (t : jsstring) :
  u < 65536 ->
  JSON.parse_string (JSON.quote_unit u ++ t) =
  match JSON.parse_string t with
  | Some (s, rest) => Some (u :: s, rest)
  | None => None
  end.
Proof.
  intros H. unfold JSON.quote_unit.
  destruct (N.eqb_spec u 8) as [->|]; [reflexivity|].
  destruct (N.eqb_spec u 9) as [->|]; [reflexivity|].
  destruct (N.eqb_spec u 10) as [->|]; [reflexivity|].
  destruct (N.eqb_spec u 12) as [->|]; [reflexivity|].
  destruct (N.eqb_spec u 13) as [->|]; [reflexivity|].
  destruct (N.eqb_spec u 34) as [->|]; [reflexivity|].
  destruct (N.eqb_spec u 92) as [->|]; [reflexivity|].
  destruct (N.ltb_spec u 32); [now apply parse_string_unicode|].
  now apply parse_string_raw.
Qed.

Lemma high_surrogate_raw (u : codeunit) :
  JSON.is_high_surrogate u = true -> 32 <= u /\ u <> 34 /\ u <> 92.
Proof.
  unfold JSON.is_high_surrogate. intros H. apply andb_true_iff in H as [H1 H2].
  apply N.leb_le in H1, H2. lia.
Qed.

Lemma low_surrogate_raw (u : codeunit) :
  JSON.is_low_surrogate u = true -> 32 <= u /\ u <> 34 /\ u <> 92.
Proof.
  unfold JSON.is_low_surrogate. intros H. apply andb_true_iff in H as [H1 H2].
  apply N.leb_le in H1, H2. lia.
Qed.

Lemma parse_string_quote_body_len (n : nat) (s rest : jsstring) :
  (length s <= n)%nat -> Forall (fun u => u < 65536) s ->
  JSON.parse_string (JSON.quote_body s ++ 34 :: rest) = Some (s, rest).
Proof.
  revert s. induction n as [|n IH]; intros s Hlen Hall.
  - destruct s; [reflexivity | simpl in Hlen; lia].
  - destruct s as [|u r]; [reflexivity|].
    inversion Hall as [|? ? Hu Hr]; subst. simpl in Hlen.
    assert (IHr : JSON.parse_string (JSON.quote_body r ++ 34 :: rest) = Some (r, rest))
      by (apply IH; [lia | assumption]).
    cbn [JSON.quote_body].
    destruct (JSON.is_high_surrogate u) eqn:Hh.
    + destruct r as [|l r'].
      * rewrite parse_string_unicode by assumption. reflexivity.
      * destruct (JSON.is_low_surrogate l) eqn:Hl.
        -- destruct (high_surrogate_raw u Hh) as (? & ? & ?).
           destruct (low_surrogate_raw l Hl) as (? & ? & ?).
           cbn [app]. rewrite !parse_string_raw by assumption.
           inversion Hr; subst.
           rewrite IH; [reflexivity | simpl in Hlen; lia | assumption].
        -- rewrite <- app_assoc, parse_string_unicode by assumption.
           now rewrite IHr.
    + destruct (JSON.is_low_surrogate u) eqn:Hl.
      * rewrite <- app_assoc, parse_string_unicode by assumption. now rewrite IHr.
      * rewrite <- app_assoc, parse_string_quote_unit by assumption. now rewrite IHr.
Qed.

(** A quoted string, read back: the string itself. *)
Lemma parse_string_quote_body (s rest : jsstring) :
  Forall (fun u => u < 65536) s ->
  JSON.parse_string (JSON.quote_body s ++ 34 :: rest) = Some (s, rest).
Proof. apply (parse_string_quote_body_len (length s)). lia. Qed.

Lemma quote_app (s rest : jsstring) :
  JSON.quote s ++ rest = 34 :: JSON.quote_body s ++ 34 :: rest.
Proof. unfold JSON.quote. cbn [app]. now rewrite <- app_assoc. Qed.

Lemma parse_value_quote (n : nat) (s rest : jsstring) :
  Forall (fun u => u < 65536) s ->
  JSON.parse_value (S n) (JSON.quote s ++ rest) = JSON.Parsed (JSON.Str s) rest.
Proof.
  intros H. rewrite quote_app. cbn [JSON.parse_value JSON.skip_ws].
  change (JSON.is_ws 34) with false. cbv iota.
  change (34 =? 123) with false. change (34 =? 91) with false.
  change (34 =? 34) with true. cbv iota.
  now rewrite parse_string_quote_body.
Qed.

Lemma parse_members_stringify (fields : list (jsstring * jsstring)) (rest : jsstring)
  (n : nat) :
  fields <> [] -> units_ok fields -> (length fields < n)%nat ->
  JSON.parse_members n (JSON.stringify_members fields ++ 125 :: rest)
  = JSON.Parsed (parsed_fields fields) rest.
Proof.
  revert n. induction fields as [|[k v] more IH]; intros n Hne Hok Hn; [contradiction|].
  inversion Hok as [|? ? [Hk Hv] Hmore]; subst. cbn [fst snd] in Hk, Hv.
  destruct n as [|[|n]]; [simpl in Hn; lia | simpl in Hn; lia |].
  assert (Hstep : forall tail,
    JSON.parse_members (S (S n)) (JSON.quote k ++ 58 :: JSON.quote v ++ tail)
    = match JSON.skip_ws tail with
      | [] => JSON.SyntaxError
      | c3 :: r4 =>
          if c3 =? 44 then
            match JSON.parse_members (S n) r4 with
            | JSON.Parsed ms r5 => JSON.Parsed ((k, JSON.Str v) :: ms) r5
            | JSON.SyntaxError => JSON.SyntaxError
            | JSON.Exhausted => JSON.Exhausted
            end
          else if c3 =? 125 then JSON.Parsed [(k, JSON.Str v)] r4
          else JSON.SyntaxError
      end).
  { intros tail. rewrite quote_app.
    cbn [JSON.parse_members JSON.skip_ws].
    change (JSON.is_ws 34) with false. cbv iota.
    change (34 =? 34) with true. cbv iota.
    rewrite parse_string_quote_body by assumption.
    cbn [JSON.skip_ws]. change (JSON.is_ws 58) with false. cbv iota.
    change (58 =? 58) with true. cbv iota.
    rewrite parse_value_quote by assumption. reflexivity. }
  destruct more as [|kv2 more'].
  - cbn [JSON.stringify_members]. repeat (rewrite <- app_assoc; cbn [app]).
    rewrite Hstep. reflexivity.
  - assert (Hcons : JSON.stringify_members ((k, v) :: kv2 :: more')
                    = JSON.quote k ++ 58 :: JSON.quote v
                        ++ 44 :: JSON.stringify_members (kv2 :: more'))
      by reflexivity.
    rewrite Hcons. repeat (rewrite <- app_assoc; cbn [app]).
    rewrite Hstep. cbn [JSON.skip_ws]. change (JSON.is_ws 44) with false. cbv iota.
    change (44 =? 44) with true. cbv iota.
    rewrite IH; [reflexivity | discriminate | assumption | simpl in *; lia].
Qed.

End JsonRoundTrip.

Section EnvelopeText.

Lemma stringify_members_head (fields : list (jsstring * jsstring)) :
  fields <> [] -> exists t, JSON.stringify_members fields = 34 :: t.
Proof.
  destruct fields as [|[k v] [|kv more]]; [contradiction | |]; intros _;
    cbn [JSON.stringify_members]; unfold JSON.quote; cbn [app]; eauto.
Qed.

Lemma stringify_length (fields : list (jsstring * jsstring)) :
  (length fields <= length (JSON.stringify_members fields))%nat.
Proof.
  induction fields as [|[k v] more IH]; [simpl; lia|].
  destruct more as [|kv more'].
  - cbn [JSON.stringify_members]. rewrite length_app. cbn [length]. lia.
  - assert (Hcons : JSON.stringify_members ((k, v) :: kv :: more')
                    = JSON.quote k ++ 58 :: JSON.quote v
                        ++ 44 :: JSON.stringify_members (kv :: more'))
      by reflexivity.
    rewrite Hcons, length_app. cbn [length]. rewrite length_app. cbn [length] in *.
    lia.
Qed.

(** [JSON.parse(JSON.stringify(o))] for an object of strings. *)
Lemma parse_stringify (fields : list (jsstring * jsstring)) :
  units_ok fields ->
  JSON.parse (JSON.stringify fields) = Some (JSON.Obj (parsed_fields fields)).
Proof.
  intros Hok. unfold JSON.parse, JSON.parse_document, JSON.stringify.
  cbn [length JSON.parse_value JSON.skip_ws].
  change (JSON.is_ws 123) with false. cbv iota.
  change (123 =? 123) with true. cbv iota.
  destruct fields as [|kv more].
  - reflexivity.
  - destruct (stringify_members_head (kv :: more)) as [t Ht]; [discriminate|].
    rewrite Ht. cbn [app JSON.skip_ws]. change (JSON.is_ws 34) with false. cbv iota.
    change (34 =? 125) with false. cbv iota.
    change (34 :: t ++ [125]) with ((34 :: t) ++ [125]). rewrite <- Ht.
    rewrite parse_members_stringify; [reflexivity | discriminate | assumption |].
    pose proof (stringify_length (kv :: more)). rewrite length_app.
    unfold jsstring, codeunit in *. cbn [length] in *. lia.
Qed.

Lemma plain_char_unit (c : codeunit) : plain_char c -> c < 65536.
Proof. unfold plain_char. lia. Qed.

Lemma plain_units (s : jsstring) :
  Forall plain_char s -> Forall (fun u => u < 65536) s.
Proof. apply Forall_impl, plain_char_unit. Qed.

Lemma lit_units (s : string) : Forall (fun u => u < 65536) (lit s).
Proof.
  induction s as [|a s IH]; constructor; [|exact IH].
  pose proof (N_ascii_bounded a). lia.
Qed.

Lemma quote_body_plain (s : jsstring) : Forall plain_char s -> JSON.quote_body s = s.
Proof.
  induction 1 as [|c s (H1 & H2 & H3 & H4) _ IH]; [reflexivity|].
  cbn [JSON.quote_body].
  replace (JSON.is_high_surrogate c) with false
    by (symmetry; apply andb_false_iff; left; apply N.leb_gt; lia).
  replace (JSON.is_low_surrogate c) with false
    by (symmetry; apply andb_false_iff; left; apply N.leb_gt; lia).
  unfold JSON.quote_unit.
  repeat match goal with
         | |- context [N.eqb c ?k] => destruct (N.eqb_spec c k); [lia|]
         end.
  destruct (N.ltb_spec c 32); [lia|]. cbn [app]. now rewrite IH.
Qed.

Lemma envelope_fields_plain (e : EncryptionParameters) :
  base64_envelope e ->
  Forall plain_char (salt e) /\ Forall plain_char (iv e)
  /\ Forall plain_char (cipherText e).
Proof.
  intros (s & i & c & -> & -> & ->).
  repeat split; apply toString_base64_plain.
Qed.

(** The text of an envelope: how it parses. *)
Lemma parse_envelope_json (e : EncryptionParameters) :
  base64_envelope e ->
  JSON.parse (envelope_json e)
  = Some (JSON.Obj [(lit "salt", JSON.Str (salt e)); (lit "iv", JSON.Str (iv e));
                    (lit "cipherText", JSON.Str (cipherText e))]).
Proof.
  intros H. destruct (envelope_fields_plain e H) as (Hs & Hi & Hc).
  unfold envelope_json, Mgr.stringify_result. rewrite parse_stringify; [reflexivity|].
  repeat (apply Forall_cons; [split; cbn [fst snd];
                              first [apply lit_units | now apply plain_units]|]).
  apply Forall_nil.
Qed.

Lemma envelope_json_shape (e : EncryptionParameters) :
  exists m, envelope_json e = ch_lbrace :: m ++ [ch_rbrace].
Proof.
  unfold envelope_json, Mgr.stringify_result, JSON.stringify. eauto.
Qed.

Lemma envelope_json_trimmed (e : EncryptionParameters) :
  envelope_json e <> [] /\ trim (envelope_json e) = envelope_json e.
Proof.
  destruct (envelope_json_shape e) as [m ->]. split; [discriminate|].
  now apply trim_fixed.
Qed.

(** What [encrypt] writes is recognised as already encrypted. *)
Lemma envelope_json_classified (e : EncryptionParameters) :
  base64_envelope e -> classified_encrypted (envelope_json e) = true.
Proof.
  intros H. unfold classified_encrypted.
  rewrite (parse_envelope_json e H).
  destruct (envelope_json_trimmed e) as [_ ->].
  destruct (envelope_json_shape e) as [m ->].
  unfold endsWith.
  change (ch_lbrace :: m ++ [ch_rbrace]) with ((ch_lbrace :: m) ++ [ch_rbrace]).
  rewrite rev_unit. reflexivity.
Qed.

End EnvelopeText.

(* ================================================================== *)
(** * EncryptionService.encrypt *)
(* ================================================================== *)

Section Encrypt.
Context (P : Platform).

Lemma deriveKeyWithArgon2_eq (secretKey : jsstring) (saltBytes : bytes) (w : World) :
  EncryptionService.deriveKeyWithArgon2 P secretKey (Buffer.toString_base64 saltBytes) w
  = match argon2_hash P secretKey (argon2_options saltBytes) with
    | None => (Throw KeyDerivationError, w)
    | Some key =>
        if crypto.valid_aes_key key then (Ok key, w) else (Throw ImportKeyError, w)
    end.
Proof.
  unfold EncryptionService.deriveKeyWithArgon2, EncryptionService.argon2Hashing,
    EncryptionService.importKeyForCrypto, bind.
  rewrite from_base64_toString. cbn [type hashLength salt_bytes memoryCost timeCost
                                      parallelism].
  change (argon2_hash P secretKey _) with
    (argon2_hash P secretKey (argon2_options saltBytes)).
  destruct (argon2_hash P secretKey (argon2_options saltBytes)) as [key|];
    [|reflexivity].
  cbn [of_option ret]. destruct (crypto.valid_aes_key key); reflexivity.
Qed.

(** One call of [encrypt], step by step. *)
Lemma encrypt_eq (value secretKey : jsstring) (w : World) :
  let saltBytes := next_bytes w 32 in
  let ivBytes := next_bytes (after_draw w 32) 12 in
  let w' := after_draw (after_draw w 32) 12 in
  EncryptionService.encrypt P value secretKey w
  = match argon2_hash P secretKey (argon2_options saltBytes) with
    | None => (Throw KeyDerivationError, w')
    | Some key =>
        if crypto.valid_aes_key key then
          match aes_gcm_encrypt P key ivBytes (TextEncoder.encode value) with
          | None => (Throw OperationError, w')
          | Some encryptedBuffer =>
              (Ok {| salt := Buffer.toString_base64 saltBytes;
                     iv := Buffer.toString_base64 ivBytes;
                     cipherText := Buffer.toString_base64 encryptedBuffer |}, w')
          end
        else (Throw ImportKeyError, w')
    end.
Proof.
  intros saltBytes ivBytes w'. unfold EncryptionService.encrypt.
  rewrite (bind_ok _ _ w (after_draw w 32) (Buffer.toString_base64 saltBytes))
    by reflexivity.
  rewrite (bind_ok _ _ (after_draw w 32) w' ivBytes) by reflexivity.
  unfold bind at 1. rewrite deriveKeyWithArgon2_eq.
  destruct (argon2_hash P secretKey (argon2_options saltBytes)) as [key|];
    [|reflexivity].
  destruct (crypto.valid_aes_key key); [|reflexivity].
  unfold EncryptionService.encryptBuffer, bind.
  destruct (aes_gcm_encrypt P key ivBytes (TextEncoder.encode value)); reflexivity.
Qed.

Lemma encrypt_ok_inv (value secretKey : jsstring) (w w' : World)
  (e : EncryptionParameters) :
  EncryptionService.encrypt P value secretKey w = (Ok e, w') ->
  base64_envelope e /\ w' = after_draw (after_draw w 32) 12.
Proof.
  rewrite encrypt_eq.
  destruct (argon2_hash P secretKey _) as [key|]; [|discriminate].
  destruct (crypto.valid_aes_key key); [|discriminate].
  destruct (aes_gcm_encrypt P key _ _) as [c|]; [|discriminate].
  intros H. inversion H; subst. split; [|reflexivity].
  now exists (next_bytes w 32), (next_bytes (after_draw w 32) 12), c.
Qed.

Lemma encrypted_by_base64 (secretKey v : jsstring) (e : EncryptionParameters) :
  encrypted_by P secretKey v e -> base64_envelope e.
Proof. intros (w1 & w2 & H). now apply encrypt_ok_inv in H. Qed.

End Encrypt.

(** C8. One call of [encrypt] draws the next 32 bytes of entropy as
    the salt and the 12 bytes after them as the IV (the Web Crypto IV
    length, not the general IV length of 16), so that each call uses
    bytes no earlier call has seen; it hands argon2 the passphrase with
    the options: type argon2id, hash length 32, that salt, memory cost
    262144, time cost 4, parallelism 3, raw output; it encrypts the
    UTF-8 bytes of the value under the derived key and that IV; and the
    envelope it returns holds the base64 text of the salt, of the IV
    and of the ciphertext. *)
Theorem C8_encrypt_parameters (P : Platform) (value secretKey : jsstring) (w : World) :
  let saltBytes := next_bytes w 32 in
  let ivBytes := next_bytes (after_draw w 32) 12 in
  let w' := after_draw (after_draw w 32) 12 in
  length saltBytes = 32%nat /\ length ivBytes = 12%nat /\
  SecureKeyGenerator.WEB_CRYPTO_IV_LENGTH = 12%Z /\
  SecureKeyGenerator.IV_LENGTH = 16%Z /\
  drawn w' = (drawn w + 44)%nat /\
  argon2_options saltBytes
  = {| type := argon2id; hashLength := 32; salt_bytes := saltBytes;
       memoryCost := 262144; timeCost := 4; parallelism := 3; raw := true |} /\
  EncryptionService.encrypt P value secretKey w
  = match argon2_hash P secretKey (argon2_options saltBytes) with
    | None => (Throw KeyDerivationError, w')
    | Some key =>
        if crypto.valid_aes_key key then
          match aes_gcm_encrypt P key ivBytes (TextEncoder.encode value) with
          | None => (Throw OperationError, w')
          | Some encryptedBuffer =>
              (Ok {| salt := Buffer.toString_base64 saltBytes;
                     iv := Buffer.toString_base64 ivBytes;
                     cipherText := Buffer.toString_base64 encryptedBuffer |}, w')
          end
        else (Throw ImportKeyError, w')
    end.
Proof.
  intros saltBytes ivBytes w'.
  split; [apply next_bytes_length|]. split; [apply next_bytes_length|].
  split; [reflexivity|]. split; [reflexivity|].
  split; [cbn; lia|]. split; [reflexivity|]. apply encrypt_eq.
Qed.

(* ================================================================== *)
(** * UTF-8: what the encoder writes, the decoder reads back *)
(* ================================================================== *)

Section Utf8.

Ltac decide_bytes :=
  repeat match goal with
         | |- context [N.leb ?a ?b] =>
             destruct (N.leb_spec a b); try (exfalso; nlia)
         | |- context [N.eqb ?a ?b] =>
             destruct (N.eqb_spec a b); try (exfalso; nlia)
         end.

Lemma scalars_ascii (n : N) (r : bytes) :
  n <= 127 ->
  TextDecoder.scalars None (byte_of_N n :: r) = n :: TextDecoder.scalars None r.
Proof.
  intros H. cbn [TextDecoder.scalars]. cbv zeta.
  rewrite to_N_byte_of_N by lia. decide_bytes. reflexivity.
Qed.

Lemma scalars_lead (n : N) (r : bytes) :
  194 <= n -> n <= 244 ->
  TextDecoder.scalars None (byte_of_N n :: r) =
  TextDecoder.scalars
    (Some (if n <=? 223
           then {| TextDecoder.code_point := n - 192; TextDecoder.needed := 1;
                   TextDecoder.lower := 128; TextDecoder.upper := 191 |}
           else if n <=? 239
           then {| TextDecoder.code_point := n - 224; TextDecoder.needed := 2;
                   TextDecoder.lower := if n =? 224 then 160 else 128;
                   TextDecoder.upper := if n =? 237 then 159 else 191 |}
           else {| TextDecoder.code_point := n - 240; TextDecoder.needed := 3;
                   TextDecoder.lower := if n =? 240 then 144 else 128;
                   TextDecoder.upper := if n =? 244 then 143 else 191 |})) r.
Proof.
  intros H1 H2. cbn [TextDecoder.scalars]. cbv zeta.
  rewrite to_N_byte_of_N by lia.
  destruct (N.leb_spec n 127); [lia|].
  destruct (N.leb_spec 194 n); [|lia]. cbn [andb].
  destruct (N.leb_spec n 223); [reflexivity|].
  destruct (N.leb_spec 224 n); [|lia]. cbn [andb].
  destruct (N.leb_spec n 239); [reflexivity|].
  destruct (N.leb_spec 240 n); [|lia]. cbn [andb].
  destruct (N.leb_spec n 244); [reflexivity | lia].
Qed.

Lemma scalars_continue (p : TextDecoder.pending) (n : N) (r : bytes) :
  TextDecoder.lower p <= n -> n <= TextDecoder.upper p -> n < 256 ->
  TextDecoder.scalars (Some p) (byte_of_N n :: r) =
  if TextDecoder.needed p =? 1
  then (TextDecoder.code_point p * 64 + (n - 128)) :: TextDecoder.scalars None r
  else TextDecoder.scalars
         (Some {| TextDecoder.code_point := TextDecoder.code_point p * 64 + (n - 128);
                  TextDecoder.needed := TextDecoder.needed p - 1;
                  TextDecoder.lower := 128; TextDecoder.upper := 191 |}) r.
Proof.
  intros H1 H2 H3. cbn [TextDecoder.scalars]. cbv zeta.
  rewrite to_N_byte_of_N by lia.
  destruct (N.leb_spec (TextDecoder.lower p) n); [|lia].
  destruct (N.leb_spec n (TextDecoder.upper p)); [|lia]. reflexivity.
Qed.

Lemma scalars_utf8_of_scalar (c : N) (rest : bytes) :
  is_scalar c ->
  TextDecoder.scalars None (utf8_of_scalar c ++ rest) = c :: TextDecoder.scalars None rest.
Proof.
  intros Hc. unfold is_scalar in Hc. unfold utf8_of_scalar.
  destruct (N.ltb_spec c 128).
  { cbn [app]. apply scalars_ascii. lia. }
  destruct (N.ltb_spec c 2048).
  { cbn [app]. rewrite scalars_lead by nlia.
    destruct (N.leb_spec (192 + c / 64) 223); [|exfalso; nlia].
    rewrite scalars_continue by (cbv iota; cbn [TextDecoder.lower TextDecoder.upper]; nlia). cbn [TextDecoder.needed TextDecoder.code_point]. cbv iota. change (1 =? 1) with true; try change (2 - 1 =? 1) with true; try change (3 - 1 - 1 =? 1) with true. cbv iota. f_equal. nlia. }
  destruct (N.ltb_spec c 65536).
  { cbn [app]. rewrite scalars_lead by nlia.
    destruct (N.leb_spec (224 + c / 4096) 223); [exfalso; nlia|].
    destruct (N.leb_spec (224 + c / 4096) 239); [|exfalso; nlia].
    rewrite scalars_continue.
    2:{ cbn [TextDecoder.lower TextDecoder.upper]. destruct (N.eqb_spec (224 + c / 4096) 224); nlia. }
    2:{ cbn [TextDecoder.lower TextDecoder.upper]. destruct (N.eqb_spec (224 + c / 4096) 237); nlia. }
    2:{ nlia. }
    cbn [TextDecoder.needed TextDecoder.code_point]. change (2 =? 1) with false.
    cbv iota. rewrite scalars_continue by (cbv iota; cbn [TextDecoder.lower TextDecoder.upper]; nlia). cbn [TextDecoder.needed TextDecoder.code_point]. cbv iota. change (1 =? 1) with true; try change (2 - 1 =? 1) with true; try change (3 - 1 - 1 =? 1) with true. cbv iota. f_equal. nlia. }
  cbn [app]. rewrite scalars_lead by nlia.
  destruct (N.leb_spec (240 + c / 262144) 223); [exfalso; nlia|].
  destruct (N.leb_spec (240 + c / 262144) 239); [exfalso; nlia|].
  rewrite scalars_continue.
  2:{ cbn [TextDecoder.lower TextDecoder.upper]. destruct (N.eqb_spec (240 + c / 262144) 240); nlia. }
  2:{ cbn [TextDecoder.lower TextDecoder.upper]. destruct (N.eqb_spec (240 + c / 262144) 244); nlia. }
  2:{ nlia. }
  cbn [TextDecoder.needed TextDecoder.code_point]. change (3 =? 1) with false.
  cbv iota. rewrite scalars_continue by (cbv iota; cbn [TextDecoder.lower TextDecoder.upper]; nlia).
  cbn [TextDecoder.needed TextDecoder.code_point]. change (3 - 1 =? 1) with false.
  cbv iota. rewrite scalars_continue by (cbv iota; cbn [TextDecoder.lower TextDecoder.upper]; nlia). cbn [TextDecoder.needed TextDecoder.code_point]. cbv iota. change (1 =? 1) with true; try change (2 - 1 =? 1) with true; try change (3 - 1 - 1 =? 1) with true. cbv iota. f_equal. nlia.
Qed.

Lemma surrogate_cases (u : N) :
  (JSON.is_high_surrogate u = true /\ 55296 <= u <= 56319) \/
  (JSON.is_high_surrogate u = false /\ JSON.is_low_surrogate u = true /\
   56320 <= u <= 57343) \/
  (JSON.is_high_surrogate u = false /\ JSON.is_low_surrogate u = false /\
   (u < 55296 \/ 57343 < u)).
Proof.
  unfold JSON.is_high_surrogate, JSON.is_low_surrogate.
  destruct (N.leb_spec 55296 u), (N.leb_spec u 56319),
    (N.leb_spec 56320 u), (N.leb_spec u 57343); cbn [andb]; lia.
Qed.

Lemma well_formed_length_ind (Q : jsstring -> Prop) :
  Q [] ->
  (forall u r, JSON.is_high_surrogate u = false -> JSON.is_low_surrogate u = false ->
               u < 65536 -> well_formed r = true -> Q r -> Q (u :: r)) ->
  (forall u l r, JSON.is_high_surrogate u = true -> JSON.is_low_surrogate l = true ->
                 well_formed r = true -> Q r -> Q (u :: l :: r)) ->
  forall s, well_formed s = true -> Q s.
Proof.
  intros Hnil Hone Hpair s.
  remember (length s) as n eqn:Hn. revert s Hn.
  induction n as [n IH] using lt_wf_ind. intros s Hn Hwf.
  destruct s as [|u r]; [exact Hnil|].
  cbn [well_formed] in Hwf.
  destruct (JSON.is_high_surrogate u) eqn:Hh.
  - destruct r as [|l r']; [discriminate|].
    apply andb_true_iff in Hwf. destruct Hwf as [Hl Hr].
    apply Hpair; auto. apply (IH (length r')); auto. subst n. simpl. lia.
  - apply andb_true_iff in Hwf. destruct Hwf as [Hwf Hr].
    apply andb_true_iff in Hwf. destruct Hwf as [Hl Hu].
    apply negb_true_iff in Hl. apply N.ltb_lt in Hu.
    apply Hone; auto. apply (IH (length r)); auto. subst n. simpl. lia.
Qed.

Lemma scalars_encode (s : jsstring) :
  well_formed s = true ->
  TextDecoder.scalars None (TextEncoder.encode s) = scalar_values s.
Proof.
  revert s. apply well_formed_length_ind.
  - reflexivity.
  - intros u r Hh Hl Hu Hr IH.
    cbn [TextEncoder.encode scalar_values]. rewrite Hh, Hl.
    rewrite scalars_utf8_of_scalar, IH; [reflexivity|].
    destruct (surrogate_cases u) as [[A _]|[(_ & A & _)|(_ & _ & A)]];
      try congruence. unfold is_scalar. lia.
  - intros u l r Hh Hl Hr IH.
    cbn [TextEncoder.encode scalar_values]. rewrite Hh, Hl.
    rewrite scalars_utf8_of_scalar, IH; [reflexivity|].
    destruct (surrogate_cases u) as [[_ A]|[(A & _)|(A & _)]]; try congruence.
    destruct (surrogate_cases l) as [[_ B]|[(_ & _ & B)|(_ & B & _)]];
      try congruence.
    + unfold JSON.is_low_surrogate in Hl. apply andb_true_iff in Hl.
      destruct Hl as [Hl _]. apply N.leb_le in Hl. lia.
    + unfold is_scalar. lia.
Qed.

Lemma units_of_scalar_values (s : jsstring) :
  well_formed s = true ->
  flat_map TextDecoder.units_of_scalar (scalar_values s) = s.
Proof.
  revert s. apply well_formed_length_ind.
  - reflexivity.
  - intros u r Hh Hl Hu Hr IH.
    cbn [scalar_values]. rewrite Hh. cbn [flat_map]. rewrite IH.
    unfold TextDecoder.units_of_scalar.
    destruct (N.ltb_spec u 65536); [reflexivity | lia].
  - intros u l r Hh Hl Hr IH.
    cbn [scalar_values]. rewrite Hh. cbn [flat_map]. rewrite IH.
    destruct (surrogate_cases u) as [[_ A]|[(A & _)|(A & _)]]; try congruence.
    destruct (surrogate_cases l) as [[B _]|[(_ & _ & B)|(_ & B & _)]];
      try congruence.
    { unfold JSON.is_low_surrogate in Hl. apply andb_true_iff in Hl.
      unfold JSON.is_high_surrogate in B. apply andb_true_iff in B.
      destruct Hl as [Hl _], B as [_ B].
      apply N.leb_le in Hl. apply N.leb_le in B. lia. }
    unfold TextDecoder.units_of_scalar.
    destruct (N.ltb_spec (65536 + (u - 55296) * 1024 + (l - 56320)) 65536);
      [lia|].
    cbn [app]. f_equal; [|f_equal]; nlia.
Qed.

(** Decoding the UTF-8 encoding of a well-formed string gives the string
    back, except that a leading U+FEFF is dropped. *)
Lemma decode_encode (s : jsstring) :
  well_formed s = true ->
  TextDecoder.decode (TextEncoder.encode s) =
  match s with
  | c :: r => if c =? BOM then r else s
  | [] => []
  end.
Proof.
  intros Hwf. unfold TextDecoder.decode. rewrite scalars_encode by assumption.
  pose proof (units_of_scalar_values s Hwf) as Hu.
  destruct s as [|u r]; [reflexivity|].
  cbn [scalar_values] in *. cbn [well_formed] in Hwf.
  destruct (JSON.is_high_surrogate u) eqn:Hh.
  - destruct r as [|l r']; [discriminate|].
    destruct (surrogate_cases u) as [[_ A]|[(A & _)|(A & _)]]; try congruence.
    unfold BOM.
    destruct (N.eqb_spec (65536 + (u - 55296) * 1024 + (l - 56320)) 65279);
      [lia|].
    destruct (N.eqb_spec u 65279); [lia|]. exact Hu.
  - destruct (N.eqb_spec u BOM); [|exact Hu].
    cbn [flat_map] in Hu. unfold TextDecoder.units_of_scalar in Hu.
    subst u. change (BOM <? 65536) with true in Hu. cbn [app] in Hu.
    injection Hu as Hu. exact Hu.
Qed.

Lemma decode_encode_no_mark (s : jsstring) :
  well_formed s = true -> startsWith s [BOM] = false ->
  TextDecoder.decode (TextEncoder.encode s) = s.
Proof.
  intros Hwf Hb. rewrite decode_encode by assumption.
  destruct s as [|c r]; [reflexivity|].
  cbn [startsWith] in Hb. destruct (c =? BOM); [|reflexivity].
  destruct r; discriminate.
Qed.

End Utf8.

(* ================================================================== *)
(** * Decrypting what [encrypt] produced *)
(* ================================================================== *)

Section RoundTrip.
Context (P : Platform).

Lemma envelope_members (a b c : JSON.value) :
  let o := JSON.Obj [(lit "salt", a); (lit "iv", b); (lit "cipherText", c)] in
  JSON.get o (lit "salt") = Some a /\ JSON.get o (lit "iv") = Some b
  /\ JSON.get o (lit "cipherText") = Some c.
Proof. repeat split. Qed.

Lemma parseEncryptedData_envelope (e : EncryptionParameters) (w : World) :
  base64_envelope e ->
  salt e <> [] -> iv e <> [] -> cipherText e <> [] ->
  EncryptionService.parseEncryptedData (envelope_json e) w
  = (Ok (JSON.Obj [(lit "salt", JSON.Str (salt e)); (lit "iv", JSON.Str (iv e));
                   (lit "cipherText", JSON.Str (cipherText e))]), w).
Proof.
  intros Hb Hs Hi Hc. unfold EncryptionService.parseEncryptedData.
  destruct (envelope_json_trimmed e) as [Hne _].
  destruct (envelope_json e) as [|c0 t] eqn:E; [congruence|].
  cbn [str_truthy negb]. rewrite <- E, (parse_envelope_json e Hb).
  unfold bind, of_option, ret, throw, EncryptionService.validateParsedData.
  destruct (envelope_members (JSON.Str (salt e)) (JSON.Str (iv e))
              (JSON.Str (cipherText e))) as (-> & -> & ->).
  cbn [JSON.truthy].
  destruct (salt e); [congruence|]. destruct (iv e); [congruence|].
  destruct (cipherText e); [congruence|]. reflexivity.
Qed.

(** [decrypt] on the text of an envelope whose fields are the base64 of
    a salt, an IV and a ciphertext. *)
Lemma decrypt_envelope (s i c : bytes) (secretKey : jsstring) (w : World) :
  s <> [] -> i <> [] -> c <> [] ->
  EncryptionService.decrypt P
    (envelope_json {| salt := Buffer.toString_base64 s;
                      iv := Buffer.toString_base64 i;
                      cipherText := Buffer.toString_base64 c |}) secretKey w
  = match argon2_hash P secretKey (argon2_options s) with
    | None => (Throw KeyDerivationError, w)
    | Some key =>
        if crypto.valid_aes_key key then
          match aes_gcm_decrypt P key i c with
          | None => (Throw OperationError, w)
          | Some m => (Ok (TextDecoder.decode m), w)
          end
        else (Throw ImportKeyError, w)
    end.
Proof.
  intros Hs Hi Hc. unfold EncryptionService.decrypt.
  erewrite bind_ok.
  2:{ apply parseEncryptedData_envelope.
      - exists s, i, c. auto.
      - now apply toString_base64_nonempty.
      - now apply toString_base64_nonempty.
      - now apply toString_base64_nonempty. }
  cbn [salt iv cipherText].
  match goal with
  | |- context [JSON.get (JSON.Obj [(_, ?a); (_, ?b); (_, ?d)])] =>
      destruct (envelope_members a b d) as (-> & -> & ->)
  end.
  cbn [EncryptionService.string_field]. unfold bind at 1. unfold ret at 1.
  unfold bind at 1. rewrite deriveKeyWithArgon2_eq.
  destruct (argon2_hash P secretKey (argon2_options s)) as [key|]; [|reflexivity].
  destruct (crypto.valid_aes_key key); [|reflexivity].
  unfold bind, ret, EncryptionService.decryptBuffer, of_option.
  rewrite !from_base64_toString.
  destruct (aes_gcm_decrypt P key i c); reflexivity.
Qed.

(** What [decrypt] returns for an envelope [encrypt] produced. *)
Lemma decrypt_encrypt (value secretKey : jsstring) (w w' w2 : World)
  (e : EncryptionParameters) :
  aes_gcm_laws P ->
  EncryptionService.encrypt P value secretKey w = (Ok e, w') ->
  EncryptionService.decrypt P (envelope_json e) secretKey w2
  = (Ok (TextDecoder.decode (TextEncoder.encode value)), w2).
Proof.
  intros [Hlen Hopen]. rewrite encrypt_eq. cbv zeta.
  destruct (argon2_hash P secretKey _) as [key|] eqn:Hk; [|discriminate].
  destruct (crypto.valid_aes_key key) eqn:Hv; [|discriminate].
  destruct (aes_gcm_encrypt P key _ _) as [c|] eqn:Hc; [|discriminate].
  intros H.
  replace e with {| salt := Buffer.toString_base64 (next_bytes w 32);
                    iv := Buffer.toString_base64 (next_bytes (after_draw w 32) 12);
                    cipherText := Buffer.toString_base64 c |} by congruence.
  rewrite decrypt_envelope.
  - rewrite Hk, Hv, (Hopen _ _ _ _ Hc). reflexivity.
  - intros E. apply (f_equal (@length _)) in E.
    rewrite next_bytes_length in E. discriminate.
  - intros E. apply (f_equal (@length _)) in E.
    rewrite next_bytes_length in E. discriminate.
  - intros E. apply Hlen in Hc. rewrite E in Hc. simpl in Hc. lia.
Qed.

End RoundTrip.

(* ================================================================== *)
(** * The stand-in platform keeps the AES-GCM laws *)
(* ================================================================== *)

Section DemoLaws.

Lemma lxor_byte (a b : N) : a < 256 -> b < 256 -> N.lxor a b < 256.
Proof.
  intros Ha Hb.
  assert (small : forall x, x < 256 -> N.log2 x < 8).
  { intros x Hx. destruct (N.eq_dec x 0) as [->|Hx0]; [reflexivity|].
    apply N.log2_lt_pow2; [lia | exact Hx]. }
  destruct (N.eq_dec (N.lxor a b) 0) as [E|E]; [lia|].
  apply (N.log2_lt_pow2 (N.lxor a b) 8); [lia|].
  pose proof (N.log2_lxor a b). pose proof (small a Ha). pose proof (small b Hb).
  lia.
Qed.

Lemma xor_byte_twice (b k : byte) : Demo.xor_byte (Demo.xor_byte b k) k = b.
Proof.
  unfold Demo.xor_byte.
  rewrite to_N_byte_of_N by (apply lxor_byte; apply to_N_lt).
  rewrite N.lxor_assoc, N.lxor_nilpotent, N.lxor_0_r. apply byte_of_to_N.
Qed.

Lemma mask_length (key m : bytes) (i : nat) :
  length (Demo.mask key m i) = length m.
Proof.
  revert i. induction m as [|b r IH]; intros i; [reflexivity|].
  cbn [Demo.mask length]. now rewrite IH.
Qed.

Lemma mask_twice (key m : bytes) (i : nat) :
  Demo.mask key (Demo.mask key m i) i = m.
Proof.
  revert i. induction m as [|b r IH]; intros i; [reflexivity|].
  cbn [Demo.mask]. now rewrite xor_byte_twice, IH.
Qed.

Lemma tag_length (key iv : bytes) : length (Demo.tag key iv) = 16%nat.
Proof. unfold Demo.tag, Demo.stretch. now rewrite length_map, length_seq. Qed.

Lemma bytes_eqb_refl (a : bytes) : Demo.bytes_eqb a a = true.
Proof. unfold Demo.bytes_eqb. destruct (list_eq_dec _ a a); congruence. Qed.

Lemma skipn_prefix {A} (a b : list A) : skipn (length a) (a ++ b) = b.
Proof. induction a as [|x a IH]; [reflexivity | exact IH]. Qed.

Lemma firstn_prefix {A} (a b : list A) : firstn (length a) (a ++ b) = a.
Proof. induction a as [|x a IH]; [reflexivity | cbn; now rewrite IH]. Qed.

Lemma demo_laws : aes_gcm_laws Demo.platform.
Proof.
  split; cbn [aes_gcm_encrypt aes_gcm_decrypt Demo.platform];
    intros key iv m c; unfold Demo.seal; destruct iv as [|i0 iv'];
    try discriminate; intros H; injection H as <-.
  - now rewrite length_app, mask_length, tag_length.
  - unfold Demo.unseal.
    rewrite length_app, mask_length, tag_length.
    replace (length m + 16 - 16)%nat with (length (Demo.mask key m 0))
      by (rewrite mask_length; lia).
    rewrite skipn_prefix, firstn_prefix, bytes_eqb_refl, mask_twice.
    destruct (Nat.leb_spec 16 (length m + 16)); [reflexivity | lia].
Qed.

End DemoLaws.

(* ================================================================== *)
(** * C1: the round trip *)
(* ================================================================== *)

(** Under the AES-GCM laws, decrypting the text of an envelope that
    [encrypt] returned for a well-formed [value] gives [value] without
    its leading U+FEFF, if it has one. *)
Lemma decrypt_drops_mark (P : Platform) (value secretKey : jsstring)
  (w w' w2 : World) (e : EncryptionParameters) :
  aes_gcm_laws P -> well_formed value = true ->
  EncryptionService.encrypt P value secretKey w = (Ok e, w') ->
  EncryptionService.decrypt P (envelope_json e) secretKey w2
  = (Ok (without_mark value), w2).
Proof.
  intros HP Hwf He. rewrite (decrypt_encrypt P _ _ _ _ _ _ HP He).
  now rewrite decode_encode.
Qed.

(** C1. For a plaintext [p] of printable text, that is a string
    without unpaired surrogates (so that it has a UTF-8 encoding) that
    does not begin with the byte order mark U+FEFF, and any passphrase
    [k]: when [encrypt] returns an envelope, [decrypt] applied to its
    JSON text and [k] returns [p], in any world and without changing
    it.  AES-GCM is assumed to open what it sealed. *)
Theorem C1_round_trip (P : Platform) (p k : jsstring) (w w' w2 : World)
  (e : EncryptionParameters) :
  aes_gcm_laws P ->
  well_formed p = true -> startsWith p [BOM] = false ->
  EncryptionService.encrypt P p k w = (Ok e, w') ->
  EncryptionService.decrypt P (envelope_json e) k w2 = (Ok p, w2).
Proof.
  intros HP Hwf Hb He. rewrite (decrypt_encrypt P _ _ _ _ _ _ HP He).
  now rewrite decode_encode_no_mark.
Qed.

Lemma C1_witness :
  let p := lit "s3cr3t pa$$" in
  let k := lit "correct horse" in
  let w := Demo.world Demo.env_path [] in
  well_formed p = true /\ startsWith p [BOM] = false /\
  fst (decrypt_encrypted Demo.platform p k w) = Ok p.
Proof.
  cbv zeta. split; [reflexivity|]. split; [reflexivity|].
  unfold decrypt_encrypted.
  destruct (EncryptionService.encrypt Demo.platform (lit "s3cr3t pa$$")
              (lit "correct horse") (Demo.world Demo.env_path []))
    as [[e|x] w'] eqn:E.
  - rewrite (C1_round_trip Demo.platform (lit "s3cr3t pa$$")
               (lit "correct horse") (Demo.world Demo.env_path []) w' w' e
               demo_laws eq_refl eq_refl E).
    reflexivity.
  - vm_compute in E. congruence.
Defined.

(** Outside printable text the round trip changes the string: a
    leading U+FEFF is dropped by [TextDecoder], and an unpaired
    surrogate is replaced by U+FFFD in [TextEncoder]. *)
Lemma round_trip_outside_printable_text :
  let k := lit "correct horse" in
  let w := Demo.world Demo.env_path [] in
  fst (decrypt_encrypted Demo.platform (BOM :: lit "A") k w) = Ok (lit "A")
  /\ fst (decrypt_encrypted Demo.platform (BOM :: lit "A") k w)
     <> Ok (BOM :: lit "A")
  /\ fst (decrypt_encrypted Demo.platform [55296] k w) = Ok [REPLACEMENT]
  /\ fst (decrypt_encrypted Demo.platform [55296] k w) <> Ok [55296].
Proof.
  cbv zeta.
  assert (H1 : fst (decrypt_encrypted Demo.platform (BOM :: lit "A")
                      (lit "correct horse") (Demo.world Demo.env_path []))
               = Ok (lit "A")) by (vm_compute; reflexivity).
  assert (H2 : fst (decrypt_encrypted Demo.platform [55296]
                      (lit "correct horse") (Demo.world Demo.env_path []))
               = Ok [REPLACEMENT]) by (vm_compute; reflexivity).
  rewrite H1, H2. repeat split; try (intros C; vm_compute in C; congruence).
Qed.

(* ================================================================== *)
(** * C5: running the manager again *)
(* ================================================================== *)

(** C5 as stated fails in two ways.  When a selector is the value of
    two variables, the first run encrypts the first of them and the
    second run finds the next one.  And when a line that does not begin
    with the variable's name assigns it after the lines that do, the
    first run rewrites those and keeps that line, so the second run
    reads the plain value again and encrypts it once more. *)
Lemma C5_counterexample :
  (let w0 := Demo.world Demo.env_path
               (file_of [lit "DB_PASSWORD=secret"; lit "API_PASSWORD=secret"]) in
   let sels := Some [lit "secret"] in
   let first := Demo.run sels w0 in
   let second := Demo.run sels (snd first) in
   fst first = Ok tt /\ fst second = Ok tt
   /\ drawn (snd first) = 44%nat /\ drawn (snd second) = 88%nat
   /\ option_map (fun c => nth 1 (split ch_newline c) [])
        (Demo.content_after first) = Some (lit "API_PASSWORD=secret")
   /\ Demo.content_after second <> Demo.content_after first)
  /\ (let w0 := Demo.world Demo.env_path (file_of [lit "A=1"; lit " A=2"]) in
      let first := Demo.run None w0 in
      let second := Demo.run None (snd first) in
      fst first = Ok tt /\ fst second = Ok tt
      /\ drawn (snd first) = 44%nat /\ drawn (snd second) = 88%nat
      /\ option_map (fun c => nth 1 (split ch_newline c) [])
           (Demo.content_after first) = Some (lit " A=2")
      /\ Demo.content_after second <> Demo.content_after first).
Proof.
  cbv zeta. repeat split; try (vm_compute; reflexivity);
    intros C; vm_compute in C; congruence.
Qed.

(* ================================================================== *)
(** * The variables of a file, line by line *)
(* ================================================================== *)

Lemma own_get_obj_set (o : object) (k k' : jsstring) (v : jsval) :
  wf_object o -> k <> lit "__proto__" ->
  own_get (obj_set o k v) k' = if str_eqb k k' then Some v else own_get o k'.
Proof.
  intros Hwf Hk.
  pose proof (obj_set_wf o k v Hwf) as [Hnd' _]. destruct Hwf as [Hnd Hp].
  destruct (str_eqb k k') eqn:E.
  - apply str_eqb_eq in E. subst k'. apply In_own_get; [exact Hnd'|].
    apply obj_set_In; auto.
  - apply str_eqb_neq in E.
    destruct (own_get o k') as [v'|] eqn:G.
    + apply In_own_get; [exact Hnd'|]. apply obj_set_In; auto.
      right. split; [congruence|]. now apply own_get_In.
    + destruct (own_get (obj_set o k v) k') as [v''|] eqn:G'; [|reflexivity].
      apply own_get_In in G'. apply obj_set_In in G'; auto.
      destruct G' as [[? _] | [_ Hin]]; [congruence|].
      apply (In_own_get _ _ _ Hnd) in Hin. congruence.
Qed.

Lemma extract_get_acc (lines : list jsstring) (acc : object) (k : jsstring) :
  wf_object acc -> k <> lit "__proto__" ->
  own_get (fold_left
             (fun variables line =>
                match Mgr.parseEnvironmentLine line with
                | Some (key, value) => obj_set variables key (VStr value)
                | None => variables
                end) lines acc) k
  = match last_value lines k with
    | Some v => Some (VStr v)
    | None => own_get acc k
    end.
Proof.
  intros Hwf Hk. revert acc Hwf.
  induction lines as [|line rest IH]; intros acc Hwf; [reflexivity|].
  cbn [fold_left last_value]. rewrite IH by (now apply extract_step_wf).
  destruct (last_value rest k) as [v|]; [reflexivity|].
  unfold assigns. destruct (Mgr.parseEnvironmentLine line) as [[k' v']|];
    [|reflexivity].
  destruct (str_eqb k' (lit "__proto__")) eqn:Ep.
  - apply str_eqb_eq in Ep. subst k'. rewrite obj_set_proto.
    destruct (str_eqb (lit "__proto__") k) eqn:E; [|reflexivity].
    apply str_eqb_eq in E. congruence.
  - apply str_eqb_neq in Ep. rewrite own_get_obj_set by assumption.
    destruct (str_eqb k' k); reflexivity.
Qed.

(** The variables extracted from a file hold, for each name, the value
    of the last line that assigns it. *)
Lemma extract_get (lines : list jsstring) (k : jsstring) :
  k <> lit "__proto__" ->
  own_get (Mgr.extractEnvironmentVariables lines) k
  = option_map VStr (last_value lines k).
Proof.
  intros Hk. unfold Mgr.extractEnvironmentVariables.
  rewrite extract_get_acc; [|apply wf_object_nil | exact Hk].
  destruct (last_value lines k); reflexivity.
Qed.

Lemma extract_entry (lines : list jsstring) (k : jsstring) (v : jsval) :
  In (k, v) (Mgr.extractEnvironmentVariables lines) <->
  k <> lit "__proto__" /\ exists s, v = VStr s /\ last_value lines k = Some s.
Proof.
  destruct (extract_wf lines) as [Hnd Hp]. split.
  - intros Hin.
    assert (Hk : k <> lit "__proto__").
    { intros ->. apply Hp. now apply (in_map fst) in Hin. }
    split; [exact Hk|]. apply (In_own_get _ _ _ Hnd) in Hin.
    rewrite extract_get in Hin by exact Hk.
    destruct (last_value lines k) as [s|]; [|discriminate].
    exists s. split; [cbn in Hin; congruence | reflexivity].
  - intros (Hk & s & -> & Hl). apply own_get_In.
    rewrite extract_get by exact Hk. now rewrite Hl.
Qed.

Lemma last_value_app (a b : list jsstring) (k : jsstring) :
  last_value (a ++ b) k
  = match last_value b k with
    | Some v => Some v
    | None => last_value a k
    end.
Proof.
  induction a as [|x a IH]; cbn [app last_value].
  - destruct (last_value b k); reflexivity.
  - rewrite IH. destruct (last_value b k); reflexivity.
Qed.

Lemma last_value_In (lines : list jsstring) (k v : jsstring) :
  last_value lines k = Some v ->
  exists line, In line lines /\ assigns k line = Some v.
Proof.
  induction lines as [|x rest IH]; cbn [last_value]; [discriminate|].
  destruct (last_value rest k) as [v'|].
  - intros H. destruct (IH H) as (line & Hin & Ha). exists line. split; [now right | exact Ha].
  - intros H. exists x. split; [now left | exact H].
Qed.

Lemma last_value_none (lines : list jsstring) (k : jsstring) :
  (forall line, In line lines -> assigns k line = None) ->
  last_value lines k = None.
Proof.
  induction lines as [|x rest IH]; intros H; [reflexivity|].
  cbn [last_value]. rewrite IH by (intros; apply H; now right).
  apply H. now left.
Qed.

Lemma last_value_some (lines : list jsstring) (k v : jsstring) (line : jsstring) :
  In line lines -> assigns k line = Some v ->
  exists v', last_value lines k = Some v'.
Proof.
  induction lines as [|x rest IH]; intros Hin Ha; [contradiction|].
  cbn [last_value]. destruct Hin as [->|Hin].
  - destruct (last_value rest k); [eauto|]. rewrite Ha. eauto.
  - destruct (IH Hin Ha) as [v' ->]. eauto.
Qed.

Lemma last_value_map (f : jsstring -> jsstring) (lines : list jsstring)
  (k : jsstring) :
  (forall line, In line lines -> assigns k (f line) = assigns k line) ->
  last_value (map f lines) k = last_value lines k.
Proof.
  induction lines as [|x rest IH]; intros H; [reflexivity|].
  cbn [map last_value]. rewrite IH by (intros; apply H; now right).
  rewrite H by now left. reflexivity.
Qed.

Lemma assigns_parse (k line v : jsstring) :
  assigns k line = Some v <-> Mgr.parseEnvironmentLine line = Some (k, v).
Proof.
  unfold assigns. destruct (Mgr.parseEnvironmentLine line) as [[k' v']|].
  - destruct (str_eqb k' k) eqn:E.
    + apply str_eqb_eq in E. subst. split; congruence.
    + apply str_eqb_neq in E. split; [discriminate | congruence].
  - split; discriminate.
Qed.

Lemma assigns_other (k k' line v : jsstring) :
  Mgr.parseEnvironmentLine line = Some (k', v) -> k' <> k -> assigns k line = None.
Proof.
  intros Hp Hne. unfold assigns. rewrite Hp.
  apply str_eqb_neq in Hne. now rewrite Hne.
Qed.

(* ================================================================== *)
(** * The lines after a series of updates *)
(* ================================================================== *)

Lemma firstn_pointwise {A} (g : A -> A) (l l' : list A) :
  (forall i x, nth_error l i = Some x -> nth_error l' i = Some (g x)) ->
  firstn (length l) l' = map g l.
Proof.
  revert l'. induction l as [|x l IH]; intros l' H; [reflexivity|].
  destruct l' as [|y l'].
  - specialize (H 0%nat x eq_refl). discriminate.
  - cbn [length firstn map]. f_equal.
    + specialize (H 0%nat x eq_refl). cbn in H. congruence.
    + apply IH. intros i z Hz. exact (H (S i) z Hz).
Qed.

(** A series of updates with distinct keys rewrites each line on its
    own and appends one line for each key that begins no line. *)
Lemma apply_updates_eq (updates : list (jsstring * jsstring))
  (lines : list jsstring) :
  keys_plain updates ->
  apply_updates updates lines
  = map (rewrite_line updates) lines
    ++ map (fun kv => Mgr.assignment (fst kv) (snd kv))
         (filter (fun kv => negb (existsb (begins_with_key (fst kv)) lines)) updates).
Proof.
  intros Hp. rewrite <- (firstn_skipn (length lines) (apply_updates updates lines)).
  rewrite (apply_updates_tail _ _ Hp). f_equal.
  apply firstn_pointwise. intros i x Hx.
  now rewrite (apply_updates_nth updates lines i x Hp Hx).
Qed.

Section Rewritten.

Variables (updates : list (jsstring * jsstring)) (lines : list jsstring).
Hypothesis Hplain : keys_plain updates.
Hypothesis Hparse : forall k v, In (k, v) updates ->
  Mgr.parseEnvironmentLine (Mgr.assignment k v) = Some (k, v).

Lemma updates_value_unique (k v v' : jsstring) :
  In (k, v) updates -> In (k, v') updates -> v = v'.
Proof.
  destruct Hplain as [Hnd _]. clear Hparse Hplain.
  induction updates as [|[k0 v0] rest IH]; intros H1 H2; [contradiction|].
  cbn [map fst] in Hnd. inversion Hnd as [|? ? Hnot Hnd']; subst.
  destruct H1 as [H1|H1], H2 as [H2|H2].
  - congruence.
  - inversion H1; subst. exfalso. apply Hnot. now apply (in_map fst) in H2.
  - inversion H2; subst. exfalso. apply Hnot. now apply (in_map fst) in H1.
  - now apply IH.
Qed.

Lemma updates_no_equals (k v : jsstring) : In (k, v) updates -> ~ In ch_equals k.
Proof.
  intros Hin. destruct Hplain as [_ Hall].
  rewrite Forall_forall in Hall. exact (Hall _ Hin).
Qed.

Lemma assigns_appended (k : jsstring) (l : jsstring) :
  In l (map (fun kv => Mgr.assignment (fst kv) (snd kv))
          (filter (fun kv => negb (existsb (begins_with_key (fst kv)) lines))
             updates)) ->
  exists k' v', In (k', v') updates /\ l = Mgr.assignment k' v'.
Proof.
  intros Hin. apply in_map_iff in Hin as ([k' v'] & <- & Hin).
  apply filter_In in Hin as [Hin _]. eauto.
Qed.

End Rewritten.

(* ================================================================== *)
(** * An object with one property *)
(* ================================================================== *)

Lemma single_property (s : jsstring) (v k : jsstring) (x : jsval) :
  s <> lit "__proto__" ->
  (In (k, x) (obj_set [] s (VStr v)) <-> k = s /\ x = VStr v).
Proof.
  intros Hs. rewrite obj_set_In; [|constructor | exact Hs].
  split; [intros [H|[_ []]]; exact H | now left].
Qed.

(* ================================================================== *)
(** * A run on a file whose selected values are all encrypted *)
(* ================================================================== *)

Section Settled.
Context (P : Platform).

Lemma encrypt_each_settled (entries : list (jsstring * jsval)) (skv : jsstring)
  (lines : list jsstring) (n : N) (w : World) :
  (forall k v, In (k, v) entries ->
     exists s, v = VStr s /\ s <> [] /\ trim s = s
               /\ classified_encrypted s = true) ->
  exists w', Mgr.encrypt_each P entries skv lines n w = (Ok (lines, n), w')
             /\ only_info w w'.
Proof.
  revert w. induction entries as [|[k v] rest IH]; intros w H.
  - exists w. split; [reflexivity | apply only_info_refl].
  - destruct (H k v (or_introl eq_refl)) as (s & -> & Hs & Ht & Hc).
    rewrite (encrypt_each_skip P k s skv rest lines n w Hs Ht Hc).
    destruct (IH (snd (logger.info (lit "Skipping encryption: '" ++ k
                                      ++ lit "' is already encrypted.") w)))
      as (w' & Hrun & Hinfo).
    { intros k' v' Hin. apply (H k'). now right. }
    exists w'. split; [exact Hrun|].
    exact (only_info_trans _ _ _ (only_info_log _ w) Hinfo).
Qed.

Lemma readEnvironmentFileAsLines_ok (dir file path content : jsstring) (w : World) :
  getFilePath P dir file = Some path ->
  fs.lookup (files w) path = Some content ->
  Mgr.readEnvironmentFileAsLines P dir file w = (Ok (split ch_newline content), w).
Proof.
  intros Hp Hc. unfold Mgr.readEnvironmentFileAsLines, Mgr.resolveFilePath.
  rewrite Hp. cbn [of_option]. unfold bind at 1. unfold ret at 1.
  unfold bind, fs.readFile. now rewrite Hc.
Qed.

(** A run whose steps all succeed. *)
Lemma run_ok (dir file skv : jsstring) (sels : option (list jsstring))
  (w w1 w2 : World) (path content : jsstring) (vars : object)
  (lines' : list jsstring) (count : N) :
  getFilePath P dir file = Some path ->
  fs.lookup (files w) path = Some content ->
  Mgr.resolveVariablesToEncrypt
    (Mgr.extractEnvironmentVariables (split ch_newline content)) sels w = (Ok vars, w1) ->
  Mgr.encryptVariableValuesInFileLines P (split ch_newline content) vars skv w1
  = (Ok (lines', count), w2) ->
  exists w',
    Mgr.encryptAndUpdateEnvironmentVariables P dir file skv sels w = (Ok tt, w')
    /\ files w' = fs.store (files w2) path (join ch_newline lines')
    /\ drawn w' = drawn w2.
Proof.
  intros Hp Hc Hres Hloop. unfold Mgr.encryptAndUpdateEnvironmentVariables.
  rewrite (bind_ok _ _ _ _ _ (readEnvironmentFileAsLines_ok dir file path content w Hp Hc)).
  rewrite (bind_ok _ _ _ _ _ Hres), (bind_ok _ _ _ _ _ Hloop).
  unfold Mgr.resolveFilePath at 1. rewrite Hp. cbn [of_option].
  unfold bind at 1. unfold ret at 1.
  unfold Mgr.writeEnvironmentFileLines. unfold bind at 1. unfold fs.writeFile at 1.
  match goal with
  | |- context [bind (detached ?m) _ ?w3] =>
      pose proof (only_logs_logEncryptionSuccess P dir file
                    (N.of_nat (length (Object.keys vars))) count w3) as L;
      unfold bind, detached, ret
  end.
  destruct L as (F & _ & _ & D). eexists. split; [reflexivity|].
  cbn [snd]. rewrite F, D. split; reflexivity.
Qed.

End Settled.

Lemma store_store (fsys : list (jsstring * jsstring)) (path content : jsstring) :
  fs.store (fs.store fsys path content) path content = fs.store fsys path content.
Proof.
  induction fsys as [|[p c] r IH]; cbn [fs.store].
  - now rewrite str_eqb_refl.
  - destruct (str_eqb p path) eqn:E; cbn [fs.store]; rewrite E; [reflexivity|].
    now rewrite IH.
Qed.

Lemma extract_values (lines : list jsstring) (k : jsstring) (v : jsval) :
  In (k, v) (Mgr.extractEnvironmentVariables lines) ->
  exists s, v = VStr s /\ s <> [] /\ trim s = s /\ last_value lines k = Some s
            /\ k <> [] /\ trim k = k /\ ~ In ch_equals k
            /\ exists line, In line lines /\ Mgr.parseEnvironmentLine line = Some (k, s).
Proof.
  intros Hin. apply extract_entry in Hin as (_ & s & -> & Hl).
  exists s. split; [reflexivity|].
  destruct (last_value_In _ _ _ Hl) as (line & Hline & Ha).
  apply assigns_parse in Ha.
  destruct (parseEnvironmentLine_props _ _ _ Ha) as (K1 & K2 & K3 & V1 & V2).
  repeat split; eauto.
Qed.

Lemma apply_updates_Forall (Q : jsstring -> Prop)
  (updates : list (jsstring * jsstring)) (lines : list jsstring) :
  Forall Q lines ->
  (forall k v, In (k, v) updates -> Q (Mgr.assignment k v)) ->
  Forall Q (apply_updates updates lines).
Proof.
  revert lines. induction updates as [|[k v] rest IH]; intros lines Hl Hu;
    [exact Hl|].
  rewrite apply_updates_cons. apply IH; [|intros; apply Hu; now right].
  rewrite update_lines_eq. apply Forall_app. split.
  - rewrite Forall_map. apply (Forall_impl _ (P := Q)); [|exact Hl].
    intros line Hq. destruct (begins_with_key k line); [|exact Hq].
    apply Hu. now left.
  - destruct (existsb _ lines); constructor; [|constructor]. apply Hu. now left.
Qed.

Lemma envelope_json_one_line (e : EncryptionParameters) :
  base64_envelope e -> ~ In ch_newline (envelope_json e).
Proof.
  intros H. destruct (envelope_fields_plain e H) as (Hs & Hi & Hc).
  assert (Hplain : forall s, Forall plain_char s -> ~ In ch_newline s).
  { intros s Hs' Hin. rewrite Forall_forall in Hs'. apply Hs' in Hin.
    unfold plain_char, ch_newline in Hin. lia. }
  unfold envelope_json, Mgr.stringify_result, JSON.stringify.
  cbn [JSON.stringify_members]. unfold JSON.quote.
  rewrite (quote_body_plain (salt e) Hs), (quote_body_plain (iv e) Hi),
    (quote_body_plain (cipherText e) Hc).
  change (JSON.quote_body (lit "salt")) with (lit "salt").
  change (JSON.quote_body (lit "iv")) with (lit "iv").
  change (JSON.quote_body (lit "cipherText")) with (lit "cipherText").
  intros Hin. cbn [In] in Hin.
  repeat (rewrite in_app_iff in Hin; cbn [In] in Hin).
  unfold ch_newline in Hin.
  repeat match type of Hin with
         | _ \/ _ => destruct Hin as [Hin|Hin]
         end; try discriminate; try contradiction;
    try (revert Hin; apply Hplain; assumption);
    try (vm_compute in Hin; intuition discriminate).
Qed.

(* ================================================================== *)
(** * Selectors of any kind, and lines that are settled *)
(* ================================================================== *)

Section AnySelector.

Variable all : object.
Hypothesis Hwf : wf_object all.

Lemma find_found (s : jsstring) (w : World) :
  fst (Mgr.findEnvironmentVariableByKey all s w) = Ok (found_for all s).
Proof.
  unfold Mgr.findEnvironmentVariableByKey, found_for.
  destruct (get_truthy all s).
  - destruct (obj_get all s); reflexivity.
  - destruct (Mgr.find_by_value (Object.entries all) s) as [[k v]|]; reflexivity.
Qed.

Lemma find_by_value_In (o : object) (s k : jsstring) (v : jsval) :
  Mgr.find_by_value o s = Some (k, v) -> In (k, v) o /\ v = VStr s.
Proof.
  induction o as [|[k' v'] r IH]; cbn [Mgr.find_by_value]; [discriminate|].
  destruct (Mgr.strict_equal v' s) eqn:E.
  - intros H. injection H as -> ->. split; [now left|].
    destruct v as [t|]; [|discriminate]. cbn in E. apply str_eqb_eq in E. now subst.
  - intros H. destruct (IH H) as [H1 H2]. split; [now right | exact H2].
Qed.

Lemma find_by_value_exists (o : object) (s k : jsstring) :
  In (k, VStr s) o -> exists k', Mgr.find_by_value o s = Some (k', VStr s).
Proof.
  induction o as [|[k' v'] r IH]; cbn [Mgr.find_by_value]; [intros []|].
  destruct (Mgr.strict_equal v' s) eqn:E.
  - intros _. exists k'. destruct v' as [t|]; [|discriminate].
    cbn in E. apply str_eqb_eq in E. now subst.
  - intros [H|H]; [|now apply IH].
    injection H as _ ->. cbn in E. now rewrite str_eqb_refl in E.
Qed.

(** What a selector finds is a property of [all] or an inherited
    member, under the name it has there. *)
Lemma found_for_get (s k : jsstring) (v : jsval) :
  In (k, v) (found_for all s) -> obj_get all k = Some v /\ k <> lit "__proto__".
Proof.
  unfold found_for. destruct (get_truthy all s).
  - destruct (obj_get all s) as [v0|] eqn:G; [|intros []].
    intros H. destruct (str_eqb s (lit "__proto__")) eqn:E.
    + apply str_eqb_eq in E. subst s. rewrite obj_set_proto in H. destruct H.
    + apply str_eqb_neq in E. apply obj_set_In in H; [|constructor | exact E].
      destruct H as [[-> ->]|[_ []]]. now split.
  - destruct (Mgr.find_by_value (Object.entries all) s) as [[k0 v0]|] eqn:F;
      [|intros []].
    apply find_by_value_In in F as [F _]. unfold Object.entries in F.
    assert (Hk0 : k0 <> lit "__proto__").
    { intros ->. apply (proj2 Hwf). now apply (in_map fst) in F. }
    intros H. apply obj_set_In in H; [|constructor | exact Hk0].
    destruct H as [[-> ->]|[_ []]]. split; [|exact Hk0].
    unfold obj_get. now rewrite (In_own_get _ _ _ (proj1 Hwf) F).
Qed.

Lemma found_for_wf (s : jsstring) : wf_object (found_for all s).
Proof.
  unfold found_for. destruct (get_truthy all s).
  - destruct (obj_get all s); [apply obj_set_wf|]; apply wf_object_nil.
  - destruct (Mgr.find_by_value (Object.entries all) s) as [[k v]|];
      [apply obj_set_wf|]; apply wf_object_nil.
Qed.

Lemma resolve_each_step (s : jsstring) (rest : list jsstring) (acc : object)
  (w : World) :
  exists w1,
    Mgr.resolve_each all (s :: rest) acc w
    = Mgr.resolve_each all rest (Object.assign acc (found_for all s)) w1.
Proof.
  pose proof (find_found s w) as F.
  destruct (findEnvironmentVariableByKey_spec all s w) as (found & w1 & Hf & _).
  rewrite Hf in F. cbn [fst] in F. injection F as ->.
  exists w1. cbn [Mgr.resolve_each]. rewrite (bind_ok _ _ _ _ _ Hf).
  cbn [Mgr.not_object]. now rewrite (bind_ok _ _ w1 w1 tt) by reflexivity.
Qed.

(** Every variable to encrypt was found for one of the selectors. *)
Lemma resolve_each_sound (selectors : list jsstring) (acc vars : object)
  (w w' : World) (k : jsstring) (v : jsval) :
  wf_object acc ->
  Mgr.resolve_each all selectors acc w = (Ok vars, w') ->
  In (k, v) vars ->
  In (k, v) acc \/ exists s, In s selectors /\ In (k, v) (found_for all s).
Proof.
  revert acc w. induction selectors as [|s rest IH]; intros acc w Hacc Hres Hin.
  - cbn in Hres. injection Hres as <- _. now left.
  - destruct (resolve_each_step s rest acc w) as [w1 E]. rewrite E in Hres.
    destruct (IH _ _ (assign_wf _ _ Hacc) Hres Hin) as [H|(s' & Hs' & H)].
    + apply assign_In_weak in H as [H|H]; [|now left | exact Hacc].
      right. exists s. split; [now left | exact H].
    + right. exists s'. split; [now right | exact H].
Qed.

(** What is found for a selector stays among the variables to encrypt,
    with the value it has in [all]. *)
Lemma resolve_each_keeps (selectors : list jsstring) (acc vars : object)
  (w w' : World) (k : jsstring) (v : jsval) :
  wf_object acc -> obj_get all k = Some v ->
  Mgr.resolve_each all selectors acc w = (Ok vars, w') ->
  In (k, v) acc -> In (k, v) vars.
Proof.
  intros Hacc Hget. revert acc w Hacc.
  induction selectors as [|s rest IH]; intros acc w Hacc Hres Hin.
  - cbn in Hres. injection Hres as <- _. exact Hin.
  - destruct (resolve_each_step s rest acc w) as [w1 E]. rewrite E in Hres.
    apply (IH _ _ (assign_wf _ _ Hacc) Hres).
    destruct (in_dec (list_eq_dec N.eq_dec) k (map fst (found_for all s))) as [Hk|Hk].
    + apply in_map_iff in Hk as ([k0 v0] & Hk0 & Hk). cbn [fst] in Hk0. subst k0.
      destruct (found_for_get _ _ _ Hk) as [G _]. rewrite Hget in G. injection G as <-.
      apply assign_In; [exact Hacc | apply found_for_wf | exact Hk].
    + now apply assign_keeps.
Qed.

Lemma resolve_each_complete (selectors : list jsstring) (acc vars : object)
  (w w' : World) (s k : jsstring) (v : jsval) :
  wf_object acc ->
  Mgr.resolve_each all selectors acc w = (Ok vars, w') ->
  In s selectors -> In (k, v) (found_for all s) -> In (k, v) vars.
Proof.
  revert acc w. induction selectors as [|l rest IH]; intros acc w Hacc Hres Hs Hin;
    [destruct Hs|].
  destruct (resolve_each_step l rest acc w) as [w1 E]. rewrite E in Hres.
  destruct Hs as [->|Hs].
  - apply (resolve_each_keeps rest _ vars w1 w' k v (assign_wf _ _ Hacc)
             (proj1 (found_for_get _ _ _ Hin)) Hres).
    apply assign_In; [exact Hacc | apply found_for_wf | exact Hin].
  - exact (IH _ _ (assign_wf _ _ Hacc) Hres Hs Hin).
Qed.

End AnySelector.

(** The variables to encrypt, for any selectors: those found for a
    selector, or all of them when there is no selector. *)
Lemma resolve_entries (all : object) (sels : option (list jsstring)) (vars : object)
  (w w' : World) (k : jsstring) (v : jsval) :
  wf_object all ->
  Mgr.resolveVariablesToEncrypt all sels w = (Ok vars, w') ->
  (In (k, v) vars <-> chosen all sels k v).
Proof.
  intros Hwf Hres.
  assert (Hall : (Ok (Object.assign [] all), w) = (Ok vars, w') ->
                 (In (k, v) vars <-> In (k, v) all)).
  { intros H. injection H as <- _. split.
    - intros Hin. apply assign_In_weak in Hin as [Hin|[]]; [exact Hin|].
      apply wf_object_nil.
    - intros Hin. apply assign_In; [apply wf_object_nil | exact Hwf | exact Hin]. }
  destruct sels as [[|s rest]|]; try exact (Hall Hres).
  cbn [Mgr.resolveVariablesToEncrypt chosen] in Hres |- *. split.
  - intros Hin.
    destruct (resolve_each_sound all (s :: rest) [] vars w w' k v wf_object_nil Hres Hin)
      as [[]|H]. exact H.
  - intros (s' & Hs' & Hin).
    exact (resolve_each_complete all Hwf (s :: rest) [] vars w w' s' k v
             wf_object_nil Hres Hs' Hin).
Qed.

(* ------------------------------------------------------------------ *)

Lemma last_concerning_none (lines : list jsstring) (k : jsstring) :
  last_concerning lines k = None ->
  forall line, In line lines ->
    begins_with_key k line = false /\ assigns k line = None.
Proof.
  induction lines as [|x rest IH]; intros H line Hin; [destruct Hin|].
  cbn [last_concerning] in H.
  destruct (last_concerning rest k) as [l|]; [discriminate|].
  destruct (concerns k x) eqn:C; [discriminate|].
  destruct Hin as [<-|Hin]; [|now apply IH].
  unfold concerns in C. apply orb_false_iff in C as [C1 C2].
  split; [exact C1|]. now destruct (assigns k x).
Qed.

Lemma existsb_begins_concerning (lines : list jsstring) (k : jsstring) :
  existsb (begins_with_key k) lines = true -> last_concerning lines k <> None.
Proof.
  intros H C. apply existsb_exists in H as (line & Hin & B).
  destruct (last_concerning_none lines k C line Hin) as [B' _]. congruence.
Qed.

Section Settled2.

Variables (updates : list (jsstring * jsstring)) (lines : list jsstring).
Hypothesis Hplain : keys_plain updates.
Hypothesis Hparse : forall k v, In (k, v) updates ->
  Mgr.parseEnvironmentLine (Mgr.assignment k v) = Some (k, v).
Hypothesis Hkeys : forall k v, In (k, v) updates -> k <> [] /\ trim k = k.

(** A rewritten line assigns the key it was rewritten for, and a line
    that is kept assigns what it assigned. *)
Lemma assigns_rewritten (k line : jsstring) :
  assigns k (rewrite_line updates line)
  = match find (fun kv => begins_with_key (fst kv) line) updates with
    | Some (k', v') => if str_eqb k' k then Some v' else None
    | None => assigns k line
    end.
Proof.
  unfold rewrite_line.
  destruct (find _ updates) as [[k' v']|] eqn:F; [|reflexivity].
  apply find_some in F as [Hin _]. unfold assigns. now rewrite (Hparse _ _ Hin).
Qed.

Lemma assigns_rewrite_unsettled (k line : jsstring) :
  ~ In k (map fst updates) ->
  assigns k (rewrite_line updates line) = assigns k line.
Proof.
  intros Hk. rewrite assigns_rewritten.
  destruct (find _ updates) as [[k' v']|] eqn:F; [|reflexivity].
  apply find_some in F as [Hin B]. cbn [fst] in B.
  assert (Hne : k' <> k).
  { intros ->. apply Hk. now apply (in_map fst) in Hin. }
  apply str_eqb_neq in Hne. rewrite Hne.
  destruct (assigns k line) as [s|] eqn:A; [|reflexivity].
  apply assigns_parse in A. exfalso. apply str_eqb_neq in Hne. apply Hne.
  destruct (Hkeys _ _ Hin) as [K1 K2]. symmetry.
  apply (begins_with_key_parse k' line k s K1 K2); auto.
  now apply (updates_no_equals updates Hplain k' v').
Qed.

(** A variable that is not updated keeps its value. *)
Lemma last_value_unsettled (k : jsstring) :
  ~ In k (map fst updates) ->
  last_value (apply_updates updates lines) k = last_value lines k.
Proof.
  intros Hk. rewrite (apply_updates_eq _ _ Hplain), last_value_app.
  rewrite last_value_none.
  - apply last_value_map. intros line Hl. now apply assigns_rewrite_unsettled.
  - intros l Hl. apply (assigns_appended updates lines k) in Hl as (k' & v' & Hin & ->).
    apply (assigns_other k k' _ v' (Hparse _ _ Hin)).
    intros ->. apply Hk. now apply (in_map fst) in Hin.
Qed.

(** After lines that do not concern [k], the rewritten lines do not
    assign it. *)
Lemma last_value_rewritten_none (k : jsstring) (rest : list jsstring) :
  (forall line, In line rest ->
     begins_with_key k line = false /\ assigns k line = None) ->
  last_value (map (rewrite_line updates) rest) k = None.
Proof.
  intros H. apply last_value_none. intros l Hl.
  apply in_map_iff in Hl as (line & <- & Hl). destruct (H line Hl) as [B A].
  rewrite assigns_rewritten.
  destruct (find _ updates) as [[k' v']|] eqn:F; [|exact A].
  apply find_some in F as [_ B']. cbn [fst] in B'.
  destruct (str_eqb k' k) eqn:E; [|reflexivity].
  apply str_eqb_eq in E. subst k'. congruence.
Qed.

Lemma last_value_rewritten (k v l : jsstring) (ls : list jsstring) :
  In (k, v) updates ->
  last_concerning ls k = Some l -> begins_with_key k l = true ->
  last_value (map (rewrite_line updates) ls) k = Some v.
Proof.
  intros Hin. induction ls as [|x rest IH]; intros Hl B; [discriminate|].
  cbn [last_concerning] in Hl. cbn [map last_value].
  destruct (last_concerning rest k) as [l'|] eqn:L.
  - injection Hl as ->. now rewrite (IH eq_refl B).
  - destruct (concerns k x); [|discriminate]. injection Hl as ->.
    rewrite (last_value_rewritten_none k rest (last_concerning_none rest k L)).
    rewrite assigns_rewritten, (find_begins updates k v l Hplain Hin B).
    now rewrite str_eqb_refl.
Qed.

(** An updated variable of a settled file has the written value. *)
Lemma last_value_settled (k v : jsstring) :
  In (k, v) updates -> key_settled lines k = true ->
  last_value (apply_updates updates lines) k = Some v.
Proof.
  intros Hin Hs. rewrite (apply_updates_eq _ _ Hplain), last_value_app.
  destruct (last_value (map _ (filter _ updates)) k) as [t|] eqn:T.
  - apply last_value_In in T as (l & Hl & Ha).
    apply (assigns_appended updates lines k) in Hl as (k' & v' & Hin' & ->).
    apply assigns_parse in Ha. rewrite (Hparse _ _ Hin') in Ha.
    inversion Ha; subst. f_equal.
    eapply (updates_value_unique updates Hplain); eassumption.
  - destruct (existsb (begins_with_key k) lines) eqn:X.
    + unfold key_settled in Hs. rewrite X in Hs. cbn [negb orb] in Hs.
      destruct (last_concerning lines k) as [l|] eqn:L.
      * now apply (last_value_rewritten k v l lines).
      * exfalso. now apply (existsb_begins_concerning lines k X).
    + exfalso.
      assert (Hf : In (Mgr.assignment k v)
                     (map (fun kv => Mgr.assignment (fst kv) (snd kv))
                        (filter (fun kv => negb (existsb (begins_with_key (fst kv)) lines))
                           updates))).
      { apply in_map_iff. exists (k, v). split; [reflexivity|].
        apply filter_In. split; [exact Hin|]. cbn [fst]. now rewrite X. }
      destruct (last_value_some _ k v _ Hf) as [v' Hv'].
      * apply assigns_parse. now apply Hparse.
      * congruence.
Qed.

End Settled2.

Section FoundFor.

Variable all : object.
Hypothesis Hwf : wf_object all.
Hypothesis Hvalues : forall k v, In (k, v) all -> exists s, v = VStr s /\ s <> [].

Lemma own_get_truthy (s : jsstring) (v : jsval) :
  own_get all s = Some v -> val_truthy v = true /\ s <> lit "__proto__".
Proof.
  intros G. apply own_get_In in G. split.
  - destruct (Hvalues _ _ G) as (t & -> & Ht). now apply str_truthy_true.
  - intros ->. apply (proj2 Hwf). now apply (in_map fst) in G.
Qed.

Lemma found_for_own (s : jsstring) (v : jsval) :
  own_get all s = Some v -> In (s, v) (found_for all s).
Proof.
  intros G. destruct (own_get_truthy s v G) as [T Hs].
  unfold found_for, get_truthy, obj_get. rewrite G, T.
  apply obj_set_In; [constructor | exact Hs | now left].
Qed.

Lemma found_for_inherited (s : jsstring) :
  own_get all s = None -> is_proto_member s = true -> s <> lit "__proto__" ->
  In (s, VProtoMember) (found_for all s).
Proof.
  intros G M Hs. unfold found_for, get_truthy, obj_get. rewrite G, M.
  cbn [val_truthy]. apply obj_set_In; [constructor | exact Hs | now left].
Qed.

Lemma found_for_value (s k : jsstring) :
  own_get all s = None -> is_proto_member s = false -> In (k, VStr s) all ->
  exists k', In (k', VStr s) (found_for all s) /\ In (k', VStr s) all.
Proof.
  intros G M Hin. unfold found_for, get_truthy, obj_get. rewrite G, M.
  destruct (find_by_value_exists (Object.entries all) s k Hin) as [k' F].
  rewrite F. pose proof (find_by_value_In _ _ _ _ F) as [Hk' _].
  exists k'. split; [|exact Hk'].
  apply obj_set_In; [constructor | | now left].
  intros ->. apply (proj2 Hwf). now apply (in_map fst) in Hk'.
Qed.

Lemma found_for_cases (s k : jsstring) (v : jsval) :
  In (k, v) (found_for all s) ->
  (k = s /\ own_get all s = Some v)
  \/ (k = s /\ v = VProtoMember /\ own_get all s = None /\ is_proto_member s = true)
  \/ (own_get all s = None /\ is_proto_member s = false /\ v = VStr s
      /\ In (k, v) all).
Proof.
  unfold found_for, get_truthy, obj_get.
  destruct (own_get all s) as [v0|] eqn:G.
  - destruct (own_get_truthy s v0 G) as [T Hs]. rewrite T. intros H.
    apply obj_set_In in H; [|constructor | exact Hs].
    destruct H as [[-> ->]|[_ []]]. now left.
  - destruct (is_proto_member s) eqn:M.
    + cbn [val_truthy]. intros H. right. left.
      destruct (str_eqb s (lit "__proto__")) eqn:E.
      * apply str_eqb_eq in E. subst s. rewrite obj_set_proto in H. destruct H.
      * apply str_eqb_neq in E. apply obj_set_In in H; [|constructor | exact E].
        destruct H as [[-> ->]|[_ []]]. auto.
    + destruct (Mgr.find_by_value (Object.entries all) s) as [[k0 v0]|] eqn:F;
        [|intros []].
      apply find_by_value_In in F as [F ->]. unfold Object.entries in F.
      intros H. right. right.
      apply obj_set_In in H; [|constructor |].
      * destruct H as [[-> ->]|[_ []]]. auto.
      * intros ->. apply (proj2 Hwf). now apply (in_map fst) in F.
Qed.

End FoundFor.

(** C5 (amended). Take a file and selectors such that every variable
    holding the text of a selector which is neither a variable's name
    nor an envelope is itself chosen by the selectors, and such that,
    for every chosen variable not yet encrypted that some line begins
    with ([name=]), no line after the last such line assigns the
    variable.  After a run that succeeded, a second run with the same
    arguments finds every selected value already encrypted: its loop
    returns the lines as they are with a count of zero, it draws no
    random bytes, it succeeds, and the files are what they were. *)
Theorem C5_second_run_changes_nothing (P : Platform) (dir file skv : jsstring)
  (sels : option (list jsstring)) (w w1 : World) (path content : jsstring) :
  let lines := split ch_newline content in
  getFilePath P dir file = Some path ->
  fs.lookup (files w) path = Some content ->
  settled_lines lines sels ->
  values_covered lines sels ->
  Mgr.encryptAndUpdateEnvironmentVariables P dir file skv sels w = (Ok tt, w1) ->
  exists (content1 : jsstring) (vars : object) (wr w' w2 : World),
    fs.lookup (files w1) path = Some content1
    /\ Mgr.resolveVariablesToEncrypt
         (Mgr.extractEnvironmentVariables (split ch_newline content1)) sels w1
       = (Ok vars, wr)
    /\ (forall k v, In (k, v) vars ->
          exists s, v = VStr s /\ classified_encrypted s = true)
    /\ Mgr.encryptVariableValuesInFileLines P (split ch_newline content1) vars skv wr
       = (Ok (split ch_newline content1, 0), w')
    /\ Mgr.encryptAndUpdateEnvironmentVariables P dir file skv sels w1 = (Ok tt, w2)
    /\ files w2 = files w1 /\ drawn w2 = drawn w1.
Proof.
  intros lines Hpath Hcontent Hcanon Hsel Hrun.
  (* the first run *)
  pose proof (run_inv P dir file skv sels w w1 (Ok tt) Hrun) as H.
  destruct H as (path' & content' & vars1 & wr & lines' & count & wl & Hp & Hc
                 & Hres1 & Hloop1 & _ & _ & _ & Hfiles & _).
  rewrite Hpath in Hp. inversion Hp; subst path'.
  rewrite Hcontent in Hc. inversion Hc; subst content'.
  fold lines in Hres1, Hloop1.
  set (all1 := Mgr.extractEnvironmentVariables lines) in *.
  assert (Hval1 : forall k v, In (k, v) all1 -> exists s, v = VStr s /\ s <> []).
  { intros k v Hin. apply extract_values in Hin as (s & -> & Hs & _). eauto. }
  destruct (resolveVariablesToEncrypt_spec all1 sels w (extract_wf lines))
    as (vars1' & wr' & Hres1' & _ & Hwf1 & Hvars1).
  rewrite Hres1 in Hres1'. inversion Hres1'; subst vars1' wr'. clear Hres1'.
  pose proof (fun k v => resolve_entries all1 sels vars1 w wr k v (extract_wf lines) Hres1)
    as Hchosen1.
  assert (Hentries : forall k v, In (k, v) (Object.entries vars1) -> loop_entry k v).
  { intros k v Hin. apply Hvars1 in Hin as [Hin|(-> & _)]; [|now left].
    apply extract_In in Hin. now apply (parsed_loop_entry lines). }
  unfold Mgr.encryptVariableValuesInFileLines in Hloop1.
  destruct (encrypt_each_spec P skv _ _ _ _ _ _ _ (proj1 Hwf1) Hentries Hloop1)
    as (updates & Hl & _ & Hu1 & Hu2 & Hproto & _ & Hnd).
  set (U := envelope_updates updates) in *.
  assert (Hplain : keys_plain U).
  { apply (encrypt_each_keys_plain skv (Object.entries vars1)); try assumption.
    - apply Hwf1.
    - intros k e Hin. destruct (Hu1 _ _ Hin) as (s & ? & _). eauto. }
  assert (HU : forall k v, In (k, v) U ->
            exists e s, In (k, e) updates /\ v = envelope_json e
                        /\ base64_envelope e /\ In (k, VStr s) all1).
  { intros k v Hin. unfold U, envelope_updates in Hin.
    apply in_map_iff in Hin as ([k0 e] & Heq & Hin). inversion Heq; subst.
    destruct (Hu1 _ _ Hin) as (s & Hs & _ & Henc). exists e, s.
    repeat split; auto.
    - now apply (encrypted_by_base64 P skv s).
    - apply Hvars1 in Hs as [Hs|(Hs & _)]; [exact Hs | discriminate]. }
  assert (Hparse : forall k v, In (k, v) U ->
            Mgr.parseEnvironmentLine (Mgr.assignment k v) = Some (k, v)).
  { intros k v Hin. destruct (HU _ _ Hin) as (e & s & _ & -> & _ & Hall).
    apply extract_values in Hall as (s' & _ & _ & _ & _ & K1 & K2 & K3 & _).
    destruct (envelope_json_trimmed e) as [E1 E2].
    now apply parseEnvironmentLine_assignment. }
  assert (Hkeys : forall k v, In (k, v) U -> k <> [] /\ trim k = k).
  { intros k v Hin. destruct (HU _ _ Hin) as (e & s & _ & _ & _ & Hall).
    apply extract_values in Hall as (s' & _ & _ & _ & _ & K1 & K2 & _). auto. }
  assert (Hchosen_plain : forall k s, In (k, VStr s) vars1 ->
            classified_encrypted s = false -> In k (map fst U)).
  { intros k s Hin C. destruct (Hu2 _ _ Hin C) as (e & He).
    apply in_map_iff. exists (k, envelope_json e). split; [reflexivity|].
    unfold U, envelope_updates.
    now apply (in_map (fun ke => (fst ke, envelope_json (snd ke))) _ (k, e)). }
  (* the file the second run reads *)
  assert (Hlookup : fs.lookup (files w1) path = Some (join ch_newline lines')).
  { rewrite Hfiles. apply lookup_store. }
  assert (Hsplit : split ch_newline (join ch_newline lines') = lines').
  { apply split_join.
    - intros E. pose proof (apply_updates_length U lines) as Hlen.
      rewrite <- Hl, E in Hlen. pose proof (split_nonempty ch_newline content) as Hne.
      fold lines in Hne. destruct lines; [congruence | simpl in Hlen; lia].
    - rewrite Hl. apply apply_updates_Forall; [apply split_parts_no_sep|].
      intros k v Hin Hnl. destruct (HU _ _ Hin) as (e & s & _ & -> & Hb & Hall).
      apply extract_values in Hall as (s' & _ & _ & _ & _ & _ & _ & _ & line & Hline & Hpl).
      unfold Mgr.assignment in Hnl. apply in_app_or in Hnl as [Hnl | [Hnl | Hnl]].
      + apply parseEnvironmentLine_inv in Hpl
          as (key & value & Htrim & _ & _ & _ & -> & _).
        apply trim_incl in Hnl.
        assert (Hin' : In ch_newline (trim line)).
        { rewrite Htrim. apply in_or_app. now left. }
        apply trim_incl in Hin'.
        pose proof (split_parts_no_sep ch_newline content) as Hno.
        rewrite Forall_forall in Hno. exact (Hno _ Hline Hin').
      + discriminate.
      + now apply (envelope_json_one_line e Hb). }
  set (all2 := Mgr.extractEnvironmentVariables lines').
  assert (Hval2 : forall k v, In (k, v) all2 -> exists s, v = VStr s /\ s <> []).
  { intros k v Hin. apply extract_values in Hin as (s & -> & Hs & _). eauto. }
  assert (HlastU : forall k v, In (k, v) U -> last_value lines' k = Some v).
  { intros k v Hin. rewrite Hl.
    apply (last_value_settled U lines Hplain Hparse k v Hin).
    unfold U, envelope_updates in Hin.
    apply in_map_iff in Hin as ([k0 e] & Heq & Hin). inversion Heq; subst.
    destruct (Hu1 _ _ Hin) as (s & Hs & C & _).
    apply (Hcanon k s); [|exact C]. now apply Hchosen1. }
  assert (HlastO : forall k, ~ In k (map fst U) ->
            last_value lines' k = last_value lines k).
  { intros k Hk. rewrite Hl.
    exact (last_value_unsettled U lines Hplain Hparse Hkeys k Hk). }
  assert (Hnone : forall k, own_get all2 k = None -> own_get all1 k = None).
  { intros k G. destruct (own_get all1 k) as [v|] eqn:G1; [exfalso | reflexivity].
    pose proof (own_get_In _ _ _ G1) as Hin.
    apply extract_entry in Hin as (Hk & s & -> & Hs).
    unfold all2 in G. rewrite (extract_get lines' k Hk) in G.
    destruct (in_dec (list_eq_dec N.eq_dec) k (map fst U)) as [HinU|Hnot].
    - apply in_map_iff in HinU as ([k0 v] & Hk0 & HinU). cbn [fst] in Hk0. subst k0.
      now rewrite (HlastU _ _ HinU) in G.
    - now rewrite (HlastO _ Hnot), Hs in G. }
  (* a variable of the second file that the first run selected whenever
     it had the same value is an envelope *)
  assert (Hown : forall k s2, In (k, VStr s2) all2 ->
            (In (k, VStr s2) all1 -> In (k, VStr s2) vars1) ->
            classified_encrypted s2 = true).
  { intros k s2 Hin Hfirst.
    apply extract_entry in Hin as (Hk & s & Hs & Hlast2). injection Hs as <-.
    destruct (in_dec (list_eq_dec N.eq_dec) k (map fst U)) as [HinU|Hnot].
    - apply in_map_iff in HinU as ([k0 v] & Hk0 & HinU). cbn [fst] in Hk0. subst k0.
      rewrite (HlastU _ _ HinU) in Hlast2. injection Hlast2 as <-.
      destruct (HU _ _ HinU) as (e & s & _ & -> & Hb & _).
      now apply envelope_json_classified.
    - rewrite (HlastO _ Hnot) in Hlast2.
      destruct (classified_encrypted s2) eqn:C; [reflexivity|]. exfalso.
      apply Hnot, (Hchosen_plain k s2); [|exact C].
      apply Hfirst, extract_entry. eauto. }
  destruct (resolveVariablesToEncrypt_spec all2 sels w1 (extract_wf lines'))
    as (vars2 & wr2 & Hres2 & Hinfo2 & Hwf2 & _).
  pose proof (fun k v => resolve_entries all2 sels vars2 w1 wr2 k v (extract_wf lines') Hres2)
    as Hchosen2.
  (* every selected value is an envelope *)
  assert (Hsettled : forall k v, In (k, v) (Object.entries vars2) ->
            exists s, v = VStr s /\ s <> [] /\ trim s = s
                      /\ classified_encrypted s = true).
  { intros k v Hin. unfold Object.entries in Hin. apply Hchosen2 in Hin.
    assert (Hall : In (k, v) all2 ->
              (forall s, v = VStr s -> In (k, VStr s) all1 -> In (k, VStr s) vars1) ->
              exists s, v = VStr s /\ s <> [] /\ trim s = s
                        /\ classified_encrypted s = true).
    { intros Hin2 Hfirst.
      destruct (extract_values _ _ _ Hin2) as (s2 & -> & Hs2 & Ht2 & _).
      exists s2. repeat split; auto.
      apply (Hown k s2 Hin2). now apply Hfirst. }
    destruct sels as [[|s0 rest]|].
    - apply (Hall Hin). intros s -> H1. now apply Hchosen1.
    - destruct Hin as (s & Hs & Hin).
      pose proof (proj2 (found_for_get all2 (extract_wf lines') _ _ _ Hin)) as Hk.
      apply (found_for_cases all2 (extract_wf lines') Hval2) in Hin
        as [(-> & G)|[(-> & -> & G & M)|(G & M & -> & Hin)]].
      + apply (Hall (own_get_In _ _ _ G)). intros t -> H1.
        apply Hchosen1. exists s. split; [exact Hs|].
        apply (found_for_own all1 (extract_wf lines) Hval1).
        apply In_own_get; [apply extract_wf | exact H1].
      + exfalso. apply (Hproto s). unfold Object.entries. apply Hchosen1.
        exists s. split; [exact Hs|]. apply found_for_inherited.
        * now apply Hnone.
        * exact M.
        * exact Hk.
      + destruct (extract_values _ _ _ Hin) as (s2 & Hs2 & Hne & Htr & _).
        injection Hs2 as <-.
        destruct (classified_encrypted s) eqn:C; [exists s; auto|].
        apply (Hall Hin). intros t Ht H1. injection Ht as <-.
        apply Hchosen1. apply (Hsel s k Hs); try assumption.
        intros Hkey. unfold Object.keys in Hkey.
        apply in_map_iff in Hkey as ([k0 v0] & Hk0 & Hkey). cbn [fst] in Hk0. subst k0.
        apply (In_own_get _ _ _ (proj1 (extract_wf lines))) in Hkey.
        fold all1 in Hkey. rewrite (Hnone _ G) in Hkey. discriminate.
    - apply (Hall Hin). intros s -> H1. now apply Hchosen1. }
  destruct (encrypt_each_settled P (Object.entries vars2) skv lines' 0 wr2 Hsettled)
    as (w' & Hloop2 & Hinfo).
  unfold all2 in Hres2. rewrite <- Hsplit in Hres2, Hloop2.
  destruct (run_ok P dir file skv sels w1 wr2 w' path (join ch_newline lines') vars2
              (split ch_newline (join ch_newline lines')) 0 Hpath Hlookup Hres2 Hloop2)
    as (w2 & Hrun2 & Hfiles2 & Hdrawn2).
  destruct Hinfo as (F & _ & _ & D & _).
  destruct Hinfo2 as (F2 & _ & _ & D2 & _).
  exists (join ch_newline lines'), vars2, wr2, w', w2.
  split; [exact Hlookup|]. split; [exact Hres2|]. split.
  { intros k v Hin. destruct (Hsettled k v Hin) as (s & -> & _ & _ & Hc'). eauto. }
  split; [exact Hloop2|]. split; [exact Hrun2|]. split.
  - rewrite Hfiles2, F, F2, Hsplit, Hfiles. apply store_store.
  - congruence.
Qed.

Lemma C5_witness :
  let content := file_of [lit "U=admin"; lit " P=password123"] in
  let w0 := Demo.world Demo.env_path content in
  let sels := Some [lit "admin"; lit "password123"] in
  let w1 := snd (Demo.run sels w0) in
  fst (Demo.run sels w0) = Ok tt
  /\ drawn w1 = 88%nat
  /\ exists (content1 : jsstring) (vars : object) (wr w' w2 : World),
       fs.lookup (files w1) Demo.env_path = Some content1
       /\ Mgr.resolveVariablesToEncrypt
            (Mgr.extractEnvironmentVariables (split ch_newline content1)) sels w1
          = (Ok vars, wr)
       /\ (forall k v, In (k, v) vars ->
             exists s, v = VStr s /\ classified_encrypted s = true)
       /\ Mgr.encryptVariableValuesInFileLines Demo.platform
            (split ch_newline content1) vars Demo.UAT_SECRET_KEY wr
          = (Ok (split ch_newline content1, 0), w')
       /\ Mgr.encryptAndUpdateEnvironmentVariables Demo.platform Demo.envs
            Demo.env_uat Demo.UAT_SECRET_KEY sels w1 = (Ok tt, w2)
       /\ files w2 = files w1 /\ drawn w2 = drawn w1.
Proof.
  cbv zeta. split; [vm_compute; reflexivity|]. split; [vm_compute; reflexivity|].
  apply (C5_second_run_changes_nothing Demo.platform Demo.envs Demo.env_uat
           Demo.UAT_SECRET_KEY (Some [lit "admin"; lit "password123"])
           (Demo.world Demo.env_path
              (file_of [lit "U=admin"; lit " P=password123"]))
           _ Demo.env_path
           (file_of [lit "U=admin"; lit " P=password123"])).
  - reflexivity.
  - reflexivity.
  - intros k s (s0 & Hs0 & Hin) _.
    destruct Hs0 as [<-|[<-|[]]]; vm_compute in Hin;
      destruct Hin as [Hin|[]]; injection Hin as <- _; reflexivity.
  - intros s k _ _ _ Hin. vm_compute in Hin.
    destruct Hin as [Hin|[Hin|[]]]; injection Hin as <- <-;
      [exists (lit "admin") | exists (lit "password123")];
      (split; [cbn [In]; auto | vm_compute; auto]).
  - vm_compute. reflexivity.
Defined.

(* ================================================================== *)
(** * The JSON parser never runs out of fuel *)
(* ================================================================== *)

Section ParserFuel.

Lemma skip_ws_length (s : jsstring) : (length (JSON.skip_ws s) <= length s)%nat.
Proof.
  induction s as [|c r IH]; cbn [JSON.skip_ws length]; [lia|].
  destruct (JSON.is_ws c); cbn [length]; lia.
Qed.

Lemma take_digits_length (s : jsstring) :
  (length (snd (JSON.take_digits s)) <= length s)%nat.
Proof.
  induction s as [|c r IH]; cbn [JSON.take_digits length snd]; [lia|].
  destruct (is_digit c); [|cbn [snd length]; lia].
  destruct (JSON.take_digits r) as [d rest]. cbn [snd] in *. lia.
Qed.

Lemma parse_number_length (s rest : jsstring) (v : JSON.value) :
  JSON.parse_number s = JSON.Parsed v rest -> (length rest <= length s)%nat.
Proof.
  unfold JSON.parse_number.
  set (start := match s with
                | c :: r => if c =? 45 then (true, r) else (false, s)
                | [] => (false, s)
                end).
  assert (H1 : (length (snd start) <= length s)%nat).
  { unfold start. destruct s as [|c r]; [cbn; lia|].
    destruct (c =? 45); cbn; lia. }
  destruct start as [neg s1]. cbn [snd] in H1.
  destruct (JSON.take_int s1) as [[ip s2]|] eqn:E2; [|discriminate].
  assert (H2 : (length s2 <= length s1)%nat).
  { unfold JSON.take_int in E2. destruct s1 as [|c r]; [discriminate|].
    destruct (c =? 48); [inversion E2; subst; cbn; lia|].
    destruct (is_digit c); [|discriminate].
    pose proof (take_digits_length r) as T.
    destruct (JSON.take_digits r) as [d rest']. inversion E2; subst. cbn in *. lia. }
  destruct (JSON.take_frac s2) as [[fp s3]|] eqn:E3; [|discriminate].
  assert (H3 : (length s3 <= length s2)%nat).
  { unfold JSON.take_frac in E3. destruct s2 as [|c r]; [inversion E3; subst; lia|].
    destruct (c =? 46); [|inversion E3; subst; lia].
    pose proof (take_digits_length r) as T.
    destruct (JSON.take_digits r) as [[|d0 d] rest']; [discriminate|].
    inversion E3; subst. cbn in *. lia. }
  destruct (JSON.take_exp s3) as [[e s4]|] eqn:E4; [|discriminate].
  assert (H4 : (length s4 <= length s3)%nat).
  { unfold JSON.take_exp in E4. destruct s3 as [|c r]; [inversion E4; subst; lia|].
    destruct ((c =? 101) || (c =? 69)); [|inversion E4; subst; lia].
    set (sign := match r with
                 | sg :: r' => if sg =? 45 then (true, r')
                               else if sg =? 43 then (false, r') else (false, r)
                 | [] => (false, r)
                 end) in E4.
    assert (Hs : (length (snd sign) <= length r)%nat).
    { unfold sign. destruct r as [|sg r']; [cbn; lia|].
      destruct (sg =? 45); [cbn; lia|]. destruct (sg =? 43); cbn; lia. }
    destruct sign as [ng r1]. cbn [snd] in Hs.
    pose proof (take_digits_length r1) as T.
    destruct (JSON.take_digits r1) as [[|d0 d] rest']; [discriminate|].
    inversion E4; subst. cbn in *. lia. }
  intros H. inversion H; subst. lia.
Qed.

Lemma drop_prefix_length (w s rest : jsstring) :
  JSON.drop_prefix w s = Some rest -> (length rest <= length s)%nat.
Proof.
  revert s. induction w as [|y w IH]; intros s H.
  - destruct s; inversion H; subst; lia.
  - destruct s as [|x s']; [discriminate|]. cbn [JSON.drop_prefix] in H.
    destruct (x =? y); [|discriminate]. apply IH in H. cbn [length]. lia.
Qed.

Lemma keyword_length (w s rest : jsstring) (v v' : JSON.value) :
  JSON.keyword w v s = JSON.Parsed v' rest -> (length rest <= length s)%nat.
Proof.
  unfold JSON.keyword. destruct (JSON.drop_prefix w s) as [r|] eqn:E; [|discriminate].
  intros H. inversion H; subst. now apply drop_prefix_length in E.
Qed.

Lemma parse_string_length (s t rest : jsstring) :
  JSON.parse_string s = Some (t, rest) -> (length rest < length s)%nat.
Proof.
  remember (length s) as n eqn:Hn. revert s t rest Hn.
  induction n as [n IH] using lt_wf_ind. intros s t rest Hn H.
  destruct s as [|c r]; [discriminate|]. cbn [JSON.parse_string] in H.
  cbn [length] in Hn.
  assert (step : forall u r0 t0 rest0,
            (length r0 < n)%nat ->
            match JSON.parse_string r0 with
            | Some (t1, rest1) => Some (u :: t1, rest1)
            | None => None
            end = Some (t0, rest0) -> (length rest0 < length r0)%nat).
  { intros u r0 t0 rest0 Hlt Hm.
    destruct (JSON.parse_string r0) as [[t1 rest1]|] eqn:E; [|discriminate].
    inversion Hm; subst. exact (IH _ Hlt r0 t1 rest0 eq_refl E). }
  destruct (c =? 34); [inversion H; subst; lia|].
  destruct (c =? 92).
  - destruct r as [|e r1]; [discriminate|]. cbn [length] in Hn.
    repeat match type of H with
           | (if ?b then _ else _) = _ =>
               destruct b; [apply step in H; [lia | lia]|]
           end.
    destruct (e =? 117); [|discriminate].
    destruct r1 as [|h1 [|h2 [|h3 [|h4 r2]]]]; try discriminate.
    destruct (JSON.hex4_val h1 h2 h3 h4); [|discriminate].
    cbn [length] in Hn. apply step in H; cbn [length] in *; lia.
  - destruct (c <? 32); [discriminate|]. apply step in H; lia.
Qed.

Ltac measure :=
  repeat match goal with
         | E : JSON.skip_ws ?a = _ |- _ =>
             pose proof (skip_ws_length a); rewrite E in *; clear E
         | E : JSON.parse_string _ = Some _ |- _ => apply parse_string_length in E
         | E : JSON.parse_number _ = JSON.Parsed _ _ |- _ =>
             apply parse_number_length in E
         | E : JSON.keyword _ _ _ = JSON.Parsed _ _ |- _ => apply keyword_length in E
         end;
  cbn [length] in *.

Ltac branch H :=
  repeat match type of H with
         | context [if ?b then _ else _] => destruct b
         | context [match JSON.skip_ws ?x with _ => _ end] =>
             destruct (JSON.skip_ws x) eqn:?
         | context [match JSON.parse_string ?x with _ => _ end] =>
             destruct (JSON.parse_string x) as [[? ?]|] eqn:?
         | context [match JSON.parse_value ?n ?x with _ => _ end] =>
             destruct (JSON.parse_value n x) eqn:?
         | context [match JSON.parse_members ?n ?x with _ => _ end] =>
             destruct (JSON.parse_members n x) eqn:?
         | context [match JSON.parse_elements ?n ?x with _ => _ end] =>
             destruct (JSON.parse_elements n x) eqn:?
         end.

Lemma parsed_rest_length (fuel : nat) :
  (forall s v rest, JSON.parse_value fuel s = JSON.Parsed v rest ->
                    (length rest <= length s)%nat)
  /\ (forall s ms rest, JSON.parse_members fuel s = JSON.Parsed ms rest ->
                        (length rest <= length s)%nat)
  /\ (forall s vs rest, JSON.parse_elements fuel s = JSON.Parsed vs rest ->
                        (length rest <= length s)%nat).
Proof.
  induction fuel as [|n (IHv & IHm & IHe)]; [repeat split; discriminate|].
  split; [|split]; intros s x rest H.
  - cbn [JSON.parse_value] in H. branch H; try discriminate;
      try (inversion H; subst; clear H);
      repeat match goal with
             | E : JSON.parse_members n _ = JSON.Parsed _ _ |- _ => apply IHm in E
             | E : JSON.parse_elements n _ = JSON.Parsed _ _ |- _ => apply IHe in E
             end; measure; try lia.
  - cbn [JSON.parse_members] in H. branch H; try discriminate;
      try (inversion H; subst; clear H);
      repeat match goal with
             | E : JSON.parse_value n _ = JSON.Parsed _ _ |- _ => apply IHv in E
             | E : JSON.parse_members n _ = JSON.Parsed _ _ |- _ => apply IHm in E
             end; measure; try lia.
  - cbn [JSON.parse_elements] in H. branch H; try discriminate;
      try (inversion H; subst; clear H);
      repeat match goal with
             | E : JSON.parse_value n _ = JSON.Parsed _ _ |- _ => apply IHv in E
             | E : JSON.parse_elements n _ = JSON.Parsed _ _ |- _ => apply IHe in E
             end; measure; try lia.
Qed.

Lemma keyword_done (w s : jsstring) (v : JSON.value) :
  JSON.keyword w v s <> JSON.Exhausted.
Proof. unfold JSON.keyword. destruct (JSON.drop_prefix w s); discriminate. Qed.

Lemma parse_number_done (s : jsstring) : JSON.parse_number s <> JSON.Exhausted.
Proof.
  unfold JSON.parse_number.
  destruct (match s with
            | c :: r => if c =? 45 then (true, r) else (false, s)
            | [] => (false, s)
            end) as [neg s1].
  destruct (JSON.take_int s1) as [[ip s2]|]; [|discriminate].
  destruct (JSON.take_frac s2) as [[fp s3]|]; [|discriminate].
  destruct (JSON.take_exp s3) as [[e s4]|]; discriminate.
Qed.

Ltac consumed n :=
  repeat match goal with
         | E : JSON.parse_value n _ = JSON.Parsed _ _ |- _ =>
             apply (proj1 (parsed_rest_length n)) in E
         | E : JSON.parse_members n _ = JSON.Parsed _ _ |- _ =>
             apply (proj1 (proj2 (parsed_rest_length n))) in E
         | E : JSON.parse_elements n _ = JSON.Parsed _ _ |- _ =>
             apply (proj2 (proj2 (parsed_rest_length n))) in E
         end.

(** Fuel of twice the length of the input, and one or two more, is
    enough for each of the three mutually recursive parsers. *)
Lemma enough_fuel (fuel : nat) :
  (forall s, (2 * length s + 1 <= fuel)%nat ->
             JSON.parse_value fuel s <> JSON.Exhausted)
  /\ (forall s, (2 * length s + 1 <= fuel)%nat ->
                JSON.parse_members fuel s <> JSON.Exhausted)
  /\ (forall s, (2 * length s + 2 <= fuel)%nat ->
                JSON.parse_elements fuel s <> JSON.Exhausted).
Proof.
  induction fuel as [|n (IHv & IHm & IHe)]; [repeat split; intros; lia|].
  split; [|split]; intros s Hf H.
  - cbn [JSON.parse_value] in H. branch H; try discriminate;
      try (now apply keyword_done in H); try (now apply parse_number_done in H);
      match goal with
      | E : JSON.parse_members n _ = JSON.Exhausted |- _ =>
          revert E; apply IHm; measure; lia
      | E : JSON.parse_elements n _ = JSON.Exhausted |- _ =>
          revert E; apply IHe; measure; lia
      end.
  - cbn [JSON.parse_members] in H. branch H; try discriminate; consumed n;
      match goal with
      | E : JSON.parse_value n _ = JSON.Exhausted |- _ =>
          revert E; apply IHv; measure; lia
      | E : JSON.parse_members n _ = JSON.Exhausted |- _ =>
          revert E; apply IHm; measure; lia
      end.
  - cbn [JSON.parse_elements] in H. branch H; try discriminate; consumed n;
      match goal with
      | E : JSON.parse_value n _ = JSON.Exhausted |- _ =>
          revert E; apply IHv; measure; lia
      | E : JSON.parse_elements n _ = JSON.Exhausted |- _ =>
          revert E; apply IHe; measure; lia
      end.
Qed.

(** [JSON.parse] always reaches a verdict: a value or a SyntaxError. *)
Lemma parse_document_total (s : jsstring) :
  JSON.parse_document s <> JSON.Exhausted.
Proof.
  unfold JSON.parse_document.
  destruct (JSON.parse_value (S (S (length s + length s))) s) as [v rest| |] eqn:E.
  - destruct (JSON.skip_ws rest); discriminate.
  - discriminate.
  - exfalso. revert E. apply enough_fuel. lia.
Qed.

Lemma parse_none_syntax_error (s : jsstring) :
  JSON.parse s = None <-> JSON.parse_document s = JSON.SyntaxError.
Proof.
  unfold JSON.parse. pose proof (parse_document_total s) as T.
  destruct (JSON.parse_document s); split; congruence.
Qed.

End ParserFuel.

(* ================================================================== *)
(** * Further properties of the selector resolution *)
(* ================================================================== *)

(** X1. Whatever the lines of the file and the selectors are,
    [resolveVariablesToEncrypt] returns and logs no warning: the test
    [!found] is applied to an object and is never true. *)
Theorem X1_selectors_never_warn (lines : list jsstring)
  (envVariables : option (list jsstring)) (w : World) :
  exists vars w',
    Mgr.resolveVariablesToEncrypt (Mgr.extractEnvironmentVariables lines)
      envVariables w = (Ok vars, w')
    /\ warnings w' = warnings w
    /\ files w' = files w /\ drawn w' = drawn w.
Proof.
  destruct (resolveVariablesToEncrypt_spec (Mgr.extractEnvironmentVariables lines)
              envVariables w (extract_wf lines))
    as (vars & w' & Hr & (F & _ & _ & D & Hw) & _).
  exists vars, w'. auto.
Qed.

(** X2. [extractEnvironmentVariables] keeps, for every name other than
    [__proto__], the value of the last line that assigns it, and holds
    nothing else. *)
Theorem X2_last_assignment_wins (lines : list jsstring) (k : jsstring) (v : jsval) :
  In (k, v) (Object.entries (Mgr.extractEnvironmentVariables lines)) <->
  k <> lit "__proto__" /\ exists s, v = VStr s /\ last_value lines k = Some s.
Proof. apply extract_entry. Qed.

(** X3. With the selectors omitted or empty, the variables to encrypt
    are all the variables of the file, and nothing is logged. *)
Theorem X3_no_selectors_all_variables (lines : list jsstring) (w : World) :
  let all := Mgr.extractEnvironmentVariables lines in
  Mgr.resolveVariablesToEncrypt all None w = (Ok (Object.assign [] all), w)
  /\ Mgr.resolveVariablesToEncrypt all (Some []) w = (Ok (Object.assign [] all), w)
  /\ forall k v, In (k, v) (Object.assign [] all) <-> In (k, v) all.
Proof.
  intros all. split; [reflexivity|]. split; [reflexivity|].
  intros k v. split.
  - intros Hin. apply assign_In_weak in Hin as [Hin|[]];
      [exact Hin | apply wf_object_nil].
  - intros Hin. apply assign_In; [apply wf_object_nil | apply extract_wf | exact Hin].
Qed.

(** X4. A selector that is the name of a variable of the file resolves
    to that variable alone, whether or not other variables hold the
    selector as their value, and nothing is logged. *)
Theorem X4_name_before_value (lines : list jsstring) (s : jsstring) (w : World) :
  let all := Mgr.extractEnvironmentVariables lines in
  match own_get all s with
  | Some v =>
      Mgr.findEnvironmentVariableByKey all s w = (Ok (obj_set [] s v), w)
      /\ forall k x, In (k, x) (obj_set [] s v) <-> k = s /\ x = v
  | None => True
  end.
Proof.
  intros all. destruct (own_get all s) as [v|] eqn:G; [|exact I].
  pose proof (own_get_In _ _ _ G) as Hin.
  destruct (extract_values lines s v Hin) as (t & -> & Ht & _).
  destruct (proj1 (extract_entry lines s (VStr t)) Hin) as (Hp & _).
  split.
  - unfold Mgr.findEnvironmentVariableByKey, get_truthy, obj_get. fold all.
    rewrite G. cbn [val_truthy]. destruct t; [congruence | reflexivity].
  - intros k x. now apply single_property.
Qed.

(* ================================================================== *)
(** * Selectors matched by value, selectors naming inherited members *)
(* ================================================================== *)

Lemma key_before_index (k x y : jsstring) (n : N) :
  array_index k = Some n -> key_before k x -> key_before x y -> key_before k y.
Proof.
  unfold key_before. intros ->.
  destruct (array_index x) as [m|], (array_index y) as [b|]; try tauto; lia.
Qed.

Lemma key_before_plain (k x y : jsstring) :
  array_index k = None -> key_before k x -> array_index x = None.
Proof.
  unfold key_before. intros ->. destruct (array_index x); tauto.
Qed.

Lemma insert_index_ordered (o : object) (n : N) (k : jsstring) (v : jsval) :
  array_index k = Some n -> key_ordered (map fst o) ->
  key_ordered (map fst (insert_index o n k v)).
Proof.
  intros Hk. induction o as [|[k' v'] r IH]; cbn [insert_index map fst key_ordered].
  - intros _. split; [constructor | exact I].
  - intros [Hall Hord].
    assert (Hnew : key_before k k' ->
                   key_ordered (k :: k' :: map fst r)).
    { intros Hb. cbn [key_ordered]. split; [|now split].
      constructor; [exact Hb|].
      apply Forall_forall. intros y Hy. rewrite Forall_forall in Hall.
      apply (key_before_index k k' y n Hk Hb). now apply Hall. }
    destruct (array_index k') as [m|] eqn:Ek'.
    + destruct (m <? n) eqn:L.
      * cbn [map fst key_ordered]. split; [|now apply IH].
        destruct (insert_index_split r n k v) as (a & b & Hr & ->).
        subst r. rewrite map_app in *. cbn [map fst].
        apply Forall_app in Hall as [Ha Hb].
        apply Forall_app. split; [exact Ha|]. constructor; [|exact Hb].
        unfold key_before. rewrite Ek', Hk. apply N.ltb_lt in L. lia.
      * apply Hnew. unfold key_before. rewrite Ek', Hk. apply N.ltb_ge in L. lia.
    + apply Hnew. unfold key_before. now rewrite Ek', Hk.
Qed.

Lemma append_ordered (o : object) (k : jsstring) (v : jsval) :
  array_index k = None -> key_ordered (map fst o) ->
  key_ordered (map fst (o ++ [(k, v)])).
Proof.
  intros Hk. induction o as [|[k' v'] r IH]; cbn [app map fst key_ordered].
  - intros _. split; [constructor | exact I].
  - intros [Hall Hord]. split; [|now apply IH].
    rewrite map_app. apply Forall_app. split; [exact Hall|]. cbn [map fst].
    constructor; [|constructor]. unfold key_before. rewrite Hk.
    now destruct (array_index k').
Qed.

Lemma obj_set_ordered (o : object) (k : jsstring) (v : jsval) :
  key_ordered (map fst o) -> key_ordered (map fst (obj_set o k v)).
Proof.
  intros H. unfold obj_set. destruct (str_eqb k (lit "__proto__")); [exact H|].
  destruct (own_get o k).
  - now rewrite replace_own_keys.
  - destruct (array_index k) as [n|] eqn:E.
    + now apply insert_index_ordered.
    + now apply append_ordered.
Qed.

Lemma extract_ordered (lines : list jsstring) :
  key_ordered (Object.keys (Mgr.extractEnvironmentVariables lines)).
Proof.
  unfold Mgr.extractEnvironmentVariables, Object.keys.
  assert (H : key_ordered (map fst (@nil (jsstring * jsval)))) by exact I.
  revert H. generalize (@nil (jsstring * jsval)).
  induction lines as [|line lines IH]; intros acc Hacc; [exact Hacc|].
  cbn [fold_left]. apply IH.
  destruct (Mgr.parseEnvironmentLine line) as [[k v]|]; [|exact Hacc].
  now apply obj_set_ordered.
Qed.

Lemma find_by_value_some (o : object) (s k : jsstring) (v : jsval) :
  Mgr.find_by_value o s = Some (k, v) ->
  v = VStr s
  /\ exists pre post, o = pre ++ (k, v) :: post
                      /\ forall k0, ~ In (k0, VStr s) pre.
Proof.
  induction o as [|[k' v'] r IH]; cbn [Mgr.find_by_value]; [discriminate|].
  destruct (Mgr.strict_equal v' s) eqn:E.
  - intros H. injection H as -> ->. split.
    + destruct v as [t|]; [|discriminate]. cbn in E. apply str_eqb_eq in E. now subst.
    + exists [], r. split; [reflexivity | intros k0 []].
  - intros H. destruct (IH H) as (Hv & pre & post & -> & Hpre). split; [exact Hv|].
    exists ((k', v') :: pre), post. split; [reflexivity|].
    intros k0 [H0|H0]; [|now apply (Hpre k0)].
    injection H0 as _ ->. cbn in E. now rewrite str_eqb_refl in E.
Qed.

Lemma find_by_value_none (o : object) (s k : jsstring) :
  Mgr.find_by_value o s = None -> ~ In (k, VStr s) o.
Proof.
  induction o as [|[k' v'] r IH]; cbn [Mgr.find_by_value]; [intros _ []|].
  destruct (Mgr.strict_equal v' s) eqn:E; [discriminate|].
  intros H [H0|H0]; [|now apply IH].
  injection H0 as _ ->. cbn in E. now rewrite str_eqb_refl in E.
Qed.

Lemma key_ordered_split (a b : list jsstring) (k : jsstring) :
  key_ordered (a ++ k :: b) -> Forall (key_before k) b.
Proof.
  induction a as [|x a IH]; cbn [app key_ordered]; [tauto|].
  intros [_ H]. now apply IH.
Qed.

(** X5. A selector that is matched by value resolves to one variable,
    the first in the order of [Object.entries] that holds the value,
    and that order puts the names that are array indices first,
    ascending, whatever the order of the lines: when a variable with an
    array-index name holds the value, the variable chosen has an
    array-index name too, with the least index among those that hold
    it. *)
Theorem X5_value_match_follows_property_order (lines : list jsstring)
  (s k1 : jsstring) (n : N) (w : World) :
  let all := Mgr.extractEnvironmentVariables lines in
  get_truthy all s = false ->
  In (k1, VStr s) (Object.entries all) -> array_index k1 = Some n ->
  exists k m,
    array_index k = Some m /\ m <= n /\ In (k, VStr s) (Object.entries all)
    /\ fst (Mgr.findEnvironmentVariableByKey all s w) = Ok (obj_set [] k (VStr s))
    /\ forall k' x, In (k', x) (obj_set [] k (VStr s)) <-> k' = k /\ x = VStr s.
Proof.
  intros all T Hin Hk1. unfold Object.entries in *.
  pose proof (extract_ordered lines) as Hord. fold all in Hord. unfold Object.keys in Hord.
  destruct (Mgr.find_by_value all s) as [[k v]|] eqn:F.
  2:{ exfalso. exact (find_by_value_none all s k1 F Hin). }
  destruct (find_by_value_some all s k v F) as (-> & pre & post & Hall & Hpre).
  assert (Hk : exists m, array_index k = Some m /\ m <= n).
  { rewrite Hall in Hin, Hord. apply in_app_or in Hin as [Hin|[Hin|Hin]].
    - exfalso. exact (Hpre k1 Hin).
    - injection Hin as ->. exists n. split; [exact Hk1 | lia].
    - rewrite map_app in Hord. cbn [map fst] in Hord.
      apply key_ordered_split in Hord. rewrite Forall_forall in Hord.
      specialize (Hord k1 (in_map fst _ _ Hin)). unfold key_before in Hord.
      rewrite Hk1 in Hord. destruct (array_index k) as [m|]; [|destruct Hord].
      exists m. now split. }
  destruct Hk as (m & Hm & Hle).
  assert (Hink : In (k, VStr s) all) by (rewrite Hall; apply in_or_app; right; now left).
  exists k, m. split; [exact Hm|]. split; [exact Hle|]. split; [exact Hink|]. split.
  - unfold Mgr.findEnvironmentVariableByKey. rewrite T. unfold Object.entries.
    rewrite F. reflexivity.
  - intros k' x. apply single_property. intros ->.
    destruct (extract_wf lines) as [_ Hp]. apply Hp.
    apply (in_map fst) in Hink. exact Hink.
Qed.

Lemma X5_witness :
  let all := Mgr.extractEnvironmentVariables [lit "B=x"; lit "1=x"] in
  exists k m,
    array_index k = Some m /\ m <= 1
    /\ In (k, VStr (lit "x")) (Object.entries all)
    /\ fst (Mgr.findEnvironmentVariableByKey all (lit "x")
              (Demo.world Demo.env_path [])) = Ok (obj_set [] k (VStr (lit "x")))
    /\ forall k' x, In (k', x) (obj_set [] k (VStr (lit "x")))
                    <-> k' = k /\ x = VStr (lit "x").
Proof.
  apply (X5_value_match_follows_property_order [lit "B=x"; lit "1=x"] (lit "x")
           (lit "1") 1 (Demo.world Demo.env_path [])).
  - reflexivity.
  - left. reflexivity.
  - reflexivity.
Defined.

Section InheritedMembers.
Context (P : Platform).

Lemma resolve_each_inherited (all : object) (s : jsstring) :
  own_get all s = None -> is_proto_member s = true -> s <> lit "__proto__" ->
  forall (selectors : list jsstring) (acc vars : object) (w w' : World),
    wf_object acc ->
    In (s, VProtoMember) acc \/ In s selectors ->
    Mgr.resolve_each all selectors acc w = (Ok vars, w') ->
    In (s, VProtoMember) vars.
Proof.
  intros Hown Hmem Hs. induction selectors as [|l rest IH];
    intros acc vars w w' Hacc Hor Hres.
  - cbn in Hres. injection Hres as <- _. destruct Hor as [H|[]]. exact H.
  - destruct (findEnvironmentVariableByKey_spec all l w)
      as (found & w1 & Hf & _ & Hwf & Hin).
    cbn [Mgr.resolve_each] in Hres. rewrite (bind_ok _ _ _ _ _ Hf) in Hres.
    cbn [Mgr.not_object] in Hres. rewrite (bind_ok _ _ w1 w1 tt) in Hres by reflexivity.
    apply (IH _ _ _ _ (assign_wf _ _ Hacc)) in Hres; [exact Hres|].
    destruct (str_eqb l s) eqn:E.
    + apply str_eqb_eq in E. subst l. left.
      apply assign_In; [exact Hacc | exact Hwf|].
      unfold Mgr.findEnvironmentVariableByKey, get_truthy, obj_get in Hf.
      rewrite Hown, Hmem in Hf. cbn in Hf. injection Hf as <- _.
      apply obj_set_In; [constructor | exact Hs | now left].
    + apply str_eqb_neq in E. destruct Hor as [H|[H|H]]; [|congruence|now right].
      left. apply assign_keeps; [exact Hacc | exact H|].
      intros Hk. apply in_map_iff in Hk as ([k v] & Hk & Hkv). cbn in Hk. subst k.
      apply Hin in Hkv as [Hkv|(_ & Hkv & _)]; [|congruence].
      apply own_get_none in Hown. apply Hown. apply (in_map fst) in Hkv. exact Hkv.
Qed.

Lemma encrypt_each_inherited (s : jsstring) (entries : list (jsstring * jsval))
  (skv : jsstring) (lines : list jsstring) (n : N) (w w' : World)
  (r : list jsstring * N) :
  In (s, VProtoMember) entries ->
  Mgr.encrypt_each P entries skv lines n w <> (Ok r, w').
Proof.
  revert lines n w. induction entries as [|[k v] rest IH]; intros lines n w Hin;
    [destruct Hin|].
  cbn [Mgr.encrypt_each]. destruct Hin as [Hin|Hin].
  - injection Hin as -> ->. cbn. discriminate.
  - destruct (val_truthy v); [|now apply IH].
    destruct v as [t|]; [|cbn; discriminate].
    intros H. apply bind_ok_inv in H as (x & w1 & _ & H).
    destruct (Mgr.nothing_to_write x t).
    + apply bind_ok_inv in H as (? & w2 & _ & H). revert H. now apply IH.
    + revert H. now apply IH.
Qed.

End InheritedMembers.

(** X6. A selector that is the name of a member every object inherits
    from [Object.prototype] ([toString], [constructor], [valueOf], ...),
    other than [__proto__], and not the name of a variable of the file
    is taken for a variable whose value is that member: the run fails,
    at the latest when [value.trim()] throws on it, and the file is not
    written.  With that selector alone the error is the TypeError of
    [value.trim()].  (The selector [__proto__] selects nothing:
    assigning that property of the result object adds no variable.) *)
Theorem X6_prototype_name_selector_fails (P : Platform)
  (dir file skv path content s : jsstring) (selectors : list jsstring) (w : World) :
  getFilePath P dir file = Some path ->
  fs.lookup (files w) path = Some content ->
  In s selectors -> is_proto_member s = true -> s <> lit "__proto__" ->
  own_get (Mgr.extractEnvironmentVariables (split ch_newline content)) s = None ->
  let out := Mgr.encryptAndUpdateEnvironmentVariables P dir file skv (Some selectors) w in
  (exists e, fst out = Throw e)
  /\ files (snd out) = files w /\ written (snd out) = written w
  /\ (selectors = [s] -> fst out = Throw TypeError).
Proof.
  intros Hp Hc Hin Hmem Hs Hown out.
  assert (Honly : selectors = [s] -> fst out = Throw TypeError).
  { intros ->. unfold out, Mgr.encryptAndUpdateEnvironmentVariables.
    rewrite (bind_ok _ _ _ _ _ (readEnvironmentFileAsLines_ok P dir file path content w
                                  Hp Hc)).
    cbn [Mgr.resolveVariablesToEncrypt Mgr.resolve_each].
    unfold Mgr.findEnvironmentVariableByKey, get_truthy, obj_get.
    rewrite Hown, Hmem. cbn [val_truthy].
    assert (Hone : obj_set [] s VProtoMember = [(s, VProtoMember)]).
    { unfold obj_set. apply str_eqb_neq in Hs. rewrite Hs. cbn [own_get].
      now destruct (array_index s). }
    unfold bind at 2. unfold ret at 1. cbn [Mgr.not_object].
    unfold bind at 2. unfold ret at 1. unfold ret at 1.
    unfold bind at 1. rewrite Hone.
    unfold Object.assign, Object.entries. cbn [fold_left fst snd]. rewrite Hone.
    reflexivity. }
  pose proof (run_inv P dir file skv (Some selectors) w (snd out) (fst out)) as H.
  rewrite <- surjective_pairing in H. specialize (H eq_refl).
  destruct (fst out) as [u|e]; [exfalso | split; [now exists e | tauto]].
  destruct H as (path' & content' & vars & w1 & lines' & count & w2
                 & Hp' & Hc' & Hres & Hloop & _).
  rewrite Hp in Hp'. injection Hp' as <-. rewrite Hc in Hc'. injection Hc' as <-.
  destruct selectors as [|l rest]; [destruct Hin|].
  cbn [Mgr.resolveVariablesToEncrypt] in Hres.
  apply (resolve_each_inherited _ s Hown Hmem Hs) in Hres;
    [|apply wf_object_nil | now right].
  revert Hloop. unfold Mgr.encryptVariableValuesInFileLines.
  now apply (encrypt_each_inherited P s).
Qed.

Lemma X6_witness :
  let w := Demo.world Demo.env_path (lit "A=1") in
  let out :=
    Mgr.encryptAndUpdateEnvironmentVariables Demo.platform Demo.envs Demo.env_uat
      Demo.UAT_SECRET_KEY (Some [lit "toString"]) w in
  (exists e, fst out = Throw e)
  /\ files (snd out) = files w /\ written (snd out) = written w
  /\ ([lit "toString"] = [lit "toString"] -> fst out = Throw TypeError).
Proof.
  intros w.
  apply (X6_prototype_name_selector_fails Demo.platform Demo.envs Demo.env_uat Demo.UAT_SECRET_KEY
           Demo.env_path (lit "A=1") (lit "toString") [lit "toString"] w).
  - reflexivity.
  - reflexivity.
  - now left.
  - reflexivity.
  - discriminate.
  - reflexivity.
Defined.

(* ================================================================== *)
(** * Lines that begin with a key *)
(* ================================================================== *)

Section KeyLines.

Lemma endsWith_newline (s : jsstring) :
  endsWith s [ch_newline] = true <-> exists a, s = a ++ [ch_newline].
Proof.
  unfold endsWith. cbn [rev app]. split.
  - intros H. apply startsWith_iff in H as [r Hr]. exists (rev r).
    rewrite <- (rev_involutive s), Hr. cbn [app rev]. reflexivity.
  - intros [a ->]. rewrite rev_app_distr. cbn [rev app startsWith].
    now rewrite N.eqb_refl.
Qed.

Lemma startsWith_length (s p : jsstring) :
  startsWith s p = true -> (length p <= length s)%nat.
Proof. intros H. apply startsWith_iff in H as [r ->]. rewrite length_app. lia. Qed.

Lemma startsWith_longer (s b p : jsstring) :
  startsWith s p = true -> startsWith (s ++ b) p = true.
Proof.
  intros H. apply startsWith_iff in H as [r ->]. rewrite <- app_assoc.
  apply startsWith_app.
Qed.

(** A pattern without a newline cannot reach across the newline that
    ends a text. *)
Lemma startsWith_before_newline (a b p : jsstring) :
  ~ In ch_newline p ->
  startsWith ((a ++ [ch_newline]) ++ b) p = startsWith (a ++ [ch_newline]) p.
Proof.
  intros Hp. revert p Hp. induction a as [|c a IH]; intros p Hp.
  - destruct p as [|y p]; [reflexivity|]. cbn [app startsWith].
    destruct (N.eqb_spec ch_newline y) as [E|E].
    + exfalso. apply Hp. now left.
    + reflexivity.
  - destruct p as [|y p]; [reflexivity|]. cbn [app startsWith].
    destruct (c =? y); [|reflexivity]. cbn [andb]. apply IH.
    intros H. apply Hp. now right.
Qed.

Lemma skipn_within {A} (n : nat) (s b : list A) :
  (n <= length s)%nat -> skipn n (s ++ b) = skipn n s ++ b.
Proof.
  revert s. induction n as [|n IH]; intros s H; [reflexivity|].
  destruct s as [|x s]; [simpl in H; lia|]. cbn [app skipn]. apply IH.
  simpl in H. lia.
Qed.

Variable p : jsstring.
Hypothesis Hp : ~ In ch_newline p.

(** The first line of [a ++ b] that begins with [p], when [a] ends with
    a newline: a line of [a] if there is one, else a line of [b]. *)
Lemma after_line_start_app (a b : jsstring) (at_start : bool) :
  after_line_start p ((a ++ [ch_newline]) ++ b) at_start
  = match after_line_start p (a ++ [ch_newline]) at_start with
    | Some r => Some (r ++ b)
    | None => after_line_start p b true
    end.
Proof.
  revert at_start. induction a as [|c a IH]; intros at_start.
  - pose proof (startsWith_before_newline [] b p Hp) as S. cbn [app] in S |- *.
    cbn [after_line_start]. rewrite S.
    destruct (at_start && startsWith [ch_newline] p) eqn:E.
    + apply andb_true_iff in E as [_ E]. f_equal. apply (skipn_within _ [ch_newline]).
      now apply startsWith_length.
    + change (isLineTerminator ch_newline) with true.
      cbn [after_line_start]. cbn [andb].
      destruct (startsWith [] p) eqn:E'; [|reflexivity].
      apply startsWith_nil in E'. subst p.
      destruct b; reflexivity.
  - pose proof (startsWith_before_newline (c :: a) b p Hp) as S.
    cbn [app] in S |- *. cbn [after_line_start]. rewrite S.
    destruct (at_start && startsWith (c :: a ++ [ch_newline]) p) eqn:E.
    + apply andb_true_iff in E as [_ E]. f_equal.
      apply (skipn_within _ (c :: a ++ [ch_newline])).
      now apply startsWith_length.
    + apply IH.
Qed.

Lemma startsWith_newline_end (a : jsstring) :
  startsWith (a ++ [ch_newline]) p = startsWith a p.
Proof.
  clear - Hp. revert p Hp. induction a as [|c a IH]; intros p Hp.
  - destruct p as [|y p]; [reflexivity|]. cbn [app startsWith].
    destruct (N.eqb_spec ch_newline y) as [E|E]; [|reflexivity].
    exfalso. apply Hp. now left.
  - destruct p as [|y p]; [reflexivity|]. cbn [app startsWith].
    destruct (c =? y); [|reflexivity]. cbn [andb]. apply IH.
    intros H. apply Hp. now right.
Qed.

(** A newline added at the end adds no line that begins with [p]. *)
Lemma after_line_start_newline_end (a : jsstring) (at_start : bool) :
  p <> [] ->
  after_line_start p (a ++ [ch_newline]) at_start
  = option_map (fun r => r ++ [ch_newline]) (after_line_start p a at_start).
Proof.
  intros Hne. revert at_start. induction a as [|c a IH]; intros at_start.
  - cbn [app after_line_start].
    pose proof (startsWith_newline_end []) as S. cbn [app] in S. rewrite S.
    assert (E : startsWith [] p = false).
    { destruct (startsWith [] p) eqn:E; [|reflexivity].
      apply startsWith_nil in E. contradiction. }
    rewrite E, !andb_false_r. reflexivity.
  - cbn [app after_line_start].
    pose proof (startsWith_newline_end (c :: a)) as S. cbn [app] in S. rewrite S.
    destruct (at_start && startsWith (c :: a) p) eqn:E.
    + apply andb_true_iff in E as [_ E]. cbn [option_map]. f_equal.
      apply (skipn_within _ (c :: a)). now apply startsWith_length.
    + apply IH.
Qed.

End KeyLines.

Lemma rest_of_line_newline (r x : jsstring) :
  rest_of_line (r ++ ch_newline :: x) = rest_of_line r.
Proof.
  induction r as [|c r IH]; cbn [app rest_of_line]; [reflexivity|].
  destruct (isLineTerminator c); [reflexivity|]. now rewrite IH.
Qed.

Lemma rest_of_line_one_line (s : jsstring) : one_line s = true -> rest_of_line s = s.
Proof.
  induction s as [|c s IH]; [reflexivity|]. cbn [one_line forallb rest_of_line].
  intros H. apply andb_true_iff in H as [Hc Hs]. apply negb_true_iff in Hc.
  rewrite Hc. f_equal. now apply IH.
Qed.

Lemma rest_of_line_is_one_line (s : jsstring) : one_line (rest_of_line s) = true.
Proof.
  induction s as [|c s IH]; [reflexivity|]. cbn [rest_of_line].
  destruct (isLineTerminator c) eqn:E; [reflexivity|].
  cbn [one_line forallb]. rewrite E. exact IH.
Qed.

(** On a text of one line, only its beginning is the start of a line. *)
Lemma after_line_start_one_line (p s : jsstring) :
  one_line s = true ->
  after_line_start p s false = None
  /\ after_line_start p s true
     = if startsWith s p then Some (skipn (length p) s) else None.
Proof.
  intros H.
  assert (F : forall t, one_line t = true -> after_line_start p t false = None).
  { induction t as [|c t IH]; intros Ht; [reflexivity|].
    cbn [after_line_start andb]. cbn [one_line forallb] in Ht.
    apply andb_true_iff in Ht as [Hc Ht]. apply negb_true_iff in Hc.
    rewrite Hc. now apply IH. }
  split; [now apply F|].
  destruct s as [|c s]; cbn [after_line_start andb].
  - destruct (startsWith [] p); reflexivity.
  - destruct (startsWith (c :: s) p) eqn:E; [reflexivity|].
    cbn [one_line forallb] in H. apply andb_true_iff in H as [Hc Hs].
    apply negb_true_iff in Hc. rewrite Hc. now apply F.
Qed.

(* ================================================================== *)
(** * A key added to the content of the secret key file *)
(* ================================================================== *)

Lemma plain_key_props (k : jsstring) :
  plain_key k = true ->
  literal_pattern k = true /\ one_line k = true /\ ~ In ch_equals k
  /\ ~ In ch_newline (k ++ [ch_equals]) /\ k ++ [ch_equals] <> [].
Proof.
  unfold plain_key. intros H. apply andb_true_iff in H as [H H3].
  apply andb_true_iff in H as [H1 H2]. apply negb_true_iff in H3.
  apply includes_false in H3. repeat split; auto.
  - intros Hin. apply in_app_or in Hin as [Hin | [Hin | []]]; [|discriminate].
    unfold one_line in H2. rewrite forallb_forall in H2. apply H2 in Hin.
    discriminate.
  - destruct k; discriminate.
Qed.

Lemma one_line_assignment (k v : jsstring) :
  one_line k = true -> one_line v = true -> one_line (k ++ ch_equals :: v) = true.
Proof.
  unfold one_line. intros Hk Hv. rewrite forallb_app, Hk. cbn [forallb andb].
  exact Hv.
Qed.

Lemma skipn_key (k v : jsstring) :
  skipn (length (k ++ [ch_equals])) (k ++ ch_equals :: v) = v.
Proof.
  induction k as [|c k IH]; [reflexivity|]. cbn [app length skipn]. exact IH.
Qed.

Lemma startsWith_key (k k' v : jsstring) :
  ~ In ch_equals k -> ~ In ch_equals k' ->
  startsWith (k ++ ch_equals :: v) (k' ++ [ch_equals]) = str_eqb k' k.
Proof.
  intros Hk Hk'. destruct (str_eqb k' k) eqn:E.
  - apply str_eqb_eq in E. subst k'.
    replace (k ++ ch_equals :: v) with ((k ++ [ch_equals]) ++ v)
      by (now rewrite <- app_assoc).
    apply startsWith_app.
  - apply str_eqb_neq in E.
    destruct (startsWith (k ++ ch_equals :: v) (k' ++ [ch_equals])) eqn:S;
      [|reflexivity].
    apply startsWith_iff in S as [r Hr]. rewrite <- app_assoc in Hr. cbn [app] in Hr.
    exfalso. apply E. symmetry. eapply first_separator; eassumption.
Qed.

(** The line [k=v] gives a value to [k] and to no other key. *)
Lemma key_line_match_assignment (k k' v : jsstring) :
  plain_key k = true -> plain_key k' = true -> one_line v = true ->
  key_line_match k' (k ++ ch_equals :: v) = if str_eqb k' k then Some v else None.
Proof.
  intros Hk Hk' Hv.
  destruct (plain_key_props k Hk) as (_ & K1 & K2 & _).
  destruct (plain_key_props k' Hk') as (_ & _ & K2' & _).
  unfold key_line_match.
  destruct (after_line_start_one_line (k' ++ [ch_equals]) (k ++ ch_equals :: v)
              (one_line_assignment k v K1 Hv)) as [_ ->].
  rewrite startsWith_key by assumption.
  destruct (str_eqb k' k) eqn:E; [|reflexivity].
  apply str_eqb_eq in E. subst k'. cbn [option_map]. rewrite skipn_key.
  now rewrite rest_of_line_one_line.
Qed.

Lemma key_line_match_newline_end (k content : jsstring) :
  plain_key k = true ->
  key_line_match k (content ++ [ch_newline]) = key_line_match k content.
Proof.
  intros Hk. destruct (plain_key_props k Hk) as (_ & _ & _ & K3 & K4).
  unfold key_line_match. rewrite after_line_start_newline_end by assumption.
  destruct (after_line_start (k ++ [ch_equals]) content true) as [r|];
    [|reflexivity].
  cbn [option_map]. f_equal. apply (rest_of_line_newline r []).
Qed.

Lemma key_line_match_after_newline (k a b : jsstring) :
  plain_key k = true ->
  key_line_match k ((a ++ [ch_newline]) ++ b)
  = match key_line_match k (a ++ [ch_newline]) with
    | Some v => Some v
    | None => key_line_match k b
    end.
Proof.
  intros Hk. destruct (plain_key_props k Hk) as (_ & _ & _ & K3 & K4).
  unfold key_line_match. rewrite after_line_start_app by assumption.
  rewrite after_line_start_newline_end by assumption.
  destruct (after_line_start (k ++ [ch_equals]) a true) as [r|]; [|reflexivity].
  cbn [option_map]. f_equal. rewrite <- app_assoc. cbn [app].
  rewrite rest_of_line_newline. symmetry. apply (rest_of_line_newline r []).
Qed.

Lemma key_line_match_empty (k : jsstring) : key_line_match k [] = None.
Proof. unfold key_line_match. destruct k; reflexivity. Qed.

(** The values of the keys after [k=v] has been added to a content. *)
Lemma key_line_match_with_key (content k v k' : jsstring) :
  plain_key k = true -> plain_key k' = true -> one_line v = true ->
  key_line_match k' (with_key content k v)
  = match key_line_match k' content with
    | Some old => Some old
    | None => if str_eqb k' k then Some v else None
    end.
Proof.
  intros Hk Hk' Hv. unfold with_key.
  destruct content as [|c content'].
  { rewrite (key_line_match_empty k'). cbn [str_truthy andb app].
    now apply key_line_match_assignment. }
  remember (c :: content') as content eqn:Hc.
  assert (T : str_truthy content = true) by (now subst content).
  rewrite T. clear T Hc.
  destruct (endsWith content [ch_newline]) eqn:E; cbn [negb andb].
  - apply endsWith_newline in E as [a Ha]. rewrite Ha.
    rewrite key_line_match_after_newline by assumption.
    destruct (key_line_match k' (a ++ [ch_newline])); [reflexivity|].
    now apply key_line_match_assignment.
  - rewrite key_line_match_after_newline by assumption.
    rewrite key_line_match_newline_end by assumption.
    destruct (key_line_match k' content); [reflexivity|].
    now apply key_line_match_assignment.
Qed.

Lemma key_line_test_match (k content : jsstring) :
  key_line_test k content = true <-> exists v, key_line_match k content = Some v.
Proof.
  unfold key_line_test, key_line_match.
  destruct (after_line_start (k ++ [ch_equals]) content true) as [r|]; cbn.
  - split; eauto.
  - split; [discriminate | intros [v H]; discriminate].
Qed.

(* ================================================================== *)
(** * Steps of code that may throw with a message *)
(* ================================================================== *)

Lemma andThen_fulfilled {A B} (m : Task A) (k : A -> Task B) (w w1 : World) (a : A) :
  m w = (Fulfilled a, w1) -> andThen m k w = k a w1.
Proof. unfold andThen. now intros ->. Qed.

Lemma andThen_rejected {A B} (m : Task A) (k : A -> Task B) (w w1 : World)
  (f : Failure) :
  m w = (Rejected f, w1) -> andThen m k w = (Rejected f, w1).
Proof. unfold andThen. now intros ->. Qed.

(* ================================================================== *)
(** * The secret key file *)
(* ================================================================== *)

Section SecretFile.
Context (Np : NodePath).

Lemma lookup_touched (w : World) (path : jsstring) :
  fs.lookup (files (touched w path)) path = Some (content_of w path).
Proof.
  unfold touched, Afm.open_append, content_of. cbn [snd].
  destruct (fs.lookup (files w) path) as [c|] eqn:L; [exact L|].
  cbn [files]. apply lookup_store.
Qed.

Lemma touched_frame (w : World) (path : jsstring) :
  logged (touched w path) = logged w /\ written (touched w path) = written w
  /\ drawn (touched w path) = drawn w /\ entropy (touched w path) = entropy w.
Proof.
  unfold touched, Afm.open_append. cbn [snd].
  destruct (fs.lookup (files w) path); auto.
Qed.

Lemma touched_existing (w : World) (path c : jsstring) :
  fs.lookup (files w) path = Some c -> touched w path = w.
Proof. unfold touched, Afm.open_append. cbn [snd]. now intros ->. Qed.

Variables filePath path : jsstring.
Hypothesis Hfile : names_file Np filePath path.

Lemma ensureFileExists_ok (w : World) :
  Afm.ensureFileExists Np filePath w
  = (Fulfilled {| success := true |}, touched w path).
Proof.
  unfold Afm.ensureFileExists. destruct (Hfile w) as (H1 & H2 & H3).
  rewrite (andThen_fulfilled _ _ _ _ _ H1), (andThen_fulfilled _ _ _ _ _ H2).
  rewrite (andThen_fulfilled _ _ _ _ _ H3). cbn [success negb].
  unfold andThen, touched. destruct (Afm.open_append path w) as [[[]|f] w1] eqn:E;
    [reflexivity|]. unfold Afm.open_append in E. discriminate.
Qed.

Lemma readFile_ok (w : World) (c : jsstring) :
  fs.lookup (files w) path = Some c ->
  Afm.readFile Np filePath w = (Fulfilled c, w).
Proof.
  intros L. unfold Afm.readFile. destruct (Hfile w) as (H1 & H2 & _).
  rewrite (andThen_fulfilled _ _ _ _ _ H1), (andThen_fulfilled _ _ _ _ _ H2).
  unfold await, fs.readFile. now rewrite L.
Qed.

Lemma writeFile_ok (content keyName : jsstring) (w : World) :
  Afm.writeFile Np filePath content keyName w
  = (Fulfilled {| success := true |}, snd (fs.writeFile path content w)).
Proof.
  unfold Afm.writeFile. destruct (Hfile w) as (H1 & H2 & H3).
  rewrite (andThen_fulfilled _ _ _ _ _ H1), (andThen_fulfilled _ _ _ _ _ H2).
  rewrite (andThen_fulfilled _ _ _ _ _ H3). reflexivity.
Qed.

Lemma getOrCreateBaseEnvFileContent_ok (w : World) :
  Sfm.getOrCreateBaseEnvFileContent Np filePath w
  = (Fulfilled (content_of w path), touched w path).
Proof.
  unfold Sfm.getOrCreateBaseEnvFileContent.
  rewrite (andThen_fulfilled _ _ _ _ _ (ensureFileExists_ok w)).
  unfold not_result. apply readFile_ok, lookup_touched.
Qed.

Lemma getKeyValue_ok (keyName : jsstring) (w : World) :
  literal_pattern keyName = true ->
  Sfm.getKeyValue Np filePath keyName w
  = (Fulfilled (key_line_match keyName (content_of w path)), touched w path).
Proof.
  intros Hk. unfold Sfm.getKeyValue.
  rewrite (andThen_fulfilled _ _ _ _ _ (getOrCreateBaseEnvFileContent_ok w)).
  now rewrite Hk.
Qed.

Lemma storeBaseEnvironmentKey_ok (keyName keyValue : jsstring) (w : World) :
  literal_pattern keyName = true ->
  Sfm.storeBaseEnvironmentKey Np filePath keyName keyValue w
  = if key_line_test keyName (content_of w path)
    then (Fulfilled tt,
          snd (logger.info
                 (lit "The environment variable " ++ ch_quote :: keyName ++ ch_quote
                    :: lit " already exists. Delete it before regenerating.")
                 (touched w path)))
    else (Fulfilled tt,
          snd (logger.info
                 (lit "Environment variable " ++ ch_quote :: keyName ++ ch_quote
                    :: lit " has been added successfully.")
                 (snd (fs.writeFile path
                         (with_key (content_of w path) keyName keyValue)
                         (touched w path))))).
Proof.
  intros Hk. unfold Sfm.storeBaseEnvironmentKey.
  rewrite (andThen_fulfilled _ _ _ _ _ (getOrCreateBaseEnvFileContent_ok w)).
  rewrite Hk. cbn [negb].
  destruct (key_line_test keyName (content_of w path)); [reflexivity|].
  unfold Sfm.writeSecretKeyVariableToBaseEnvFile.
  unfold andThen at 1. unfold andThen at 1. rewrite writeFile_ok. reflexivity.
Qed.

End SecretFile.

(* ================================================================== *)
(** * Storing and reading a key of the secret key file *)
(* ================================================================== *)

Lemma names_demo_env_file : names_file DemoPath.node DemoPath.env_file DemoPath.env_file.
Proof. intros w. repeat split. Qed.

(** X7. After [storeBaseEnvironmentKey] has stored a value on one line
    under a plain key name, [getKeyValue] returns a value for that key:
    the value the file gave the key before the call, if it gave one,
    and the stored value otherwise. *)
Theorem X7_store_then_get (Np : NodePath) (filePath path keyName keyValue : jsstring)
  (w : World) :
  names_file Np filePath path ->
  plain_key keyName = true -> one_line keyValue = true ->
  let stored := Sfm.storeBaseEnvironmentKey Np filePath keyName keyValue w in
  fst stored = Fulfilled tt
  /\ fst (Sfm.getKeyValue Np filePath keyName (snd stored))
     = Fulfilled (Some match key_line_match keyName (content_of w path) with
                       | Some old => old
                       | None => keyValue
                       end).
Proof.
  intros Hfile Hk Hv stored.
  destruct (plain_key_props keyName Hk) as (Hlit & _).
  unfold stored. rewrite (storeBaseEnvironmentKey_ok Np _ _ Hfile _ _ _ Hlit).
  destruct (key_line_test keyName (content_of w path)) eqn:T; cbn [fst snd].
  - split; [reflexivity|]. rewrite (getKeyValue_ok Np _ _ Hfile _ _ Hlit). cbn [fst].
    apply key_line_test_match in T as [old Hold].
    assert (C : content_of (snd (logger.info
                  (lit "The environment variable " ++ ch_quote :: keyName ++ ch_quote
                     :: lit " already exists. Delete it before regenerating.")
                  (touched w path))) path = content_of w path).
    { unfold content_of at 1. cbn [logger.info logger.log snd files].
      now rewrite lookup_touched. }
    rewrite C, Hold. reflexivity.
  - split; [reflexivity|]. rewrite (getKeyValue_ok Np _ _ Hfile _ _ Hlit). cbn [fst].
    assert (C : content_of (snd (logger.info
                  (lit "Environment variable " ++ ch_quote :: keyName ++ ch_quote
                     :: lit " has been added successfully.")
                  (snd (fs.writeFile path
                          (with_key (content_of w path) keyName keyValue)
                          (touched w path))))) path
                = with_key (content_of w path) keyName keyValue).
    { unfold content_of at 1. cbn [logger.info logger.log fs.writeFile snd files].
      now rewrite lookup_store. }
    rewrite C, (key_line_match_with_key _ _ _ _ Hk Hk Hv), str_eqb_refl.
    destruct (key_line_match keyName (content_of w path)) as [old|] eqn:M;
      [|reflexivity].
    assert (key_line_test keyName (content_of w path) = true)
      by (apply key_line_test_match; eauto).
    congruence.
Qed.

Lemma X7_witness :
  let w := Demo.world DemoPath.env_file (lit "DEV_SECRET_KEY=abc") in
  let stored := Sfm.storeBaseEnvironmentKey DemoPath.node DemoPath.env_file
                  (lit "UAT_SECRET_KEY") (lit "c2VjcmV0") w in
  fst stored = Fulfilled tt
  /\ fst (Sfm.getKeyValue DemoPath.node DemoPath.env_file (lit "UAT_SECRET_KEY")
            (snd stored)) = Fulfilled (Some (lit "c2VjcmV0")).
Proof.
  cbv zeta.
  exact (X7_store_then_get DemoPath.node DemoPath.env_file DemoPath.env_file
           (lit "UAT_SECRET_KEY") (lit "c2VjcmV0")
           (Demo.world DemoPath.env_file (lit "DEV_SECRET_KEY=abc"))
           names_demo_env_file eq_refl eq_refl).
Defined.

(** X8. For a key name without pattern syntax (none of the characters
    [^ $ \ . * + ? ( ) [ ] { } |], so that the pattern the code builds
    from the name matches the name itself) and a file path that passes
    the checks of the file manager, [storeBaseEnvironmentKey] never
    replaces a key: when a line of the file begins with [keyName=], the
    call returns without writing, leaves every file as it is and logs
    that the variable already exists; otherwise it writes the file
    once, with the old content, a newline if the content did not end
    with one, and [keyName=keyValue]. *)
Theorem X8_store_never_overwrites (Np : NodePath)
  (filePath path keyName keyValue : jsstring) (w : World) :
  names_file Np filePath path ->
  literal_pattern keyName = true ->
  let stored := Sfm.storeBaseEnvironmentKey Np filePath keyName keyValue w in
  let old := content_of w path in
  fst stored = Fulfilled tt
  /\ if key_line_test keyName old
     then files (snd stored) = files w /\ written (snd stored) = written w
          /\ logged (snd stored)
             = logged w ++ [(Info, lit "The environment variable " ++ ch_quote
                                     :: keyName ++ ch_quote
                                     :: lit " already exists. Delete it before regenerating.")]
     else written (snd stored) = written w ++ [(path, with_key old keyName keyValue)]
          /\ content_of (snd stored) path = with_key old keyName keyValue
          /\ logged (snd stored)
             = logged w ++ [(Info, lit "Environment variable " ++ ch_quote
                                     :: keyName ++ ch_quote
                                     :: lit " has been added successfully.")].
Proof.
  intros Hfile Hlit stored old. unfold stored, old.
  rewrite (storeBaseEnvironmentKey_ok Np _ _ Hfile _ _ _ Hlit).
  destruct (touched_frame w path) as (L & W & _).
  destruct (key_line_test keyName (content_of w path)) eqn:T; cbn [fst snd].
  - split; [reflexivity|]. cbn [logger.info logger.log snd files written logged].
    rewrite L, W. repeat split.
    apply key_line_test_match in T as [v Hv].
    unfold content_of in Hv.
    destruct (fs.lookup (files w) path) as [c|] eqn:E.
    + now rewrite (touched_existing w path c E).
    + rewrite key_line_match_empty in Hv. discriminate.
  - split; [reflexivity|].
    cbn [logger.info logger.log fs.writeFile snd files written logged].
    rewrite L, W. repeat split. unfold content_of at 1. cbn [files].
    now rewrite lookup_store.
Qed.

Lemma X8_witness :
  let w := Demo.world DemoPath.env_file (lit "UAT_SECRET_KEY=first") in
  let stored := Sfm.storeBaseEnvironmentKey DemoPath.node DemoPath.env_file
                  (lit "UAT_SECRET_KEY") (lit "second") w in
  fst stored = Fulfilled tt
  /\ files (snd stored) = files w /\ written (snd stored) = [].
Proof.
  cbv zeta.
  pose proof (X8_store_never_overwrites DemoPath.node DemoPath.env_file
                DemoPath.env_file (lit "UAT_SECRET_KEY") (lit "second")
                (Demo.world DemoPath.env_file (lit "UAT_SECRET_KEY=first"))
                names_demo_env_file eq_refl) as H.
  cbv zeta in H. destruct H as (H1 & H2 & H3 & _). auto.
Defined.

(** X9. Storing a value on one line under a plain key name, one
    without pattern syntax, [=] or line breaks, in a file whose path
    passes the checks of the file manager, leaves the value of every
    other plain key name as [getKeyValue] reports it. *)
Theorem X9_store_keeps_other_keys (Np : NodePath)
  (filePath path keyName keyValue other : jsstring) (w : World) :
  names_file Np filePath path ->
  plain_key keyName = true -> one_line keyValue = true ->
  plain_key other = true -> other <> keyName ->
  let stored := Sfm.storeBaseEnvironmentKey Np filePath keyName keyValue w in
  fst (Sfm.getKeyValue Np filePath other (snd stored))
  = fst (Sfm.getKeyValue Np filePath other w).
Proof.
  intros Hfile Hk Hv Ho Hne stored.
  destruct (plain_key_props keyName Hk) as (Hlit & _).
  destruct (plain_key_props other Ho) as (Hlit' & _).
  rewrite !(getKeyValue_ok Np _ _ Hfile _ _ Hlit'). cbn [fst]. f_equal.
  unfold stored. rewrite (storeBaseEnvironmentKey_ok Np _ _ Hfile _ _ _ Hlit).
  destruct (key_line_test keyName (content_of w path)); cbn [snd].
  - unfold content_of at 1. cbn [logger.info logger.log snd files].
    now rewrite lookup_touched.
  - unfold content_of at 1. cbn [logger.info logger.log fs.writeFile snd files].
    rewrite lookup_store, (key_line_match_with_key _ _ _ _ Hk Ho Hv).
    apply str_eqb_neq in Hne. rewrite Hne.
    now destruct (key_line_match other (content_of w path)).
Qed.

Lemma X9_witness :
  let w := Demo.world DemoPath.env_file (lit "DEV_SECRET_KEY=abc") in
  let stored := Sfm.storeBaseEnvironmentKey DemoPath.node DemoPath.env_file
                  (lit "UAT_SECRET_KEY") (lit "c2VjcmV0") w in
  fst (Sfm.getKeyValue DemoPath.node DemoPath.env_file (lit "DEV_SECRET_KEY")
         (snd stored)) = Fulfilled (Some (lit "abc")).
Proof.
  cbv zeta.
  rewrite (X9_store_keeps_other_keys DemoPath.node DemoPath.env_file
             DemoPath.env_file (lit "UAT_SECRET_KEY") (lit "c2VjcmV0")
             (lit "DEV_SECRET_KEY")
             (Demo.world DemoPath.env_file (lit "DEV_SECRET_KEY=abc"))
             names_demo_env_file eq_refl eq_refl eq_refl).
  - reflexivity.
  - intros C. vm_compute in C. congruence.
Defined.

(* ================================================================== *)
(** * What the file manager changes *)
(* ================================================================== *)

Section FileManagerFrame.
Context (Np : NodePath).

Lemma normalizePath_world (p : jsstring) (w : World) :
  snd (Afm.normalizePath Np p w) = w.
Proof.
  unfold Afm.normalizePath.
  destruct (negb (str_truthy p)); [reflexivity|].
  destruct (includes p 0); [reflexivity|].
  destruct (negb _ && negb _); reflexivity.
Qed.

Lemma validatePath_world (p n : jsstring) (w : World) :
  snd (Afm.validatePath p n w) = w.
Proof.
  unfold Afm.validatePath, andThen, logAndThrow, fail, done.
  destruct (negb (str_truthy p)); [reflexivity|].
  destruct (str_eqb n (lit "filePath") && _); reflexivity.
Qed.

Lemma ensureDirectoryExists_cases (d : jsstring) (w : World) :
  (exists f, Afm.ensureDirectoryExists Np d w = (Rejected f, w))
  \/ Afm.ensureDirectoryExists Np d w = (Fulfilled {| success := true |}, w).
Proof.
  unfold Afm.ensureDirectoryExists, andThen.
  pose proof (normalizePath_world d w) as N.
  destruct (Afm.normalizePath Np d w) as [[p|f] w1]; cbn [snd] in N; subst w1;
    [|eauto].
  pose proof (validatePath_world p (lit "dirPath") w) as V.
  destruct (Afm.validatePath p (lit "dirPath") w) as [[[]|f] w1]; cbn [snd] in V;
    subst w1; [now right | eauto].
Qed.

Lemma ensureFileExists_cases (filePath : jsstring) (w : World) :
  (exists f, Afm.ensureFileExists Np filePath w = (Rejected f, w))
  \/ exists path,
       Afm.normalizePath Np filePath w = (Fulfilled path, w)
       /\ Afm.validatePath path (lit "filePath") w = (Fulfilled tt, w)
       /\ Afm.ensureFileExists Np filePath w
          = (Fulfilled {| success := true |}, touched w path).
Proof.
  unfold Afm.ensureFileExists.
  pose proof (normalizePath_world filePath w) as N.
  destruct (Afm.normalizePath Np filePath w) as [[p|f] w1] eqn:EN; cbn [snd] in N;
    subst w1.
  2:{ left. exists f. now rewrite (andThen_rejected _ _ _ _ _ EN). }
  rewrite (andThen_fulfilled _ _ _ _ _ EN).
  pose proof (validatePath_world p (lit "filePath") w) as V.
  destruct (Afm.validatePath p (lit "filePath") w) as [[[]|f] w1] eqn:EV;
    cbn [snd] in V; subst w1.
  2:{ left. exists f. now rewrite (andThen_rejected _ _ _ _ _ EV). }
  rewrite (andThen_fulfilled _ _ _ _ _ EV).
  destruct (ensureDirectoryExists_cases (path_dirname Np p) w) as [[f ED] | ED].
  { left. exists f. now rewrite (andThen_rejected _ _ _ _ _ ED). }
  rewrite (andThen_fulfilled _ _ _ _ _ ED). cbn [success negb].
  right. exists p. split; [reflexivity|]. split; [exact EV|].
  unfold touched, Afm.open_append, andThen, done. reflexivity.
Qed.

Lemma readFile_world (filePath : jsstring) (w : World) :
  snd (Afm.readFile Np filePath w) = w.
Proof.
  unfold Afm.readFile, andThen.
  pose proof (normalizePath_world filePath w) as N.
  destruct (Afm.normalizePath Np filePath w) as [[p|f] w1]; cbn [snd] in N; subst w1;
    [|reflexivity].
  pose proof (validatePath_world p (lit "filePath") w) as V.
  destruct (Afm.validatePath p (lit "filePath") w) as [[[]|f] w1]; cbn [snd] in V;
    subst w1; [|reflexivity].
  unfold await, fs.readFile. destruct (fs.lookup (files w) p); reflexivity.
Qed.

End FileManagerFrame.

(** X10. [getOrCreateBaseEnvFileContent] logs no warning and never calls
    [writeFile], whatever the path and the files are: [ensureFileExists]
    returns an object, so the branch for a missing file is never taken.
    When it returns, the file exists and the text returned is its
    content, which is the content it had before, or the empty text if
    there was no file. *)
Theorem X10_missing_file_branch_never_taken (Np : NodePath) (filePath : jsstring)
  (w : World) :
  let out := Sfm.getOrCreateBaseEnvFileContent Np filePath w in
  logged (snd out) = logged w /\ written (snd out) = written w
  /\ drawn (snd out) = drawn w
  /\ forall content, fst out = Fulfilled content ->
       exists path,
         fst (Afm.normalizePath Np filePath w) = Fulfilled path
         /\ content = content_of w path
         /\ fs.lookup (files (snd out)) path = Some content.
Proof.
  intros out. unfold out, Sfm.getOrCreateBaseEnvFileContent.
  destruct (ensureFileExists_cases Np filePath w) as [[f E] | (path & N & V & E)].
  - rewrite (andThen_rejected _ _ _ _ _ E). cbn [fst snd].
    repeat split. intros c H. discriminate.
  - rewrite (andThen_fulfilled _ _ _ _ _ E). unfold not_result.
    destruct (touched_frame w path) as (L & W & D & _).
    pose proof (readFile_world Np filePath (touched w path)) as R.
    rewrite R. repeat split; auto.
    intros content H. exists path. rewrite N. split; [reflexivity|].
    unfold Afm.readFile in H.
    assert (N' : Afm.normalizePath Np filePath (touched w path)
                 = (Fulfilled path, touched w path)).
    { pose proof (normalizePath_world Np filePath (touched w path)) as Q.
      unfold Afm.normalizePath in N, Q |- *.
      destruct (negb (str_truthy filePath)); [discriminate|].
      destruct (includes filePath 0); [discriminate|].
      destruct (negb _ && negb _); [discriminate|].
      unfold done in *. congruence. }
    assert (V' : Afm.validatePath path (lit "filePath") (touched w path)
                 = (Fulfilled tt, touched w path)).
    { unfold Afm.validatePath, andThen in V |- *.
      unfold logAndThrow, fail, done in *.
      destruct (negb (str_truthy path)); [discriminate|].
      destruct (str_eqb (lit "filePath") (lit "filePath") && _); [discriminate|].
      reflexivity. }
    rewrite (andThen_fulfilled _ _ _ _ _ N'), (andThen_fulfilled _ _ _ _ _ V') in H.
    unfold await, fs.readFile in H. rewrite lookup_touched in H. cbn [fst] in H.
    inversion H; subst content. split; [reflexivity | apply lookup_touched].
Qed.

(* ================================================================== *)
(** * Generating and storing a secret key *)
(* ================================================================== *)

Lemma store_summary (Np : NodePath) (filePath path keyName keyValue : jsstring)
  (w : World) :
  names_file Np filePath path -> literal_pattern keyName = true ->
  let stored := Sfm.storeBaseEnvironmentKey Np filePath keyName keyValue w in
  let old := content_of w path in
  fst stored = Fulfilled tt /\ drawn (snd stored) = drawn w
  /\ content_of (snd stored) path
     = (if key_line_test keyName old then old else with_key old keyName keyValue)
  /\ (key_line_test keyName old = true ->
      files (snd stored) = files w /\ written (snd stored) = written w).
Proof.
  intros Hfile Hlit stored old. unfold stored, old.
  rewrite (storeBaseEnvironmentKey_ok Np _ _ Hfile _ _ _ Hlit).
  destruct (touched_frame w path) as (L & W & D & _).
  destruct (key_line_test keyName (content_of w path)) eqn:T; cbn [fst snd].
  - cbn [logger.info logger.log snd files written drawn].
    split; [reflexivity|]. split; [exact D|]. split.
    + unfold content_of at 1. cbn [files]. now rewrite lookup_touched.
    + intros _. split; [|exact W].
      apply key_line_test_match in T as [v Hv]. unfold content_of in Hv.
      destruct (fs.lookup (files w) path) as [c|] eqn:E.
      * now rewrite (touched_existing w path c E).
      * rewrite key_line_match_empty in Hv. discriminate.
  - cbn [logger.info logger.log fs.writeFile snd files written drawn].
    split; [reflexivity|]. split; [exact D|]. split; [|discriminate].
    unfold content_of at 1. cbn [files]. now rewrite lookup_store.
Qed.

Lemma one_line_base64 (b : bytes) : one_line (Buffer.toString_base64 b) = true.
Proof.
  unfold one_line. apply forallb_forall. intros c Hc.
  pose proof (toString_base64_plain b) as Hp. rewrite Forall_forall in Hp.
  apply Hp in Hc. unfold plain_char in Hc. unfold isLineTerminator.
  destruct (N.eqb_spec c 10); [lia|]. destruct (N.eqb_spec c 13); [lia|].
  destruct (N.eqb_spec c 8232); [lia|]. destruct (N.eqb_spec c 8233); [lia|].
  reflexivity.
Qed.

(** X11. For a plain key name [keyName], one without pattern syntax,
    [=] or line breaks, and a base environment file whose path passes
    the checks of the file manager, [generateAndStoreSecretKey] draws 32
    random bytes and makes their base64 text, 44 characters, the value
    of [keyName] in the file when the file gives the key no value yet.
    When it does, the new key is dropped: no file changes, nothing is
    written, and the key keeps its value. *)
Theorem X11_generate_and_store (P : Platform) (Np : NodePath)
  (directory base filePath path keyName : jsstring) (w : World) :
  getFilePath P directory base = Some filePath ->
  names_file Np filePath path ->
  plain_key keyName = true ->
  let out := Coordinator.generateAndStoreSecretKey P Np directory base keyName w in
  let key := Buffer.toString_base64 (next_bytes w 32) in
  let old := content_of w path in
  fst out = Fulfilled tt
  /\ drawn (snd out) = (drawn w + 32)%nat
  /\ length key = 44%nat
  /\ fst (Sfm.getKeyValue Np filePath keyName (snd out))
     = Fulfilled (Some match key_line_match keyName old with
                       | Some before => before
                       | None => key
                       end)
  /\ (key_line_test keyName old = true ->
      files (snd out) = files w /\ written (snd out) = written w).
Proof.
  intros Hpath Hfile Hk out key old.
  destruct (plain_key_props keyName Hk) as (Hlit & _).
  assert (Hgen : SecureKeyGenerator.generateBase64SecretKey None w
                 = (Ok key, after_draw w 32)) by reflexivity.
  assert (Hlen : length key = 44%nat).
  { unfold key. rewrite toString_base64_length, next_bytes_length. reflexivity. }
  assert (Hout : out = Sfm.storeBaseEnvironmentKey Np filePath keyName key
                         (after_draw w 32)).
  { unfold out, Coordinator.generateAndStoreSecretKey.
    unfold andThen at 1. unfold await at 1. rewrite Hgen.
    destruct key as [|c key']; [discriminate|]. cbn [str_truthy negb].
    unfold andThen at 1. unfold done at 1.
    unfold andThen at 1. unfold await at 1. unfold Mgr.resolveFilePath.
    rewrite Hpath. reflexivity. }
  pose proof (store_summary Np filePath path keyName key (after_draw w 32)
                Hfile Hlit) as S.
  cbv zeta in S. rewrite <- Hout in S.
  change (content_of (after_draw w 32) path) with old in S.
  destruct S as (S1 & S2 & S3 & S4).
  split; [exact S1|]. split; [exact S2|]. split; [exact Hlen|]. split.
  - rewrite (getKeyValue_ok Np _ _ Hfile _ _ Hlit). cbn [fst]. rewrite S3.
    destruct (key_line_test keyName old) eqn:T.
    + apply key_line_test_match in T as [v Hv]. now rewrite Hv.
    + rewrite (key_line_match_with_key old keyName key keyName Hk Hk
                 (one_line_base64 _)).
      rewrite str_eqb_refl.
      destruct (key_line_match keyName old) as [v|] eqn:M; [|reflexivity].
      assert (key_line_test keyName old = true)
        by (apply key_line_test_match; eauto).
      congruence.
  - exact S4.
Qed.

Lemma X11_witness :
  let w := Demo.world DemoPath.env_file (lit "DEV_SECRET_KEY=abc") in
  let out := Coordinator.generateAndStoreSecretKey DemoPath.platform DemoPath.node
               (lit "envs") (lit ".env") (lit "UAT_SECRET_KEY") w in
  fst out = Fulfilled tt
  /\ fst (Sfm.getKeyValue DemoPath.node DemoPath.env_file (lit "UAT_SECRET_KEY")
            (snd out))
     = Fulfilled (Some (Buffer.toString_base64 (next_bytes w 32))).
Proof.
  cbv zeta.
  pose proof (X11_generate_and_store DemoPath.platform DemoPath.node
                (lit "envs") (lit ".env") DemoPath.env_file DemoPath.env_file
                (lit "UAT_SECRET_KEY")
                (Demo.world DemoPath.env_file (lit "DEV_SECRET_KEY=abc"))
                eq_refl names_demo_env_file eq_refl) as H.
  cbv zeta in H. destruct H as (H1 & _ & _ & H4 & _). split; [exact H1|].
  exact H4.
Defined.

(* ================================================================== *)
(** * What a run of the manager leaves behind *)
(* ================================================================== *)

Section RunExtras.
Context (P : Platform).

(** Each encryption of the loop draws 44 bytes, and nothing else in
    the loop draws any. *)
Lemma encrypt_each_entropy (skv : jsstring) (entries : list (jsstring * jsval))
  (lines : list jsstring) (n : N) (w : World) (lines' : list jsstring) (n' : N)
  (w' : World) :
  (forall k v, In (k, v) entries -> loop_entry k v) ->
  Mgr.encrypt_each P entries skv lines n w = (Ok (lines', n'), w') ->
  n <= n' /\ n' - n <= N.of_nat (length entries)
  /\ drawn w' = (drawn w + 44 * N.to_nat (n' - n))%nat.
Proof.
  revert lines n w. induction entries as [|[k v] rest IH]; intros lines n w Hent H.
  - inversion H; subst. rewrite N.sub_diag. cbn. lia.
  - pose proof (loop_entry_tail _ _ _ Hent) as Hrest.
    destruct (Hent k v (or_introl eq_refl)) as [-> | (s & -> & Hs & Ht & Hk)];
      [discriminate H|].
    destruct (classified_encrypted s) eqn:C.
    + rewrite encrypt_each_skip in H by assumption.
      destruct (IH _ _ _ Hrest H) as (I1 & I2 & I3).
      split; [exact I1|]. split; [cbn [length]; lia|]. exact I3.
    + rewrite encrypt_each_plain in H by assumption.
      apply bind_ok_inv in H as (e & w1 & He & H).
      apply (encrypt_ok_inv P) in He as [_ ->].
      destruct (IH _ _ _ Hrest H) as (I1 & I2 & I3).
      split; [lia|]. split; [cbn [length]; lia|].
      rewrite I3. cbn [after_draw drawn].
      replace (n' - n) with (n' - (n + 1) + 1) by lia.
      rewrite N2Nat.inj_add. change (N.to_nat 1) with 1%nat. lia.
Qed.

End RunExtras.

(** X12. A run that returns has drawn 44 random bytes, a salt of 32 and
    an IV of 12, for each variable it encrypted and none besides: with
    [count] the number the loop reports, the entropy drawn is
    [44 * count], and [count] is at most the number of variables
    selected. *)
Theorem X12_entropy_per_encrypted_variable (P : Platform) (dir file skv : jsstring)
  (sels : option (list jsstring)) (w : World) :
  let out := Mgr.encryptAndUpdateEnvironmentVariables P dir file skv sels w in
  match fst out with
  | Throw _ => True
  | Ok _ =>
      exists path content vars w1 lines' count w2,
        getFilePath P dir file = Some path
        /\ fs.lookup (files w) path = Some content
        /\ Mgr.resolveVariablesToEncrypt
             (Mgr.extractEnvironmentVariables (split ch_newline content)) sels w
           = (Ok vars, w1)
        /\ Mgr.encryptVariableValuesInFileLines P (split ch_newline content) vars skv w1
           = (Ok (lines', count), w2)
        /\ count <= N.of_nat (length (Object.keys vars))
        /\ drawn (snd out) = (drawn w + 44 * N.to_nat count)%nat
  end.
Proof.
  intros out.
  pose proof (run_inv P dir file skv sels w (snd out) (fst out)) as H.
  rewrite <- surjective_pairing in H. specialize (H eq_refl).
  destruct (fst out) as [[]|e]; [|exact I].
  destruct H as (path & content & vars & w1 & lines' & count & w2 & Hp & Hc & Hres
                 & Hloop & _ & _ & _ & _ & Hd & _).
  exists path, content, vars, w1, lines', count, w2.
  split; [exact Hp|]. split; [exact Hc|]. split; [exact Hres|]. split; [exact Hloop|].
  destruct (resolveVariablesToEncrypt_spec
              (Mgr.extractEnvironmentVariables (split ch_newline content))
              sels w (extract_wf _)) as (vars' & w1' & Hres' & Hinfo & Hwf & Hvars).
  rewrite Hres in Hres'. inversion Hres'; subst vars' w1'.
  assert (Hentries : forall k v, In (k, v) (Object.entries vars) -> loop_entry k v).
  { intros k v Hin. apply Hvars in Hin as [Hin | (-> & _)]; [|now left].
    apply extract_In in Hin. now apply (parsed_loop_entry (split ch_newline content)). }
  unfold Mgr.encryptVariableValuesInFileLines in Hloop.
  destruct (encrypt_each_entropy P skv _ _ _ _ _ _ _ Hentries Hloop) as (_ & E2 & E3).
  rewrite N.sub_0_r in E2, E3. destruct Hinfo as (_ & _ & _ & D1 & _).
  split.
  - unfold Object.keys. rewrite length_map. exact E2.
  - rewrite Hd, E3, D1. reflexivity.
Qed.

Lemma trimmed_no_mark (s : jsstring) :
  s <> [] -> trim s = s -> startsWith s [BOM] = false.
Proof.
  intros Hne Ht. destruct (trimmed_head s Hne Ht) as (c & r & -> & Hc).
  cbn [startsWith]. destruct (N.eqb_spec c BOM) as [->|]; [discriminate|].
  reflexivity.
Qed.

(** X13. What a run encrypts can be read back: after a run that
    returned, for every selected variable whose value was not yet an
    envelope and has no unpaired surrogate, the file written has a line
    [k=<text>] which [parseEnvironmentLine] reads as [k] with the value
    [text], and [decrypt] of [text] with the text of [secretKeyVariable]
    as the passphrase returns the value the variable had. *)
Theorem X13_written_values_decrypt (P : Platform) (dir file skv : jsstring)
  (sels : option (list jsstring)) (w : World) (path content : jsstring) :
  let out := Mgr.encryptAndUpdateEnvironmentVariables P dir file skv sels w in
  let lines := split ch_newline content in
  aes_gcm_laws P ->
  getFilePath P dir file = Some path ->
  fs.lookup (files w) path = Some content ->
  fst out = Ok tt ->
  exists (lines' : list jsstring) (vars : object) (w1 : World),
    fs.lookup (files (snd out)) path = Some (join ch_newline lines')
    /\ Mgr.resolveVariablesToEncrypt (Mgr.extractEnvironmentVariables lines) sels w
       = (Ok vars, w1)
    /\ forall k value,
         In (k, VStr value) (Object.entries vars) ->
         classified_encrypted value = false ->
         well_formed value = true ->
         exists text,
           In (Mgr.assignment k text) lines'
           /\ Mgr.parseEnvironmentLine (Mgr.assignment k text) = Some (k, text)
           /\ forall w0, EncryptionService.decrypt P text skv w0 = (Ok value, w0).
Proof.
  intros out lines Hlaws Hpath Hcontent Hok.
  pose proof (run_inv P dir file skv sels w (snd out) (fst out)) as H.
  rewrite <- surjective_pairing in H. specialize (H eq_refl). rewrite Hok in H.
  destruct H as (path' & content' & vars & w1 & lines' & count & w2 & Hp & Hc & Hres
                 & Hloop & _ & _ & _ & Hfiles & _).
  rewrite Hpath in Hp. inversion Hp; subst path'.
  rewrite Hcontent in Hc. inversion Hc; subst content'. fold lines in Hres, Hloop.
  destruct (resolveVariablesToEncrypt_spec (Mgr.extractEnvironmentVariables lines)
              sels w (extract_wf _)) as (vars' & w1' & Hres' & _ & Hwf & Hvars).
  rewrite Hres in Hres'. inversion Hres'; subst vars' w1'.
  assert (Hentries : forall k v, In (k, v) (Object.entries vars) -> loop_entry k v).
  { intros k v Hin. apply Hvars in Hin as [Hin | (-> & _)]; [|now left].
    apply extract_In in Hin. now apply (parsed_loop_entry lines). }
  unfold Mgr.encryptVariableValuesInFileLines in Hloop.
  destruct (encrypt_each_spec P skv _ _ _ _ _ _ _ (proj1 Hwf) Hentries Hloop)
    as (updates & Hl & _ & Hu1 & Hu2 & _ & _ & Hnd).
  assert (Hplain : keys_plain (envelope_updates updates)).
  { apply (encrypt_each_keys_plain skv (Object.entries vars)); try assumption.
    - apply Hwf.
    - intros k e Hin. destruct (Hu1 _ _ Hin) as (s & ? & _). eauto. }
  exists lines', vars, w1.
  split; [rewrite Hfiles; apply lookup_store|]. split; [exact Hres|].
  intros k value Hin Hplaintext Hwfv.
  destruct (Hu2 _ _ Hin Hplaintext) as (e & He).
  destruct (Hu1 _ _ He) as (s & Hs & _ & Henc).
  assert (s = value).
  { pose proof (In_own_get _ _ _ (proj1 Hwf) Hs) as G1.
    pose proof (In_own_get _ _ _ (proj1 Hwf) Hin) as G2. congruence. }
  subst s.
  assert (HinU : In (k, envelope_json e) (envelope_updates updates)).
  { unfold envelope_updates.
    now apply (in_map (fun ke => (fst ke, envelope_json (snd ke))) _ (k, e)). }
  destruct (Hentries _ _ Hin) as [C | (s & Hv & Hne & Htrim & Hkeq)];
    [discriminate|]. inversion Hv; subst s.
  assert (Hall : In (k, VStr value) (Mgr.extractEnvironmentVariables lines)).
  { apply Hvars in Hin as [Hin | (C & _)]; [exact Hin | discriminate]. }
  apply extract_values in Hall as (s' & _ & _ & _ & _ & K1 & K2 & K3 & _).
  exists (envelope_json e). split; [|split].
  - rewrite Hl.
    destruct (existsb (begins_with_key k) lines) eqn:E.
    + apply existsb_exists in E as (line & Hline & B).
      apply In_nth_error in Hline as [i Hi].
      eapply nth_error_In.
      apply (apply_updates_replaced _ _ i line k); eauto.
    + assert (Hno : forall line, In line lines -> begins_with_key k line = false).
      { intros line Hline. destruct (begins_with_key k line) eqn:B; [|reflexivity].
        assert (existsb (begins_with_key k) lines = true)
          by (apply existsb_exists; eauto). congruence. }
      pose proof (apply_updates_appended _ lines k (envelope_json e) Hplain HinU Hno)
        as Happ.
      rewrite <- (firstn_skipn (length lines)). apply in_or_app. now right.
  - destruct (envelope_json_trimmed e) as [E1 E2].
    now apply parseEnvironmentLine_assignment.
  - intros w0. destruct Henc as (wa & wb & Henc).
    rewrite (decrypt_encrypt P _ _ _ _ w0 _ Hlaws Henc).
    rewrite decode_encode_no_mark; [reflexivity | exact Hwfv |].
    now apply trimmed_no_mark.
Qed.

Lemma X13_witness :
  let w := Demo.world Demo.env_path (lit "TOKEN=s3cret") in
  let out := Demo.run None w in
  fst out = Ok tt
  /\ exists lines' text,
       Demo.content_after out = Some (join ch_newline lines')
       /\ In (Mgr.assignment (lit "TOKEN") text) lines'
       /\ fst (EncryptionService.decrypt Demo.platform text Demo.UAT_SECRET_KEY w)
          = Ok (lit "s3cret").
Proof.
  intros w out. split; [reflexivity|].
  destruct (X13_written_values_decrypt Demo.platform Demo.envs Demo.env_uat
              Demo.UAT_SECRET_KEY None w Demo.env_path (lit "TOKEN=s3cret")
              demo_laws eq_refl eq_refl eq_refl)
    as (lines' & vars & w1 & Hfile & Hres & Hall).
  vm_compute in Hres. inversion Hres; subst vars w1. clear Hres.
  destruct (Hall (lit "TOKEN") (lit "s3cret") (or_introl eq_refl) eq_refl eq_refl)
    as (text & Hin & _ & Hdec).
  exists lines', text. split; [exact Hfile|]. split; [exact Hin|].
  now rewrite Hdec.
Defined.

(* ================================================================== *)
(** * Decrypting leaves the world alone *)
(* ================================================================== *)

Lemma unchanging_ret {A} (a : A) : unchanging (ret a).
Proof. intros w. reflexivity. Qed.

Lemma unchanging_throw {A} (e : JsError) : unchanging (@throw A e).
Proof. intros w. reflexivity. Qed.

Lemma unchanging_of_option {A} (e : JsError) (o : option A) :
  unchanging (of_option e o).
Proof. destruct o; [apply unchanging_ret | apply unchanging_throw]. Qed.

Lemma unchanging_bind {A B} (m : M A) (k : A -> M B) :
  unchanging m -> (forall a, unchanging (k a)) -> unchanging (bind m k).
Proof.
  intros Hm Hk w. unfold bind. specialize (Hm w).
  destruct (m w) as [[a|e] w1]; cbn [snd] in *; subst w1; [apply Hk | reflexivity].
Qed.

Section DecryptFrame.
Context (P : Platform).

Lemma unchanging_deriveKey (secretKey salt : jsstring) :
  unchanging (EncryptionService.deriveKeyWithArgon2 P secretKey salt).
Proof.
  unfold EncryptionService.deriveKeyWithArgon2, EncryptionService.argon2Hashing,
    EncryptionService.importKeyForCrypto.
  apply unchanging_bind; [apply unchanging_of_option|]. intros key.
  destruct (crypto.valid_aes_key key); [apply unchanging_ret | apply unchanging_throw].
Qed.

Lemma unchanging_string_field (v : option JSON.value) :
  unchanging (EncryptionService.string_field v).
Proof.
  destruct v as [[| | | | |]|]; cbn [EncryptionService.string_field];
    try apply unchanging_ret; apply unchanging_throw.
Qed.

Lemma unchanging_decrypt (data secretKey : jsstring) :
  unchanging (EncryptionService.decrypt P data secretKey).
Proof.
  unfold EncryptionService.decrypt.
  apply unchanging_bind.
  { unfold EncryptionService.parseEncryptedData.
    apply unchanging_bind.
    { destruct (negb (str_truthy data)); [apply unchanging_throw | apply unchanging_ret]. }
    intros _. apply unchanging_bind; [apply unchanging_of_option|]. intros d.
    apply unchanging_bind; [|intros; apply unchanging_ret].
    unfold EncryptionService.validateParsedData.
    destruct d; try apply unchanging_throw;
      match goal with
      | |- unchanging (if ?b then _ else _) =>
          destruct b; [apply unchanging_throw | apply unchanging_ret]
      end. }
  intros d. apply unchanging_bind; [apply unchanging_string_field|]. intros s.
  apply unchanging_bind; [apply unchanging_deriveKey|]. intros key.
  apply unchanging_bind; [apply unchanging_string_field|]. intros i.
  apply unchanging_bind; [apply unchanging_string_field|]. intros c.
  apply unchanging_bind; [|intros; apply unchanging_ret].
  apply unchanging_of_option.
Qed.

Lemma decrypt_all_eq (datas : list jsstring)
  (secretKey : jsstring) (w : World) :
  Batch.decrypt_all P datas secretKey w
  = (map (fun d => fst (EncryptionService.decrypt P d secretKey w)) datas, w).
Proof.
  induction datas as [|d rest IH]; [reflexivity|].
  cbn [Batch.decrypt_all map].
  pose proof (unchanging_decrypt d secretKey w) as U.
  destruct (EncryptionService.decrypt P d secretKey w) as [r w1]. cbn [snd fst] in *.
  subst w1. now rewrite IH.
Qed.

End DecryptFrame.

(* ================================================================== *)
(** * Decrypting several envelopes at once *)
(* ================================================================== *)

Lemma reasons_map_ok {A} (vs : list A) : reasons (map (@Ok A) vs) = [].
Proof. induction vs as [|v vs IH]; [reflexivity | exact IH]. Qed.

Lemma fulfilled_map_ok {A} (vs : list A) : fulfilled (map (@Ok A) vs) = vs.
Proof.
  induction vs as [|v vs IH]; [reflexivity|]. cbn [map fulfilled flat_map app].
  f_equal. exact IH.
Qed.



(** X14. [decryptMultipleKeys] gives back, in order, the plaintexts of
    envelopes that [encrypt] made under the same passphrase, for
    plaintexts without unpaired surrogates that do not begin with
    U+FEFF; the world is left as it is. *)
Theorem X14_batch_round_trip (P : Platform) (first : nat)
  (secretKey : jsstring) (pairs : list (jsstring * EncryptionParameters))
  (w : World) :
  aes_gcm_laws P ->
  Forall (fun ve => encrypted_by P secretKey (fst ve) (snd ve)
                    /\ well_formed (fst ve) = true
                    /\ startsWith (fst ve) [BOM] = false) pairs ->
  Batch.decryptMultipleKeys P first (map (fun ve => envelope_json (snd ve)) pairs)
    secretKey w
  = (Ok (map fst pairs), w).
Proof.
  intros Hlaws Hall. unfold Batch.decryptMultipleKeys.
  rewrite (decrypt_all_eq P). rewrite map_map.
  assert (E : map (fun ve => fst (EncryptionService.decrypt P (envelope_json (snd ve))
                                    secretKey w)) pairs
              = map (@Ok jsstring) (map fst pairs)).
  { induction Hall as [|[v e] rest (Henc & Hwf & Hb) _ IH]; [reflexivity|].
    cbn [map fst snd] in *. rewrite IH. f_equal.
    destruct Henc as (wa & wb & Henc).
    rewrite (decrypt_encrypt P _ _ _ _ w _ Hlaws Henc). cbn [fst].
    now rewrite decode_encode_no_mark. }
  rewrite E. unfold Promise_all. now rewrite reasons_map_ok, fulfilled_map_ok.
Qed.


Lemma demo_envelope_encrypted (value secretKey : jsstring) (w : World) :
  (exists e, fst (EncryptionService.encrypt Demo.platform value secretKey w) = Ok e) ->
  encrypted_by Demo.platform secretKey value (demo_envelope value secretKey w).
Proof.
  intros [e He]. exists w, (snd (EncryptionService.encrypt Demo.platform value secretKey w)).
  unfold demo_envelope. rewrite He.
  rewrite (surjective_pairing (EncryptionService.encrypt Demo.platform value secretKey w))
    at 1.
  now rewrite He.
Qed.

Lemma X14_witness :
  let w := Demo.world Demo.env_path [] in
  let k := lit "UAT_SECRET_KEY" in
  let pairs := [(lit "admin", demo_envelope (lit "admin") k w);
                (lit "password123", demo_envelope (lit "password123") k w)] in
  Batch.decryptMultipleKeys Demo.platform 0%nat
    (map (fun ve => envelope_json (snd ve)) pairs) k w
  = (Ok (map fst pairs), w).
Proof.
  intros w k pairs.
  apply (X14_batch_round_trip Demo.platform 0%nat k pairs w
           demo_laws).
  unfold pairs.
  apply Forall_cons; [|apply Forall_cons; [|apply Forall_nil]]; cbn [fst snd].
  - split; [|split; reflexivity].
    apply demo_envelope_encrypted. eexists. vm_compute. reflexivity.
  - split; [|split; reflexivity].
    apply demo_envelope_encrypted. eexists. vm_compute. reflexivity.
Defined.

(* ================================================================== *)
(** * Credentials read from the environment *)
(* ================================================================== *)

Section Credentials.
Context (P : Platform).

Lemma decrypt_at (data secretKey : jsstring) (w : World) :
  EncryptionService.decrypt P data secretKey w
  = (fst (EncryptionService.decrypt P data secretKey w), w).
Proof.
  rewrite (surjective_pairing (EncryptionService.decrypt P data secretKey w)) at 1.
  now rewrite (unchanging_decrypt P data secretKey w).
Qed.

Lemma getTokenCredentials_eq (env : ENV) (w : World) :
  Fetch.getTokenCredentials P env w
  = (match fst (EncryptionService.decrypt P (text_of (TOKEN_USERNAME env))
                  EnvironmentSecretKeyVariables.UAT w) with
     | Throw e => Rejected (Raised e)
     | Ok u =>
         match fst (EncryptionService.decrypt P (text_of (TOKEN_PASSWORD env))
                      EnvironmentSecretKeyVariables.UAT w) with
         | Throw e => Rejected (Raised e)
         | Ok p =>
             if negb (str_truthy u) || negb (str_truthy p)
             then Rejected (ErrorWith
                              (lit "Invalid credentials: Missing username or password."))
             else Fulfilled {| username := u; password := p |}
         end
     end, w).
Proof.
  unfold Fetch.getTokenCredentials, Fetch.decryptCredentials, andThen, await.
  rewrite (decrypt_at (text_of (TOKEN_USERNAME env))).
  destruct (fst (EncryptionService.decrypt P (text_of (TOKEN_USERNAME env)) _ w))
    as [u|e]; [|reflexivity].
  rewrite (decrypt_at (text_of (TOKEN_PASSWORD env))).
  destruct (fst (EncryptionService.decrypt P (text_of (TOKEN_PASSWORD env)) _ w))
    as [p|e]; [|reflexivity].
  unfold done, Fetch.verifyCredentials, logAndThrow, fail. cbn [username password fst].
  destruct (negb (str_truthy u) || negb (str_truthy p)); reflexivity.
Qed.

End Credentials.

(** X16. Credentials that [encrypt] sealed under the passphrase text
    [UAT_SECRET_KEY], the name of the secret key variable, come back
    from [getTokenCredentials]: with the two envelopes as the values of
    [TOKEN_USERNAME] and [TOKEN_PASSWORD], it returns the user name and
    the password that were encrypted, for a user name and a password
    that are not empty, have no unpaired surrogate and do not begin
    with U+FEFF. *)
Theorem X16_token_credentials_round_trip (P : Platform) (env : ENV)
  (u p : jsstring) (eu ep : EncryptionParameters) (w : World) :
  aes_gcm_laws P ->
  encrypted_by P EnvironmentSecretKeyVariables.UAT u eu ->
  encrypted_by P EnvironmentSecretKeyVariables.UAT p ep ->
  TOKEN_USERNAME env = Some (envelope_json eu) ->
  TOKEN_PASSWORD env = Some (envelope_json ep) ->
  well_formed u = true -> startsWith u [BOM] = false -> u <> [] ->
  well_formed p = true -> startsWith p [BOM] = false -> p <> [] ->
  Fetch.getTokenCredentials P env w
  = (Fulfilled {| username := u; password := p |}, w).
Proof.
  intros Hlaws (wa & wb & Hu) (wc & wd & Hp) Eu Ep Wu Bu Nu Wp Bp Np'.
  rewrite getTokenCredentials_eq, Eu, Ep. cbn [text_of].
  rewrite (decrypt_encrypt P _ _ _ _ w _ Hlaws Hu),
    (decrypt_encrypt P _ _ _ _ w _ Hlaws Hp). cbn [fst].
  rewrite !decode_encode_no_mark by assumption.
  destruct u; [congruence|]. destruct p; [congruence|]. reflexivity.
Qed.

Lemma X16_witness :
  let w := Demo.world Demo.env_path [] in
  let eu := demo_envelope (lit "admin") EnvironmentSecretKeyVariables.UAT w in
  let ep := demo_envelope (lit "password123") EnvironmentSecretKeyVariables.UAT w in
  let env := {| APP_VERSION := None; TEST_PLATFORM := None; TEST_TYPE := None;
                API_BASE_URL := None;
                TOKEN_USERNAME := Some (envelope_json eu);
                TOKEN_PASSWORD := Some (envelope_json ep) |} in
  Fetch.getTokenCredentials Demo.platform env w
  = (Fulfilled {| username := lit "admin"; password := lit "password123" |}, w).
Proof.
  intros w eu ep env.
  apply (X16_token_credentials_round_trip Demo.platform env (lit "admin")
           (lit "password123") eu ep w demo_laws).
  - apply demo_envelope_encrypted. eexists. vm_compute. reflexivity.
  - apply demo_envelope_encrypted. eexists. vm_compute. reflexivity.
  - reflexivity.
  - reflexivity.
  - reflexivity.
  - reflexivity.
  - discriminate.
  - reflexivity.
  - reflexivity.
  - discriminate.
Defined.

(** X17. [getTokenCredentials] never returns credentials with an empty
    user name or password: what it returns are the decryptions of the
    two variables under the passphrase text [UAT_SECRET_KEY], both
    non-empty.  A variable that is not set, or is empty, makes it throw
    'Encrypted data is required.', the user name's failure first.  The
    call writes no file and draws no entropy. *)
Theorem X17_token_credentials_checked (P : Platform) (env : ENV) (w : World) :
  let out := Fetch.getTokenCredentials P env w in
  let decrypted (v : option jsstring) :=
    fst (EncryptionService.decrypt P (text_of v)
           EnvironmentSecretKeyVariables.UAT w) in
  snd out = w
  /\ match fst out with
     | Fulfilled c =>
         decrypted (TOKEN_USERNAME env) = Ok (username c)
         /\ decrypted (TOKEN_PASSWORD env) = Ok (password c)
         /\ username c <> [] /\ password c <> []
     | Rejected _ => True
     end
  /\ (text_of (TOKEN_USERNAME env) = [] ->
      fst out = Rejected (Raised EncryptedDataRequired))
  /\ (forall u, decrypted (TOKEN_USERNAME env) = Ok u ->
      text_of (TOKEN_PASSWORD env) = [] ->
      fst out = Rejected (Raised EncryptedDataRequired)).
Proof.
  intros out decrypted. unfold out. rewrite getTokenCredentials_eq. cbn [fst snd].
  fold (decrypted (TOKEN_USERNAME env)). fold (decrypted (TOKEN_PASSWORD env)).
  split; [reflexivity|]. split; [|split].
  - destruct (decrypted (TOKEN_USERNAME env)) as [u|e]; [|exact I].
    destruct (decrypted (TOKEN_PASSWORD env)) as [p|e]; [|exact I].
    destruct u; [exact I|]. destruct p; [exact I|]. cbn.
    repeat split; discriminate.
  - intros E. unfold decrypted. rewrite E. reflexivity.
  - intros u Hu E. rewrite Hu. unfold decrypted. rewrite E. reflexivity.
Qed.

(* ================================================================== *)
(** * Environment variables, validated and sanitized *)
(* ================================================================== *)

Lemma trimStart_nil (s : jsstring) :
  trimStart s = [] <-> forallb isWhiteSpace s = true.
Proof.
  induction s as [|c r IH]; cbn [trimStart forallb]; [tauto|].
  destruct (isWhiteSpace c); cbn [andb]; [exact IH|].
  split; discriminate.
Qed.

Lemma trim_nil (s : jsstring) : trim s = [] <-> forallb isWhiteSpace s = true.
Proof.
  rewrite <- trimStart_nil. unfold trim.
  destruct (trimStart s) as [|c r] eqn:E; [tauto|].
  destruct (trimEnd_head c r (trimStart_head _ _ _ E)) as [t ->].
  split; discriminate.
Qed.

Lemma validate_eq (value : option jsstring) :
  negb (str_truthy (text_of value)) || str_eqb (trim (text_of value)) []
  = forallb isWhiteSpace (text_of value).
Proof.
  destruct (text_of value) as [|c r] eqn:E; [reflexivity|]. cbn [str_truthy negb orb].
  destruct (forallb isWhiteSpace (c :: r)) eqn:F.
  - apply trim_nil in F. rewrite F. reflexivity.
  - apply str_eqb_neq. intros T. apply trim_nil in T. congruence.
Qed.




(** X18. The local getters ([getAppVersion], [getTestPlatform],
    [getTestType], [getApiBaseUrl]) call [getEnvironmentVariable] with
    [sanitize] false: a value that holds a character other than white
    space is returned as it is, not trimmed; a value that is unset,
    empty or all white space is rejected with an error that names the
    variable. *)
Theorem X18_local_variable_as_is (getValue : unit -> option jsstring)
  (variableName : jsstring) (w : World) :
  Fetch.getEnvironmentVariable getValue variableName false w
  = (if forallb isWhiteSpace (text_of (getValue tt))
     then Rejected (ErrorWith (lit "Environment variable " ++ variableName
                                 ++ lit " is not set or is empty"))
     else Fulfilled (text_of (getValue tt)), w).
Proof.
  unfold Fetch.getEnvironmentVariable, Fetch.validateEnvironmentVariable, andThen.
  rewrite validate_eq.
  destruct (forallb isWhiteSpace (text_of (getValue tt))); reflexivity.
Qed.

(** X19. [FetchCIEnvironmentVariables.getEnvironmentVariable] validates
    the value before it sanitizes it, so the check does not hold of
    what is returned: a value made of quotes, backslashes, angle
    brackets and white space, with at least one that is not white
    space, is accepted, and the empty text is returned for it. *)
Theorem X19_ci_variable_can_be_empty (v variableName : jsstring) (w : World) :
  forallb isWhiteSpace v = false ->
  forallb (fun c => isWhiteSpace c || SanitizationConfig.is_removed c) v = true ->
  FetchCI.getEnvironmentVariable (fun _ => Some v) variableName w
  = (Fulfilled [], w).
Proof.
  intros Hv Hall.
  unfold FetchCI.getEnvironmentVariable, FetchCI.validateEnvironmentVariable, andThen.
  rewrite validate_eq. cbn [text_of]. rewrite Hv. unfold done. do 2 f_equal.
  unfold SanitizationConfig.sanitizeString. cbn [text_of].
  destruct (negb (str_truthy v)); [reflexivity|].
  apply trim_nil. apply forallb_forall. intros c Hc.
  apply filter_In in Hc. destruct Hc as [Hc Hr].
  rewrite forallb_forall in Hall. specialize (Hall c Hc).
  apply negb_true_iff in Hr. rewrite Hr in Hall. now rewrite orb_false_r in Hall.
Qed.

Lemma X19_witness :
  FetchCI.getEnvironmentVariable (fun _ => Some (lit "'<>' "))
    (lit "CI_API_BASE_URL") (Demo.world Demo.env_path [])
  = (Fulfilled [], Demo.world Demo.env_path []).
Proof.
  apply (X19_ci_variable_can_be_empty (lit "'<>' ") (lit "CI_API_BASE_URL")
           (Demo.world Demo.env_path [])); reflexivity.
Defined.


(** X21. [FetchCIEnvironmentVariables.getTokenCredentials] sanitizes
    before it verifies: it returns the sanitized user name and password
    exactly when both are non-empty, and throws 'Invalid credentials:
    Missing username or password.' otherwise, so for a variable that is
    unset or holds only characters that sanitizing removes. *)
Theorem X21_ci_credentials_never_empty (ci : CIEnvironmentVariables) (w : World) :
  let u := SanitizationConfig.sanitizeString (tokenUsername ci) in
  let p := SanitizationConfig.sanitizeString (tokenPassword ci) in
  FetchCI.getTokenCredentials ci w
  = (match u, p with
     | _ :: _, _ :: _ => Fulfilled {| username := u; password := p |}
     | _, _ => Rejected (ErrorWith
                           (lit "Invalid credentials: Missing username or password."))
     end, w)
  /\ (forallb (fun c => isWhiteSpace c || SanitizationConfig.is_removed c)
        (text_of (tokenUsername ci)) = true -> u = [])
  /\ (forallb (fun c => isWhiteSpace c || SanitizationConfig.is_removed c)
        (text_of (tokenPassword ci)) = true -> p = []).
Proof.
  intros u p.
  assert (Hempty : forall v,
    forallb (fun c => isWhiteSpace c || SanitizationConfig.is_removed c)
      (text_of v) = true -> SanitizationConfig.sanitizeString v = []).
  { intros v Hall. unfold SanitizationConfig.sanitizeString.
    destruct (negb (str_truthy (text_of v))); [reflexivity|].
    apply trim_nil. apply forallb_forall. intros c Hc.
    apply filter_In in Hc. destruct Hc as [Hc Hr].
    rewrite forallb_forall in Hall. specialize (Hall c Hc).
    apply negb_true_iff in Hr. rewrite Hr in Hall. now rewrite orb_false_r in Hall. }
  split; [|split; apply Hempty].
  unfold FetchCI.getTokenCredentials, FetchCI.verifyCredentials, andThen, logAndThrow.
  cbn [username password]. fold u. fold p.
  destruct u; [reflexivity|]. destruct p; reflexivity.
Qed.

(* ================================================================== *)
(** * The map of a JavaScript [Map] *)
(* ================================================================== *)

Section MapLemmas.
Context {V : Type}.
Implicit Types (m : JsMap V) (k : jsstring) (v : V).

Lemma map_get_none m k : map_get m k = None <-> ~ In k (map fst m).
Proof.
  induction m as [|[k' v'] r IH]; cbn [map_get map fst In]; [tauto|].
  destruct (str_eqb k' k) eqn:E.
  - apply str_eqb_eq in E. split; [discriminate | intros H; exfalso; apply H; now left].
  - apply str_eqb_neq in E. rewrite IH. tauto.
Qed.

Lemma map_get_in m k v : map_get m k = Some v -> In (k, v) m.
Proof.
  induction m as [|[k' v'] r IH]; cbn [map_get]; [discriminate|].
  destruct (str_eqb k' k) eqn:E.
  - apply str_eqb_eq in E. intros H. injection H as ->. subst. now left.
  - intros H. right. now apply IH.
Qed.

Lemma in_map_get m k v : distinct_keys m -> In (k, v) m -> map_get m k = Some v.
Proof.
  unfold distinct_keys.
  induction m as [|[k' v'] r IH]; cbn [map_get map fst]; intros Hd Hin; [destruct Hin|].
  inversion Hd as [|? ? Hn Hd']; subst.
  destruct Hin as [Hin|Hin].
  - injection Hin as -> ->. now rewrite str_eqb_refl.
  - destruct (str_eqb k' k) eqn:E; [|now apply IH].
    apply str_eqb_eq in E. subst. exfalso. apply Hn.
    apply (in_map fst) in Hin. exact Hin.
Qed.

Lemma map_set_new m k v : ~ In k (map fst m) -> map_set m k v = m ++ [(k, v)].
Proof.
  induction m as [|[k' v'] r IH]; cbn [map_set map fst In app]; intros H; [reflexivity|].
  destruct (str_eqb k' k) eqn:E.
  - apply str_eqb_eq in E. exfalso. apply H. now left.
  - f_equal. apply IH. tauto.
Qed.

Lemma map_set_keys_old m k v :
  In k (map fst m) -> map fst (map_set m k v) = map fst m.
Proof.
  induction m as [|[k' v'] r IH]; cbn [map_set map fst In]; intros H; [destruct H|].
  destruct (str_eqb k' k) eqn:E; cbn [map fst]; [reflexivity|].
  f_equal. apply IH. apply str_eqb_neq in E. destruct H; [contradiction | assumption].
Qed.

Lemma map_set_length_le m k v : (length (map_set m k v) <= S (length m))%nat.
Proof.
  induction m as [|[k' v'] r IH]; cbn [map_set length]; [lia|].
  destruct (str_eqb k' k); cbn [length]; lia.
Qed.


Lemma keys_dec m k : In k (map fst m) \/ ~ In k (map fst m).
Proof.
  destruct (in_dec (list_eq_dec N.eq_dec) k (map fst m)); [now left | now right].
Qed.

Lemma map_set_distinct m k v : distinct_keys m -> distinct_keys (map_set m k v).
Proof.
  unfold distinct_keys. intros Hd.
  destruct (keys_dec m k) as [H|H].
  - now rewrite (map_set_keys_old m k v H).
  - rewrite (map_set_new m k v H), map_app. cbn [map fst].
    apply NoDup_app; [assumption | repeat constructor; intros [] | ].
    intros x Hx [Hx'|[]]. subst. contradiction.
Qed.

Lemma map_get_set_same m k v : map_get (map_set m k v) k = Some v.
Proof.
  induction m as [|[k' v'] r IH]; cbn [map_set map_get].
  - now rewrite str_eqb_refl.
  - destruct (str_eqb k' k) eqn:E; cbn [map_get]; rewrite E; [reflexivity | exact IH].
Qed.

Lemma map_get_set_other m k k0 v :
  k0 <> k -> map_get (map_set m k v) k0 = map_get m k0.
Proof.
  intros Hne. induction m as [|[k' v'] r IH]; cbn [map_set map_get].
  - destruct (str_eqb k k0) eqn:E; [|reflexivity].
    apply str_eqb_eq in E. congruence.
  - destruct (str_eqb k' k) eqn:E; cbn [map_get]; [|now rewrite IH].
    apply str_eqb_eq in E. subst k'.
    destruct (str_eqb k k0) eqn:E'; [|reflexivity].
    apply str_eqb_eq in E'. congruence.
Qed.

Lemma map_delete_keys m k x : In x (map fst (map_delete m k)) -> In x (map fst m).
Proof.
  induction m as [|[k' v'] r IH]; cbn [map_delete map fst In]; [tauto|].
  destruct (str_eqb k' k); cbn [map fst In]; tauto.
Qed.

Lemma map_delete_distinct m k : distinct_keys m -> distinct_keys (map_delete m k).
Proof.
  unfold distinct_keys.
  induction m as [|[k' v'] r IH]; cbn [map_delete map fst]; intros Hd; [constructor|].
  inversion Hd as [|? ? Hn Hd']; subst.
  destruct (str_eqb k' k); cbn [map fst]; [assumption|].
  constructor; [|now apply IH]. intros H. apply Hn. eapply map_delete_keys; eauto.
Qed.

Lemma map_delete_length m k :
  In k (map fst m) -> S (length (map_delete m k)) = length m.
Proof.
  induction m as [|[k' v'] r IH]; cbn [map_delete map fst length In]; [tauto|].
  destruct (str_eqb k' k) eqn:E; [reflexivity|].
  apply str_eqb_neq in E. intros [H|H]; [contradiction|].
  cbn [length]. now rewrite IH.
Qed.

Lemma map_delete_length_le m k : (length (map_delete m k) <= length m)%nat.
Proof.
  induction m as [|[k' v'] r IH]; cbn [map_delete length]; [lia|].
  destruct (str_eqb k' k); cbn [length]; lia.
Qed.

Lemma map_get_delete_other m k k0 :
  k0 <> k -> map_get (map_delete m k) k0 = map_get m k0.
Proof.
  intros Hne. induction m as [|[k' v'] r IH]; cbn [map_delete map_get]; [reflexivity|].
  destruct (str_eqb k' k) eqn:E; cbn [map_get].
  - apply str_eqb_eq in E. subst.
    destruct (str_eqb k k0) eqn:E'; [|reflexivity].
    apply str_eqb_eq in E'. congruence.
  - now rewrite IH.
Qed.

Lemma map_get_delete_same m k :
  distinct_keys m -> map_get (map_delete m k) k = None.
Proof.
  unfold distinct_keys.
  induction m as [|[k' v'] r IH]; cbn [map_delete map_get map fst]; intros Hd;
    [reflexivity|].
  inversion Hd as [|? ? Hn Hd']; subst.
  destruct (str_eqb k' k) eqn:E; cbn [map_get].
  - apply str_eqb_eq in E. subst. now apply map_get_none.
  - rewrite E. now apply IH.
Qed.

Lemma map_delete_absent m k : ~ In k (map fst m) -> map_delete m k = m.
Proof.
  induction m as [|[k' v'] r IH]; cbn [map_delete map fst In]; intros H; [reflexivity|].
  destruct (str_eqb k' k) eqn:E.
  - apply str_eqb_eq in E. exfalso. apply H. now left.
  - f_equal. apply IH. tauto.
Qed.

End MapLemmas.

(* ================================================================== *)
(** * The cache of reported errors *)
(* ================================================================== *)

Section MapDeletes.
Context {V : Type}.
Implicit Types (m : JsMap V) (k : jsstring).

Lemma map_delete_in m k (x : jsstring * V) : In x (map_delete m k) -> In x m.
Proof.
  induction m as [|[k' v'] r IH]; cbn [map_delete In]; [tauto|].
  destruct (str_eqb k' k); cbn [In]; tauto.
Qed.

Lemma map_delete_keys_other m k x :
  x <> k -> In x (map fst m) -> In x (map fst (map_delete m k)).
Proof.
  intros Hne. induction m as [|[k' v'] r IH]; cbn [map_delete map fst In]; [tauto|].
  destruct (str_eqb k' k) eqn:E; cbn [map fst In].
  - apply str_eqb_eq in E. subst. intros [H|H]; [congruence | exact H].
  - tauto.
Qed.

Lemma delete_where_cons (cond : jsstring * V -> bool) e es m :
  delete_where cond (e :: es) m
  = delete_where cond es (if cond e then map_delete m (fst e) else m).
Proof. reflexivity. Qed.

Lemma delete_where_distinct cond es m :
  distinct_keys m -> distinct_keys (delete_where cond es m).
Proof.
  revert m. induction es as [|e es IH]; intros m Hd; [exact Hd|].
  rewrite delete_where_cons. apply IH. destruct (cond e); [|exact Hd].
  now apply map_delete_distinct.
Qed.

Lemma delete_where_length cond es m :
  (length (delete_where cond es m) <= length m)%nat.
Proof.
  revert m. induction es as [|e es IH]; intros m; [cbn; lia|].
  rewrite delete_where_cons. etransitivity; [apply IH|].
  destruct (cond e); [apply map_delete_length_le | lia].
Qed.

Lemma delete_where_in cond es m x : In x (delete_where cond es m) -> In x m.
Proof.
  revert m. induction es as [|e es IH]; intros m; [exact (fun H => H)|].
  rewrite delete_where_cons. intros H. apply IH in H.
  destruct (cond e); [now apply map_delete_in in H | exact H].
Qed.

Lemma delete_where_kept cond es m k :
  (forall e, In e es -> fst e = k -> cond e = false) ->
  map_get (delete_where cond es m) k = map_get m k.
Proof.
  revert m. induction es as [|e es IH]; intros m H; [reflexivity|].
  rewrite delete_where_cons. rewrite IH by (intros e' He'; apply H; now right).
  destruct (cond e) eqn:C; [|reflexivity].
  apply map_get_delete_other. intros ->.
  rewrite (H e (or_introl eq_refl) eq_refl) in C. discriminate.
Qed.

Lemma delete_where_absent cond es m k :
  map_get m k = None -> map_get (delete_where cond es m) k = None.
Proof.
  intros H. destruct (map_get (delete_where cond es m) k) as [v|] eqn:E; [|reflexivity].
  apply map_get_in, delete_where_in in E.
  apply map_get_none in H. exfalso. apply H.
  apply (in_map fst) in E. exact E.
Qed.

Lemma delete_where_dropped cond es m k :
  distinct_keys m ->
  (exists e, In e es /\ fst e = k /\ cond e = true) ->
  map_get (delete_where cond es m) k = None.
Proof.
  revert m. induction es as [|e es IH]; intros m Hd (e0 & Hin & Hk & Hc);
    [destruct Hin|].
  rewrite delete_where_cons. destruct Hin as [->|Hin].
  - rewrite Hc, Hk. apply delete_where_absent. now apply map_get_delete_same.
  - apply IH; [|now exists e0].
    destruct (cond e); [now apply map_delete_distinct | exact Hd].
Qed.

Lemma delete_where_count es m :
  NoDup (map fst es) -> incl (map fst es) (map fst m) -> distinct_keys m ->
  (length (delete_where (fun _ => true) es m) + length es = length m)%nat.
Proof.
  revert m. induction es as [|e es IH]; intros m Hn Hi Hd; [cbn; lia|].
  rewrite delete_where_cons. cbn [length]. cbn [map] in Hn, Hi.
  inversion Hn as [|? ? Hx Hn']; subst.
  rewrite <- (map_delete_length m (fst e)) by (apply Hi; now left).
  rewrite <- (IH (map_delete m (fst e))); [lia | exact Hn' | | now apply map_delete_distinct].
  intros x Hx'. apply map_delete_keys_other; [congruence | apply Hi; now right].
Qed.

End MapDeletes.

Lemma insert_by_timestamp_perm (e : jsstring * Z) (l : list (jsstring * Z)) :
  Permutation (ErrorHandler.insert_by_timestamp e l) (e :: l).
Proof.
  induction l as [|x r IH]; cbn [ErrorHandler.insert_by_timestamp]; [reflexivity|].
  destruct (snd e <=? snd x)%Z; [reflexivity|].
  rewrite IH. apply perm_swap.
Qed.

Lemma sort_by_timestamp_perm (l : list (jsstring * Z)) :
  Permutation (ErrorHandler.sort_by_timestamp l) l.
Proof.
  induction l as [|x r IH]; cbn; [reflexivity|].
  fold (ErrorHandler.sort_by_timestamp r).
  rewrite insert_by_timestamp_perm. now constructor.
Qed.


Section CacheLemmas.

Lemma cleanExpiredEntries_eq (now : Z) (m : ErrorHandler.Cache) :
  ErrorHandler.cleanExpiredEntries now m
  = delete_where (fun e => (now - snd e >? ErrorHandler.CACHE_TTL)%Z) m m.
Proof. reflexivity. Qed.

Lemma removeOldestEntries_eq (m : ErrorHandler.Cache) :
  ErrorHandler.removeOldestEntries m
  = delete_where (fun _ => true)
      (firstn (N.to_nat (map_size m - ErrorHandler.MAX_CACHE_SIZE))
         (ErrorHandler.sort_by_timestamp m)) m.
Proof. reflexivity. Qed.

Lemma removeOldestEntries_length (m : ErrorHandler.Cache) :
  distinct_keys m ->
  (length (ErrorHandler.removeOldestEntries m)
   + N.to_nat (map_size m - ErrorHandler.MAX_CACHE_SIZE) = length m)%nat.
Proof.
  intros Hd. rewrite removeOldestEntries_eq.
  set (n := N.to_nat (map_size m - ErrorHandler.MAX_CACHE_SIZE)).
  set (s := ErrorHandler.sort_by_timestamp m).
  assert (Hp : Permutation s m) by apply sort_by_timestamp_perm.
  assert (Hn : (n <= length s)%nat).
  { rewrite (Permutation_length Hp). unfold n, map_size. lia. }
  assert (Hs : NoDup (map fst s)).
  { apply (Permutation_NoDup (l := map fst m)); [|exact Hd].
    apply Permutation_map. now symmetry. }
  rewrite <- (firstn_skipn n s) in Hs, Hp.
  rewrite map_app in Hs.
  rewrite <- (delete_where_count (firstn n s) m).
  - rewrite length_firstn. lia.
  - eapply NoDup_app_remove_r. exact Hs.
  - intros x Hx. apply (Permutation_in (l := map fst (firstn n s ++ skipn n s))).
    + now apply Permutation_map.
    + rewrite map_app. apply in_or_app. now left.
  - exact Hd.
Qed.

Lemma manageCacheSize_bounded (now : Z) (k : jsstring) (m : ErrorHandler.Cache) :
  distinct_keys m ->
  distinct_keys (ErrorHandler.manageCacheSize now k m)
  /\ map_size (ErrorHandler.manageCacheSize now k m) <= ErrorHandler.MAX_CACHE_SIZE.
Proof.
  intros Hd. unfold ErrorHandler.manageCacheSize.
  set (added := map_set (ErrorHandler.cleanExpiredEntries now m) k now).
  assert (Ha : distinct_keys added).
  { apply map_set_distinct. rewrite cleanExpiredEntries_eq.
    now apply delete_where_distinct. }
  destruct (ErrorHandler.MAX_CACHE_SIZE <? map_size added) eqn:E.
  - split.
    + rewrite removeOldestEntries_eq. now apply delete_where_distinct.
    + pose proof (removeOldestEntries_length added Ha) as H.
      apply N.ltb_lt in E. unfold map_size in *. lia.
  - split; [exact Ha|]. apply N.ltb_ge in E. exact E.
Qed.

Lemma isRecentlyLogged_bounded (now : Z) (k : jsstring) (m : ErrorHandler.Cache) :
  distinct_keys m ->
  distinct_keys (snd (ErrorHandler.isRecentlyLogged now k m))
  /\ map_size (snd (ErrorHandler.isRecentlyLogged now k m)) <= map_size m.
Proof.
  intros Hd. unfold ErrorHandler.isRecentlyLogged.
  destruct (map_get m k) as [t|]; cbn [snd]; [|split; [exact Hd | lia]].
  destruct (t =? 0)%Z; cbn [snd]; [split; [exact Hd | lia]|].
  destruct (now - t >? ErrorHandler.CACHE_TTL)%Z; cbn [snd]; [|split; [exact Hd | lia]].
  split; [now apply map_delete_distinct|].
  pose proof (map_delete_length_le m k). unfold map_size. lia.
Qed.

Context {Error : Type}.
Context (axios_status : Error -> option N).
Context (createErrorDetails : Error -> jsstring -> option jsstring -> ErrorDetails).

Lemma captureError_bounded (expectations : RequestContext.Expectations)
  (now1 now2 : Z) (e : Error) (s : jsstring) (c : option jsstring)
  (m : ErrorHandler.Cache) :
  distinct_keys m /\ map_size m <= ErrorHandler.MAX_CACHE_SIZE ->
  let m' := snd (ErrorHandler.captureError axios_status createErrorDetails
                   expectations now1 now2 e s c m) in
  distinct_keys m' /\ map_size m' <= ErrorHandler.MAX_CACHE_SIZE.
Proof.
  intros [Hd Hs]. unfold ErrorHandler.captureError.
  destruct (ErrorHandler.shouldSkipErrorLogging _ _ _ _); cbn [snd]; [now split|].
  set (k := ErrorProcessor.createCacheKey _).
  pose proof (isRecentlyLogged_bounded now1 k m Hd) as [Hd' Hs'].
  destruct (ErrorHandler.isRecentlyLogged now1 k m) as [recent checked].
  cbn [snd] in *. destruct recent; cbn [snd].
  - split; [exact Hd' | lia].
  - now apply manageCacheSize_bounded.
Qed.

Lemma after_calls_bounded (expectations : RequestContext.Expectations)
  (calls : list (Call Error)) (m : ErrorHandler.Cache) :
  distinct_keys m /\ map_size m <= ErrorHandler.MAX_CACHE_SIZE ->
  distinct_keys (after_calls axios_status createErrorDetails expectations calls m)
  /\ map_size (after_calls axios_status createErrorDetails expectations calls m)
     <= ErrorHandler.MAX_CACHE_SIZE.
Proof.
  revert m. induction calls as [|c calls IH]; intros m H; [exact H|].
  cbn [after_calls fold_left]. apply IH. now apply captureError_bounded.
Qed.

End CacheLemmas.

(** X22. The cache of reported errors never holds more than 1000
    entries: whatever errors [captureError] is given, at whatever clock
    readings and under whatever registered expectations, starting from
    the empty cache (a new [Map], or the cache after [resetCache]) the
    cache has at most [MAX_CACHE_SIZE] entries after every call, with
    distinct keys. *)
Theorem X22_cache_never_exceeds_limit {Error : Type}
  (axios_status : Error -> option N)
  (createErrorDetails : Error -> jsstring -> option jsstring -> ErrorDetails)
  (expectations : RequestContext.Expectations) (calls : list (Call Error))
  (stale : ErrorHandler.Cache) :
  let loggedErrors :=
    after_calls axios_status createErrorDetails expectations calls
      (ErrorHandler.resetCache stale) in
  map_size loggedErrors <= ErrorHandler.MAX_CACHE_SIZE
  /\ distinct_keys loggedErrors.
Proof.
  intros loggedErrors.
  destruct (after_calls_bounded axios_status createErrorDetails expectations calls
              (ErrorHandler.resetCache stale)) as [Hd Hs].
  - split; [constructor | cbn; unfold ErrorHandler.MAX_CACHE_SIZE; lia].
  - now split.
Qed.


Lemma manageCacheSize_below_limit (now : Z) (cacheKey k : jsstring)
  (loggedErrors : ErrorHandler.Cache) :
  distinct_keys loggedErrors ->
  map_size loggedErrors < ErrorHandler.MAX_CACHE_SIZE ->
  map_get (ErrorHandler.manageCacheSize now cacheKey loggedErrors) k
  = if str_eqb k cacheKey then Some now
    else match map_get loggedErrors k with
         | Some timestamp =>
             if (now - timestamp >? ErrorHandler.CACHE_TTL)%Z then None
             else Some timestamp
         | None => None
         end.
Proof.
  intros Hd Hs. unfold ErrorHandler.manageCacheSize.
  set (cleaned := ErrorHandler.cleanExpiredEntries now loggedErrors).
  assert (Hcl : (length cleaned <= length loggedErrors)%nat)
    by (unfold cleaned; rewrite cleanExpiredEntries_eq; apply delete_where_length).
  pose proof (map_set_length_le cleaned cacheKey now) as Hle.
  destruct (ErrorHandler.MAX_CACHE_SIZE <? map_size (map_set cleaned cacheKey now)) eqn:E.
  { apply N.ltb_lt in E. unfold map_size, ErrorHandler.MAX_CACHE_SIZE in *. lia. }
  destruct (str_eqb k cacheKey) eqn:Ek.
  - apply str_eqb_eq in Ek. subst. apply map_get_set_same.
  - apply str_eqb_neq in Ek. rewrite map_get_set_other by exact Ek.
    unfold cleaned. rewrite cleanExpiredEntries_eq.
    destruct (map_get loggedErrors k) as [t|] eqn:G.
    + destruct (now - t >? ErrorHandler.CACHE_TTL)%Z eqn:X.
      * apply delete_where_dropped; [exact Hd|].
        exists (k, t). split; [now apply map_get_in | now split].
      * rewrite delete_where_kept; [exact G|].
        intros [k0 t0] Hin Hk. cbn [fst snd] in *. subst k0.
        apply (in_map_get _ _ _ Hd) in Hin. congruence.
    + now apply delete_where_absent.
Qed.


Section KeptEntry.
Context {Error : Type}.
Context (axios_status : Error -> option N).
Context (createErrorDetails : Error -> jsstring -> option jsstring -> ErrorDetails).



End KeptEntry.



(** X24. Below its limit the cache loses nothing but what has expired:
    when it holds fewer than 1000 entries, [manageCacheSize] stamps the
    key with the clock reading, drops the entries older than
    [CACHE_TTL] and keeps every other entry with its time stamp. *)
Theorem X24_below_limit_only_expired_dropped (now : Z) (cacheKey k : jsstring)
  (loggedErrors : ErrorHandler.Cache) :
  distinct_keys loggedErrors ->
  map_size loggedErrors < ErrorHandler.MAX_CACHE_SIZE ->
  map_get (ErrorHandler.manageCacheSize now cacheKey loggedErrors) k
  = if str_eqb k cacheKey then Some now
    else match map_get loggedErrors k with
         | Some timestamp =>
             if (now - timestamp >? ErrorHandler.CACHE_TTL)%Z then None
             else Some timestamp
         | None => None
         end.
Proof. exact (manageCacheSize_below_limit now cacheKey k loggedErrors). Qed.

Lemma X24_witness :
  let loggedErrors :=
    [(lit "old", 1700000000000%Z); (lit "fresh", 1700003000000%Z)] in
  map_get (ErrorHandler.manageCacheSize 1700003600000%Z (lit "new") loggedErrors)
    (lit "old")
  = if str_eqb (lit "old") (lit "new") then Some 1700003600000%Z
    else match map_get loggedErrors (lit "old") with
         | Some timestamp =>
             if (1700003600000 - timestamp >? ErrorHandler.CACHE_TTL)%Z then None
             else Some timestamp
         | None => None
         end.
Proof.
  intros loggedErrors.
  apply (X24_below_limit_only_expired_dropped 1700003600000%Z (lit "new") (lit "old")
           loggedErrors).
  - repeat constructor; cbn; intuition discriminate.
  - reflexivity.
Defined.

(** X25. [captureError] leaves an error out as expected only for an
    axios error of a context registered as a negative test, with a
    response status among the expected ones: after
    [registerExpectation(contextKey, codes, isNegativeTest)] an error
    captured with that context is skipped exactly when the context is
    not the empty text, [isNegativeTest] was given as true and the
    status of the error's response is a non-zero member of [codes].  A
    skipped error does not enter the cache. *)
Theorem X25_expected_errors_of_negative_tests {Error : Type}
  (axios_status : Error -> option N)
  (createErrorDetails : Error -> jsstring -> option jsstring -> ErrorDetails)
  (expectations : RequestContext.Expectations)
  (contextKey : jsstring) (codes : list N) (isNegative : option bool)
  (now1 now2 : Z) (e : Error) (s : jsstring) (m : ErrorHandler.Cache) :
  let out :=
    ErrorHandler.captureError axios_status createErrorDetails
      (RequestContext.registerExpectation contextKey codes isNegative expectations)
      now1 now2 e s (Some contextKey) m in
  (fst out = Skipped <->
     contextKey <> [] /\ isNegative = Some true
     /\ exists status, axios_status e = Some status /\ status <> 0 /\ In status codes)
  /\ (fst out = Skipped -> snd out = m).
Proof.
  intros out. unfold out, ErrorHandler.captureError, ErrorHandler.shouldSkipErrorLogging,
    RequestContext.isExpectedStatus, RequestContext.isNegativeTest,
    RequestContext.registerExpectation.
  rewrite map_get_set_same. cbn [expectedStatusCodes isNegativeTest].
  assert (Hnot : forall k,
    fst (let (recent, checked) := ErrorHandler.isRecentlyLogged now1 k m in
         if recent then (Suppressed, checked)
         else (Reported, ErrorHandler.manageCacheSize now2 k checked)) <> Skipped).
  { intros k. destruct (ErrorHandler.isRecentlyLogged now1 k m) as [[|] c];
      discriminate. }
  destruct contextKey as [|c0 ctx]; cbn [str_truthy negb].
  { split; [|intros H; now apply Hnot in H].
    split; [intros H; now apply Hnot in H | intros [H _]; congruence]. }
  destruct (axios_status e) as [status|].
  2:{ split; [|intros H; now apply Hnot in H].
      split; [intros H; now apply Hnot in H|].
      intros (_ & _ & st & Hst & _). discriminate. }
  destruct (status =? 0) eqn:Ez.
  { apply N.eqb_eq in Ez. split; [|intros H; now apply Hnot in H].
    split; [intros H; now apply Hnot in H|].
    intros (_ & _ & st & Hst & Hnz & _). congruence. }
  apply N.eqb_neq in Ez.
  destruct (existsb (N.eqb status) codes) eqn:Ex; cbn [andb].
  2:{ split; [|intros H; now apply Hnot in H].
      split; [intros H; now apply Hnot in H|].
      intros (_ & _ & st & Hst & _ & Hin). injection Hst as <-.
      assert (existsb (N.eqb status) codes = true)
        by (apply existsb_exists; exists status; split; [exact Hin | apply N.eqb_refl]).
      congruence. }
  apply existsb_exists in Ex. destruct Ex as (st & Hin & Heq).
  apply N.eqb_eq in Heq. subst st.
  destruct isNegative as [[|]|]; cbn [fst snd].
  - split; [|reflexivity]. split; [|reflexivity].
    intros _. split; [discriminate|]. split; [reflexivity|]. now exists status.
  - split; [|intros H; now apply Hnot in H].
    split; [intros H; now apply Hnot in H | intros (_ & H & _); discriminate].
  - split; [|intros H; now apply Hnot in H].
    split; [intros H; now apply Hnot in H | intros (_ & H & _); discriminate].
Qed.
